(** * CattoPic worker: compression, metadata store, URL resolution, handlers

    A shallow embedding of the worker's TypeScript services
    ([services/compression.ts], [services/metadata.ts],
    [utils/imageTransform.ts]) and of the three request handlers
    ([handlers/upload.ts], [handlers/random.ts], [handlers/tags.ts]),
    followed by the properties of that code.

    Part I holds the model, one module per source file.  Part II holds
    the statements, one module per component. *)

From Stdlib Require Import ZArith QArith Qround Qabs Qpower Lia Lra Psatz.
From Stdlib Require Import String Ascii.
From Stdlib.Strings Require Import Byte.
From stdpp Require Import base option list strings gmap.

Local Open Scope string_scope.
Local Open Scope Z_scope.
Local Open Scope list_scope.

(* ===================================================================== *)
(** * Part I: the model                                                  *)
(* ===================================================================== *)

(** ** Numbers

    The worker's numeric values are ECMAScript numbers (IEEE 754
    binary64).  Pixel dimensions, the [parseInt] results and the defaults
    are integers and are kept in [Z].  The non-integer values are the
    scale quotients of [calculateDimensions]; a finite one is kept as a
    rational, and every [/] and [*] on finite operands is followed by
    [fl], the round-to-nearest-even projection onto 53-bit significands.
    A quotient by zero is an infinity or NaN, as in ECMAScript, and so
    are the products and roundings of these.  Overflow of a finite
    operation to an infinity, subnormals and the sign of zero are outside
    the model. *)

Module Number.

Local Open Scope Q_scope.

(** Nearest integer, ties to even. *)
Definition round_half_even (x : Q) : Z :=
  let f := Qfloor x in
  match Qcompare (x - inject_Z f) (1 # 2) with
  | Lt => f
  | Gt => (f + 1)%Z
  | Eq => if Z.even f then f else (f + 1)%Z
  end.

(** [floor (log2 |x|)] for [x <> 0]. *)
Definition ilog2 (x : Q) : Z :=
  let k := (Z.log2 (Z.abs (Qnum x)) - Z.log2 (Zpos (Qden x)))%Z in
  if Qle_bool (2 ^ k) (Qabs x) then k else (k - 1)%Z.

(** Rounding of a real result to binary64. *)
Definition fl (x : Q) : Q :=
  if Qeq_bool x 0 then 0
  else
    let e := (ilog2 x - 52)%Z in
    inject_Z (round_half_even (x / 2 ^ e)) * 2 ^ e.

(** The binary64 value of the integer [n]: the nearest integer with a
    53-bit significand, ties to even. *)
Definition of_integer (n : Z) : Z :=
  let a := Z.abs n in
  let e := Z.max 0 (Z.log2 a - 52) in
  let q := (a / 2 ^ e)%Z in
  let r := (a mod 2 ^ e)%Z in
  let q' :=
    if (2 * r <? 2 ^ e)%Z then q
    else if (2 ^ e <? 2 * r)%Z then (q + 1)%Z
    else if Z.even q then q else (q + 1)%Z in
  (Z.sgn n * (q' * 2 ^ e))%Z.

(** [/], [*], [Math.min] and [Math.round] on finite operands, the
    divisor not zero. *)
Definition fdiv (a b : Q) : Q := fl (a / b).
Definition fmul (a b : Q) : Q := fl (a * b).
Definition fmin (a b : Q) : Q := if Qle_bool a b then a else b.

(** Nearest integer, ties towards +infinity. *)
Definition fround (x : Q) : Z := Qfloor (x + (1 # 2)).

(** A binary64 value: a finite number, an infinity or NaN. *)
Inductive ext :=
| Finite (x : Q)
| PosInf
| NegInf
| NaN.

(** An integral binary64 value, an infinity or NaN: the result of
    [Math.round]. *)
Inductive integral :=
| Int (n : Z)
| IntPosInf
| IntNegInf
| IntNaN.

(** The sign rule of a product or quotient with an infinite result;
    [0 * Infinity] and [0 / 0] are NaN. *)
Definition signed (a : Q) (positive : bool) : ext :=
  match a ?= 0 with
  | Eq => NaN
  | Gt => if positive then PosInf else NegInf
  | Lt => if positive then NegInf else PosInf
  end.

(** The ECMAScript operator [/] on finite operands. *)
Definition div (a b : Q) : ext :=
  if Qeq_bool b 0 then signed a true else Finite (fdiv a b).

(** The ECMAScript operator [*], the left operand finite. *)
Definition mul (a : Q) (b : ext) : ext :=
  match b with
  | Finite y => Finite (fmul a y)
  | PosInf => signed a true
  | NegInf => signed a false
  | NaN => NaN
  end.

(** [Math.min] on two numbers. *)
Definition Math_min (a b : ext) : ext :=
  match a, b with
  | NaN, _ | _, NaN => NaN
  | NegInf, _ | _, NegInf => NegInf
  | PosInf, x | x, PosInf => x
  | Finite x, Finite y => Finite (fmin x y)
  end.

(** [Math.round]. *)
Definition Math_round (x : ext) : integral :=
  match x with
  | Finite y => Int (fround y)
  | PosInf => IntPosInf
  | NegInf => IntNegInf
  | NaN => IntNaN
  end.

(** Truthiness of a number: [0] and NaN are falsy. *)
Definition truthy (x : integral) : bool :=
  match x with
  | Int n => negb (n =? 0)%Z
  | IntNaN => false
  | _ => true
  end.

(** [Math.pow(2, n)] for a non-negative integer [n]. *)
Definition Math_pow2 (n : Z) : Z := 2 ^ n.

(** The unit roundoff of binary64, [2^-53]. *)
Definition u : Q := 1 # 9007199254740992.

End Number.

Coercion Number.Int : Z >-> Number.integral.

(** ** JavaScript values used by the worker *)

Module JS.

(** An [ArrayBuffer] viewed through [Uint8Array]. *)
Definition bytes := list byte.

#[global] Instance byte_eq_decision : EqDecision byte := Byte.byte_eq_dec.

(** Truthiness of a string: only the empty string is falsy. *)
Definition truthy (s : string) : bool :=
  match s with
  | EmptyString => false
  | String _ _ => true
  end.

(** [s || undefined], [s || null]: a falsy string becomes absent. *)
Definition or_absent (s : string) : option string :=
  if truthy s then Some s else None.

(** [o || ''] for a nullable string. *)
Definition or_empty (o : option string) : string :=
  match o with
  | Some s => if truthy s then s else ""
  | None => ""
  end.

(** Truthiness of a nullable string ([null], [undefined] and [''] are falsy). *)
Definition truthy_opt (o : option string) : bool :=
  match o with
  | Some s => truthy s
  | None => false
  end.

(** [String.prototype.toLowerCase] on the ASCII range. *)
Definition lower_ascii (c : ascii) : ascii :=
  let n := nat_of_ascii c in
  if ((65 <=? n) && (n <=? 90))%nat then ascii_of_nat (n + 32) else c.

Fixpoint toLowerCase (s : string) : string :=
  match s with
  | EmptyString => EmptyString
  | String c s' => String (lower_ascii c) (toLowerCase s')
  end.

(** [s.startsWith(p)]. *)
Definition startsWith (p s : string) : bool := String.prefix p s.

(** [s.endsWith(p)]. *)
Definition endsWith (p s : string) : bool :=
  let n := String.length s in
  let k := String.length p in
  (k <=? n)%nat && String.eqb (String.substring (n - k) k s) p.

(** [s.includes(p)]: [p] occurs in [s] at some position. *)
Fixpoint includes (p s : string) : bool :=
  String.prefix p s ||
  match s with
  | EmptyString => false
  | String _ s' => includes p s'
  end.

(** [xs.join(sep)]. *)
Definition join (sep : string) (xs : list string) : string :=
  String.concat sep xs.

(** [xs.slice(i, j)] for [0 <= i <= j]. *)
Definition slice {A} (i j : nat) (xs : list A) : list A :=
  take (j - i) (drop i xs).

(** Decimal rendering of an integer inside a template literal. *)
Fixpoint digits_of (fuel : nat) (n : Z) (acc : string) : string :=
  match fuel with
  | O => acc
  | S fuel' =>
      let d := ascii_of_nat (48 + Z.to_nat (n mod 10)) in
      if (n <? 10)%Z then String d acc else digits_of fuel' (n / 10) (String d acc)
  end.

(** [parseInt(s, 10)]: leading white space, an optional sign, then the
    longest run of decimal digits; [None] stands for [NaN].  The result
    is the binary64 value of the integer read ([Number.of_integer]): it
    is that integer up to [2^53] and the nearest representable one
    beyond.  A run of digits that overflows binary64 (from [2^1024] on),
    where [parseInt] returns [Infinity], is outside the model. *)
Definition is_space (c : ascii) : bool :=
  let n := nat_of_ascii c in
  ((n =? 32) || ((9 <=? n) && (n <=? 13)))%nat.

Definition digit_of (c : ascii) : option Z :=
  let n := nat_of_ascii c in
  if ((48 <=? n) && (n <=? 57))%nat then Some (Z.of_nat (n - 48)) else None.

Fixpoint skip_spaces (s : string) : string :=
  match s with
  | String c s' => if is_space c then skip_spaces s' else s
  | EmptyString => s
  end.

Fixpoint parse_digits (s : string) (acc : option Z) : option Z :=
  match s with
  | String c s' =>
      match digit_of c with
      | Some k => parse_digits s' (Some (10 * default 0 acc + k)%Z)
      | None => acc
      end
  | EmptyString => acc
  end.

(** The mathematical integer [parseInt] reads. *)
Definition read_integer (s : string) : option Z :=
  match skip_spaces s with
  | String "-"%char s' => Z.opp <$> parse_digits s' None
  | String "+"%char s' => parse_digits s' None
  | s' => parse_digits s' None
  end.

Definition parseInt (s : string) : option Z :=
  Number.of_integer <$> read_integer s.

Definition Z_to_string (n : Z) : string :=
  if (n <? 0)%Z then "-" +:+ digits_of (S (Z.to_nat (Z.log2 (- n)))) (- n) ""
  else digits_of (S (Z.to_nat (Z.log2 n))) n "".

(** [String(x)] for the result of [Math.round]. *)
Definition integral_to_string (x : Number.integral) : string :=
  match x with
  | Number.Int n => Z_to_string n
  | Number.IntPosInf => "Infinity"
  | Number.IntNegInf => "-Infinity"
  | Number.IntNaN => "NaN"
  end.

End JS.


(** ** Record shapes of [types.ts]

    [types.ts] is not among the sources; the shapes are read off the
    fields the services and handlers use. *)

Module Types.

Record CompressionOptions := {
  quality : option Z;
  maxWidth : option Z;
  maxHeight : option Z;
  preserveAnimation : option bool;
  generateWebp : option bool;
  generateAvif : option bool;
}.

(** [Required<CompressionOptions>]. *)
Record RequiredOptions := {
  r_quality : Z;
  r_maxWidth : Z;
  r_maxHeight : Z;
  r_preserveAnimation : bool;
  r_generateWebp : bool;
  r_generateAvif : bool;
}.

(** [{ ...defaults, ...options }]. *)
Definition spread (defaults : RequiredOptions) (options : CompressionOptions)
  : RequiredOptions :=
  {| r_quality := default (r_quality defaults) (quality options);
     r_maxWidth := default (r_maxWidth defaults) (maxWidth options);
     r_maxHeight := default (r_maxHeight defaults) (maxHeight options);
     r_preserveAnimation :=
       default (r_preserveAnimation defaults) (preserveAnimation options);
     r_generateWebp := default (r_generateWebp defaults) (generateWebp options);
     r_generateAvif := default (r_generateAvif defaults) (generateAvif options) |}.

Definition no_options : CompressionOptions :=
  {| quality := None; maxWidth := None; maxHeight := None;
     preserveAnimation := None; generateWebp := None; generateAvif := None |}.

Record CompressedImage := {
  data : JS.bytes;
  contentType : string;
  size : Z;
}.

Record CompressionResult := {
  original : JS.bytes;
  webp : option CompressedImage;
  avif : option CompressedImage;
  isAnimated : bool;
}.

Record Paths := {
  p_original : string;
  p_webp : string;
  p_avif : string;
}.

Record Sizes := {
  s_original : Z;
  s_webp : Z;
  s_avif : Z;
}.

Record ImageMetadata := {
  id : string;
  originalName : string;
  uploadTime : string;
  expiryTime : option string;
  orientation : string;
  tags : list string;
  format : string;
  width : Z;
  height : Z;
  paths : Paths;
  sizes : Sizes;
}.

(** A row of table [images]. *)
Record ImageRow := {
  row_id : string;
  original_name : string;
  upload_time : string;
  expiry_time : option string;
  row_orientation : string;
  row_format : string;
  row_width : Z;
  row_height : Z;
  path_original : string;
  path_webp : option string;
  path_avif : option string;
  size_original : Z;
  size_webp : Z;
  size_avif : Z;
}.

(** A row of table [tags] and a row of the join table [image_tags]. *)
Record TagRow := { tag_id : Z; tag_name : string }.
Record ImageTagRow := { it_image_id : string; it_tag_id : Z }.

(** [ImageProcessor.getImageInfo]'s result. *)
Record ImageInfo := {
  info_format : string;
  info_width : Z;
  info_height : Z;
  info_orientation : string;
}.

(** One entry of a deletion job and the job sent to [DELETE_QUEUE]. *)
Record JobPaths := {
  j_original : string;
  j_webp : option string;
  j_avif : option string;
}.

Record ImagePathEntry := { e_id : string; e_paths : JobPaths }.

Record DeleteJob := {
  job_type : string;
  tagName : string;
  imagePaths : list ImagePathEntry;
}.

End Types.

(** ** The worker's bindings and the effects of a request

    A handler talks to five bindings: the Images transform service, the
    image decoder, the R2 bucket, the D1 database, the KV cache and the
    deletion queue.  Every call is appended to a log; the environment
    decides, from the log so far, whether the call rejects.  A rejected
    call has no effect on the store it addressed. *)

Module Runtime.
Import Types.

(** Values bound to the [?] placeholders of a prepared statement. *)
Inductive sqlval :=
| VText (s : string)
| VInt (n : Z)
| VNull.

(** [db.prepare(sql).bind(...binds)]. *)
Record Statement := { sql : string; binds : list sqlval }.

(** The three tables of the D1 database. *)
Record DB := {
  t_images : list ImageRow;
  t_tags : list TagRow;
  t_image_tags : list ImageTagRow;
}.

Inductive event :=
| Transform (input : JS.bytes) (format : string) (quality : Z)
    (width height : Number.integral)
| Sleep (ms : Z)
| GetImageInfo (input : JS.bytes)
| GetImageDimensions (input : JS.bytes)
| Put (key : string) (body : JS.bytes) (contentType : string)
| D1 (stmts : list Statement)
| Invalidate (helper : string)
| Send (job : DeleteJob).

Record World := {
  log : list event;
  db : DB;
  bucket : gmap string (JS.bytes * string);
  queue : list DeleteJob;
}.

Definition with_log (l : list event) (w : World) : World :=
  {| log := l; db := db w; bucket := bucket w; queue := queue w |}.
Definition with_db (d : DB) (w : World) : World :=
  {| log := log w; db := d; bucket := bucket w; queue := queue w |}.
Definition with_bucket (b : gmap string (JS.bytes * string)) (w : World) : World :=
  {| log := log w; db := db w; bucket := b; queue := queue w |}.
Definition with_queue (q : list DeleteJob) (w : World) : World :=
  {| log := log w; db := db w; bucket := bucket w; queue := q |}.

(** What lies outside the worker: which calls reject (and with which
    message), what the transform service and the decoder answer, and the
    draw of SQLite's [RANDOM()]. *)
Record Bindings := {
  rejects : list event -> option string;
  images_output :
    JS.bytes -> string -> Z -> Number.integral -> Number.integral -> CompressedImage;
  decode : JS.bytes -> ImageInfo;
  random : list event -> nat;
}.

(** The outcome of an awaited promise. *)
Inductive result (A : Type) :=
| Ok (a : A)
| Throw (message : string).
Arguments Ok {A} a.
Arguments Throw {A} message.

Definition M (A : Type) : Type := World -> World * result A.

Definition ret {A} (a : A) : M A := fun w => (w, Ok a).

Definition throw {A} (message : string) : M A := fun w => (w, Throw message).

Definition bind {A B} (m : M A) (k : A -> M B) : M B :=
  fun w =>
    match m w with
    | (w', Ok a) => k a w'
    | (w', Throw e) => (w', Throw e)
    end.

(** [try { m } catch (err) { h err }]. *)
Definition catch {A} (m : M A) (h : string -> M A) : M A :=
  fun w =>
    match m w with
    | (w', Ok a) => (w', Ok a)
    | (w', Throw e) => h e w'
    end.

(** A call to a binding: logged, then rejected or carried out. *)
Definition call {A} (B : Bindings) (e : event) (effect : World -> World * A) : M A :=
  fun w =>
    let w1 := with_log (log w ++ [e]) w in
    match rejects B (log w1) with
    | Some message => (w1, Throw message)
    | None => let '(w2, a) := effect w1 in (w2, Ok a)
    end.

(** [ctx.waitUntil(p)]: [p] runs, its rejection is not observed. *)
Definition waitUntil {A} (m : M A) : M unit :=
  fun w => (fst (m w), Ok tt).

(** [for (let i = start; i < stop; i += step) { s = body(i, s) }], with
    [fuel] bounding the number of iterations. *)
Fixpoint for_loop {S} (fuel : nat) (i stop step : nat)
    (body : nat -> S -> M S) (s : S) : M S :=
  match fuel with
  | O => ret s
  | S fuel' =>
      if (i <? stop)%nat
      then bind (body i s) (for_loop fuel' (i + step) stop step body)
      else ret s
  end.

End Runtime.

Notation "x <- m ;; k" := (Runtime.bind m (fun x => k))
  (at level 100, m at next level, right associativity, only parsing).
Notation "m ;;; k" := (Runtime.bind m (fun _ => k))
  (at level 100, right associativity, only parsing).

(** ** [services/compression.ts] *)

Module Compression.
Import Types Runtime.

Section WithBindings.
Context (B : Bindings).

Definition DEFAULT_OPTIONS : RequiredOptions :=
  {| r_quality := 90; r_maxWidth := 3840; r_maxHeight := 3840;
     r_preserveAnimation := true; r_generateWebp := true;
     r_generateAvif := true |}.

(** [setTimeout] wrapped in a promise: it is logged and never rejects. *)
Definition sleep (ms : Z) : M unit :=
  fun w => (with_log (log w ++ [Sleep ms]) w, Ok tt).

(** [err] is the message of the thrown value. *)
Definition isRetryableTransformError (err : string) : bool :=
  let lower := JS.toLowerCase err in
  JS.includes "network connection lost" lower ||
  JS.includes "connection lost" lower ||
  JS.includes "fetch failed" lower ||
  JS.includes "timeout" lower ||
  JS.includes "timed out" lower ||
  JS.includes "econnreset" lower ||
  JS.includes "eai_again" lower ||
  JS.includes "temporar" lower.

(** The [for] loop of [withRetry] from iteration [attempt] on;
    [remaining] counts the iterations left, [attempts - attempt + 1].
    When none is left the loop is exited and [lastError] is thrown. *)
Fixpoint withRetry_loop {T} (remaining attempt attempts : nat) (baseDelayMs : Z)
    (lastError : option string) (fn : M T) : M T :=
  match remaining with
  | O => throw (default "undefined" lastError)
  | S remaining' =>
      catch fn (fun err =>
        if (attempts <=? attempt)%nat || negb (isRetryableTransformError err)
        then throw err
        else
          let delayMs := baseDelayMs * Number.Math_pow2 (Z.of_nat attempt - 1) in
          sleep delayMs ;;;
          withRetry_loop remaining' (S attempt) attempts baseDelayMs (Some err) fn)
  end.

Definition withRetry {T} (label : string) (fn : M T)
    (attempts : option nat) (baseDelayMs : option Z) : M T :=
  let attempts := default 3%nat attempts in
  let baseDelayMs := default 120 baseDelayMs in
  withRetry_loop attempts 1 attempts baseDelayMs None fn.

(** [this.images.input(data).transform({width, height, fit}).output({format,
    quality})] and the read of its response body. *)
Definition compressToFormat (input : JS.bytes) (format : string) (quality : Z)
    (dimensions : Number.integral * Number.integral) : M CompressedImage :=
  call B (Transform input format quality (fst dimensions) (snd dimensions))
    (fun w => (w, images_output B input format quality
                    (fst dimensions) (snd dimensions))).

Definition calculateDimensions (width height maxWidth maxHeight : Z)
  : Number.integral * Number.integral :=
  if (width <=? maxWidth) && (height <=? maxHeight)
  then (Number.Int width, Number.Int height)
  else
    let scale :=
      Number.Math_min (Number.div (inject_Z maxWidth) (inject_Z width))
                      (Number.div (inject_Z maxHeight) (inject_Z height)) in
    (Number.Math_round (Number.mul (inject_Z width) scale),
     Number.Math_round (Number.mul (inject_Z height) scale)).

(** The scan of [isAnimatedGif] from index [i] on, [n] iterations left
    ([bytes.length - 1 - i]). *)
Fixpoint isAnimatedGif_loop (bytes : JS.bytes) (n i frameCount : nat) : bool :=
  match n with
  | O => false
  | S n' =>
      let gce :=
        bool_decide (bytes !! i = Some x21) &&
        bool_decide (bytes !! (i + 1)%nat = Some xf9) in
      let frameCount1 := if gce then S frameCount else frameCount in
      if gce && (1 <? frameCount1)%nat then true
      else
        let descriptor := bool_decide (bytes !! i = Some x2c) in
        let frameCount2 := if descriptor then S frameCount1 else frameCount1 in
        if descriptor && (1 <? frameCount2)%nat then true
        else isAnimatedGif_loop bytes n' (S i) frameCount2
  end.

Definition isAnimatedGif (input : JS.bytes) : bool :=
  isAnimatedGif_loop input (length input - 1) 0 0.

(** [ImageProcessor.getImageDimensions]: the decoder's answer. *)
Definition getImageDimensions (input : JS.bytes) : M (Z * Z) :=
  call B (GetImageDimensions input)
    (fun w => (w, (info_width (decode B input), info_height (decode B input)))).

(** [withRetry(...).catch(() => null)]. *)
Definition or_null {T} (m : M T) : M (option T) :=
  catch (x <- m ;; ret (Some x)) (fun _ => ret None).

Definition compress (input : JS.bytes) (format : string)
    (options : CompressionOptions) : M CompressionResult :=
  let opts := spread DEFAULT_OPTIONS options in
  let isAnimated := String.eqb format "gif" && isAnimatedGif input in
  if isAnimated && r_preserveAnimation opts
  then ret {| original := input; webp := None; avif := None; isAnimated := true |}
  else
    dims <- getImageDimensions input ;;
    let targetDims :=
      calculateDimensions (fst dims) (snd dims) (r_maxWidth opts) (r_maxHeight opts) in
    let avifDims :=
      calculateDimensions (fst dims) (snd dims)
        (Z.min (r_maxWidth opts) 1600) (Z.min (r_maxHeight opts) 1600) in
    webpResult <-
      (if r_generateWebp opts
       then or_null (withRetry "WebP compression"
                       (compressToFormat input "image/webp" (r_quality opts) targetDims)
                       (Some 2%nat) None)
       else ret None) ;;
    avifResult <-
      (if r_generateAvif opts
       then or_null (withRetry "AVIF compression"
                       (compressToFormat input "image/avif" (r_quality opts) avifDims)
                       (Some 3%nat) None)
       else ret None) ;;
    ret {| original := input; webp := webpResult; avif := avifResult;
           isAnimated := false |}.

End WithBindings.

End Compression.

(** [parseCompressionOptions]: the fields of the multipart form, as text. *)
Module FormData.

Record File := { file_name : string; file_bytes : JS.bytes }.

Definition file_size (f : File) : Z := Z.of_nat (length (file_bytes f)).

Inductive entry :=
| Text (s : string)
| Blob (f : File).

Definition t := list (string * entry).

(** [formData.get(name)]. *)
Fixpoint get (name : string) (form : t) : option entry :=
  match form with
  | [] => None
  | (k, v) :: form' => if String.eqb k name then Some v else get name form'
  end.

(** The entry read [as string | null]: a [File] renders as [[object File]]. *)
Definition get_text (name : string) (form : t) : option string :=
  match get name form with
  | Some (Text s) => Some s
  | Some (Blob _) => Some "[object File]"
  | None => None
  end.

End FormData.

Module CompressionForm.
Import Types.

Definition parseNumber (value : option string) (defaultValue : Z) : Z :=
  match value with
  | None => defaultValue
  | Some s =>
      if JS.truthy s then default defaultValue (JS.parseInt s) else defaultValue
  end.

Definition differs_from_false (value : option string) : bool :=
  negb (bool_decide (value = Some "false")).

Definition parseCompressionOptions (formData : FormData.t) : CompressionOptions :=
  {| quality :=
       Some (parseNumber (FormData.get_text "quality" formData)
                         (r_quality Compression.DEFAULT_OPTIONS));
     maxWidth :=
       Some (parseNumber (FormData.get_text "maxWidth" formData)
                         (r_maxWidth Compression.DEFAULT_OPTIONS));
     maxHeight :=
       Some (parseNumber (FormData.get_text "maxHeight" formData)
                         (r_maxHeight Compression.DEFAULT_OPTIONS));
     preserveAnimation :=
       Some (differs_from_false (FormData.get_text "preserveAnimation" formData));
     generateWebp :=
       Some (match FormData.get "generateWebp" formData with
             | None => r_generateWebp Compression.DEFAULT_OPTIONS
             | Some _ => differs_from_false (FormData.get_text "generateWebp" formData)
             end);
     generateAvif :=
       Some (match FormData.get "generateAvif" formData with
             | None => r_generateAvif Compression.DEFAULT_OPTIONS
             | Some _ => differs_from_false (FormData.get_text "generateAvif" formData)
             end) |}.

End CompressionForm.

(** ** [services/metadata.ts]

    [schema.sql] is not among the sources.  The model takes [images.id]
    as the key of [images], [tags.name] as unique and [(image_id,
    tag_id)] as the key of [image_tags] (what the [INSERT OR IGNORE]
    statements rely on), and the two foreign keys of [image_tags] as
    [ON DELETE CASCADE] (what the comments of [deleteImage] and
    [deleteTagWithImages] rely on).  A join is evaluated as nested loops
    in [FROM] order.  SQL text is kept with its white space collapsed. *)

Module Metadata.
Import Types Runtime.

#[global] Instance sqlval_eq_dec : EqDecision sqlval.
Proof. solve_decision. Defined.

(** [xs.map(() => '?').join(',')]. *)
Definition placeholders {A} (xs : list A) : string :=
  JS.join "," (map (fun _ => "?") xs).

(** Number of [?] in a statement text. *)
Fixpoint count_placeholders (s : string) : nat :=
  match s with
  | EmptyString => O
  | String c s' =>
      (if Ascii.eqb c "?"%char then 1 else 0)%nat + count_placeholders s'
  end.

(** *** Relational operators on the three tables *)

(** [images i JOIN image_tags it ON i.id = it.image_id
              JOIN tags t ON it.tag_id = t.id]. *)
Definition images_join_tags (d : DB) : list (ImageRow * TagRow) :=
  i ← t_images d;
  it ← filter (fun it => row_id i = it_image_id it) (t_image_tags d);
  t ← filter (fun t => it_tag_id it = tag_id t) (t_tags d);
  [(i, t)].

(** [SELECT it.image_id FROM image_tags it JOIN tags t ON it.tag_id = t.id
     WHERE t.name IN (names)]. *)
Definition image_ids_tagged (d : DB) (names : list string) : list string :=
  it ← t_image_tags d;
  t ← filter (fun t => it_tag_id it = tag_id t) (t_tags d);
  if decide (tag_name t ∈ names) then [it_image_id it] else [].

(** [SELECT it.image_id, t.name FROM image_tags it JOIN tags t
     ON it.tag_id = t.id WHERE it.image_id IN (ids)].  The query has no
    ORDER BY; the rows are listed in the order of [image_tags], where the
    engine is free to choose another. *)
Definition tags_of_images (d : DB) (ids : list string) : list (string * string) :=
  it ← t_image_tags d;
  t ← filter (fun t => it_tag_id it = tag_id t) (t_tags d);
  if decide (it_image_id it ∈ ids) then [(it_image_id it, tag_name t)] else [].

(** [GROUP BY i.id HAVING COUNT(DISTINCT t.name) = n], one image row per
    group. *)
Definition group_by_id_having_count (rows : list (ImageRow * TagRow)) (n : nat)
  : list ImageRow :=
  omap (fun key =>
          let group := filter (fun r => row_id (fst r) = key) rows in
          if decide (length (remove_dups (map (fun r => tag_name (snd r)) group)) = n)
          then head (map fst group)
          else None)
       (remove_dups (map (fun r => row_id (fst r)) rows)).

(** The id the next [INSERT INTO tags] receives. *)
Definition next_tag_id (d : DB) : Z :=
  1 + foldr Z.max 0 (map tag_id (t_tags d)).

(** [INSERT OR IGNORE INTO tags (name) VALUES (name)]. *)
Definition insert_or_ignore_tag (name : string) (d : DB) : DB :=
  if decide (name ∈ map tag_name (t_tags d)) then d
  else {| t_images := t_images d;
          t_tags := t_tags d ++ [{| tag_id := next_tag_id d; tag_name := name |}];
          t_image_tags := t_image_tags d |}.

#[global] Instance ImageTagRow_eq_dec : EqDecision ImageTagRow.
Proof. solve_decision. Defined.

(** The rows [SELECT image_id, id FROM tags WHERE name = name] yields. *)
Definition association_rows (image_id name : string) (d : DB) : list ImageTagRow :=
  map (fun t => {| it_image_id := image_id; it_tag_id := tag_id t |})
      (filter (fun t => tag_name t = name) (t_tags d)).

(** [INSERT INTO image_tags ...]: a row already present violates the key. *)
Definition insert_associations (rows : list ImageTagRow) (d : DB) : option DB :=
  if decide (NoDup (t_image_tags d ++ rows))
  then Some {| t_images := t_images d; t_tags := t_tags d;
               t_image_tags := t_image_tags d ++ rows |}
  else None.

(** [INSERT OR IGNORE INTO image_tags ...]. *)
Definition insert_or_ignore_associations (rows : list ImageTagRow) (d : DB) : DB :=
  {| t_images := t_images d; t_tags := t_tags d;
     t_image_tags :=
       foldl (fun acc r => if decide (r ∈ acc) then acc else (acc ++ [r])%list)
             (t_image_tags d) rows |}.

(** [INSERT INTO images ...]. *)
Definition insert_image (row : ImageRow) (d : DB) : option DB :=
  if decide (row_id row ∈ map row_id (t_images d)) then None
  else Some {| t_images := t_images d ++ [row]; t_tags := t_tags d;
               t_image_tags := t_image_tags d |}.

(** [DELETE FROM images WHERE id IN (ids)], with the cascade.  The
    number returned is D1's [meta.changes]: the image rows deleted and the
    rows of [image_tags] the cascade deleted with them. *)
Definition delete_images (ids : list string) (d : DB) : DB * nat :=
  let deleted := filter (fun i => row_id i ∈ ids) (t_images d) in
  ({| t_images := filter (fun i => row_id i ∉ ids) (t_images d);
      t_tags := t_tags d;
      t_image_tags := filter (fun it => it_image_id it ∉ ids) (t_image_tags d) |},
   (length deleted
    + length (filter (fun it => it_image_id it ∈ map row_id deleted)
                     (t_image_tags d)))%nat).

(** [DELETE FROM tags WHERE name = name], with the cascade. *)
Definition delete_tag (name : string) (d : DB) : DB :=
  let gone := map tag_id (filter (fun t => tag_name t = name) (t_tags d)) in
  {| t_images := t_images d;
     t_tags := filter (fun t => tag_name t ≠ name) (t_tags d);
     t_image_tags := filter (fun it => it_tag_id it ∉ gone) (t_image_tags d) |}.

(** A batch is one transaction: the first failing statement rolls it back. *)
Fixpoint run_batch (steps : list (DB -> option DB)) (d : DB) : option DB :=
  match steps with
  | [] => Some d
  | step :: steps' =>
      match step d with
      | Some d' => run_batch steps' d'
      | None => None
      end
  end.

(** Filters of [getRandomImage]. *)
Record RandomFilters := {
  f_tags : option (list string);
  f_exclude : option (list string);
  f_orientation : option string;
}.

Section WithBindings.
Context (B : Bindings).

(** [stmt.all()], [stmt.first()]: a read of the database. *)
Definition d1_read {A} (stmt : Statement) (query : World -> A) : M A :=
  call B (D1 [stmt]) (fun w => (w, query w)).

(** [stmt.run()]: one write. *)
Definition d1_run {A} (stmt : Statement) (effect : DB -> DB * A) : M A :=
  call B (D1 [stmt])
    (fun w => let '(d, a) := effect (db w) in (with_db d w, a)).

(** [db.batch(statements)]. *)
Definition d1_batch (batch : list (Statement * (DB -> option DB))) : M unit :=
  fun w =>
    match call B (D1 (map fst batch)) (fun w => (w, tt)) w with
    | (w1, Ok _) =>
        match run_batch (map snd batch) (db w1) with
        | Some d => (with_db d w1, Ok tt)
        | None => (w1, Throw "D1_ERROR: UNIQUE constraint failed")
        end
    | (w1, Throw e) => (w1, Throw e)
    end.

Definition rowToMetadata (row : ImageRow) (tags : list string) : ImageMetadata :=
  {| id := row_id row;
     originalName := original_name row;
     uploadTime := upload_time row;
     expiryTime := expiry_time row ≫= JS.or_absent;
     orientation := row_orientation row;
     tags := tags;
     format := row_format row;
     width := row_width row;
     height := row_height row;
     paths := {| p_original := path_original row;
                 p_webp := JS.or_empty (path_webp row);
                 p_avif := JS.or_empty (path_avif row) |};
     sizes := {| s_original := size_original row;
                 s_webp := size_webp row;
                 s_avif := size_avif row |} |}.

(** [if (!tagMap.has(k)) tagMap.set(k, []); tagMap.get(k).push(name)]. *)
Definition push_tag (tagMap : gmap string (list string)) (r : string * string)
  : gmap string (list string) :=
  <[fst r := (default [] (tagMap !! fst r) ++ [snd r])%list]> tagMap.

Definition enrich_statement (chunk : list string) : Statement :=
  {| sql := "SELECT it.image_id, t.name FROM image_tags it JOIN tags t ON it.tag_id = t.id WHERE it.image_id IN ("
            +:+ placeholders chunk +:+ ")";
     binds := map VText chunk |}.

Definition enrichWithTags (rows : list ImageRow) : M (list ImageMetadata) :=
  if (length rows =? 0)%nat then ret []
  else
    let imageIds := map row_id rows in
    let chunkSize := 90%nat in
    tagMap <-
      for_loop (length imageIds) 0 (length imageIds) chunkSize
        (fun i tagMap =>
           let chunk := JS.slice i (i + chunkSize) imageIds in
           tagsResult <-
             d1_read (enrich_statement chunk)
                     (fun w => tags_of_images (db w) chunk) ;;
           ret (foldl push_tag tagMap tagsResult))
        (∅ : gmap string (list string)) ;;
    ret (map (fun row => rowToMetadata row (default [] (tagMap !! row_id row))) rows).

(** [filters?.tags?.length] and [filters?.exclude?.length] are truthy
    exactly when the list is given and not empty. *)
Definition requested (o : option (list string)) : list string := default [] o.

Definition hasFilter (o : option (list string)) : bool :=
  negb (length (requested o) =? 0)%nat.

Definition joinClause (hasTagFilter hasExcludeFilter : bool) : string :=
  if hasTagFilter || hasExcludeFilter
  then "JOIN image_tags it ON i.id = it.image_id JOIN tags t ON it.tag_id = t.id"
  else "".

(** The [WHERE] conjuncts of [getRandomImage], in the order they are pushed. *)
Definition random_whereConditions (filters : option RandomFilters) : list string :=
  let tags := filters ≫= f_tags in
  let exclude := filters ≫= f_exclude in
  (if hasFilter tags
   then ["t.name IN (" +:+ placeholders (requested tags) +:+ ")"] else []) ++
  (if hasFilter exclude
   then ["i.id NOT IN ( SELECT it2.image_id FROM image_tags it2 JOIN tags t2 ON it2.tag_id = t2.id WHERE t2.name IN ("
         +:+ placeholders (requested exclude) +:+ ") )"] else []) ++
  (if JS.truthy_opt (filters ≫= f_orientation)
   then ["i.orientation = ?"] else []).

Definition random_params (filters : option RandomFilters) : list sqlval :=
  let tags := filters ≫= f_tags in
  let exclude := filters ≫= f_exclude in
  (if hasFilter tags then map VText (requested tags) else []) ++
  (if hasFilter exclude then map VText (requested exclude) else []) ++
  (if JS.truthy_opt (filters ≫= f_orientation)
   then [VText (default "" (filters ≫= f_orientation))] else []) ++
  (if hasFilter tags then [VInt (Z.of_nat (length (requested tags)))] else []).

Definition random_statement (filters : option RandomFilters) : Statement :=
  let tags := filters ≫= f_tags in
  let exclude := filters ≫= f_exclude in
  let whereConditions := random_whereConditions filters in
  let whereClause :=
    if (0 <? length whereConditions)%nat
    then "WHERE " +:+ JS.join " AND " whereConditions else "" in
  let groupClause :=
    if hasFilter tags then " GROUP BY i.id HAVING COUNT(DISTINCT t.name) = ?" else "" in
  {| sql := "SELECT i.* FROM images i " +:+ joinClause (hasFilter tags) (hasFilter exclude)
            +:+ " " +:+ whereClause +:+ " " +:+ groupClause
            +:+ " ORDER BY RANDOM() LIMIT 1";
     binds := random_params filters |}.

(** The [WHERE] clause of [getRandomImage] on an image row [i]; the
    conjunct on [t.name] is applied to the joined rows below. *)
Definition random_where_image (d : DB) (filters : option RandomFilters)
    (i : ImageRow) : Prop :=
  (hasFilter (filters ≫= f_exclude) = true ->
     row_id i ∉ image_ids_tagged d (requested (filters ≫= f_exclude))) ∧
  (JS.truthy_opt (filters ≫= f_orientation) = true ->
     Some (row_orientation i) = filters ≫= f_orientation).

#[global] Instance random_where_image_dec d filters i :
  Decision (random_where_image d filters i).
Proof. unfold random_where_image. apply _. Defined.

(** The rows the statement of [getRandomImage] ranges over before
    [ORDER BY RANDOM() LIMIT 1]. *)
Definition random_rows (d : DB) (filters : option RandomFilters) : list ImageRow :=
  let tags := filters ≫= f_tags in
  let exclude := filters ≫= f_exclude in
  if hasFilter tags then
    group_by_id_having_count
      (filter (fun r => tag_name (snd r) ∈ requested tags ∧
                        random_where_image d filters (fst r))
              (images_join_tags d))
      (length (requested tags))
  else if hasFilter exclude then
    map fst (filter (fun r => random_where_image d filters (fst r))
                    (images_join_tags d))
  else
    filter (random_where_image d filters) (t_images d).

(** [ORDER BY RANDOM() LIMIT 1] followed by [.first()]: the row the
    environment's draw selects. *)
Definition first_in_random_order (w : World) (rows : list ImageRow) : option ImageRow :=
  rows !! (random B (log w) mod length rows)%nat.

Definition getRandomImage (filters : option RandomFilters)
  : M (option ImageMetadata) :=
  result <-
    d1_read (random_statement filters)
            (fun w => first_in_random_order w (random_rows (db w) filters)) ;;
  match result with
  | None => ret None
  | Some row =>
      enriched <- enrichWithTags [row] ;;
      ret (head enriched)
  end.

(** [getImagePathsByTag]: the projection is [SELECT DISTINCT]. *)
Definition paths_by_tag_statement (tagName : string) : Statement :=
  {| sql := "SELECT DISTINCT i.id, i.path_original, i.path_webp, i.path_avif FROM images i JOIN image_tags it ON i.id = it.image_id JOIN tags t ON it.tag_id = t.id WHERE t.name = ?";
     binds := [VText tagName] |}.

Definition image_paths_by_tag (d : DB) (tagName : string)
  : list (string * (string * option string * option string)) :=
  remove_dups
    (map (fun r => (row_id (fst r),
                    (path_original (fst r), path_webp (fst r), path_avif (fst r))))
         (filter (fun r => tag_name (snd r) = tagName) (images_join_tags d))).

Definition getImagePathsByTag (tagName : string)
  : M (list (string * (string * option string * option string))) :=
  d1_read (paths_by_tag_statement tagName)
          (fun w => image_paths_by_tag (db w) tagName).

Definition delete_images_by_tag_statement (name : string) : Statement :=
  {| sql := "DELETE FROM images WHERE id IN ( SELECT it.image_id FROM image_tags it JOIN tags t ON it.tag_id = t.id WHERE t.name = ? )";
     binds := [VText name] |}.

Definition delete_tag_statement (name : string) : Statement :=
  {| sql := "DELETE FROM tags WHERE name = ?"; binds := [VText name] |}.

(** [deletedImages] is [deleteImagesResult.meta?.changes || 0]. *)
Definition deleteTagWithImages (name : string) : M nat :=
  deletedImages <-
    d1_run (delete_images_by_tag_statement name)
           (fun d => delete_images (image_ids_tagged d [name]) d) ;;
  d1_run (delete_tag_statement name) (fun d => (delete_tag name d, tt)) ;;;
  ret deletedImages.

Definition metadata_row (metadata : ImageMetadata) : ImageRow :=
  {| row_id := id metadata;
     original_name := originalName metadata;
     upload_time := uploadTime metadata;
     expiry_time := expiryTime metadata ≫= JS.or_absent;
     row_orientation := orientation metadata;
     row_format := format metadata;
     row_width := width metadata;
     row_height := height metadata;
     path_original := p_original (paths metadata);
     path_webp := JS.or_absent (p_webp (paths metadata));
     path_avif := JS.or_absent (p_avif (paths metadata));
     size_original := s_original (sizes metadata);
     size_webp := s_webp (sizes metadata);
     size_avif := s_avif (sizes metadata) |}.

Definition opt_text (o : option string) : sqlval :=
  match o with
  | Some s => VText s
  | None => VNull
  end.

Definition saveImage (metadata : ImageMetadata) : M unit :=
  let row := metadata_row metadata in
  d1_batch
    (({| sql := "INSERT INTO images ( id, original_name, upload_time, expiry_time, orientation, format, width, height, path_original, path_webp, path_avif, size_original, size_webp, size_avif ) VALUES (?, ?, ?, ?, ?, ?, ?, ?, ?, ?, ?, ?, ?, ?)";
         binds := [VText (row_id row); VText (original_name row);
                   VText (upload_time row); opt_text (expiry_time row);
                   VText (row_orientation row); VText (row_format row);
                   VInt (row_width row); VInt (row_height row);
                   VText (path_original row); opt_text (path_webp row);
                   opt_text (path_avif row); VInt (size_original row);
                   VInt (size_webp row); VInt (size_avif row)] |},
      insert_image row)
     :: (tag ← tags metadata;
         [({| sql := "INSERT OR IGNORE INTO tags (name) VALUES (?)";
              binds := [VText tag] |},
           fun d => Some (insert_or_ignore_tag tag d));
          ({| sql := "INSERT INTO image_tags (image_id, tag_id) SELECT ?, id FROM tags WHERE name = ?";
              binds := [VText (id metadata); VText tag] |},
           fun d => insert_associations (association_rows (id metadata) tag d) d)])).

(** The [DELETE] of [batchUpdateTags]: one statement for all image ids. *)
Definition batch_remove_statement (imageIds removeTags : list string) : Statement :=
  {| sql := "DELETE FROM image_tags WHERE image_id IN (" +:+ placeholders imageIds
            +:+ ") AND tag_id IN (SELECT id FROM tags WHERE name IN ("
            +:+ placeholders removeTags +:+ "))";
     binds := map VText imageIds ++ map VText removeTags |}.

(** The [INSERT] of [batchUpdateTags] for one tag: one statement for all
    image ids. *)
Definition batch_add_statement (imageIds : list string) (tag : string) : Statement :=
  {| sql := "INSERT OR IGNORE INTO image_tags (image_id, tag_id) SELECT image_id, (SELECT id FROM tags WHERE name = ?) FROM (SELECT ? AS image_id "
            +:+ JS.join " " (map (fun _ => "UNION ALL SELECT ?") (drop 1 imageIds))
            +:+ ")";
     binds := VText tag :: map VText imageIds |}.

Definition batchUpdateTags (imageIds addTags removeTags : list string) : M nat :=
  if (length imageIds =? 0)%nat then ret 0%nat
  else
    let statements :=
      map (fun tag =>
             ({| sql := "INSERT OR IGNORE INTO tags (name) VALUES (?)";
                 binds := [VText tag] |},
              fun d => Some (insert_or_ignore_tag tag d)))
          addTags in
    (if (0 <? length statements)%nat then d1_batch statements else ret tt) ;;;
    (if (0 <? length removeTags)%nat
     then d1_run (batch_remove_statement imageIds removeTags)
            (fun d =>
               let gone := map tag_id (filter (fun t => tag_name t ∈ removeTags) (t_tags d)) in
               ({| t_images := t_images d; t_tags := t_tags d;
                   t_image_tags :=
                     filter (fun it => ¬ (it_image_id it ∈ imageIds ∧ it_tag_id it ∈ gone))
                            (t_image_tags d) |}, tt))
     else ret tt) ;;;
    (if (0 <? length addTags)%nat
     then d1_batch
            (map (fun tag =>
                    (batch_add_statement imageIds tag,
                     fun d =>
                       Some (insert_or_ignore_associations
                               (image_id ← imageIds; association_rows image_id tag d) d)))
                 addTags)
     else ret tt) ;;;
    ret (length imageIds).

End WithBindings.

End Metadata.

(** ** [services/metadata.ts]: lookups, deletion and tag management

    The methods of [MetadataService] that the three handlers above do
    not call.  [getImageIds], [getImages] and [getAllTags] order their
    rows ([ORDER BY upload_time DESC], [ORDER BY t.name]) and are left
    out, as is [getExpiredImages], which compares timestamps. *)

Module MetadataQueries.
Import Types Runtime Metadata.

(** [SELECT * FROM images WHERE id = ?]. *)
Definition images_by_id (d : DB) (image_id : string) : list ImageRow :=
  filter (fun i => row_id i = image_id) (t_images d).

(** [SELECT t.name FROM tags t JOIN image_tags it ON t.id = it.tag_id
     WHERE it.image_id = ?]. *)
Definition tag_names_of_image (d : DB) (image_id : string) : list string :=
  t ← t_tags d;
  it ← filter (fun it => tag_id t = it_tag_id it) (t_image_tags d);
  if decide (it_image_id it = image_id) then [tag_name t] else [].

(** [SELECT COUNT( * ) FROM image_tags it JOIN tags t ON it.tag_id = t.id
     WHERE t.name = ?]. *)
Definition count_by_tag (d : DB) (name : string) : nat :=
  length (image_ids_tagged d [name]).

(** [SELECT i.* FROM images i JOIN image_tags it ON i.id = it.image_id
     JOIN tags t ON it.tag_id = t.id WHERE t.name = ?]. *)
Definition images_by_tag (d : DB) (tagName : string) : list ImageRow :=
  map fst (filter (fun r => tag_name (snd r) = tagName) (images_join_tags d)).

(** [UPDATE tags SET name = newName WHERE name = oldName]: renaming a
    tag onto the name of another one violates the uniqueness of
    [tags.name]. *)
Definition rename_tag (oldName newName : string) (d : DB) : option DB :=
  if decide (oldName ∈ map tag_name (t_tags d) ∧ oldName ≠ newName
             ∧ newName ∈ map tag_name (t_tags d))
  then None
  else Some {| t_images := t_images d;
               t_tags :=
                 map (fun t => if decide (tag_name t = oldName)
                               then {| tag_id := tag_id t; tag_name := newName |}
                               else t)
                     (t_tags d);
               t_image_tags := t_image_tags d |}.

Definition select_image_statement (image_id : string) : Statement :=
  {| sql := "SELECT * FROM images WHERE id = ?"; binds := [VText image_id] |}.

Definition select_tag_names_statement (image_id : string) : Statement :=
  {| sql := "SELECT t.name FROM tags t JOIN image_tags it ON t.id = it.tag_id WHERE it.image_id = ?";
     binds := [VText image_id] |}.

Definition delete_image_statement (image_id : string) : Statement :=
  {| sql := "DELETE FROM images WHERE id = ?"; binds := [VText image_id] |}.

Definition create_tag_statement (name : string) : Statement :=
  {| sql := "INSERT OR IGNORE INTO tags (name) VALUES (?)"; binds := [VText name] |}.

Definition count_by_tag_statement (name : string) : Statement :=
  {| sql := "SELECT COUNT(*) as count FROM image_tags it JOIN tags t ON it.tag_id = t.id WHERE t.name = ?";
     binds := [VText name] |}.

Definition rename_tag_statement (oldName newName : string) : Statement :=
  {| sql := "UPDATE tags SET name = ? WHERE name = ?";
     binds := [VText newName; VText oldName] |}.

Definition images_by_tag_statement (tagName : string) : Statement :=
  {| sql := "SELECT i.* FROM images i JOIN image_tags it ON i.id = it.image_id JOIN tags t ON it.tag_id = t.id WHERE t.name = ?";
     binds := [VText tagName] |}.

(** The fields of [Partial<ImageMetadata>] that [updateImage] reads;
    [None] is [undefined]. *)
Record ImageUpdates := {
  u_tags : option (list string);
  u_expiryTime : option string;
}.

(** The values of [new Set(xs)], in insertion order. *)
Definition set_values (xs : list string) : list string :=
  foldl (fun acc x => if decide (x ∈ acc) then acc else (acc ++ [x])%list) [] xs.

(** [{ ...image, expiry_time }]. *)
Definition with_expiry (image : ImageRow) (expiry : option string) : ImageRow :=
  {| row_id := row_id image;
     original_name := original_name image;
     upload_time := upload_time image;
     expiry_time := expiry;
     row_orientation := row_orientation image;
     row_format := row_format image;
     row_width := row_width image;
     row_height := row_height image;
     path_original := path_original image;
     path_webp := path_webp image;
     path_avif := path_avif image;
     size_original := size_original image;
     size_webp := size_webp image;
     size_avif := size_avif image |}.

(** [DELETE FROM image_tags WHERE image_id = ? AND tag_id =
     (SELECT id FROM tags WHERE name = ?)]: the scalar subquery is the
    first id found, or [NULL], which equals no [tag_id]. *)
Definition delete_association (image_id name : string) (d : DB) : DB :=
  let wanted := head (map tag_id (filter (fun t => tag_name t = name) (t_tags d))) in
  {| t_images := t_images d;
     t_tags := t_tags d;
     t_image_tags :=
       filter (fun it => ¬ (it_image_id it = image_id ∧ Some (it_tag_id it) = wanted))
              (t_image_tags d) |}.

(** [UPDATE images SET expiry_time = ? WHERE id = ?]. *)
Definition set_expiry (image_id : string) (expiry : option string) (d : DB) : DB :=
  {| t_images := map (fun i => if decide (row_id i = image_id)
                               then with_expiry i expiry else i)
                     (t_images d);
     t_tags := t_tags d;
     t_image_tags := t_image_tags d |}.

Definition remove_association_statement (image_id tag : string) : Statement :=
  {| sql := "DELETE FROM image_tags WHERE image_id = ? AND tag_id = (SELECT id FROM tags WHERE name = ?)";
     binds := [VText image_id; VText tag] |}.

Definition add_association_statement (image_id tag : string) : Statement :=
  {| sql := "INSERT OR IGNORE INTO image_tags (image_id, tag_id) SELECT ?, id FROM tags WHERE name = ?";
     binds := [VText image_id; VText tag] |}.

Definition update_expiry_statement (image_id : string) (expiry : option string)
  : Statement :=
  {| sql := "UPDATE images SET expiry_time = ? WHERE id = ?";
     binds := [opt_text expiry; VText image_id] |}.

Section WithBindings.
Context (B : Bindings).

(** [stmt.run()] of a statement that a constraint can make fail. *)
Definition d1_run_checked (stmt : Statement) (effect : DB -> option DB) : M unit :=
  fun w =>
    match call B (D1 [stmt]) (fun w => (w, tt)) w with
    | (w1, Ok _) =>
        match effect (db w1) with
        | Some d => (with_db d w1, Ok tt)
        | None => (w1, Throw "D1_ERROR: UNIQUE constraint failed")
        end
    | (w1, Throw e) => (w1, Throw e)
    end.

(** The two reads of [getImage] are one batch. *)
Definition getImage (image_id : string) : M (option ImageMetadata) :=
  results <-
    call B (D1 [select_image_statement image_id; select_tag_names_statement image_id])
      (fun w => (w, (images_by_id (db w) image_id, tag_names_of_image (db w) image_id))) ;;
  match head (fst results) with
  | None => ret None
  | Some image => ret (Some (rowToMetadata image (snd results)))
  end.

(** [result.success && (result.meta?.changes || 0) > 0]. *)
Definition deleteImage (image_id : string) : M bool :=
  changes <-
    d1_run B (delete_image_statement image_id) (fun d => delete_images [image_id] d) ;;
  ret (0 <? changes)%nat.

Definition createTag (name : string) : M unit :=
  d1_run B (create_tag_statement name) (fun d => (insert_or_ignore_tag name d, tt)).

Definition renameTag (oldName newName : string) : M nat :=
  count <-
    d1_read B (count_by_tag_statement oldName) (fun w => count_by_tag (db w) oldName) ;;
  d1_run_checked (rename_tag_statement oldName newName) (rename_tag oldName newName) ;;;
  ret count.

Definition deleteTag (name : string) : M nat :=
  count <-
    d1_read B (count_by_tag_statement name) (fun w => count_by_tag (db w) name) ;;
  d1_run B (delete_tag_statement name) (fun d => (delete_tag name d, tt)) ;;;
  ret count.

(** [updateImage]: the statements are pushed in this order: the
    associations to remove, then for each new tag its creation and its
    association, then the expiry time; they run as one batch. *)
Definition updateImage (image_id : string) (updates : ImageUpdates)
  : M (option ImageMetadata) :=
  results <-
    call B (D1 [select_image_statement image_id; select_tag_names_statement image_id])
      (fun w => (w, (images_by_id (db w) image_id, tag_names_of_image (db w) image_id))) ;;
  match head (fst results) with
  | None => ret None
  | Some image =>
      let currentTags := snd results in
      let tag_statements :=
        match u_tags updates with
        | Some tags =>
            let oldTags := set_values currentTags in
            let newTags := set_values tags in
            map (fun tag =>
                   (remove_association_statement image_id tag,
                    fun d => Some (delete_association image_id tag d)))
                (filter (fun tag => tag ∉ newTags) oldTags)
            ++ (tag ← filter (fun tag => tag ∉ oldTags) newTags;
                [(create_tag_statement tag,
                  fun d => Some (insert_or_ignore_tag tag d));
                 (add_association_statement image_id tag,
                  fun d => Some (insert_or_ignore_associations
                                   (association_rows image_id tag d) d))])
        | None => []
        end in
      let finalTags := default currentTags (u_tags updates) in
      let finalExpiryTime :=
        match u_expiryTime updates with
        | Some expiry => JS.or_absent expiry
        | None => expiry_time image
        end in
      let expiry_statements :=
        match u_expiryTime updates with
        | Some _ =>
            [(update_expiry_statement image_id finalExpiryTime,
              fun d => Some (set_expiry image_id finalExpiryTime d))]
        | None => []
        end in
      let statements := tag_statements ++ expiry_statements in
      (if (0 <? length statements)%nat then d1_batch B statements else ret tt) ;;;
      ret (Some (rowToMetadata (with_expiry image finalExpiryTime) finalTags))
  end.

Definition getImagesByTag (tagName : string) : M (list ImageMetadata) :=
  rows <-
    d1_read B (images_by_tag_statement tagName) (fun w => images_by_tag (db w) tagName) ;;
  enrichWithTags B rows.

End WithBindings.

End MetadataQueries.

(** ** Collaborators whose sources are absent

    [utils/validation.ts], [utils/response.ts], [services/storage.ts],
    [services/cache.ts], [services/imageProcessor.ts] and the platform's
    [URL] class are outside the sources.  The pure ones are taken as
    parameters; the effectful ones are calls to a binding. *)

Module Deps.
Import Types.

(** A parsed [URL].  Its serialisation is the scheme, a colon and the
    rest, so it is never empty. *)
Record URL := {
  scheme : string;
  after_scheme : string;
  origin : string;
  pathname : string;
  search : string;
}.

Definition href (u : URL) : string := scheme u +:+ ":" +:+ after_scheme u.

Record t := {
  (** [new URL(input, base)]; [None] is the [TypeError] of an invalid URL. *)
  URL_new : string -> option string -> option URL;
  (** [decodeURIComponent]; [None] is its [URIError]. *)
  decodeURIComponent : string -> option string;
  (** [utils/validation.ts]. *)
  parseTags : option string -> list string;
  parseNumber : option string -> Z -> Z;
  isMobileDevice : option string -> bool;
  getBestFormat : option string -> string;
  generateImageId : string;
  (** [services/imageProcessor.ts]. *)
  isSupportedFormat : string -> bool;
  getContentType : string -> string;
  (** [StorageService.generatePaths(id, orientation, format)]. *)
  generatePaths : string -> string -> string -> Paths;
  (** [new Date().toISOString()] and
      [new Date(Date.now() + minutes * 60 * 1000).toISOString()]. *)
  now_iso : string;
  expiry_iso : Z -> string;
}.

End Deps.

(** ** [utils/imageTransform.ts] *)

Module ImageTransform.
Import Types.

Definition DEFAULT_OPTIONS : RequiredOptions :=
  {| r_quality := 90; r_maxWidth := 0; r_maxHeight := 0;
     r_preserveAnimation := true; r_generateWebp := true;
     r_generateAvif := true |}.

(** On an integer [Number.isFinite] holds and [Math.trunc] is the identity. *)
Definition clampInt (value min max : Z) : Z := Z.max min (Z.min max value).

Definition toPositiveInt (value fallback : Z) : Z := Z.max 0 value.

Definition calculateDimensions (width height maxWidth maxHeight : Z)
  : Number.integral * Number.integral :=
  if (width <=? maxWidth) && (height <=? maxHeight)
  then (Number.Int width, Number.Int height)
  else
    let scale :=
      Number.Math_min (Number.div (inject_Z maxWidth) (inject_Z width))
                      (Number.div (inject_Z maxHeight) (inject_Z height)) in
    (Number.Math_round (Number.mul (inject_Z width) scale),
     Number.Math_round (Number.mul (inject_Z height) scale)).

(** [width] and [height] are [dims?.width] and [dims?.height]; [0], NaN
    and [undefined] are falsy. *)
Definition buildCdnCgiOptionsString (format : string) (quality : Z)
    (dims : option (Number.integral * Number.integral)) : string :=
  let parts :=
    ["format=" +:+ format;
     "quality=" +:+ JS.Z_to_string (clampInt quality 1 100)] in
  let parts :=
    match dims with
    | Some (width, height) =>
        if Number.truthy width && Number.truthy height
        then (parts ++ ["width=" +:+ JS.integral_to_string width;
                        "height=" +:+ JS.integral_to_string height;
                        "fit=scale-down"])%list
        else parts
    | None => parts
    end in
  JS.join "," parts.

Record Urls := { u_original : string; u_webp : string; u_avif : string }.

Section WithDeps.
Context (D : Deps.t).

Definition buildPublicUrl (baseUrl key : string) : option string :=
  let base := if JS.endsWith "/" baseUrl then baseUrl else baseUrl +:+ "/" in
  let normalizedKey :=
    if JS.startsWith "/" key then String.substring 1 (String.length key - 1) key
    else key in
  Deps.href <$> Deps.URL_new D normalizedKey (Some base).

Definition buildTransformedUrl (originalUrl optionsString : string) : option string :=
  url ← Deps.URL_new D originalUrl None;
  Some (Deps.origin url +:+ "/cdn-cgi/image/" +:+ optionsString
        +:+ Deps.pathname url +:+ Deps.search url).

(** The body shared by the [webpUrl] and [avifUrl] closures; [target] is
    ['webp'] or ['avif']. *)
Definition variantUrl (target : string) (generate : bool) (stored originalUrl : string)
    (formatLower : string) (canTransformFromOriginal hasResizeLimit : bool)
    (image : ImageMetadata) (quality maxWidth maxHeight : Z) : option string :=
  if negb generate then Some ""
  else if JS.truthy stored then Some stored
  else if String.eqb formatLower target then Some originalUrl
  else if negb canTransformFromOriginal then Some ""
  else
    let dims :=
      if hasResizeLimit
      then Some (calculateDimensions (width image) (height image) maxWidth maxHeight)
      else None in
    buildTransformedUrl originalUrl
      (buildCdnCgiOptionsString target quality dims).

(** [None] is an exception thrown by [new URL]. *)
Definition buildImageUrls (baseUrl : string) (image : ImageMetadata)
    (options : option CompressionOptions) (preferStoredVariants : option bool)
  : option Urls :=
  let preferStoredVariants := default true preferStoredVariants in
  let opts := spread DEFAULT_OPTIONS (default no_options options) in
  originalUrl ← buildPublicUrl baseUrl (p_original (paths image));
  let formatLower := JS.toLowerCase (format image) in
  let isGif := String.eqb formatLower "gif" in
  if isGif then Some {| u_original := originalUrl; u_webp := ""; u_avif := "" |}
  else
    let canTransformFromOriginal :=
      String.eqb formatLower "jpeg" || String.eqb formatLower "jpg"
      || String.eqb formatLower "png" in
    let generateWebp := r_generateWebp opts in
    let generateAvif := r_generateAvif opts in
    let isWebpMarker :=
      JS.truthy (p_webp (paths image))
      && String.eqb (p_webp (paths image)) (p_original (paths image))
      && negb (String.eqb formatLower "webp") in
    let isAvifMarker :=
      JS.truthy (p_avif (paths image))
      && String.eqb (p_avif (paths image)) (p_original (paths image))
      && negb (String.eqb formatLower "avif") in
    webpStored ←
      (if preferStoredVariants && JS.truthy (p_webp (paths image)) && negb isWebpMarker
       then buildPublicUrl baseUrl (p_webp (paths image)) else Some "");
    avifStored ←
      (if preferStoredVariants && JS.truthy (p_avif (paths image)) && negb isAvifMarker
       then buildPublicUrl baseUrl (p_avif (paths image)) else Some "");
    let quality := clampInt (toPositiveInt (r_quality opts) (r_quality DEFAULT_OPTIONS)) 1 100 in
    let maxWidth := toPositiveInt (r_maxWidth opts) (r_maxWidth DEFAULT_OPTIONS) in
    let maxHeight := toPositiveInt (r_maxHeight opts) (r_maxHeight DEFAULT_OPTIONS) in
    let hasResizeLimit := (0 <? maxWidth) && (0 <? maxHeight) in
    webpUrl ←
      variantUrl "webp" generateWebp webpStored originalUrl formatLower
        canTransformFromOriginal hasResizeLimit image quality maxWidth maxHeight;
    avifUrl ←
      variantUrl "avif" generateAvif avifStored originalUrl formatLower
        canTransformFromOriginal hasResizeLimit image quality maxWidth maxHeight;
    Some {| u_original := originalUrl; u_webp := webpUrl; u_avif := avifUrl |}.

End WithDeps.

End ImageTransform.

(** ** The request handlers *)

Module Handlers.
Import Types Runtime.

(** [UploadResult]. *)
Record UploadResult := {
  ur_id : string;
  ur_status : string;
  ur_urls : ImageTransform.Urls;
  ur_orientation : string;
  ur_tags : list string;
  ur_sizes : Sizes;
  ur_expiryTime : option string;
  ur_format : string;
}.

Inductive payload :=
| UploadPayload (result : UploadResult)
| DeleteTagPayload (message : string) (deletedImages : nat).

Inductive Response :=
| successResponse (data : payload)
| errorResponse (message : string) (status : option Z)
| redirect (status : Z) (location : string).

(** [c.env]: the public base URL and whether the [IMAGES] binding is set. *)
Record Env := {
  R2_PUBLIC_URL : string;
  IMAGES : bool;
}.

(** The query parameters and headers [randomHandler] reads. *)
Record RandomRequest := {
  q_tags : option string;
  q_exclude : option string;
  q_orientation : option string;
  q_format : option string;
  h_user_agent : option string;
  h_accept : option string;
}.

Section WithEnvironment.
Context (B : Bindings) (D : Deps.t) (env : Env).

(** [StorageService.upload]: a put into the R2 bucket. *)
Definition storage_upload (key : string) (body : JS.bytes) (contentType : string)
  : M unit :=
  call B (Put key body contentType)
    (fun w => (with_bucket (<[key := (body, contentType)]> (bucket w)) w, tt)).

(** [ImageProcessor.getImageInfo]. *)
Definition getImageInfo (input : JS.bytes) : M ImageInfo :=
  call B (GetImageInfo input) (fun w => (w, decode B input)).

(** The invalidation helpers of [CacheService]. *)
Definition invalidateImagesList : M unit :=
  call B (Invalidate "imagesList") (fun w => (w, tt)).
Definition invalidateTagsList : M unit :=
  call B (Invalidate "tagsList") (fun w => (w, tt)).
Definition invalidateAfterTagChange : M unit :=
  call B (Invalidate "afterTagChange") (fun w => (w, tt)).

(** [c.env.DELETE_QUEUE.send(job)]. *)
Definition queue_send (job : DeleteJob) : M unit :=
  call B (Send job) (fun w => (with_queue (queue w ++ [job]) w, tt)).

(** An exception of a pure computation. *)
Definition lift {A} (o : option A) (message : string) : M A :=
  match o with
  | Some a => ret a
  | None => throw message
  end.

(** *** [handlers/upload.ts]

    Promises joined by [Promise.all] are run in the order they are
    created; the first rejection is the rejection of the join. *)

Definition upload_variants (file : FormData.File) (imageInfo : ImageInfo)
    (paths : Paths) (contentType : string) (compressionOptions : CompressionOptions)
  : M (Z * Z) :=
  let arrayBuffer := FormData.file_bytes file in
  let isGif := String.eqb (info_format imageInfo) "gif" in
  if negb isGif && IMAGES env then
    storage_upload (p_original paths) arrayBuffer contentType ;;;
    compressionResult <-
      Compression.compress B arrayBuffer (info_format imageInfo) compressionOptions ;;
    webpSize <-
      match webp compressionResult with
      | Some v =>
          storage_upload (p_webp paths) (data v) "image/webp" ;;; ret (size v)
      | None =>
          storage_upload (p_webp paths) arrayBuffer contentType ;;;
          ret (FormData.file_size file)
      end ;;
    avifSize <-
      match avif compressionResult with
      | Some v =>
          storage_upload (p_avif paths) (data v) "image/avif" ;;; ret (size v)
      | None =>
          storage_upload (p_avif paths) arrayBuffer contentType ;;;
          ret (FormData.file_size file)
      end ;;
    ret (webpSize, avifSize)
  else if negb isGif then
    storage_upload (p_original paths) arrayBuffer contentType ;;;
    storage_upload (p_webp paths) arrayBuffer contentType ;;;
    storage_upload (p_avif paths) arrayBuffer contentType ;;;
    ret (FormData.file_size file, FormData.file_size file)
  else
    storage_upload (p_original paths) arrayBuffer contentType ;;;
    ret (0, 0).

Definition uploadSingleHandler (formData : FormData.t) : M Response :=
  catch
    (let file := FormData.get "image" formData in
     let tagsString := FormData.get_text "tags" formData in
     let expiryMinutes :=
       Deps.parseNumber D (FormData.get_text "expiryMinutes" formData) 0 in
     let compressionOptions := CompressionForm.parseCompressionOptions formData in
     match file with
     | None | Some (FormData.Text _) => ret (errorResponse "No file provided" None)
     | Some (FormData.Blob file) =>
         let tags := Deps.parseTags D tagsString in
         let arrayBuffer := FormData.file_bytes file in
         imageInfo <- getImageInfo arrayBuffer ;;
         if negb (Deps.isSupportedFormat D (info_format imageInfo))
         then ret (errorResponse ("Unsupported format: " +:+ info_format imageInfo) None)
         else
           let id := Deps.generateImageId D in
           let paths :=
             Deps.generatePaths D id (info_orientation imageInfo) (info_format imageInfo) in
           let contentType := Deps.getContentType D (info_format imageInfo) in
           let isGif := String.eqb (info_format imageInfo) "gif" in
           variantSizes <-
             upload_variants file imageInfo paths contentType compressionOptions ;;
           let expiryTime :=
             if 0 <? expiryMinutes then Some (Deps.expiry_iso D expiryMinutes) else None in
           let imageMetadata :=
             {| Types.id := id;
                originalName := FormData.file_name file;
                uploadTime := Deps.now_iso D;
                expiryTime := expiryTime;
                orientation := info_orientation imageInfo;
                tags := tags;
                format := info_format imageInfo;
                width := info_width imageInfo;
                height := info_height imageInfo;
                paths := paths;
                sizes := {| s_original := FormData.file_size file;
                            s_webp := fst variantSizes;
                            s_avif := snd variantSizes |} |} in
           Metadata.saveImage B imageMetadata ;;;
           let baseUrl := R2_PUBLIC_URL env in
           let result :=
             {| ur_id := id;
                ur_status := "success";
                ur_urls :=
                  {| ImageTransform.u_original := baseUrl +:+ "/" +:+ p_original paths;
                     ImageTransform.u_webp :=
                       if isGif then "" else baseUrl +:+ "/" +:+ p_webp paths;
                     ImageTransform.u_avif :=
                       if isGif then "" else baseUrl +:+ "/" +:+ p_avif paths |};
                ur_orientation := info_orientation imageInfo;
                ur_tags := tags;
                ur_sizes := sizes imageMetadata;
                ur_expiryTime := expiryTime;
                ur_format := info_format imageInfo |} in
           waitUntil (Runtime.bind invalidateImagesList (fun _ => invalidateTagsList)) ;;;
           ret (successResponse (UploadPayload result))
     end)
    (fun _ => ret (errorResponse "Upload failed" None)).

(** *** [handlers/random.ts] *)

Definition random_orientation (request : RandomRequest) : string :=
  if bool_decide (q_orientation request = Some "landscape")
     || bool_decide (q_orientation request = Some "portrait")
  then default "" (q_orientation request)
  else if Deps.isMobileDevice D (h_user_agent request) then "portrait" else "landscape".

Definition random_filters (request : RandomRequest) : Metadata.RandomFilters :=
  let tags := Deps.parseTags D (q_tags request) in
  let exclude := Deps.parseTags D (q_exclude request) in
  {| Metadata.f_tags := if (0 <? length tags)%nat then Some tags else None;
     Metadata.f_exclude := if (0 <? length exclude)%nat then Some exclude else None;
     Metadata.f_orientation := Some (random_orientation request) |}.

(** [a || b] on strings. *)
Definition or_else (a b : string) : string := if JS.truthy a then a else b.

Definition random_targetUrl (request : RandomRequest) (image : ImageMetadata)
    (urls : ImageTransform.Urls) : string :=
  if String.eqb (format image) "gif" then ImageTransform.u_original urls
  else if bool_decide (q_format request = Some "original")
  then ImageTransform.u_original urls
  else if bool_decide (q_format request = Some "webp")
  then or_else (ImageTransform.u_webp urls) (ImageTransform.u_original urls)
  else if bool_decide (q_format request = Some "avif")
  then or_else (ImageTransform.u_avif urls) (ImageTransform.u_original urls)
  else
    let best := Deps.getBestFormat D (h_accept request) in
    if String.eqb best "avif" && JS.truthy (ImageTransform.u_avif urls)
    then ImageTransform.u_avif urls
    else if String.eqb best "webp" && JS.truthy (ImageTransform.u_webp urls)
    then ImageTransform.u_webp urls
    else ImageTransform.u_original urls.

(** The options [randomHandler] passes to [buildImageUrls]. *)
Definition random_url_options (image : ImageMetadata) : CompressionOptions :=
  {| quality := None; maxWidth := None; maxHeight := None;
     preserveAnimation := None;
     generateWebp := Some (JS.truthy (p_webp (paths image)));
     generateAvif := Some (JS.truthy (p_avif (paths image))) |}.

Definition randomHandler (request : RandomRequest) : M Response :=
  catch
    (image <- Metadata.getRandomImage B (Some (random_filters request)) ;;
     match image with
     | None => ret (errorResponse "No images found matching criteria" (Some 404))
     | Some image =>
         urls <-
           lift (ImageTransform.buildImageUrls D (R2_PUBLIC_URL env) image
                   (Some (random_url_options image)) None)
                "TypeError: Invalid URL" ;;
         let targetUrl := random_targetUrl request image urls in
         if negb (JS.truthy targetUrl)
         then ret (errorResponse "Image file not found" (Some 404))
         else ret (redirect 302 targetUrl)
     end)
    (fun _ => ret (errorResponse "Failed to get random image" None)).

(** *** [handlers/tags.ts]: [deleteTagHandler] *)

Definition job_entry (img : string * (string * option string * option string))
  : ImagePathEntry :=
  let '(id, (original, webp, avif)) := img in
  {| e_id := id;
     e_paths := {| j_original := original;
                   j_webp := webp ≫= JS.or_absent;
                   j_avif := avif ≫= JS.or_absent |} |}.

Definition delete_job (name : string) (entries : list ImagePathEntry) : DeleteJob :=
  {| job_type := "delete_tag_images"; tagName := name; imagePaths := entries |}.

Definition deleteTagHandler (param_name : string) : M Response :=
  catch
    (name <- lift (Deps.decodeURIComponent D param_name) "URIError: URI malformed" ;;
     images <- Metadata.getImagePathsByTag B name ;;
     let imagePaths := map job_entry images in
     deletedImages <- Metadata.deleteTagWithImages B name ;;
     invalidateAfterTagChange ;;;
     (if (0 <? length imagePaths)%nat
      then
        let chunkSize := 50%nat in
        for_loop (length imagePaths) 0 (length imagePaths) chunkSize
          (fun i _ =>
             queue_send (delete_job name (JS.slice i (i + chunkSize) imagePaths)))
          tt
      else ret tt) ;;;
     ret (successResponse
            (DeleteTagPayload "标签及关联图片已删除" deletedImages)))
    (fun _ => ret (errorResponse "删除标签失败" None)).

End WithEnvironment.

End Handlers.

(** ** Vocabulary of the statements *)

Module Spec.
Import Types Runtime.

(** The calls a run from [w] to [w'] added to the log. *)
Definition emitted (w w' : World) : list event :=
  drop (length (log w)) (log w').

(** The environment's verdict on the [i]-th call a run emitted from [w]:
    [Some message] when that call was rejected. *)
Definition verdict (B : Bindings) (w : World) (ev : list event) (i : nat)
  : option string :=
  rejects B (log w ++ take (S i) ev).

(** Both target dimensions are one common factor times the source
    dimensions, each rounded to the nearest integer; [Number.u] bounds the
    relative roundoff of the binary64 product. *)
Definition common_scale (width height : Z) (target : Z * Z) : Prop :=
  ∃ s : Q,
    (Qabs (inject_Z (fst target) - inject_Z width * s)
       <= (1 # 2) + Number.u * Qabs (inject_Z width * s))%Q ∧
    (Qabs (inject_Z (snd target) - inject_Z height * s)
       <= (1 # 2) + Number.u * Qabs (inject_Z height * s))%Q.

(** What the dimension computation owes its caller for a source
    [width] x [height] and bounds [maxWidth] x [maxHeight]. *)
Definition fits_bounds (width height maxWidth maxHeight : Z) (target : Z * Z) : Prop :=
  fst target <= maxWidth ∧ snd target <= maxHeight ∧
  fst target <= width ∧ snd target <= height ∧
  (width <= maxWidth -> height <= maxHeight -> target = (width, height)) ∧
  common_scale width height target.

(** The frame markers a scan of the byte stream finds: at each position
    before the last, a Graphic Control Extension introducer ([0x21 0xF9])
    and an Image Descriptor separator ([0x2C]) count once each. *)
Definition markers_at (bytes : JS.bytes) (i : nat) : nat :=
  ((if bool_decide (bytes !! i = Some x21) && bool_decide (bytes !! (i + 1)%nat = Some xf9)
    then 1 else 0) +
   (if bool_decide (bytes !! i = Some x2c) then 1 else 0))%nat.

(** The markers at the [n] positions from [i] on. *)
Fixpoint markers_from (bytes : JS.bytes) (n i : nat) : nat :=
  match n with
  | O => O
  | S n' => (markers_at bytes i + markers_from bytes n' (S i))%nat
  end.

Definition frame_markers (bytes : JS.bytes) : nat :=
  markers_from bytes (length bytes - 1) 0.

(** [e] is a transform call for [format]. *)
Definition is_transform (format : string) (e : event) : bool :=
  match e with
  | Transform _ f _ _ _ => String.eqb f format
  | _ => false
  end.

(** Number of transform calls for [format] among [ev]. *)
Fixpoint count_transforms (format : string) (ev : list event) : nat :=
  match ev with
  | [] => O
  | e :: ev' =>
      ((if is_transform format e then 1 else 0) + count_transforms format ev')%nat
  end.

(** Among the calls [ev] emitted from [w], the call [e] was made and the
    environment accepted it. *)
Definition accepted (B : Bindings) (w : World) (ev : list event) (e : event) : Prop :=
  ∃ pre post, ev = (pre ++ e :: post)%list ∧ rejects B (log w ++ pre ++ [e]) = None.

(** A transform to [format] succeeded during the run. *)
Definition transform_succeeded (B : Bindings) (w : World) (ev : list event)
    (format : string) : Prop :=
  ∃ input quality tw th, accepted B w ev (Transform input format quality tw th).

(** [withRetry] tries again after a failed [attempt]: the message is
    transient and attempts remain. *)
Definition retried (attempts : nat) (message : string) (attempt : nat) : bool :=
  Compression.isRetryableTransformError message && (attempt <? attempts)%nat.

(** The delay before the attempt that follows [attempt]. *)
Definition backoff (base : Z) (attempt : nat) : Z :=
  base * 2 ^ (Z.of_nat attempt - 1).

(** The calls [seg] of one retried transform [T], emitted after the log
    [L], the first of them being attempt number [first]: every failed
    attempt is either followed by the backoff delay and the next attempt,
    or it is the last call. *)
Definition retry_segment (B : Bindings) (T : event) (format : string)
    (attempts : nat) (base : Z) (first : nat) (L seg : list event) : Prop :=
  Forall (fun e => e = T ∨ ∃ ms, e = Sleep ms) seg ∧
  (first + count_transforms format seg <= S attempts)%nat ∧
  ∀ pre post message,
    seg = (pre ++ T :: post)%list ->
    rejects B (L ++ pre ++ [T]) = Some message ->
    let attempt := (first + count_transforms format pre)%nat in
    if retried attempts message attempt
    then ∃ post', post = Sleep (backoff base attempt) :: T :: post'
    else post = [].

(** The calls [seg] [compress] makes for one variant and the variant [o]
    it keeps: nothing when generation is switched off; otherwise a retry
    segment that starts with the transform [T], the variant being kept
    exactly when one attempt was accepted. *)
Definition variant_segment (B : Bindings) (T : event) (format : string)
    (generate : bool) (attempts : nat) (L seg : list event)
    (o : option CompressedImage) : Prop :=
  if generate then
    head seg = Some T ∧
    retry_segment B T format attempts 120 1 L seg ∧
    (is_Some o <->
       ∃ pre post, seg = pre ++ T :: post ∧ rejects B (L ++ pre ++ [T]) = None)
  else seg = [] ∧ o = None.

(** The number of attempts [compress] grants a format. *)
Definition attempts_for (format : string) : nat :=
  if String.eqb format "image/webp" then 2%nat else 3%nat.

(** Every call a run of [m] adds to the log satisfies [P]. *)
Definition emits {A} (P : event -> Prop) (m : M A) : Prop :=
  ∀ w, ∃ ev, log (fst (m w)) = log w ++ ev ∧ Forall P ev.

(** The image with id [image_id] is associated with the tag [name]. *)
Definition tagged (d : DB) (image_id name : string) : Prop :=
  ∃ it t, it ∈ t_image_tags d ∧ t ∈ t_tags d ∧
          it_image_id it = image_id ∧ it_tag_id it = tag_id t ∧ tag_name t = name.

(** The three conditions of [getRandomImage] on a stored image: every
    requested tag, no excluded tag, the requested orientation. *)
Definition matches (d : DB) (filters : option Metadata.RandomFilters)
    (i : ImageRow) : Prop :=
  (∀ name, name ∈ Metadata.requested (filters ≫= Metadata.f_tags) ->
           tagged d (row_id i) name) ∧
  (∀ name, name ∈ Metadata.requested (filters ≫= Metadata.f_exclude) ->
           ¬ tagged d (row_id i) name) ∧
  (∀ o, filters ≫= Metadata.f_orientation = Some o -> JS.truthy o = true ->
        row_orientation i = o).

(** A prepared statement binds at most [n] parameters, one per [?]. *)
Definition binds_at_most (n : nat) (stmt : Statement) : Prop :=
  (length (binds stmt) <= n)%nat ∧
  Metadata.count_placeholders (sql stmt) = length (binds stmt).

(** A list cut into consecutive pieces of [size] elements, the last one
    possibly shorter; [fuel] bounds the number of pieces. *)
Fixpoint chunks {A} (fuel size : nat) (xs : list A) : list (list A) :=
  match fuel with
  | O => []
  | S fuel' =>
      match xs with
      | [] => []
      | _ :: _ => take size xs :: chunks fuel' size (drop size xs)
      end
  end.

(** The steps of a tag deletion, in the order of section 4.4: the read
    of the affected paths, the metadata deletion (images, then the tag),
    the cache invalidation, and one queue submission per chunk of 50
    entries. *)
Definition delete_tag_plan (name : string) (entries : list ImagePathEntry)
  : list event :=
  [D1 [Metadata.paths_by_tag_statement name];
   D1 [Metadata.delete_images_by_tag_statement name];
   D1 [Metadata.delete_tag_statement name];
   Invalidate "afterTagChange"]
  ++ map (fun c => Send (Handlers.delete_job name c))
         (chunks (length entries) 50 entries).

(** A plan carried out call by call after the log [L], up to and
    including the first call the environment rejects: the calls made and
    the rejection, if any. *)
Fixpoint performed (B : Bindings) (L plan : list event)
  : list event * option string :=
  match plan with
  | [] => ([], None)
  | e :: plan' =>
      match rejects B (L ++ [e]) with
      | Some message => ([e], Some message)
      | None =>
          let '(ev, rejection) := performed B (L ++ [e]) plan' in
          (e :: ev, rejection)
      end
  end.

(** The stored path of a variant is used as it is: URLs prefer stored
    variants, the path is set, and it is not the marker (the original's
    own path on an image of another format). *)
Definition stored_variant (preferStoredVariants : bool)
    (variant_path original_path formatLower target : string) : bool :=
  preferStoredVariants && JS.truthy variant_path
  && negb (JS.truthy variant_path && String.eqb variant_path original_path
           && negb (String.eqb formatLower target)).

(** The source format can be transformed by the CDN. *)
Definition transform_fallback (formatLower : string) : bool :=
  String.eqb formatLower "jpeg" || String.eqb formatLower "jpg"
  || String.eqb formatLower "png".

(** Integers a pixel dimension or a configured bound can take. *)
Definition pixel_range (n : Z) : Prop := 0 < n <= 2 ^ 50.
Definition bound_range (n : Z) : Prop := - 2 ^ 50 <= n <= 2 ^ 50.

(** How a numeric option is read from the form field [field]: the
    fallback when the field is absent or empty, and the number itself
    when the field holds the decimal rendering of an integer that
    binary64 represents exactly (up to [2^53] in absolute value). *)
Definition reads_number (formData : FormData.t) (field : string)
    (fallback value : Z) : Prop :=
  (FormData.get_text field formData = None ∨ FormData.get_text field formData = Some ""
   -> value = fallback) ∧
  (∀ n, - 2 ^ 53 <= n <= 2 ^ 53 ->
        FormData.get_text field formData = Some (JS.Z_to_string n) -> value = n).

(** A switch is off exactly when the form field [field] is the text
    [false]. *)
Definition switched_off_by_false (formData : FormData.t) (field : string)
    (flag : bool) : Prop :=
  flag = false <-> FormData.get field formData = Some (FormData.Text "false").


(** A computation that only makes calls: database, bucket and queue are
    as before, the log is extended. *)
Definition only_logs {A} (m : M A) : Prop :=
  ∀ w, ∃ ev, fst (m w) = with_log (log w ++ ev) w.

(** A computation that leaves the database and the queue as they are. *)
Definition keeps_metadata {A} (m : M A) : Prop :=
  ∀ w, db (fst (m w)) = db w ∧ queue (fst (m w)) = queue w.

(** The delays slept during a run, added up. *)
Fixpoint total_sleep (ev : list event) : Z :=
  match ev with
  | [] => 0
  | Sleep ms :: ev' => ms + total_sleep ev'
  | _ :: ev' => total_sleep ev'
  end.

(** The delays [withRetry] can sleep from attempt [attempt] on when
    [remaining] attempts are left: one backoff after each attempt but the
    last. *)
Fixpoint sleep_budget (base : Z) (attempt remaining : nat) : Z :=
  match remaining with
  | O => 0
  | S remaining' =>
      match remaining' with
      | O => 0
      | S _ => backoff base attempt + sleep_budget base (S attempt) remaining'
      end
  end.

(** The keys of the three tables: [images.id], [tags.id], the unique
    [tags.name] and the pair [(image_id, tag_id)] of [image_tags]. *)
Definition keys_hold (d : DB) : Prop :=
  NoDup (map row_id (t_images d)) ∧ NoDup (map tag_id (t_tags d)) ∧
  NoDup (map tag_name (t_tags d)) ∧ NoDup (t_image_tags d).

(** The two foreign keys of [image_tags]. *)
Definition references_hold (d : DB) : Prop :=
  ∀ it, it ∈ t_image_tags d ->
        it_image_id it ∈ map row_id (t_images d) ∧
        it_tag_id it ∈ map tag_id (t_tags d).

(** The names of the tags of an image.  The query of [enrichWithTags]
    has no ORDER BY: the order of this list is the model's, the engine
    may return the names in another, and statements about the code speak
    of the list up to permutation. *)
Definition tags_for (d : DB) (image_id : string) : list string :=
  map snd (Metadata.tags_of_images d [image_id]).

(** The run made no call to the transform service. *)
Definition no_transform (ev : list event) : Prop :=
  ∀ input format quality tw th, Transform input format quality tw th ∉ ev.

End Spec.

(** ** Concrete environments

    Inputs on which the model is run in the examples of Part II. *)

Module Scenario.
Import Types Runtime.

(** Modelled from the spec: [StorageService.generatePaths] is missing
    from the sources; section 6 says keys are deterministic paths derived
    from image id, orientation and format.  The layout below is one such
    derivation; a GIF has no variant keys, as [uploadSingleHandler]
    uploads none for it. *)
Definition generatePaths (id orientation format : string) : Paths :=
  if String.eqb format "gif"
  then {| p_original := "original/" +:+ orientation +:+ "/" +:+ id +:+ ".gif";
          p_webp := ""; p_avif := "" |}
  else {| p_original := "original/" +:+ orientation +:+ "/" +:+ id +:+ "." +:+ format;
          p_webp := orientation +:+ "/webp/" +:+ id +:+ ".webp";
          p_avif := orientation +:+ "/avif/" +:+ id +:+ ".avif" |}.

(** A parser for URLs of the form [https://host/path]. *)
Definition parse_https (s : string) : option Deps.URL :=
  if JS.startsWith "https://" s then
    let rest := String.substring 8 (String.length s - 8) s in
    let cut := default (String.length rest) (String.index 0 "/" rest) in
    Some {| Deps.scheme := "https";
            Deps.after_scheme := String.substring 6 (String.length s - 6) s;
            Deps.origin := "https://" +:+ String.substring 0 cut rest;
            Deps.pathname := String.substring cut (String.length rest - cut) rest;
            Deps.search := "" |}
  else None.

Definition deps : Deps.t :=
  {| Deps.URL_new := fun input base =>
       match base with
       | Some b => parse_https (b +:+ input)
       | None => parse_https input
       end;
     Deps.decodeURIComponent := Some;
     Deps.parseTags := fun o =>
       match o with
       | Some s => if JS.truthy s then [s] else []
       | None => []
       end;
     Deps.parseNumber := CompressionForm.parseNumber;
     Deps.isMobileDevice := fun ua =>
       match ua with
       | Some s => JS.includes "Mobile" s
       | None => false
       end;
     Deps.getBestFormat := fun accept =>
       match accept with
       | Some s => if JS.includes "image/avif" s then "avif"
                   else if JS.includes "image/webp" s then "webp" else "original"
       | None => "original"
       end;
     Deps.generateImageId := "img1";
     Deps.isSupportedFormat := fun f =>
       bool_decide (f ∈ ["jpeg"; "png"; "gif"; "webp"; "avif"]);
     Deps.getContentType := fun f => "image/" +:+ f;
     Deps.generatePaths := generatePaths;
     Deps.now_iso := "2025-01-01T00:00:00.000Z";
     Deps.expiry_iso := fun _ => "2025-01-02T00:00:00.000Z" |}.

Definition env : Handlers.Env :=
  {| Handlers.R2_PUBLIC_URL := "https://cdn.example"; Handlers.IMAGES := true |}.

Definition encoded (format : string) : CompressedImage :=
  {| data := [x52; x49]; contentType := format; size := 2 |}.

(** Every call succeeds; the decoder sees a 2000x3000 JPEG. *)
Definition calm : Bindings :=
  {| rejects := fun _ => None;
     images_output := fun _ format _ _ _ => encoded format;
     decode := fun _ => {| info_format := "jpeg"; info_width := 2000;
                           info_height := 3000; info_orientation := "portrait" |};
     random := fun _ => O |}.

(** Every call succeeds and [RANDOM()] draws [draw]. *)
Definition drawing (draw : nat) : Bindings :=
  {| rejects := rejects calm;
     images_output := images_output calm;
     decode := decode calm;
     random := fun _ => draw |}.

(** The call just logged. *)
Definition last_event (l : list event) : option event := last l.

(** The transform to WebP is refused with a permanent error. *)
Definition webp_refused : Bindings :=
  {| rejects := fun l =>
       match last_event l with
       | Some (Transform _ format _ _ _) =>
           if String.eqb format "image/webp" then Some "Invalid image data" else None
       | _ => None
       end;
     images_output := images_output calm;
     decode := decode calm;
     random := random calm |}.

(** The transform service times out on every call. *)
Definition always_timeout : Bindings :=
  {| rejects := fun l =>
       match last_event l with
       | Some (Transform _ _ _ _ _) => Some "Request Timeout"
       | _ => None
       end;
     images_output := images_output calm;
     decode := decode calm;
     random := random calm |}.

(** The database refuses every [DELETE]. *)
Definition delete_refused : Bindings :=
  {| rejects := fun l =>
       match last_event l with
       | Some (D1 (stmt :: _)) =>
           if JS.startsWith "DELETE" (sql stmt) then Some "D1_ERROR: database is locked"
           else None
       | _ => None
       end;
     images_output := images_output calm;
     decode := decode calm;
     random := random calm |}.

Definition empty_db : DB := {| t_images := []; t_tags := []; t_image_tags := [] |}.

Definition world (d : DB) : World :=
  {| log := []; db := d; bucket := ∅; queue := [] |}.

Definition image_row (id orientation format : string) (webp avif : option string)
  : ImageRow :=
  {| row_id := id; original_name := id +:+ "." +:+ format;
     upload_time := "2025-01-01T00:00:00.000Z"; expiry_time := None;
     row_orientation := orientation; row_format := format;
     row_width := 2000; row_height := 1000;
     path_original := "original/" +:+ orientation +:+ "/" +:+ id +:+ "." +:+ format;
     path_webp := webp; path_avif := avif;
     size_original := 10; size_webp := 5; size_avif := 4 |}.

(** One landscape JPEG without any tag. *)
Definition untagged_db : DB :=
  {| t_images := [image_row "u1" "landscape" "jpeg" None None];
     t_tags := [{| tag_id := 1; tag_name := "nsfw" |}];
     t_image_tags := [] |}.

(** Three images tagged [cat]; the first is also tagged [dog]. *)
Definition cats_db : DB :=
  {| t_images := [image_row "a" "landscape" "jpeg" (Some "landscape/webp/a.webp") None;
                  image_row "b" "landscape" "png" None None;
                  image_row "c" "portrait" "gif" None None];
     t_tags := [{| tag_id := 1; tag_name := "cat" |};
                {| tag_id := 2; tag_name := "dog" |}];
     t_image_tags := [{| it_image_id := "a"; it_tag_id := 1 |};
                      {| it_image_id := "a"; it_tag_id := 2 |};
                      {| it_image_id := "b"; it_tag_id := 1 |};
                      {| it_image_id := "c"; it_tag_id := 1 |}] |}.

Definition jpeg_file : FormData.File :=
  {| FormData.file_name := "photo.jpg";
     FormData.file_bytes := [xff; xd8; xff; xe0; x00; x10] |}.

Definition upload_form : FormData.t :=
  [("image", FormData.Blob jpeg_file); ("tags", FormData.Text "cat")].

(** [n] image ids [id0], [id1], ... *)
Definition many_ids (n : nat) : list string :=
  map (fun k => "id" +:+ JS.Z_to_string (Z.of_nat k)) (seq 0 n).

(** Every call succeeds; the decoder sees a 2000x3000 image of [format]. *)
Definition decoding (format : string) : Bindings :=
  {| rejects := rejects calm;
     images_output := images_output calm;
     decode := fun _ => {| info_format := format; info_width := 2000;
                           info_height := 3000; info_orientation := "portrait" |};
     random := random calm |}.

(** The worker without the [IMAGES] binding. *)
Definition env_without_images : Handlers.Env :=
  {| Handlers.R2_PUBLIC_URL := "https://cdn.example"; Handlers.IMAGES := false |}.

(** The metadata of a new portrait PNG tagged [cat] and [bird]. *)
Definition new_image : ImageMetadata :=
  {| id := "d"; originalName := "d.png"; uploadTime := "2025-01-01T00:00:00.000Z";
     expiryTime := None; orientation := "portrait"; tags := ["cat"; "bird"];
     format := "png"; width := 1000; height := 2000;
     paths := {| p_original := "original/portrait/d.png";
                 p_webp := "portrait/webp/d.webp"; p_avif := "" |};
     sizes := {| s_original := 10; s_webp := 5; s_avif := 0 |} |}.

(** Metadata whose id is the id of a stored image of [cats_db]. *)
Definition taken_image : ImageMetadata :=
  {| id := "a"; originalName := "again.png"; uploadTime := "2025-01-01T00:00:00.000Z";
     expiryTime := None; orientation := "portrait"; tags := ["bird"];
     format := "png"; width := 1000; height := 2000;
     paths := {| p_original := "original/portrait/a.png"; p_webp := ""; p_avif := "" |};
     sizes := {| s_original := 10; s_webp := 0; s_avif := 0 |} |}.

(** New tags and no expiry time for an image. *)
Definition retag : MetadataQueries.ImageUpdates :=
  {| MetadataQueries.u_tags := Some ["dog"; "bird"; "dog"];
     MetadataQueries.u_expiryTime := Some "" |}.

End Scenario.

(* ===================================================================== *)
(** * Part II: properties                                                *)
(* ===================================================================== *)

(** ** Binary64 rounding *)

Module NumberFacts.
Import Number.

Local Open Scope Q_scope.

Lemma round_half_even_err (y : Q) :
  Qabs (inject_Z (round_half_even y) - y) <= 1 # 2.
Proof.
  unfold round_half_even.
  pose proof (Qfloor_le y) as Hlo.
  pose proof (Qlt_floor y) as Hhi.
  rewrite inject_Z_plus in Hhi. change (inject_Z 1) with 1 in Hhi.
  apply Qabs_Qle_condition.
  destruct (Qcompare (y - inject_Z (Qfloor y)) (1 # 2)) eqn:Hc;
    [apply Qeq_alt in Hc; destruct (Z.even (Qfloor y))
    |apply Qlt_alt in Hc|apply Qgt_alt in Hc];
    rewrite ?inject_Z_plus; change (inject_Z 1) with 1;
    generalize dependent (inject_Z (Qfloor y)); intros q **; split; lra.
Qed.

Lemma two_pow_pos (k : Z) : 0 < 2 ^ k.
Proof. apply Qpower_0_lt. reflexivity. Qed.

Lemma Qdiv_le_cross (a b qn qd : Q) :
  0 < a -> 0 < b -> 0 < qd -> a <= qn -> qd < b -> a / b <= qn / qd.
Proof.
  intros Ha Hb Hd H1 H2.
  apply Qle_shift_div_l; [exact Hd|].
  assert (Hab : a / b * qd == a * qd / b) by (field; lra).
  rewrite Hab. apply Qle_shift_div_r; [exact Hb|]. nra.
Qed.

(** [ilog2] never overshoots: [2 ^ ilog2 x <= |x|]. *)
Lemma ilog2_le (x : Q) : ~ x == 0 -> 2 ^ ilog2 x <= Qabs x.
Proof.
  intros Hx. unfold ilog2.
  set (n := Z.abs (Qnum x)). set (d := Zpos (Qden x)).
  set (k := (Z.log2 n - Z.log2 d)%Z).
  destruct (Qle_bool (2 ^ k) (Qabs x)) eqn:Hb.
  - apply Qle_bool_iff in Hb. exact Hb.
  - assert (Hn : (0 < n)%Z).
    { unfold n. destruct x as [xn xd]. unfold Qeq in Hx. simpl in *. lia. }
    assert (Hd : (0 < d)%Z) by (unfold d; lia).
    assert (Habs : Qabs x == inject_Z n / inject_Z d).
    { destruct x as [xn xd]. unfold n, d, Qabs. simpl.
      rewrite (Qmake_Qdiv (Z.abs xn) xd). reflexivity. }
    assert (H1 : inject_Z (2 ^ Z.log2 n)%Z <= inject_Z n).
    { rewrite <- Zle_Qle. apply Z.log2_spec. exact Hn. }
    assert (H2 : inject_Z d < inject_Z (2 ^ (Z.log2 d + 1))%Z).
    { rewrite <- Zlt_Qlt. change (Z.log2 d + 1)%Z with (Z.succ (Z.log2 d)).
      apply Z.log2_spec. exact Hd. }
    rewrite Zpower_Qpower in H1 by apply Z.log2_nonneg.
    rewrite Zpower_Qpower in H2 by (pose proof (Z.log2_nonneg d); lia).
    assert (Hk : 2 ^ (k - 1)
                 == inject_Z 2 ^ Z.log2 n / inject_Z 2 ^ (Z.log2 d + 1)).
    { unfold k.
      replace (Z.log2 n - Z.log2 d - 1)%Z
        with (Z.log2 n - (Z.log2 d + 1))%Z by lia.
      rewrite Qpower_minus by discriminate. reflexivity. }
    rewrite Hk, Habs.
    apply Qdiv_le_cross; try assumption.
    + apply Qpower_0_lt; reflexivity.
    + apply Qpower_0_lt; reflexivity.
Qed.

(** The standard model of floating-point arithmetic: a rounded result is
    off by a relative error of at most [u]. *)
Lemma fl_rel_err (x : Q) : Qabs (fl x - x) <= Qabs x * u.
Proof.
  unfold fl. destruct (Qeq_bool x 0) eqn:Hz.
  - apply Qeq_bool_iff in Hz. rewrite Hz. vm_compute. discriminate.
  - assert (Hx : ~ x == 0) by (intros H; apply Qeq_bool_iff in H; congruence).
    pose proof (ilog2_le x Hx) as Hl.
    set (e := (ilog2 x - 52)%Z).
    pose proof (round_half_even_err (x / 2 ^ e)) as Hr.
    pose proof (two_pow_pos e) as He.
    assert (Hpe : 2 ^ ilog2 x == 2 ^ e * 2 ^ 52).
    { unfold e. rewrite <- Qpower_plus by discriminate. f_equiv. lia. }
    rewrite Hpe in Hl.
    assert (Heq : inject_Z (round_half_even (x / 2 ^ e)) * 2 ^ e - x
                  == (inject_Z (round_half_even (x / 2 ^ e)) - x / 2 ^ e) * 2 ^ e).
    { field. lra. }
    rewrite Heq, Qabs_Qmult, (Qabs_pos (2 ^ e)) by lra.
    change u with (1 # 9007199254740992).
    change (2 ^ 52) with (4503599627370496 # 1) in Hl.
    set (r := Qabs (inject_Z (round_half_even (x / 2 ^ e)) - x / 2 ^ e)) in *.
    set (ax := Qabs x) in *. set (p := 2 ^ e) in *.
    clearbody r ax p. clear Hpe Heq.
    assert (Hrp : r * p <= (1 # 2) * p) by (apply Qmult_le_compat_r; lra).
    lra.
Qed.

Lemma fl_bounds (x : Q) :
  (0 <= x -> x * (1 - u) <= fl x <= x * (1 + u)) /\
  (x <= 0 -> x * (1 + u) <= fl x <= x * (1 - u)).
Proof.
  pose proof (fl_rel_err x) as H. apply Qabs_Qle_condition in H.
  split; intros Hx.
  - rewrite (Qabs_pos x) in H by exact Hx.
    change u with (1 # 9007199254740992) in *. lra.
  - rewrite (Qabs_neg x) in H by exact Hx.
    change u with (1 # 9007199254740992) in *. lra.
Qed.

(** A product with a factor at most the rounded quotient [m / w] stays
    below [m + 1/2]. *)
Lemma scaled_below (m w s : Q) :
  0 < w -> - (2 ^ 50) <= m <= 2 ^ 50 -> s <= fdiv m w -> fmul w s < m + (1 # 2).
Proof.
  intros Hw Hm Hs. unfold fdiv, fmul in *.
  change (2 ^ 50) with (1125899906842624 # 1) in Hm.
  assert (Hq : m / w * w == m) by (field; lra).
  destruct (fl_bounds (m / w)) as [Hqp Hqn].
  destruct (fl_bounds (w * s)) as [Htp Htn].
  change u with (1 # 9007199254740992) in *.
  set (a := fl (m / w)) in *. set (y := fl (w * s)) in *. set (q := m / w) in *.
  clearbody a y q.
  destruct (Qlt_le_dec m 0) as [Hneg | Hpos].
  - assert (Hq0 : q <= 0) by nra.
    specialize (Hqn Hq0).
    assert (Ht0 : w * s <= 0) by nra.
    specialize (Htn Ht0). nra.
  - assert (Hq0 : 0 <= q) by nra.
    specialize (Hqp Hq0).
    destruct (Qlt_le_dec (w * s) 0) as [Htneg | Htpos].
    + assert (Ht0 : w * s <= 0) by lra. specialize (Htn Ht0). nra.
    + specialize (Htp Htpos). nra.
Qed.

(** A proper fraction of integers rounds to at most one. *)
Lemma div_proper_le_1 (m h : Q) :
  1 <= h <= 2 ^ 50 -> m <= h - 1 -> fdiv m h <= 1.
Proof.
  intros Hh Hm. unfold fdiv.
  change (2 ^ 50) with (1125899906842624 # 1) in Hh.
  assert (Hq : m / h * h == m) by (field; lra).
  destruct (fl_bounds (m / h)) as [Hqp Hqn].
  change u with (1 # 9007199254740992) in *.
  set (a := fl (m / h)) in *. set (q := m / h) in *. clearbody a q.
  destruct (Qlt_le_dec q 0) as [Hneg | Hpos].
  - assert (Hq0 : q <= 0) by lra. specialize (Hqn Hq0). nra.
  - specialize (Hqp Hpos). nra.
Qed.

(** A product with a factor at most one stays below [w + 1/2]. *)
Lemma shrunk_below (w s : Q) :
  0 < w <= 2 ^ 50 -> s <= 1 -> fmul w s < w + (1 # 2).
Proof.
  intros Hw Hs. unfold fmul.
  change (2 ^ 50) with (1125899906842624 # 1) in Hw.
  destruct (fl_bounds (w * s)) as [Htp Htn].
  change u with (1 # 9007199254740992) in *.
  set (y := fl (w * s)) in *. clearbody y.
  destruct (Qlt_le_dec (w * s) 0) as [Htneg | Htpos].
  - assert (Ht0 : w * s <= 0) by lra. specialize (Htn Ht0). nra.
  - specialize (Htp Htpos). nra.
Qed.

Lemma fmin_le_l (a b : Q) : fmin a b <= a.
Proof.
  unfold fmin. destruct (Qle_bool a b) eqn:H.
  - apply Qle_refl.
  - destruct (Qlt_le_dec b a) as [Hlt | Hle]; [apply Qlt_le_weak; exact Hlt|].
    apply Qle_bool_iff in Hle. congruence.
Qed.

Lemma fmin_le_r (a b : Q) : fmin a b <= b.
Proof.
  unfold fmin. destruct (Qle_bool a b) eqn:H.
  - apply Qle_bool_iff. exact H.
  - apply Qle_refl.
Qed.

Lemma fround_below (x : Q) (n : Z) :
  x < inject_Z n + (1 # 2) -> (fround x <= n)%Z.
Proof.
  intros H. unfold fround.
  pose proof (Qfloor_le (x + (1 # 2))) as Hf.
  assert (Hlt : inject_Z (Qfloor (x + (1 # 2))) < inject_Z (n + 1)).
  { rewrite inject_Z_plus. change (inject_Z 1) with 1. lra. }
  rewrite <- Zlt_Qlt in Hlt. lia.
Qed.

Lemma fround_err (x : Q) : Qabs (inject_Z (fround x) - x) <= 1 # 2.
Proof.
  unfold fround.
  pose proof (Qfloor_le (x + (1 # 2))) as Hlo.
  pose proof (Qlt_floor (x + (1 # 2))) as Hhi.
  rewrite inject_Z_plus in Hhi. change (inject_Z 1) with 1 in Hhi.
  apply Qabs_Qle_condition. split; lra.
Qed.

End NumberFacts.

(** ** [calculateDimensions] *)

Module DimensionFacts.
Import Number NumberFacts Spec.

Lemma inject_bound (n : Z) : bound_range n -> (- (2 ^ 50) <= inject_Z n <= 2 ^ 50)%Q.
Proof.
  unfold bound_range. intros [H1 H2].
  change (2 ^ 50)%Q with (inject_Z (2 ^ 50)).
  rewrite <- inject_Z_opp, <- !Zle_Qle. lia.
Qed.

Lemma inject_pixel (n : Z) : pixel_range n -> (1 <= inject_Z n <= 2 ^ 50)%Q.
Proof.
  unfold pixel_range. intros [H1 H2].
  change (2 ^ 50)%Q with (inject_Z (2 ^ 50)). change 1%Q with (inject_Z 1).
  rewrite <- !Zle_Qle. lia.
Qed.

Lemma scale_le_1 (width height maxWidth maxHeight : Z) :
  pixel_range width -> pixel_range height ->
  (maxWidth < width ∨ maxHeight < height) ->
  (fmin (fdiv (inject_Z maxWidth) (inject_Z width))
            (fdiv (inject_Z maxHeight) (inject_Z height)) <= 1)%Q.
Proof.
  intros Hw Hh [Hlt | Hlt].
  - eapply Qle_trans; [apply fmin_le_l|].
    apply div_proper_le_1; [apply inject_pixel; exact Hw|].
    change 1%Q with (inject_Z 1). unfold Qminus. rewrite <- inject_Z_opp, <- inject_Z_plus, <- Zle_Qle. lia.
  - eapply Qle_trans; [apply fmin_le_r|].
    apply div_proper_le_1; [apply inject_pixel; exact Hh|].
    change 1%Q with (inject_Z 1). unfold Qminus. rewrite <- inject_Z_opp, <- inject_Z_plus, <- Zle_Qle. lia.
Qed.

Lemma rounded_product (n : Z) (s : Q) :
  (Qabs (inject_Z (fround (fmul (inject_Z n) s)) - inject_Z n * s)
     <= (1 # 2) + u * Qabs (inject_Z n * s))%Q.
Proof.
  pose proof (fround_err (fmul (inject_Z n) s)) as H1.
  pose proof (fl_rel_err (inject_Z n * s)) as H2.
  unfold fmul in *.
  set (x := (inject_Z n * s)%Q) in *. set (y := fl x) in *.
  set (r := inject_Z (fround y)) in *.
  assert (Heq : (r - x == (r - y) + (y - x))%Q) by ring.
  rewrite Heq.
  eapply Qle_trans; [apply Qabs_triangle|].
  rewrite (Qmult_comm u). 
  apply Qplus_le_compat; assumption.
Qed.

Lemma unit_scale (x : Q) :
  (Qabs (x - x * 1) <= (1 # 2) + u * Qabs (x * 1))%Q.
Proof.
  assert (H0 : (x - x * 1 == 0)%Q) by ring.
  rewrite H0. pose proof (Qabs_nonneg (x * 1)) as Hn.
  change (Qabs 0) with 0%Q. unfold u.
  set (a := Qabs (x * 1)) in *. clearbody a. lra.
Qed.

(** With positive source dimensions every quotient is finite, and so is
    the result. *)
Lemma div_finite (m w : Z) :
  pixel_range w -> div (inject_Z m) (inject_Z w) = Finite (fdiv (inject_Z m) (inject_Z w)).
Proof.
  intros Hw. unfold div.
  destruct (Qeq_bool (inject_Z w) 0) eqn:Hz; [|reflexivity].
  apply Qeq_bool_iff in Hz. pose proof (inject_pixel w Hw). lra.
Qed.

Lemma calculateDimensions_fits_bounds (width height maxWidth maxHeight : Z) :
  pixel_range width -> pixel_range height ->
  bound_range maxWidth -> bound_range maxHeight ->
  ∃ target : Z * Z,
    Compression.calculateDimensions width height maxWidth maxHeight
    = (Int (fst target), Int (snd target)) ∧
    fits_bounds width height maxWidth maxHeight target.
Proof.
  intros Hw Hh Hmw Hmh. unfold Compression.calculateDimensions.
  destruct ((width <=? maxWidth) && (height <=? maxHeight)) eqn:Hfit.
  - exists (width, height). split; [reflexivity|].
    apply andb_true_iff in Hfit. destruct Hfit as [H1 H2].
    apply Z.leb_le in H1, H2.
    repeat split; simpl; try lia.
    exists 1%Q. split; apply unit_scale.
  - assert (Hnot : maxWidth < width ∨ maxHeight < height).
    { apply andb_false_iff in Hfit. destruct Hfit as [H | H]; apply Z.leb_gt in H; lia. }
    pose proof (scale_le_1 width height maxWidth maxHeight Hw Hh Hnot) as Hs1.
    rewrite (div_finite maxWidth width Hw), (div_finite maxHeight height Hh).
    cbn [Math_min mul Math_round].
    set (scale := fmin (fdiv (inject_Z maxWidth) (inject_Z width))
                       (fdiv (inject_Z maxHeight) (inject_Z height))) in *.
    pose proof (inject_pixel width Hw) as Hwq.
    pose proof (inject_pixel height Hh) as Hhq.
    exists (fround (fmul (inject_Z width) scale),
            fround (fmul (inject_Z height) scale)).
    split; [reflexivity|].
    repeat split; simpl.
    + apply fround_below, scaled_below;
        [lra | apply inject_bound; exact Hmw | apply fmin_le_l].
    + apply fround_below, scaled_below;
        [lra | apply inject_bound; exact Hmh | apply fmin_le_r].
    + apply fround_below, shrunk_below; [split; lra | exact Hs1].
    + apply fround_below, shrunk_below; [split; lra | exact Hs1].
    + intros. lia.
    + exists scale. split; apply rounded_product.
Qed.

End DimensionFacts.

(** ** The retry loop and the run of [compress] *)

Module RetryFacts.
Import Types Runtime Spec Compression.

Lemma count_transforms_app (format : string) (l1 l2 : list event) :
  count_transforms format (l1 ++ l2) =
  (count_transforms format l1 + count_transforms format l2)%nat.
Proof. induction l1 as [|e l1 IH]; simpl; [reflexivity|]. rewrite IH. lia. Qed.

Section Loop.
Context (B : Bindings) (input : JS.bytes) (format : string) (q : Z) (dims : Number.integral * Number.integral).
Context (attempts : nat) (base : Z).

Local Abbreviation T := (Transform input format q (fst dims) (snd dims)).
Local Abbreviation out := (images_output B input format q (fst dims) (snd dims)).
Local Abbreviation fn := (compressToFormat B input format q dims).

Lemma compressToFormat_run (w : World) :
  fn w = (with_log (log w ++ [T]) w,
          match rejects B (log w ++ [T]) with
          | Some message => Throw message
          | None => Ok out
          end).
Proof.
  unfold compressToFormat, call. simpl.
  destruct (rejects B (log w ++ [T])); reflexivity.
Qed.

Lemma is_transform_T : is_transform format T = true.
Proof. simpl. apply String.eqb_refl. Qed.

Lemma with_log_with_log (l1 l2 : list event) (w : World) :
  with_log l2 (with_log l1 w) = with_log l2 w.
Proof. reflexivity. Qed.

Lemma withRetry_loop_unfold (remaining attempt : nat) (lastError : option string)
    (w : World) :
  withRetry_loop (S remaining) attempt attempts base lastError fn w =
  match rejects B (log w ++ [T]) with
  | None => (with_log (log w ++ [T]) w, Ok out)
  | Some message =>
      if (attempts <=? attempt)%nat || negb (isRetryableTransformError message)
      then (with_log (log w ++ [T]) w, Throw message)
      else withRetry_loop remaining (S attempt) attempts base (Some message) fn
             (with_log (log w ++ [T; Sleep (backoff base attempt)]) w)
  end.
Proof.
  simpl. unfold catch. rewrite compressToFormat_run.
  destruct (rejects B (log w ++ [T])) as [message|]; [|reflexivity].
  destruct ((attempts <=? attempt)%nat || negb (isRetryableTransformError message));
    [reflexivity|].
  unfold bind, sleep. simpl. rewrite <- app_assoc. reflexivity.
Qed.

Lemma withRetry_loop_run (remaining : nat) :
  ∀ (attempt : nat) (lastError : option string) (w : World),
    (attempt + remaining = S attempts)%nat -> (1 <= remaining)%nat ->
    ∃ seg res,
      withRetry_loop remaining attempt attempts base lastError fn w
        = (with_log (log w ++ seg) w, res) ∧
      head seg = Some T ∧
      retry_segment B T format attempts base attempt (log w) seg ∧
      (∀ pre post, seg = pre ++ T :: post ->
         rejects B (log w ++ pre ++ [T]) = None -> post = [] ∧ res = Ok out) ∧
      (∀ x, res = Ok x ->
         ∃ pre, seg = pre ++ [T] ∧ rejects B (log w ++ pre ++ [T]) = None) ∧
      (∀ message, res = Throw message ->
         ∃ pre, seg = pre ++ [T] ∧ rejects B (log w ++ pre ++ [T]) = Some message).
Proof.
  induction remaining as [|remaining IH]; intros attempt lastError w Hsum Hpos; [lia|].
  rewrite withRetry_loop_unfold.
  destruct (rejects B (log w ++ [T])) as [message|] eqn:Hrej.
  - destruct ((attempts <=? attempt)%nat || negb (isRetryableTransformError message)) eqn:Hstop.
    + (* the loop stops on this error *)
      exists [T], (Throw message).
      assert (Hret : retried attempts message attempt = false).
      { unfold retried. apply orb_true_iff in Hstop. destruct Hstop as [H | H].
        - apply Nat.leb_le in H. apply andb_false_iff. right. apply Nat.ltb_ge. exact H.
        - apply negb_true_iff in H. rewrite H. reflexivity. }
      split; [reflexivity|]. split; [reflexivity|].
      split; [|split; [|split]].
      * split; [repeat constructor|]. split.
        { simpl. rewrite String.eqb_refl. lia. }
        intros pre post msg Heq Hmsg.
        destruct pre as [|e pre]; simpl in Heq.
        -- injection Heq as <-. simpl in *. rewrite Nat.add_0_r.
           rewrite Hrej in Hmsg. injection Hmsg as <-. rewrite Hret. reflexivity.
        -- injection Heq as _ Heq. destruct pre; discriminate.
      * intros pre post Heq Hacc.
        destruct pre as [|e pre]; simpl in Heq.
        -- simpl in Hacc. congruence.
        -- injection Heq as _ Heq. destruct pre; discriminate.
      * intros x Hx. discriminate.
      * intros msg Hmsg. injection Hmsg as <-. exists []. split; [reflexivity|exact Hrej].
    + (* the loop sleeps and tries again *)
      apply orb_false_iff in Hstop. destruct Hstop as [Hlt Hretry].
      apply Nat.leb_gt in Hlt. apply negb_false_iff in Hretry.
      assert (Hret : retried attempts message attempt = true).
      { unfold retried. rewrite Hretry. apply Nat.ltb_lt in Hlt. rewrite Hlt. reflexivity. }
      set (d := backoff base attempt).
      destruct (IH (S attempt) (Some message)
                  (with_log (log w ++ [T; Sleep d]) w))
        as (seg & res & Hrun & Hhead & Hseg & Hacc & Hok & Hthrow); [lia|lia|].
      rewrite Hrun.
      exists (T :: Sleep d :: seg), res.
      simpl in *.
      assert (Hlog : ∀ l, (log w ++ [T; Sleep d]) ++ l = log w ++ T :: Sleep d :: l).
      { intros l. rewrite <- !app_assoc. reflexivity. }
      split; [rewrite Hlog; reflexivity|]. split; [reflexivity|].
      destruct Hseg as (Hall & Hcount & Hstep).
      split; [|split; [|split]].
      * split; [constructor; [left; reflexivity|constructor; [right; eexists; reflexivity|exact Hall]]|].
        split.
        { simpl. rewrite String.eqb_refl. simpl. lia. }
        intros pre post msg Heq Hmsg.
        destruct pre as [|e pre]; simpl in Heq.
        -- injection Heq as <-. simpl in *. rewrite Nat.add_0_r.
           rewrite Hrej in Hmsg. injection Hmsg as <-. rewrite Hret.
           destruct seg as [|e seg]; [discriminate|]. simpl in Hhead. injection Hhead as ->.
           eexists. reflexivity.
        -- injection Heq as <- Heq. destruct pre as [|e' pre]; [discriminate|].
           simpl in Heq. injection Heq as <- Heq.
           specialize (Hstep pre post msg Heq).
           rewrite Hlog in Hstep. simpl in Hmsg.
           specialize (Hstep Hmsg). simpl in Hstep.
           simpl. rewrite String.eqb_refl. simpl.
           replace (attempt + S (count_transforms format pre))%nat
             with (S (attempt + count_transforms format pre)) by lia.
           exact Hstep.
      * intros pre post Heq Hnone.
        destruct pre as [|e pre]; simpl in Heq.
        -- simpl in Hnone. congruence.
        -- injection Heq as <- Heq. destruct pre as [|e' pre]; [discriminate|].
           simpl in Heq. injection Heq as <- Heq.
           apply (Hacc pre post Heq). rewrite Hlog. exact Hnone.
      * intros x Hx. destruct (Hok x Hx) as (pre & Heq & Hnone).
        exists (T :: Sleep d :: pre). split; [simpl; rewrite Heq; reflexivity|].
        rewrite Hlog in Hnone. exact Hnone.
      * intros msg Hmsg. destruct (Hthrow msg Hmsg) as (pre & Heq & Hsome).
        exists (T :: Sleep d :: pre). split; [simpl; rewrite Heq; reflexivity|].
        rewrite Hlog in Hsome. exact Hsome.
  - (* the attempt succeeds *)
    exists [T], (Ok out).
    split; [reflexivity|]. split; [reflexivity|].
    split; [|split; [|split]].
    * split; [repeat constructor|]. split.
      { simpl. rewrite String.eqb_refl. lia. }
      intros pre post msg Heq Hmsg.
      destruct pre as [|e pre]; simpl in Heq.
      -- simpl in Hmsg. congruence.
      -- injection Heq as _ Heq. destruct pre; discriminate.
    * intros pre post Heq Hacc.
      destruct pre as [|e pre]; simpl in Heq.
      -- injection Heq as <-. split; reflexivity.
      -- injection Heq as _ Heq. destruct pre; discriminate.
    * intros x Hx. exists []. split; [reflexivity|exact Hrej].
    * intros msg Hmsg. discriminate.
Qed.

(** [withRetry(...).catch(() => null)] on a transform. *)
Lemma or_null_withRetry_run (label : string) (baseDelayMs : option Z) (w : World) :
  (1 <= attempts)%nat -> base = default 120 baseDelayMs ->
  ∃ seg o,
    or_null (withRetry label fn (Some attempts) baseDelayMs) w
      = (with_log (log w ++ seg) w, Ok o) ∧
    head seg = Some T ∧
    retry_segment B T format attempts base 1 (log w) seg ∧
    (is_Some o <->
       ∃ pre post, seg = pre ++ T :: post ∧ rejects B (log w ++ pre ++ [T]) = None).
Proof.
  intros Hpos Hbase. unfold or_null, withRetry, catch, bind, ret. simpl.
  rewrite <- Hbase.
  destruct (withRetry_loop_run attempts 1 None w)
    as (seg & res & Hrun & Hhead & Hseg & Hacc & Hok & Hthrow); [lia|lia|].
  rewrite Hrun. exists seg.
  destruct res as [x|message].
  - exists (Some x). split; [reflexivity|]. split; [exact Hhead|]. split; [exact Hseg|].
    split; [intros _|intros _; eexists; reflexivity].
    destruct (Hok x eq_refl) as (pre & Heq & Hnone).
    exists pre, []. split; assumption.
  - exists None. split; [reflexivity|]. split; [exact Hhead|]. split; [exact Hseg|].
    split; [intros [x Hx]; discriminate|].
    intros (pre & post & Heq & Hnone).
    destruct (Hacc pre post Heq Hnone) as [_ Hres]. discriminate.
Qed.

End Loop.

Lemma getImageDimensions_run (B : Bindings) (input : JS.bytes) (w : World) :
  getImageDimensions B input w =
  (with_log (log w ++ [GetImageDimensions input]) w,
   match rejects B (log w ++ [GetImageDimensions input]) with
   | Some message => Throw message
   | None => Ok (info_width (decode B input), info_height (decode B input))
   end).
Proof.
  unfold getImageDimensions, call. simpl.
  destruct (rejects B (log w ++ [GetImageDimensions input])); reflexivity.
Qed.

(** The run of [compress], case by case. *)
Lemma compress_run (B : Bindings) (input : JS.bytes) (format : string)
    (options : CompressionOptions) (w : World) :
  let opts := spread DEFAULT_OPTIONS options in
  let G := GetImageDimensions input in
  let width := info_width (decode B input) in
  let height := info_height (decode B input) in
  let target := calculateDimensions width height (r_maxWidth opts) (r_maxHeight opts) in
  let avifTarget :=
    calculateDimensions width height
      (Z.min (r_maxWidth opts) 1600) (Z.min (r_maxHeight opts) 1600) in
  let Tw := Transform input "image/webp" (r_quality opts) (fst target) (snd target) in
  let Ta := Transform input "image/avif" (r_quality opts)
              (fst avifTarget) (snd avifTarget) in
  if String.eqb format "gif" && isAnimatedGif input && r_preserveAnimation opts
  then compress B input format options w
       = (w, Ok {| original := input; webp := None; avif := None; isAnimated := true |})
  else
    match rejects B (log w ++ [G]) with
    | Some message =>
        compress B input format options w = (with_log (log w ++ [G]) w, Throw message)
    | None =>
        ∃ segw sega ow oa,
          compress B input format options w
            = (with_log (log w ++ [G] ++ segw ++ sega) w,
               Ok {| original := input; webp := ow; avif := oa; isAnimated := false |}) ∧
          variant_segment B Tw "image/webp" (r_generateWebp opts) 2
            (log w ++ [G]) segw ow ∧
          variant_segment B Ta "image/avif" (r_generateAvif opts) 3
            (log w ++ [G] ++ segw) sega oa
    end.
Proof.
  intros opts G width height target avifTarget Tw Ta.
  unfold compress. fold opts.
  destruct (String.eqb format "gif" && isAnimatedGif input && r_preserveAnimation opts);
    [reflexivity|].
  destruct (rejects B (log w ++ [G])) as [message|] eqn:HG;
    unfold bind at 1; rewrite getImageDimensions_run; fold G; rewrite HG;
    [reflexivity|].
  cbn [fst snd]. fold width height. fold target avifTarget.
  set (w1 := with_log (log w ++ [G]) w).
  assert (Hw : ∃ segw ow,
    (if r_generateWebp opts
     then or_null (withRetry "WebP compression"
                     (compressToFormat B input "image/webp" (r_quality opts) target)
                     (Some 2%nat) None)
     else ret None) w1 = (with_log (log w1 ++ segw) w1, Ok ow) ∧
    variant_segment B Tw "image/webp" (r_generateWebp opts) 2 (log w1) segw ow).
  { unfold variant_segment. destruct (r_generateWebp opts).
    - destruct (or_null_withRetry_run B input "image/webp" (r_quality opts) target 2 120
                  "WebP compression" None w1)
        as (seg & o & Hrun & Hhead & Hseg & Hiff); [lia|reflexivity|].
      exists seg, o. split; [exact Hrun|]. split; [exact Hhead|]. split; assumption.
    - exists [], None. unfold ret. rewrite app_nil_r. destruct w1; auto. }
  destruct Hw as (segw & ow & Hrunw & Hsegw).
  unfold bind at 1. rewrite Hrunw.
  set (w2 := with_log (log w1 ++ segw) w1).
  assert (Ha : ∃ sega oa,
    (if r_generateAvif opts
     then or_null (withRetry "AVIF compression"
                     (compressToFormat B input "image/avif" (r_quality opts) avifTarget)
                     (Some 3%nat) None)
     else ret None) w2 = (with_log (log w2 ++ sega) w2, Ok oa) ∧
    variant_segment B Ta "image/avif" (r_generateAvif opts) 3 (log w2) sega oa).
  { unfold variant_segment. destruct (r_generateAvif opts).
    - destruct (or_null_withRetry_run B input "image/avif" (r_quality opts) avifTarget 3 120
                  "AVIF compression" None w2)
        as (seg & o & Hrun & Hhead & Hseg & Hiff); [lia|reflexivity|].
      exists seg, o. split; [exact Hrun|]. split; [exact Hhead|]. split; assumption.
    - exists [], None. unfold ret. rewrite app_nil_r. destruct w2; auto. }
  destruct Ha as (sega & oa & Hruna & Hsega).
  unfold bind. rewrite Hruna. unfold ret.
  exists segw, sega, ow, oa.
  split; [|split].
  - unfold w2, w1. simpl. rewrite <- !app_assoc. reflexivity.
  - exact Hsegw.
  - unfold w2, w1 in Hsega. simpl in Hsega. rewrite <- !app_assoc in Hsega. exact Hsega.
Qed.

Lemma emitted_with_log (w : World) (ev : list event) :
  emitted w (with_log (log w ++ ev) w) = ev.
Proof. unfold emitted. simpl. apply drop_app_length. Qed.

Lemma emitted_refl (w : World) : emitted w w = [].
Proof. unfold emitted. apply drop_all. Qed.

(** A list equation [A ++ S ++ C = pre ++ x :: post] with [x] in neither
    [A] nor [C] splits inside [S]. *)
Lemma split_in_middle {X} (A Mid C pre post : list X) (x : X) :
  A ++ Mid ++ C = pre ++ x :: post -> x ∉ A -> x ∉ C ->
  ∃ pre' post', pre = A ++ pre' ∧ post = post' ++ C ∧ Mid = pre' ++ x :: post'.
Proof.
  revert pre. induction A as [|a A IHA]; intros pre Heq HA HC.
  - simpl in Heq. revert pre Heq.
    induction Mid as [|s Mid IHS]; intros pre Heq.
    + simpl in Heq. exfalso. apply HC. rewrite Heq. apply elem_of_app. right. left.
    + destruct pre as [|p pre]; simpl in Heq; injection Heq as -> Heq.
      * exists [], Mid. auto.
      * destruct (IHS pre Heq) as (pre' & post' & -> & -> & ->).
        exists (p :: pre'), post'. auto.
  - destruct pre as [|p pre]; simpl in Heq; injection Heq as -> Heq.
    + exfalso. apply HA. left.
    + destruct (IHA pre Heq) as (pre' & post' & -> & -> & ->).
      * intros Hin. apply HA. right. exact Hin.
      * exact HC.
      * exists pre', post'. auto.
Qed.

Lemma not_in_count_0 (format : string) (e : event) (l : list event) :
  is_transform format e = true -> count_transforms format l = 0%nat -> e ∉ l.
Proof.
  intros He. induction l as [|y l IH]; intros Hc Hin.
  - inversion Hin.
  - simpl in Hc. apply elem_of_cons in Hin. destruct Hin as [<- | Hin].
    + rewrite He in Hc. discriminate.
    + apply IH; [lia|exact Hin].
Qed.

Lemma segment_other_format (T : event) (format : string) (seg : list event) :
  Forall (fun e => e = T ∨ ∃ ms, e = Sleep ms) seg ->
  is_transform format T = false -> count_transforms format seg = 0%nat.
Proof.
  intros Hall HT. induction Hall as [|e seg [-> | [ms ->]] _ IH]; simpl.
  - reflexivity.
  - rewrite HT. exact IH.
  - exact IH.
Qed.

Lemma variant_segment_retry (B : Bindings) (T : event) (format : string)
    (generate : bool) (attempts : nat) (L seg : list event)
    (o : option CompressedImage) :
  variant_segment B T format generate attempts L seg o ->
  retry_segment B T format attempts 120 1 L seg.
Proof.
  unfold variant_segment. destruct generate.
  - intros (_ & H & _). exact H.
  - intros [-> _]. split; [constructor|]. split; [simpl; lia|].
    intros pre post message Heq. destruct pre; discriminate.
Qed.

(** A retry segment read inside a longer run. *)
Lemma lift_segment (B : Bindings) (T : event) (format : string) (attempts : nat)
    (L A Mid C pre post : list event) (message : string) :
  retry_segment B T format attempts 120 1 (L ++ A) Mid ->
  is_transform format T = true ->
  count_transforms format A = 0%nat -> count_transforms format C = 0%nat ->
  A ++ Mid ++ C = pre ++ T :: post ->
  rejects B (L ++ pre ++ [T]) = Some message ->
  if retried attempts message (S (count_transforms format pre))
  then ∃ post',
      post = Sleep (backoff 120 (S (count_transforms format pre))) :: T :: post'
  else count_transforms format post = 0%nat.
Proof.
  intros (Hall & Hcount & Hstep) HT HA HC Heq Hrej.
  destruct (split_in_middle A Mid C pre post T Heq) as (pre' & post' & -> & -> & HS).
  - eapply not_in_count_0; eassumption.
  - eapply not_in_count_0; eassumption.
  - specialize (Hstep pre' post' message HS).
    rewrite <- !app_assoc in Hrej. rewrite <- app_assoc in Hstep.
    specialize (Hstep Hrej). simpl in Hstep.
    rewrite count_transforms_app, HA. simpl.
    destruct (retried attempts message (S (count_transforms format pre'))).
    + destruct Hstep as [post'' ->]. eexists. simpl. reflexivity.
    + subst post'. simpl. exact HC.
Qed.

End RetryFacts.

Module CompressionSpec.
Import Types Runtime Spec Compression RetryFacts.

(** C5. In every run of [compress] the WebP transform is called at most
    twice and the AVIF transform at most three times; and whenever a
    transform call is rejected with [message], being attempt number
    [attempt] of its format: if the message matches a transient pattern
    and attempts remain, the next two calls are the sleep of
    [120 * 2^(attempt-1)] ms and the same transform again; otherwise no
    further transform of that format is called. *)
Theorem retry_policy (B : Bindings) (input : JS.bytes) (format : string)
    (options : CompressionOptions) (w : World) :
  let ev := emitted w (fst (compress B input format options w)) in
  (count_transforms "image/webp" ev <= 2)%nat ∧
  (count_transforms "image/avif" ev <= 3)%nat ∧
  ∀ pre post data fmt q tw th message,
    ev = pre ++ Transform data fmt q tw th :: post ->
    rejects B (log w ++ pre ++ [Transform data fmt q tw th]) = Some message ->
    let attempt := S (count_transforms fmt pre) in
    if isRetryableTransformError message && (attempt <? attempts_for fmt)%nat
    then ∃ post',
        post = Sleep (120 * 2 ^ (Z.of_nat attempt - 1))
                 :: Transform data fmt q tw th :: post'
    else count_transforms fmt post = 0%nat.
Proof.
  intros ev. subst ev.
  pose proof (compress_run B input format options w) as Hrun. cbv zeta in Hrun.
  destruct (String.eqb format "gif" && isAnimatedGif input
            && r_preserveAnimation (spread DEFAULT_OPTIONS options)).
  { rewrite Hrun. simpl. rewrite emitted_refl.
    split; [simpl; lia|]. split; [simpl; lia|].
    intros pre post data fmt q tw th message Heq. destruct pre; discriminate. }
  destruct (rejects B (log w ++ [GetImageDimensions input])) as [m|].
  { rewrite Hrun. simpl. rewrite emitted_with_log.
    split; [simpl; lia|]. split; [simpl; lia|].
    intros pre post data fmt q tw th message Heq.
    destruct pre as [|e pre]; [discriminate|]. destruct pre; discriminate. }
  destruct Hrun as (segw & sega & ow & oa & Hrun & Hw & Ha).
  rewrite Hrun. simpl fst. rewrite emitted_with_log.
  apply variant_segment_retry in Hw, Ha.
  set (Tw := Transform input "image/webp" _ _ _) in *.
  set (Ta := Transform input "image/avif" _ _ _) in *.
  pose proof Hw as (Hallw & Hcountw & _).
  pose proof Ha as (Halla & Hcounta & _).
  assert (Hwa : count_transforms "image/avif" segw = 0%nat)
    by (eapply segment_other_format; [exact Hallw|reflexivity]).
  assert (Haw : count_transforms "image/webp" sega = 0%nat)
    by (eapply segment_other_format; [exact Halla|reflexivity]).
  split; [|split].
  - simpl. rewrite count_transforms_app, Haw. lia.
  - simpl. rewrite count_transforms_app, Hwa. lia.
  - intros pre post data fmt q tw th message Heq Hrej.
    assert (Hin : Transform data fmt q tw th ∈ GetImageDimensions input :: segw ++ sega).
    { rewrite Heq. apply elem_of_app. right. left. }
    apply elem_of_cons in Hin. destruct Hin as [Hin | Hin]; [discriminate|].
    apply elem_of_app in Hin. destruct Hin as [Hin | Hin].
    + rewrite Forall_forall in Hallw. destruct (Hallw _ Hin) as [HT | [ms HT]]; [|discriminate].
      rewrite HT in *. unfold Tw in HT. injection HT as -> -> -> -> ->. fold Tw in Heq, Hrej |- *.
      apply (lift_segment B Tw "image/webp" 2 (log w) [GetImageDimensions input]
               segw sega pre post message);
        [exact Hw | reflexivity | reflexivity | exact Haw | exact Heq | exact Hrej].
    + rewrite Forall_forall in Halla. destruct (Halla _ Hin) as [HT | [ms HT]]; [|discriminate].
      rewrite HT in *. unfold Ta in HT. injection HT as -> -> -> -> ->. fold Ta in Heq, Hrej |- *.
      apply (lift_segment B Ta "image/avif" 3 (log w) ([GetImageDimensions input] ++ segw)
               sega [] pre post message);
        [exact Ha | reflexivity | exact Hwa | reflexivity | | exact Hrej].
      rewrite app_nil_r. exact Heq.
Qed.

Lemma retry_policy_witness :
  let w := Scenario.world Scenario.empty_db in
  let T := fun format tw th => Transform [x2c] format 90 tw th in
  let ev := emitted w (fst (compress Scenario.always_timeout [x2c] "png" no_options w)) in
  ev = [GetImageDimensions [x2c];
        T "image/webp" 2000 3000; Sleep 120; T "image/webp" 2000 3000;
        T "image/avif" 1067 1600; Sleep 120; T "image/avif" 1067 1600;
        Sleep 240; T "image/avif" 1067 1600] ∧
  (count_transforms "image/webp" ev <= 2)%nat ∧
  (count_transforms "image/avif" ev <= 3)%nat ∧
  (∃ post',
     [Sleep 120; T "image/avif" 1067 1600; Sleep 240; T "image/avif" 1067 1600]
     = Sleep (120 * 2 ^ (Z.of_nat 1 - 1)) :: T "image/avif" 1067 1600 :: post') ∧
  count_transforms "image/webp"
    [T "image/avif" 1067 1600; Sleep 120; T "image/avif" 1067 1600;
     Sleep 240; T "image/avif" 1067 1600] = 0%nat.
Proof.
  intros w T ev.
  destruct (retry_policy Scenario.always_timeout [x2c] "png" no_options w)
    as (Hw & Ha & Hr).
  split; [reflexivity|]. split; [exact Hw|]. split; [exact Ha|]. split.
  - exact (Hr [GetImageDimensions [x2c];
               T "image/webp" 2000 3000; Sleep 120; T "image/webp" 2000 3000]
              [Sleep 120; T "image/avif" 1067 1600; Sleep 240; T "image/avif" 1067 1600]
              [x2c] "image/avif" 90 1067 1600 "Request Timeout" eq_refl eq_refl).
  - exact (Hr [GetImageDimensions [x2c]; T "image/webp" 2000 3000; Sleep 120]
              [T "image/avif" 1067 1600; Sleep 120; T "image/avif" 1067 1600;
               Sleep 240; T "image/avif" 1067 1600]
              [x2c] "image/webp" 90 2000 3000 "Request Timeout" eq_refl eq_refl).
Defined.

(** The early-return scan agrees with counting: it answers [true] exactly
    when the count so far plus the markers still ahead exceeds one. *)
Lemma isAnimatedGif_loop_spec (bytes : JS.bytes) (n : nat) :
  ∀ i frameCount, (frameCount <= 1)%nat ->
    isAnimatedGif_loop bytes n i frameCount = true <->
    (1 < frameCount + markers_from bytes n i)%nat.
Proof.
  induction n as [|n IH]; intros i frameCount Hfc.
  - simpl. split; [discriminate|lia].
  - cbn [isAnimatedGif_loop markers_from]. unfold markers_at at 1.
    destruct (bool_decide (bytes !! i = Some x21)
              && bool_decide (bytes !! (i + 1)%nat = Some xf9)) eqn:Hgce;
      destruct (bool_decide (bytes !! i = Some x2c)) eqn:Hdesc;
      cbn [andb].
    + destruct (1 <? S frameCount)%nat eqn:H1; [split; [lia|reflexivity]|].
      apply Nat.ltb_ge in H1.
      replace (1 <? S (S frameCount))%nat with true
        by (symmetry; apply Nat.ltb_lt; lia).
      split; [lia|reflexivity].
    + destruct (1 <? S frameCount)%nat eqn:H1.
      * apply Nat.ltb_lt in H1. split; [lia|reflexivity].
      * apply Nat.ltb_ge in H1. rewrite IH by lia. lia.
    + destruct (1 <? S frameCount)%nat eqn:H1.
      * apply Nat.ltb_lt in H1. split; [lia|reflexivity].
      * apply Nat.ltb_ge in H1. rewrite IH by lia. lia.
    + rewrite IH by lia. lia.
Qed.

(** [isAnimatedGif] holds exactly when the scan finds more than one
    frame marker. *)
Lemma isAnimatedGif_iff (input : JS.bytes) :
  isAnimatedGif input = true <-> (1 < frame_markers input)%nat.
Proof.
  unfold isAnimatedGif, frame_markers.
  rewrite isAnimatedGif_loop_spec by lia. reflexivity.
Qed.

Lemma head_elem_of {X} (l : list X) (x : X) : head l = Some x -> x ∈ l.
Proof. destruct l as [|y l]; [discriminate|]. intros [= ->]. left. Qed.

(** When the skip for animated GIFs does not apply, [compress] first
    reads the dimensions; when these are read it returns normally, having
    requested the transform of every variant that is switched on. *)
Lemma compress_attempts (B : Bindings) (input : JS.bytes) (format : string)
    (options : CompressionOptions) (w : World) :
  let opts := spread DEFAULT_OPTIONS options in
  let width := info_width (decode B input) in
  let height := info_height (decode B input) in
  let target := calculateDimensions width height (r_maxWidth opts) (r_maxHeight opts) in
  let avifTarget :=
    calculateDimensions width height
      (Z.min (r_maxWidth opts) 1600) (Z.min (r_maxHeight opts) 1600) in
  let ev := emitted w (fst (compress B input format options w)) in
  String.eqb format "gif" && isAnimatedGif input && r_preserveAnimation opts = false ->
  head ev = Some (GetImageDimensions input) ∧
  (rejects B (log w ++ [GetImageDimensions input]) = None ->
   ∃ res,
     snd (compress B input format options w) = Ok res ∧
     original res = input ∧ isAnimated res = false ∧
     (r_generateWebp opts = true ->
      Transform input "image/webp" (r_quality opts) (fst target) (snd target) ∈ ev) ∧
     (r_generateAvif opts = true ->
      Transform input "image/avif" (r_quality opts) (fst avifTarget) (snd avifTarget)
        ∈ ev)).
Proof.
  intros opts width height target avifTarget ev Hskip. subst ev.
  pose proof (compress_run B input format options w) as Hrun. cbv zeta in Hrun.
  fold opts width height target avifTarget in Hrun. rewrite Hskip in Hrun.
  destruct (rejects B (log w ++ [GetImageDimensions input])) as [m|].
  { rewrite Hrun. cbn [fst]. rewrite emitted_with_log.
    split; [reflexivity|discriminate]. }
  destruct Hrun as (segw & sega & ow & oa & Hrun & Hsw & Hsa).
  rewrite Hrun. cbn [fst snd]. rewrite emitted_with_log.
  split; [reflexivity|]. intros _. eexists. split; [reflexivity|].
  split; [reflexivity|]. split; [reflexivity|].
  unfold variant_segment in Hsw, Hsa. split; intros Hgen.
  - rewrite Hgen in Hsw. destruct Hsw as (Hhead & _).
    apply elem_of_app. right. apply elem_of_app. left.
    apply head_elem_of, Hhead.
  - rewrite Hgen in Hsa. destruct Hsa as (Hhead & _).
    apply elem_of_app. right. apply elem_of_app. right.
    apply head_elem_of, Hhead.
Qed.

(** Every transform [compress] requests is the WebP transform or the
    AVIF transform of the input, at the quality of the options and with
    the dimensions computed for its format. *)
Lemma compress_transforms (B : Bindings) (input : JS.bytes) (format : string)
    (options : CompressionOptions) (w : World) :
  let opts := spread DEFAULT_OPTIONS options in
  let width := info_width (decode B input) in
  let height := info_height (decode B input) in
  ∀ data fmt q tw th,
    Transform data fmt q tw th ∈ emitted w (fst (compress B input format options w)) ->
    data = input ∧ q = r_quality opts ∧
    ((fmt = "image/webp" ∧
      (tw, th) = calculateDimensions width height (r_maxWidth opts) (r_maxHeight opts)) ∨
     (fmt = "image/avif" ∧
      (tw, th) = calculateDimensions width height
                   (Z.min (r_maxWidth opts) 1600) (Z.min (r_maxHeight opts) 1600))).
Proof.
  intros opts width height data fmt q tw th Hin.
  pose proof (compress_run B input format options w) as Hrun. cbv zeta in Hrun.
  fold opts width height in Hrun.
  destruct (String.eqb format "gif" && isAnimatedGif input && r_preserveAnimation opts).
  { rewrite Hrun in Hin. simpl in Hin. rewrite emitted_refl in Hin. inversion Hin. }
  destruct (rejects B (log w ++ [GetImageDimensions input])) as [m|].
  { rewrite Hrun in Hin. simpl in Hin. rewrite emitted_with_log in Hin.
    apply list_elem_of_singleton in Hin. discriminate. }
  destruct Hrun as (segw & sega & ow & oa & Hrun & Hsw & Hsa).
  rewrite Hrun in Hin. simpl fst in Hin. rewrite emitted_with_log in Hin.
  apply variant_segment_retry in Hsw, Hsa.
  destruct Hsw as (Hallw & _). destruct Hsa as (Halla & _).
  rewrite Forall_forall in Hallw, Halla.
  apply elem_of_cons in Hin. destruct Hin as [Hin | Hin]; [discriminate|].
  apply elem_of_app in Hin. destruct Hin as [Hin | Hin].
  - destruct (Hallw _ Hin) as [HT | [ms HT]]; [|discriminate].
    injection HT as Hdata Hfmt Hq Htw Hth.
    split; [exact Hdata|]. split; [exact Hq|]. left.
    split; [exact Hfmt|]. rewrite Htw, Hth, <- surjective_pairing. reflexivity.
  - destruct (Halla _ Hin) as [HT | [ms HT]]; [|discriminate].
    injection HT as Hdata Hfmt Hq Htw Hth.
    split; [exact Hdata|]. split; [exact Hq|]. right.
    split; [exact Hfmt|]. rewrite Htw, Hth, <- surjective_pairing. reflexivity.
Qed.

(** C7, as the code has it. For every input of format ['gif'] whose scan
    finds more than one frame marker, with [preserveAnimation] true,
    [compress] calls no binding at all (the world is unchanged) and
    returns the original bytes alone with [isAnimated = true].  For every
    other format, whatever the bytes hold and whatever [preserveAnimation]
    is, compression proceeds: the first call reads the dimensions, and
    when these are read [compress] returns a result with
    [isAnimated = false], having requested the WebP and the AVIF
    transform of the input, each when its generation is switched on. *)
Theorem animated_gif_skipped (B : Bindings) (input : JS.bytes)
    (options : CompressionOptions) (w : World) :
  let opts := spread DEFAULT_OPTIONS options in
  let width := info_width (decode B input) in
  let height := info_height (decode B input) in
  let target := calculateDimensions width height (r_maxWidth opts) (r_maxHeight opts) in
  let avifTarget :=
    calculateDimensions width height
      (Z.min (r_maxWidth opts) 1600) (Z.min (r_maxHeight opts) 1600) in
  ((1 < frame_markers input)%nat ->
   r_preserveAnimation opts = true ->
   compress B input "gif" options w
   = (w, Ok {| original := input; webp := None; avif := None; isAnimated := true |})) ∧
  (∀ format, format ≠ "gif" ->
     let ev := emitted w (fst (compress B input format options w)) in
     head ev = Some (GetImageDimensions input) ∧
     (rejects B (log w ++ [GetImageDimensions input]) = None ->
      ∃ res,
        snd (compress B input format options w) = Ok res ∧
        original res = input ∧ isAnimated res = false ∧
        (r_generateWebp opts = true ->
         Transform input "image/webp" (r_quality opts) (fst target) (snd target) ∈ ev) ∧
        (r_generateAvif opts = true ->
         Transform input "image/avif" (r_quality opts)
           (fst avifTarget) (snd avifTarget) ∈ ev))).
Proof.
  intros opts width height target avifTarget. split.
  - intros Hmarkers Hpreserve. apply isAnimatedGif_iff in Hmarkers.
    unfold compress. fold opts. rewrite Hmarkers, Hpreserve. reflexivity.
  - intros format Hformat ev.
    apply (compress_attempts B input format options w).
    apply String.eqb_neq in Hformat. rewrite Hformat. reflexivity.
Qed.

Lemma animated_gif_skipped_witness :
  let w := Scenario.world Scenario.empty_db in
  let animated := [x2c; x2c; x00] in
  ((1 < frame_markers animated)%nat ∧
   r_preserveAnimation (spread DEFAULT_OPTIONS no_options) = true ∧
   compress Scenario.calm animated "gif" no_options w
   = (w, Ok {| original := animated; webp := None; avif := None;
               isAnimated := true |})) ∧
  ("png" ≠ "gif" ∧
   rejects Scenario.calm (log w ++ [GetImageDimensions animated]) = None ∧
   ∃ res,
     snd (compress Scenario.calm animated "png" no_options w) = Ok res ∧
     isAnimated res = false ∧
     Transform animated "image/webp" 90 2000 3000
       ∈ emitted w (fst (compress Scenario.calm animated "png" no_options w)) ∧
     Transform animated "image/avif" 90 1067 1600
       ∈ emitted w (fst (compress Scenario.calm animated "png" no_options w))).
Proof.
  intros w animated.
  destruct (animated_gif_skipped Scenario.calm animated no_options w) as [Hgif Hother].
  assert (Hm : (1 < frame_markers animated)%nat) by (vm_compute; lia).
  split.
  - split; [exact Hm|]. split; [reflexivity|]. exact (Hgif Hm eq_refl).
  - assert (Hpng : "png" ≠ "gif") by discriminate.
    split; [exact Hpng|]. split; [reflexivity|].
    destruct (Hother "png" Hpng) as [_ Hrun].
    destruct (Hrun eq_refl) as (res & Hres & _ & Hanimated & Hwebp & Havif).
    exists res. split; [exact Hres|]. split; [exact Hanimated|].
    split; [exact (Hwebp eq_refl)|exact (Havif eq_refl)].
Defined.

(** C7 as stated fails: the frame-marker scan is only run for format
    ['gif'].  A PNG whose bytes hold two [0x2C] is transformed to both
    variants although [preserveAnimation] is true. *)
Lemma animated_bytes_of_other_format_are_compressed :
  ¬ (∀ (B : Bindings) (input : JS.bytes) (format : string)
       (options : CompressionOptions) (w : World),
       (1 < frame_markers input)%nat ->
       r_preserveAnimation (spread DEFAULT_OPTIONS options) = true ->
       compress B input format options w
       = (w, Ok {| original := input; webp := None; avif := None;
                   isAnimated := true |})).
Proof.
  intros H.
  specialize (H Scenario.calm [x2c; x2c; x00] "png" no_options
                (Scenario.world Scenario.empty_db)).
  assert (Hm : (1 < frame_markers [x2c; x2c; x00])%nat) by (vm_compute; lia).
  specialize (H Hm eq_refl). vm_compute in H. discriminate H.
Qed.

Lemma bound_range_min (n : Z) : bound_range n -> bound_range (Z.min n 1600).
Proof. unfold bound_range. lia. Qed.

(** C8. For every input, every transform [compress] requests is the WebP
    transform with the dimensions [calculateDimensions] yields for the
    bounds [maxWidth] x [maxHeight] or the AVIF transform with those for
    [min(maxWidth, 1600)] x [min(maxHeight, 1600)]; and when the skip for
    animated GIFs does not apply and the dimensions are read, the WebP
    transform with these dimensions is requested when WebP generation is
    on, and likewise the AVIF transform.  For a source of positive pixel
    dimensions both computations yield integers that exceed neither the
    bounds nor the source, equal the source when it fits the bounds, and
    are one common factor times the source dimensions, rounded. *)
Theorem target_dimensions (B : Bindings) (input : JS.bytes) (format : string)
    (options : CompressionOptions) (w : World) :
  let opts := spread DEFAULT_OPTIONS options in
  let width := info_width (decode B input) in
  let height := info_height (decode B input) in
  let avifWidth := Z.min (r_maxWidth opts) 1600 in
  let avifHeight := Z.min (r_maxHeight opts) 1600 in
  let target := calculateDimensions width height (r_maxWidth opts) (r_maxHeight opts) in
  let avifTarget := calculateDimensions width height avifWidth avifHeight in
  let ev := emitted w (fst (compress B input format options w)) in
  (∀ data fmt q tw th,
     Transform data fmt q tw th ∈ ev ->
     (fmt = "image/webp" ∧ (tw, th) = target) ∨
     (fmt = "image/avif" ∧ (tw, th) = avifTarget)) ∧
  (String.eqb format "gif" && isAnimatedGif input && r_preserveAnimation opts = false ->
   rejects B (log w ++ [GetImageDimensions input]) = None ->
   (r_generateWebp opts = true ->
    Transform input "image/webp" (r_quality opts) (fst target) (snd target) ∈ ev) ∧
   (r_generateAvif opts = true ->
    Transform input "image/avif" (r_quality opts) (fst avifTarget) (snd avifTarget)
      ∈ ev)) ∧
  (pixel_range width -> pixel_range height ->
   bound_range (r_maxWidth opts) -> bound_range (r_maxHeight opts) ->
   ∃ webpSize avifSize : Z * Z,
     target = (Number.Int (fst webpSize), Number.Int (snd webpSize)) ∧
     avifTarget = (Number.Int (fst avifSize), Number.Int (snd avifSize)) ∧
     fits_bounds width height (r_maxWidth opts) (r_maxHeight opts) webpSize ∧
     fits_bounds width height avifWidth avifHeight avifSize).
Proof.
  intros opts width height avifWidth avifHeight target avifTarget ev.
  split; [|split].
  - intros data fmt q tw th Hin.
    destruct (compress_transforms B input format options w data fmt q tw th Hin)
      as (_ & _ & H). exact H.
  - intros Hskip Hdims.
    destruct (compress_attempts B input format options w Hskip) as [_ Hrun].
    destruct (Hrun Hdims) as (res & _ & _ & _ & Hwebp & Havif).
    split; assumption.
  - intros Hw Hh Hmw Hmh.
    destruct (DimensionFacts.calculateDimensions_fits_bounds width height
                (r_maxWidth opts) (r_maxHeight opts) Hw Hh Hmw Hmh)
      as (webpSize & Hwebp & Hfw).
    destruct (DimensionFacts.calculateDimensions_fits_bounds width height
                avifWidth avifHeight Hw Hh
                (bound_range_min _ Hmw) (bound_range_min _ Hmh))
      as (avifSize & Havif & Hfa).
    exists webpSize, avifSize. auto.
Qed.

Lemma target_dimensions_witness :
  let w := Scenario.world Scenario.empty_db in
  let ev := emitted w (fst (compress Scenario.calm [x2c] "png" no_options w)) in
  (pixel_range 2000 ∧ pixel_range 3000 ∧ bound_range 3840) ∧
  Transform [x2c] "image/webp" 90 2000 3000 ∈ ev ∧
  Transform [x2c] "image/avif" 90 1067 1600 ∈ ev ∧
  (∀ data fmt q tw th,
     Transform data fmt q tw th ∈ ev ->
     (fmt = "image/webp" ∧ (tw, th) = (Number.Int 2000, Number.Int 3000)) ∨
     (fmt = "image/avif" ∧ (tw, th) = (Number.Int 1067, Number.Int 1600))) ∧
  fits_bounds 2000 3000 3840 3840 (2000, 3000) ∧
  fits_bounds 2000 3000 1600 1600 (1067, 1600).
Proof.
  intros w ev.
  assert (P2 : pixel_range 2000) by (unfold pixel_range; lia).
  assert (P3 : pixel_range 3000) by (unfold pixel_range; lia).
  assert (B3 : bound_range 3840) by (unfold bound_range; lia).
  destruct (target_dimensions Scenario.calm [x2c] "png" no_options w)
    as (Hall & Hreq & Hfit).
  destruct (Hreq eq_refl eq_refl) as [Hwebp Havif].
  destruct (Hfit P2 P3 B3 B3) as (webpSize & avifSize & Hw & Ha & Hfw & Hfa).
  destruct webpSize as [ww wh], avifSize as [aw ah].
  vm_compute in Hw. vm_compute in Ha.
  injection Hw as <- <-. injection Ha as <- <-.
  split; [auto|].
  split; [exact (Hwebp eq_refl)|]. split; [exact (Havif eq_refl)|].
  split; [exact Hall|]. split; [exact Hfw|exact Hfa].
Defined.

(** The variants [compress] keeps: when the skip for animated GIFs does
    not apply and the dimensions are read, [compress] returns normally,
    and each variant is present exactly when a transform to its format
    was accepted. *)
Lemma compress_variants (B : Bindings) (input : JS.bytes) (format : string)
    (options : CompressionOptions) (w : World) :
  String.eqb format "gif" && isAnimatedGif input
    && r_preserveAnimation (spread DEFAULT_OPTIONS options) = false ->
  rejects B (log w ++ [GetImageDimensions input]) = None ->
  ∃ ev res,
    compress B input format options w = (with_log (log w ++ ev) w, Ok res) ∧
    original res = input ∧ isAnimated res = false ∧
    (is_Some (webp res) <-> transform_succeeded B w ev "image/webp") ∧
    (is_Some (avif res) <-> transform_succeeded B w ev "image/avif").
Proof.
  intros Hskip Hdims.
  pose proof (compress_run B input format options w) as Hrun. cbv zeta in Hrun.
  rewrite Hskip, Hdims in Hrun.
  destruct Hrun as (segw & sega & ow & oa & Hrun & Hsw & Hsa).
  set (Tw := Transform input "image/webp" _ _ _) in *.
  set (Ta := Transform input "image/avif" _ _ _) in *.
  set (G := GetImageDimensions input) in *.
  exists ([G] ++ segw ++ sega). eexists. split; [exact Hrun|].
  split; [reflexivity|]. split; [reflexivity|]. cbn [webp avif].
  pose proof (variant_segment_retry _ _ _ _ _ _ _ _ Hsw) as (Hallw & _).
  pose proof (variant_segment_retry _ _ _ _ _ _ _ _ Hsa) as (Halla & _).
  assert (Hwa : count_transforms "image/avif" segw = 0%nat)
    by (eapply segment_other_format; [exact Hallw|reflexivity]).
  assert (Haw : count_transforms "image/webp" sega = 0%nat)
    by (eapply segment_other_format; [exact Halla|reflexivity]).
  rewrite Forall_forall in Hallw, Halla.
  unfold variant_segment in Hsw, Hsa.
  split; split.
  - intros Hsome. destruct (r_generateWebp _); [|destruct Hsw as [_ ->]; destruct Hsome; discriminate].
    destruct Hsw as (_ & _ & Hiff). apply Hiff in Hsome.
    destruct Hsome as (pre & post & -> & Hnone).
    unfold transform_succeeded, accepted. eexists _, _, _, _.
    exists ([G] ++ pre), (post ++ sega).
    split; [rewrite <- !app_assoc; unfold Tw; reflexivity|].
    rewrite <- !app_assoc in *. exact Hnone.
  - intros (data & q & tw & th & pre & post & Heq & Hnone).
    assert (Hin : Transform data "image/webp" q tw th ∈ G :: segw ++ sega).
    { change (G :: segw ++ sega) with ([G] ++ segw ++ sega).
      rewrite Heq. apply elem_of_app. right. left. }
    apply elem_of_cons in Hin. destruct Hin as [Hin | Hin]; [discriminate|].
    apply elem_of_app in Hin. destruct Hin as [Hin | Hin].
    + destruct (Hallw _ Hin) as [HT | [ms HT]]; [|discriminate].
      rewrite HT in *.
      destruct (split_in_middle [G] segw sega pre post Tw Heq)
        as (pre' & post' & -> & -> & Hseg).
      * intros H. apply list_elem_of_singleton in H. discriminate.
      * apply (not_in_count_0 "image/webp"); [reflexivity|exact Haw].
      * destruct (r_generateWebp _); [|destruct Hsw as [-> _]; destruct pre'; discriminate].
        destruct Hsw as (_ & _ & Hiff). apply Hiff. exists pre', post'.
        split; [exact Hseg|]. rewrite <- !app_assoc in *. exact Hnone.
    + destruct (Halla _ Hin) as [HT | [ms HT]]; discriminate.
  - intros Hsome. destruct (r_generateAvif _); [|destruct Hsa as [_ ->]; destruct Hsome; discriminate].
    destruct Hsa as (_ & _ & Hiff). apply Hiff in Hsome.
    destruct Hsome as (pre & post & -> & Hnone).
    unfold transform_succeeded, accepted. eexists _, _, _, _.
    exists ([G] ++ segw ++ pre), post.
    split; [rewrite <- !app_assoc; unfold Ta; reflexivity|].
    rewrite <- !app_assoc in *. exact Hnone.
  - intros (data & q & tw & th & pre & post & Heq & Hnone).
    assert (Hin : Transform data "image/avif" q tw th ∈ G :: segw ++ sega).
    { change (G :: segw ++ sega) with ([G] ++ segw ++ sega).
      rewrite Heq. apply elem_of_app. right. left. }
    apply elem_of_cons in Hin. destruct Hin as [Hin | Hin]; [discriminate|].
    apply elem_of_app in Hin. destruct Hin as [Hin | Hin].
    + destruct (Hallw _ Hin) as [HT | [ms HT]]; discriminate.
    + destruct (Halla _ Hin) as [HT | [ms HT]]; [|discriminate].
      rewrite HT in *.
      destruct (split_in_middle ([G] ++ segw) sega [] pre post Ta)
        as (pre' & post' & -> & -> & Hseg).
      * rewrite app_nil_r, <- app_assoc. exact Heq.
      * apply (not_in_count_0 "image/avif"); [reflexivity|].
        rewrite count_transforms_app, Hwa. reflexivity.
      * intros H. inversion H.
      * destruct (r_generateAvif _); [|destruct Hsa as [-> _]; destruct pre'; discriminate].
        destruct Hsa as (_ & _ & Hiff). apply Hiff. exists pre', post'.
        split; [exact Hseg|]. rewrite <- !app_assoc in *. exact Hnone.
Qed.

End CompressionSpec.

(** ** Logs of composed computations *)

Module RuntimeFacts.
Import Types Runtime Spec.

Lemma emits_ret {A} (P : event -> Prop) (a : A) : emits P (ret a).
Proof. intros w. exists []. rewrite app_nil_r. split; [reflexivity|constructor]. Qed.

Lemma emits_throw {A} (P : event -> Prop) (message : string) :
  emits P (@throw A message).
Proof. intros w. exists []. rewrite app_nil_r. split; [reflexivity|constructor]. Qed.

Lemma emits_bind {A B} (P : event -> Prop) (m : M A) (k : A -> M B) :
  emits P m -> (∀ a, emits P (k a)) -> emits P (bind m k).
Proof.
  intros Hm Hk w. unfold bind.
  destruct (Hm w) as (ev1 & Hlog1 & Hall1).
  destruct (m w) as [w1 [a|e]]; simpl in *.
  - destruct (Hk a w1) as (ev2 & Hlog2 & Hall2).
    exists (ev1 ++ ev2). rewrite Hlog2, Hlog1, app_assoc.
    split; [reflexivity|apply Forall_app; split; assumption].
  - exists ev1. split; assumption.
Qed.

Lemma emits_catch {A} (P : event -> Prop) (m : M A) (h : string -> M A) :
  emits P m -> (∀ e, emits P (h e)) -> emits P (catch m h).
Proof.
  intros Hm Hh w. unfold catch.
  destruct (Hm w) as (ev1 & Hlog1 & Hall1).
  destruct (m w) as [w1 [a|e]]; simpl in *.
  - exists ev1. split; assumption.
  - destruct (Hh e w1) as (ev2 & Hlog2 & Hall2).
    exists (ev1 ++ ev2). rewrite Hlog2, Hlog1, app_assoc.
    split; [reflexivity|apply Forall_app; split; assumption].
Qed.

Lemma emits_call {A} (P : event -> Prop) (B : Bindings) (e : event)
    (effect : World -> World * A) :
  P e -> (∀ w, log (fst (effect w)) = log w) -> emits P (call B e effect).
Proof.
  intros He Heff w. unfold call. exists [e]. simpl.
  destruct (rejects B (log w ++ [e])); simpl.
  - split; [reflexivity|repeat constructor; exact He].
  - specialize (Heff (with_log (log w ++ [e]) w)).
    destruct (effect (with_log (log w ++ [e]) w)) as [w2 a]. simpl in *.
    split; [exact Heff|repeat constructor; exact He].
Qed.

Lemma emits_waitUntil {A} (P : event -> Prop) (m : M A) :
  emits P m -> emits P (waitUntil m).
Proof. intros Hm w. unfold waitUntil. simpl. exact (Hm w). Qed.

Lemma emits_for_loop {S} (P : event -> Prop) (body : nat -> S -> M S)
    (stop step : nat) :
  (∀ i s, emits P (body i s)) ->
  ∀ fuel i s, emits P (for_loop fuel i stop step body s).
Proof.
  intros Hbody fuel. induction fuel as [|fuel IH]; intros i s; simpl.
  - apply emits_ret.
  - destruct (i <? stop)%nat; [|apply emits_ret].
    apply emits_bind; [apply Hbody|]. intros s'. apply IH.
Qed.

Lemma emits_weaken {A} (P Q : event -> Prop) (m : M A) :
  (∀ e, P e -> Q e) -> emits P m -> emits Q m.
Proof.
  intros HPQ Hm w. destruct (Hm w) as (ev & Hlog & Hall).
  exists ev. split; [exact Hlog|]. eapply Forall_impl; eassumption.
Qed.

Lemma emits_emitted {A} (P : event -> Prop) (m : M A) (w : World) :
  emits P m -> Forall P (emitted w (fst (m w))).
Proof.
  intros Hm. destruct (Hm w) as (ev & Hlog & Hall).
  unfold emitted. rewrite Hlog, drop_app_length. exact Hall.
Qed.

Lemma world_eta (w : World) : with_queue (queue w) (with_log (log w) w) = w.
Proof. destruct w; reflexivity. Qed.

Lemma call_run {A} (B : Bindings) (e : event) (effect : World -> World * A) (w : World) :
  call B e effect w =
  match rejects B (log w ++ [e]) with
  | Some message => (with_log (log w ++ [e]) w, Throw message)
  | None => (fst (effect (with_log (log w ++ [e]) w)),
             Ok (snd (effect (with_log (log w ++ [e]) w))))
  end.
Proof.
  unfold call. cbn [log with_log].
  destruct (rejects B (log w ++ [e])); [reflexivity|].
  destruct (effect (with_log (log w ++ [e]) w)); reflexivity.
Qed.

End RuntimeFacts.

(** ** The metadata store *)

Module MetadataFacts.
Import Types Runtime Spec Metadata RuntimeFacts.

Lemma elem_of_images_join_tags (d : DB) (i : ImageRow) (t : TagRow) :
  (i, t) ∈ images_join_tags d <->
  i ∈ t_images d ∧ t ∈ t_tags d ∧
  ∃ it, it ∈ t_image_tags d ∧ row_id i = it_image_id it ∧ it_tag_id it = tag_id t.
Proof.
  unfold images_join_tags. rewrite list_elem_of_bind. split.
  - intros (i' & Hin & Hi). apply list_elem_of_bind in Hin.
    destruct Hin as (it & Hin & Hit). apply list_elem_of_bind in Hin.
    destruct Hin as (t' & Hin & Ht).
    apply list_elem_of_singleton in Hin. injection Hin as -> ->.
    apply list_elem_of_filter in Hit, Ht.
    destruct Hit as [Hid Hit]. destruct Ht as [Htid Ht].
    split; [exact Hi|]. split; [exact Ht|]. exists it. auto.
  - intros (Hi & Ht & it & Hit & Hid & Htid).
    exists i. split; [|exact Hi]. apply list_elem_of_bind.
    exists it. split; [|apply list_elem_of_filter; auto].
    apply list_elem_of_bind. exists t.
    split; [apply list_elem_of_singleton; reflexivity|].
    apply list_elem_of_filter. auto.
Qed.

Lemma joined_row_tagged (d : DB) (r : ImageRow * TagRow) :
  r ∈ images_join_tags d ->
  fst r ∈ t_images d ∧ tagged d (row_id (fst r)) (tag_name (snd r)).
Proof.
  destruct r as [i t]. intros H. apply elem_of_images_join_tags in H.
  destruct H as (Hi & Ht & it & Hit & Hid & Htid).
  split; [exact Hi|]. exists it, t. simpl. auto.
Qed.

Lemma elem_of_image_ids_tagged (d : DB) (names : list string) (image_id : string) :
  image_id ∈ image_ids_tagged d names <->
  ∃ name, name ∈ names ∧ tagged d image_id name.
Proof.
  unfold image_ids_tagged. rewrite list_elem_of_bind. split.
  - intros (it & Hin & Hit). apply list_elem_of_bind in Hin.
    destruct Hin as (t & Hin & Ht). apply list_elem_of_filter in Ht.
    destruct Ht as [Htid Ht].
    destruct (decide (tag_name t ∈ names)) as [Hname|]; [|inversion Hin].
    apply list_elem_of_singleton in Hin. subst image_id.
    exists (tag_name t). split; [exact Hname|]. exists it, t. auto.
  - intros (name & Hname & it & t & Hit & Ht & Hid & Htid & Hn).
    exists it. split; [|exact Hit]. apply list_elem_of_bind.
    exists t. split; [|apply list_elem_of_filter; auto].
    subst name. rewrite decide_True by exact Hname.
    apply list_elem_of_singleton. symmetry. exact Hid.
Qed.

Lemma hasFilter_false (o : option (list string)) :
  hasFilter o = false -> requested o = [].
Proof.
  unfold hasFilter. intros H. apply negb_false_iff, Nat.eqb_eq in H.
  destruct (requested o); [reflexivity|discriminate].
Qed.

(** The [WHERE] conjuncts on the image give the exclusion and the
    orientation conditions. *)
Lemma random_where_image_matches (d : DB) (filters : option RandomFilters)
    (i : ImageRow) :
  random_where_image d filters i ->
  (∀ name, name ∈ requested (filters ≫= f_exclude) -> ¬ tagged d (row_id i) name) ∧
  (∀ o, filters ≫= f_orientation = Some o -> JS.truthy o = true ->
        row_orientation i = o).
Proof.
  intros [Hex Hor]. split.
  - intros name Hname Htag.
    destruct (hasFilter (filters ≫= f_exclude)) eqn:Hf.
    + apply (Hex eq_refl). apply elem_of_image_ids_tagged. exists name. auto.
    + apply hasFilter_false in Hf. rewrite Hf in Hname. inversion Hname.
  - intros o Ho Htruthy. rewrite Ho in Hor. simpl in Hor.
    specialize (Hor Htruthy). congruence.
Qed.

(** [HAVING COUNT(DISTINCT t.name) = n] on rows whose names all lie in a
    list of length [n]: every name of the list occurs among the rows. *)
Lemma distinct_count_covers (names wanted : list string) :
  (∀ x, x ∈ names -> x ∈ wanted) ->
  length (remove_dups names) = length wanted ->
  ∀ x, x ∈ wanted -> x ∈ names.
Proof.
  intros Hsub Hlen x Hx.
  assert (Hperm : remove_dups names ≡ₚ wanted).
  { apply submseteq_length_Permutation; [|lia].
    apply NoDup_submseteq; [apply NoDup_remove_dups|].
    intros y Hy. apply Hsub. apply elem_of_remove_dups. exact Hy. }
  apply elem_of_remove_dups. rewrite Hperm. exact Hx.
Qed.

Lemma group_by_id_having_count_elem (rows : list (ImageRow * TagRow)) (n : nat)
    (i : ImageRow) :
  i ∈ group_by_id_having_count rows n ->
  ∃ r0, r0 ∈ rows ∧ fst r0 = i ∧
    length (remove_dups (map (fun r => tag_name (snd r))
              (filter (fun r => row_id (fst r) = row_id i) rows))) = n.
Proof.
  unfold group_by_id_having_count. intros H.
  apply list_elem_of_omap in H. destruct H as (key & _ & H).
  set (group := filter (fun r => row_id (fst r) = key) rows) in *.
  destruct (decide (length (remove_dups (map (fun r => tag_name (snd r)) group)) = n))
    as [Hlen|]; [|discriminate].
  destruct group as [|r0 group'] eqn:Hgroup; [discriminate|].
  simpl in H. injection H as <-.
  assert (Hr0 : r0 ∈ filter (fun r => row_id (fst r) = key) rows).
  { fold group. rewrite Hgroup. left. }
  apply list_elem_of_filter in Hr0. destruct Hr0 as [Hkey Hr0].
  exists r0. split; [exact Hr0|]. split; [reflexivity|].
  rewrite Hkey. fold group. rewrite Hgroup. exact Hlen.
Qed.

(** Every row the statement of [getRandomImage] ranges over is a stored
    image that meets the three conditions. *)
Lemma random_rows_sound (d : DB) (filters : option RandomFilters) (i : ImageRow) :
  i ∈ random_rows d filters -> i ∈ t_images d ∧ matches d filters i.
Proof.
  unfold random_rows, matches.
  destruct (hasFilter (filters ≫= f_tags)) eqn:Htags.
  - intros H. apply group_by_id_having_count_elem in H.
    destruct H as (r0 & Hr0 & <- & Hlen).
    apply list_elem_of_filter in Hr0. destruct Hr0 as [[_ Hwhere] Hjoin].
    apply joined_row_tagged in Hjoin. destruct Hjoin as [Himg _].
    split; [exact Himg|]. split; [|apply random_where_image_matches; exact Hwhere].
    intros name Hname.
    set (rows := filter _ (images_join_tags d)) in *.
    set (group := filter (fun r => row_id (fst r) = row_id (fst r0)) rows) in *.
    assert (Hcover : name ∈ map (fun r => tag_name (snd r)) group).
    { apply (distinct_count_covers _ (requested (filters ≫= f_tags))).
      - intros x Hx. apply list_elem_of_fmap in Hx. destruct Hx as (r & -> & Hr).
        apply list_elem_of_filter in Hr. destruct Hr as [_ Hr].
        apply list_elem_of_filter in Hr. destruct Hr as [[Hin _] _]. exact Hin.
      - exact Hlen.
      - exact Hname. }
    apply list_elem_of_fmap in Hcover. destruct Hcover as (r & -> & Hr).
    apply list_elem_of_filter in Hr. destruct Hr as [Hid Hr].
    apply list_elem_of_filter in Hr. destruct Hr as [_ Hr].
    apply joined_row_tagged in Hr. destruct Hr as [_ Hr].
    rewrite <- Hid. exact Hr.
  - apply hasFilter_false in Htags. rewrite Htags.
    destruct (hasFilter (filters ≫= f_exclude)).
    + intros H. apply list_elem_of_fmap in H. destruct H as (r & -> & Hr).
      apply list_elem_of_filter in Hr. destruct Hr as [Hwhere Hjoin].
      apply joined_row_tagged in Hjoin. destruct Hjoin as [Himg _].
      split; [exact Himg|].
      split; [intros name Hname; inversion Hname|].
      apply random_where_image_matches. exact Hwhere.
    + intros H. apply list_elem_of_filter in H. destruct H as [Hwhere Himg].
      split; [exact Himg|].
      split; [intros name Hname; inversion Hname|].
      apply random_where_image_matches. exact Hwhere.
Qed.

(** [ORDER BY RANDOM() LIMIT 1] returns one of the rows. *)
Lemma first_in_random_order_elem (B : Bindings) (w : World) (rows : list ImageRow)
    (row : ImageRow) :
  first_in_random_order B w rows = Some row -> row ∈ rows.
Proof. unfold first_in_random_order. apply list_elem_of_lookup_2. Qed.

(** [enrichWithTags] on one row: one read, one record, no write. *)
Lemma enrichWithTags_single (B : Bindings) (row : ImageRow) (w w' : World)
    (res : list ImageMetadata) :
  enrichWithTags B [row] w = (w', Ok res) ->
  db w' = db w ∧ ∃ tags', res = [rowToMetadata row tags'].
Proof.
  unfold enrichWithTags. cbn [length Nat.eqb map for_loop Nat.ltb Nat.leb].
  unfold bind, d1_read, call, ret. cbn [log with_log].
  destruct (rejects B _); [discriminate|].
  cbn [map]. intros H. injection H as <- <-. split; [reflexivity|].
  eexists. reflexivity.
Qed.

(** What [getRandomImage] returns is a stored image that meets the three
    conditions of the filters. *)
Lemma getRandomImage_sound (B : Bindings) (filters : option RandomFilters)
    (w w' : World) (image : ImageMetadata) :
  getRandomImage B filters w = (w', Ok (Some image)) ->
  ∃ row tags', row ∈ t_images (db w) ∧ matches (db w) filters row ∧
               image = rowToMetadata row tags'.
Proof.
  unfold getRandomImage, bind. unfold d1_read at 1. unfold call.
  cbn [log with_log].
  destruct (rejects B _); [discriminate|].
  set (w1 := with_log _ w).
  destruct (first_in_random_order B w1 (random_rows (db w1) filters)) as [row|] eqn:Hpick;
    [|discriminate].
  apply first_in_random_order_elem in Hpick.
  apply random_rows_sound in Hpick. destruct Hpick as [Himg Hmatch].
  destruct (enrichWithTags B [row] w1) as [w2 [res|e]] eqn:Hrich; [|discriminate].
  apply enrichWithTags_single in Hrich. destruct Hrich as [_ [tags' ->]].
  unfold ret. intros H. injection H as _ <-.
  exists row, tags'. auto.
Qed.

Lemma count_placeholders_app (a b : string) :
  count_placeholders (a +:+ b) = (count_placeholders a + count_placeholders b)%nat.
Proof. induction a as [|c a IH]; simpl; [reflexivity|]. rewrite IH. lia. Qed.

Lemma count_placeholders_join {A} (xs : list A) :
  count_placeholders (placeholders xs) = length xs.
Proof.
  unfold placeholders, JS.join.
  induction xs as [|x xs IH]; [reflexivity|].
  destruct xs as [|y xs]; [reflexivity|].
  change (count_placeholders
            ("?" +:+ "," +:+ String.concat "," (map (fun _ : A => "?") (y :: xs)))
          = S (length (y :: xs))).
  rewrite !count_placeholders_app, IH. reflexivity.
Qed.

Lemma slice_length_le {A} (i n : nat) (xs : list A) :
  (length (JS.slice i (i + n) xs) <= n)%nat.
Proof. unfold JS.slice. rewrite length_take. lia. Qed.

(** A chunk statement of [enrichWithTags] binds one parameter per id of
    the chunk. *)
Lemma enrich_statement_binds (chunk : list string) :
  length (binds (enrich_statement chunk)) = length chunk ∧
  count_placeholders (sql (enrich_statement chunk)) = length chunk.
Proof.
  unfold enrich_statement. cbn [binds sql]. rewrite length_map.
  split; [reflexivity|].
  rewrite !count_placeholders_app, count_placeholders_join. simpl. lia.
Qed.

(** [enrichWithTags] never binds more than 90 parameters in a statement,
    however many rows it is given. *)
Lemma enrichWithTags_chunked (B : Bindings) (rows : list ImageRow) :
  emits (fun e => ∀ stmts, e = D1 stmts -> Forall (binds_at_most 90) stmts)
        (enrichWithTags B rows).
Proof.
  unfold enrichWithTags. destruct (length rows =? 0)%nat; [apply emits_ret|].
  apply emits_bind; [|intros; apply emits_ret].
  apply emits_for_loop. intros i tagMap.
  apply emits_bind; [|intros; apply emits_ret].
  apply emits_call; [|reflexivity].
  intros stmts Hstmts. injection Hstmts as <-.
  constructor; [|constructor].
  destruct (enrich_statement_binds (JS.slice i (i + 90) (map row_id rows))) as [Hb Hc].
  split; [rewrite Hb; apply slice_length_le|rewrite Hb, Hc; reflexivity].
Qed.

(** The [DELETE] statement of [batchUpdateTags] binds one parameter per
    image id and one per tag, in a single statement. *)
Lemma batch_remove_statement_binds (imageIds removeTags : list string) :
  length (binds (batch_remove_statement imageIds removeTags))
  = (length imageIds + length removeTags)%nat ∧
  count_placeholders (sql (batch_remove_statement imageIds removeTags))
  = (length imageIds + length removeTags)%nat.
Proof.
  unfold batch_remove_statement. cbn [binds sql].
  rewrite length_app, !length_map. split; [reflexivity|].
  rewrite !count_placeholders_app, !count_placeholders_join. simpl. lia.
Qed.

(** C4 at a failing input. [batchUpdateTags] on 200 image ids and one tag
    to remove issues a single [DELETE] whose [IN] lists bind 201
    parameters: the id set is not split into chunks of 90. *)
Theorem batchUpdateTags_unchunked :
  ∃ stmt,
    emitted (Scenario.world Scenario.empty_db)
      (fst (batchUpdateTags Scenario.calm (Scenario.many_ids 200) [] ["draft"]
              (Scenario.world Scenario.empty_db)))
    = [D1 [stmt]] ∧
    length (binds stmt) = 201%nat ∧
    count_placeholders (sql stmt) = 201%nat ∧
    ¬ binds_at_most 90 stmt.
Proof.
  eexists. split; [vm_compute; reflexivity|].
  split; [vm_compute; reflexivity|].
  split; [vm_compute; reflexivity|].
  intros [H _]. vm_compute in H. lia.
Qed.

(** C1 at a failing input. With only [exclude] given, a stored image
    without any tag meets all three conditions, yet the statement ranges
    over no row: [getRandomImage] answers [null] whatever the draw. *)
Theorem untagged_image_never_drawn :
  let filters :=
    Some {| f_tags := None; f_exclude := Some ["nsfw"]; f_orientation := None |} in
  let image := Scenario.image_row "u1" "landscape" "jpeg" None None in
  image ∈ t_images Scenario.untagged_db ∧
  matches Scenario.untagged_db filters image ∧
  random_rows Scenario.untagged_db filters = [] ∧
  ∀ draw,
    snd (getRandomImage (Scenario.drawing draw) filters
           (Scenario.world Scenario.untagged_db)) = Ok None.
Proof.
  intros filters image.
  split; [left|]. split; [|split; [reflexivity|intros draw; reflexivity]].
  split; [|split].
  - intros name Hname. inversion Hname.
  - intros name _ (it & t & Hit & _). inversion Hit.
  - intros o Ho. discriminate Ho.
Qed.

End MetadataFacts.

(** ** URL resolution *)

Module UrlSpec.
Import Types Spec ImageTransform Handlers.

Lemma href_truthy (u : Deps.URL) : JS.truthy (Deps.href u) = true.
Proof. unfold Deps.href. destruct (Deps.scheme u); reflexivity. Qed.

Lemma buildPublicUrl_truthy (D : Deps.t) (baseUrl key url : string) :
  buildPublicUrl D baseUrl key = Some url -> JS.truthy url = true.
Proof.
  unfold buildPublicUrl. destruct (Deps.URL_new D _ _) as [u|]; [|discriminate].
  simpl. intros H. injection H as <-. apply href_truthy.
Qed.

Lemma buildTransformedUrl_truthy (D : Deps.t) (originalUrl optionsString url : string) :
  buildTransformedUrl D originalUrl optionsString = Some url -> JS.truthy url = true.
Proof.
  unfold buildTransformedUrl. destruct (Deps.URL_new D _ _) as [u|]; [|discriminate].
  simpl. intros H. injection H as <-. destruct (Deps.origin u); reflexivity.
Qed.

Lemma truthy_not_empty (s : string) : JS.truthy s = true -> s ≠ "".
Proof. destruct s; [discriminate|]. intros _ H. discriminate. Qed.

(** One variant URL: it is not empty when its generation is on and a
    stored URL, the original in the target format, or the transform
    fallback is at hand. *)
Lemma variantUrl_truthy (D : Deps.t) (target : string) (generate : bool)
    (stored originalUrl formatLower : string)
    (canTransformFromOriginal hasResizeLimit : bool) (image : ImageMetadata)
    (quality maxWidth maxHeight : Z) (url : string) :
  variantUrl D target generate stored originalUrl formatLower
    canTransformFromOriginal hasResizeLimit image quality maxWidth maxHeight
  = Some url ->
  generate = true -> JS.truthy originalUrl = true ->
  JS.truthy stored = true ∨ String.eqb formatLower target = true
    ∨ canTransformFromOriginal = true ->
  JS.truthy url = true.
Proof.
  unfold variantUrl. intros H -> Horig Havail. simpl in H.
  destruct (JS.truthy stored) eqn:Hs; [injection H as <-; exact Hs|].
  destruct (String.eqb formatLower target) eqn:Hf; [injection H as <-; exact Horig|].
  destruct canTransformFromOriginal; simpl in H.
  - eapply buildTransformedUrl_truthy. exact H.
  - destruct Havail as [Hx | [Hx | Hx]]; discriminate.
Qed.

(** C9, as the code has it.  For an image whose format is GIF (in any
    letter case) the WebP and AVIF URLs are empty and the random handler
    delivers the original URL whatever the [format] parameter and the
    [Accept] header.  For any other image, the WebP (AVIF) URL is not
    empty when the options leave its generation on and a stored variant,
    an original already in that format, or the JPEG/PNG transform
    fallback is available; the random handler leaves the generation on
    exactly when the stored path of that variant is not empty. *)
Theorem url_resolution (D : Deps.t) (baseUrl : string) (image : ImageMetadata)
    (options : option CompressionOptions) (preferStoredVariants : option bool)
    (urls : Urls) :
  buildImageUrls D baseUrl image options preferStoredVariants = Some urls ->
  let formatLower := JS.toLowerCase (format image) in
  let opts := spread ImageTransform.DEFAULT_OPTIONS (default no_options options) in
  let prefer := default true preferStoredVariants in
  (formatLower = "gif" ->
     u_webp urls = "" ∧ u_avif urls = "" ∧
     ∀ request, random_targetUrl D request image urls = u_original urls) ∧
  (formatLower ≠ "gif" ->
     (r_generateWebp opts = true ->
      stored_variant prefer (p_webp (paths image)) (p_original (paths image))
        formatLower "webp" = true
      ∨ formatLower = "webp" ∨ transform_fallback formatLower = true ->
      u_webp urls ≠ "") ∧
     (r_generateAvif opts = true ->
      stored_variant prefer (p_avif (paths image)) (p_original (paths image))
        formatLower "avif" = true
      ∨ formatLower = "avif" ∨ transform_fallback formatLower = true ->
      u_avif urls ≠ "")) ∧
  r_generateWebp (spread ImageTransform.DEFAULT_OPTIONS (random_url_options image))
    = JS.truthy (p_webp (paths image)) ∧
  r_generateAvif (spread ImageTransform.DEFAULT_OPTIONS (random_url_options image))
    = JS.truthy (p_avif (paths image)).
Proof.
  intros Hbuild formatLower opts prefer.
  unfold buildImageUrls in Hbuild. fold formatLower opts prefer in Hbuild.
  destruct (buildPublicUrl D baseUrl (p_original (paths image))) as [originalUrl|] eqn:Horig;
    [|discriminate].
  cbn [mbind option_bind] in Hbuild.
  pose proof (buildPublicUrl_truthy _ _ _ _ Horig) as Horig_t.
  split; [|split; [|split; reflexivity]].
  - intros Hgif. rewrite Hgif in Hbuild. simpl in Hbuild. injection Hbuild as <-.
    simpl. split; [reflexivity|]. split; [reflexivity|].
    intros request. unfold random_targetUrl. simpl.
    destruct (String.eqb (format image) "gif"); [reflexivity|].
    repeat (destruct (bool_decide _); [reflexivity|]).
    rewrite !andb_false_r. reflexivity.
  - intros Hngif.
    destruct (String.eqb formatLower "gif") eqn:Hg.
    { apply String.eqb_eq in Hg. contradiction. }
    set (webpStoredCond := prefer && JS.truthy (p_webp (paths image)) && _) in Hbuild.
    set (avifStoredCond := prefer && JS.truthy (p_avif (paths image)) && _) in Hbuild.
    destruct (if webpStoredCond then buildPublicUrl D baseUrl (p_webp (paths image))
              else Some "") as [webpStored|] eqn:Hws; [|discriminate].
    cbn [mbind option_bind] in Hbuild.
    destruct (if avifStoredCond then buildPublicUrl D baseUrl (p_avif (paths image))
              else Some "") as [avifStored|] eqn:Has; [|discriminate].
    cbn [mbind option_bind] in Hbuild.
    destruct (variantUrl D "webp" _ _ _ _ _ _ _ _ _ _) as [webpUrl|] eqn:Hwu; [|discriminate].
    cbn [mbind option_bind] in Hbuild.
    destruct (variantUrl D "avif" _ _ _ _ _ _ _ _ _ _) as [avifUrl|] eqn:Hau; [|discriminate].
    cbn [mbind option_bind] in Hbuild. injection Hbuild as <-. cbn [u_webp u_avif].
    split; intros Hgen Havail; apply truthy_not_empty.
    + eapply variantUrl_truthy; [exact Hwu|exact Hgen|exact Horig_t|].
      destruct Havail as [Hst | [Hf | Hf]].
      * left. unfold stored_variant in Hst. fold webpStoredCond in Hst.
        rewrite Hst in Hws. eapply buildPublicUrl_truthy. exact Hws.
      * right. left. rewrite Hf. reflexivity.
      * right. right. exact Hf.
    + eapply variantUrl_truthy; [exact Hau|exact Hgen|exact Horig_t|].
      destruct Havail as [Hst | [Hf | Hf]].
      * left. unfold stored_variant in Hst. fold avifStoredCond in Hst.
        rewrite Hst in Has. eapply buildPublicUrl_truthy. exact Has.
      * right. left. rewrite Hf. reflexivity.
      * right. right. exact Hf.
Qed.

Lemma url_resolution_witness :
  let image :=
    Metadata.rowToMetadata
      (Scenario.image_row "a" "landscape" "jpeg" (Some "landscape/webp/a.webp") None) [] in
  let urls :=
    {| u_original := "https://cdn.example/original/landscape/a.jpeg";
       u_webp := "https://cdn.example/landscape/webp/a.webp";
       u_avif := "" |} in
  buildImageUrls Scenario.deps "https://cdn.example" image
    (Some (random_url_options image)) None = Some urls ∧
  u_webp urls ≠ "".
Proof.
  intros image urls.
  assert (Hbuild : buildImageUrls Scenario.deps "https://cdn.example" image
                     (Some (random_url_options image)) None = Some urls)
    by reflexivity.
  split; [exact Hbuild|].
  destruct (url_resolution Scenario.deps "https://cdn.example" image
              (Some (random_url_options image)) None urls Hbuild)
    as (_ & Hnongif & _).
  destruct Hnongif as [Hwebp _]; [discriminate|].
  apply Hwebp; [reflexivity|left; reflexivity].
Defined.

(** C9 as stated fails in its second half: the random handler switches
    the WebP URL off when the stored WebP path is empty, so a PNG without
    stored variants resolves an empty WebP URL although the transform
    fallback applies to its format. *)
Lemma fallback_available_yet_webp_empty :
  ¬ (∀ (D : Deps.t) (baseUrl : string) (image : ImageMetadata)
       (options : option CompressionOptions) (preferStoredVariants : option bool)
       (urls : Urls),
       buildImageUrls D baseUrl image options preferStoredVariants = Some urls ->
       JS.toLowerCase (format image) ≠ "gif" ->
       stored_variant (default true preferStoredVariants) (p_webp (paths image))
         (p_original (paths image)) (JS.toLowerCase (format image)) "webp" = true
       ∨ transform_fallback (JS.toLowerCase (format image)) = true ->
       u_webp urls ≠ "").
Proof.
  intros H.
  set (image := Metadata.rowToMetadata
                  (Scenario.image_row "b" "landscape" "png" None None) []).
  specialize (H Scenario.deps "https://cdn.example" image
                (Some (random_url_options image)) None
                {| u_original := "https://cdn.example/original/landscape/b.png";
                   u_webp := ""; u_avif := "" |}).
  apply H; [reflexivity|discriminate|right; reflexivity|reflexivity].
Qed.

End UrlSpec.

(** ** The random-image handler *)

Module RandomSpec.
Import Types Runtime Spec Metadata Handlers MetadataFacts.

Lemma random_orientation_truthy (D : Deps.t) (request : RandomRequest) :
  JS.truthy (random_orientation D request) = true.
Proof.
  unfold random_orientation.
  destruct (bool_decide (q_orientation request = Some "landscape")) eqn:Hl.
  - apply bool_decide_eq_true in Hl. rewrite Hl. reflexivity.
  - destruct (bool_decide (q_orientation request = Some "portrait")) eqn:Hp.
    + apply bool_decide_eq_true in Hp. rewrite Hp. reflexivity.
    + simpl. destruct (Deps.isMobileDevice D _); reflexivity.
Qed.

(** The first call of [randomHandler] is the random query built from the
    filters of the request. *)
Lemma randomHandler_first_call (B : Bindings) (D : Deps.t) (env : Env)
    (request : RandomRequest) (w : World) :
  head (emitted w (fst (randomHandler B D env request w)))
  = Some (D1 [random_statement (Some (random_filters D request))]).
Proof.
  unfold randomHandler, catch, Runtime.bind, getRandomImage.
  unfold Runtime.bind, d1_read at 1. unfold call. cbn [log with_log].
  set (stmt := random_statement _).
  destruct (rejects B (log w ++ [D1 [stmt]])) as [m|].
  - unfold ret. simpl. unfold emitted. simpl. rewrite drop_app_length. reflexivity.
  - set (w1 := with_log (log w ++ [D1 [stmt]]) w).
    destruct (first_in_random_order B w1 _) as [row|].
    + destruct (RuntimeFacts.emits_weaken _ (fun _ => True) _
                  (fun _ _ => I) (enrichWithTags_chunked B [row]) w1)
        as (ev & Hlog & _).
      destruct (enrichWithTags B [row] w1) as [w2 [res|e]]; simpl in Hlog.
      * unfold ret. destruct (head res) as [image|].
        -- unfold lift.
           destruct (ImageTransform.buildImageUrls D _ _ _ _) as [urls|].
           ++ unfold ret. destruct (negb _); simpl; unfold emitted;
                rewrite Hlog; unfold w1; simpl; rewrite <- app_assoc, drop_app_length;
                reflexivity.
           ++ unfold throw, ret. simpl. unfold emitted.
              rewrite Hlog. unfold w1. simpl. rewrite <- app_assoc, drop_app_length.
              reflexivity.
        -- simpl. unfold emitted.
           rewrite Hlog. unfold w1. simpl. rewrite <- app_assoc, drop_app_length.
           reflexivity.
      * unfold ret. simpl. unfold emitted.
        rewrite Hlog. unfold w1. simpl. rewrite <- app_assoc, drop_app_length.
        reflexivity.
    + unfold ret. simpl. unfold emitted. simpl. rewrite drop_app_length. reflexivity.
Qed.

(** C10. When the [orientation] parameter is neither ['landscape'] nor
    ['portrait'] (absent included), the filter passed to
    [getRandomImage] carries the orientation derived from the
    User-Agent, ['portrait'] on a mobile device and ['landscape']
    otherwise; the handler's query has the conjunct on [i.orientation]
    with that value bound, every row it ranges over has that
    orientation, and so has the image that [getRandomImage] returns. *)
Theorem default_orientation (B : Bindings) (D : Deps.t) (env : Env)
    (request : RandomRequest) (w : World) :
  q_orientation request ≠ Some "landscape" ->
  q_orientation request ≠ Some "portrait" ->
  let derived :=
    if Deps.isMobileDevice D (h_user_agent request) then "portrait" else "landscape" in
  let filters := Some (random_filters D request) in
  filters ≫= f_orientation = Some derived ∧
  head (emitted w (fst (randomHandler B D env request w)))
    = Some (D1 [random_statement filters]) ∧
  "i.orientation = ?" ∈ random_whereConditions filters ∧
  VText derived ∈ random_params filters ∧
  (∀ row, row ∈ random_rows (db w) filters -> row_orientation row = derived) ∧
  (∀ w' image, getRandomImage B filters w = (w', Ok (Some image)) ->
               orientation image = derived).
Proof.
  intros Hl Hp derived filters.
  assert (Hor : random_orientation D request = derived).
  { unfold random_orientation.
    rewrite (bool_decide_eq_false_2 _ Hl), (bool_decide_eq_false_2 _ Hp).
    reflexivity. }
  assert (Hf : filters ≫= f_orientation = Some derived).
  { simpl. rewrite Hor. reflexivity. }
  assert (Ht : JS.truthy derived = true).
  { rewrite <- Hor. apply random_orientation_truthy. }
  split; [exact Hf|]. split; [apply randomHandler_first_call|].
  split; [|split; [|split]].
  - unfold random_whereConditions. rewrite Hf. cbn [JS.truthy_opt]. rewrite Ht.
    apply elem_of_app. right. apply elem_of_app. right. left.
  - unfold random_params. rewrite Hf. cbn [JS.truthy_opt default]. rewrite Ht.
    apply elem_of_app. right. apply elem_of_app. right.
    apply elem_of_app. left. left.
  - intros row Hrow. apply random_rows_sound in Hrow.
    destruct Hrow as (_ & _ & _ & Ho). apply (Ho derived Hf Ht).
  - intros w' image Hget. apply getRandomImage_sound in Hget.
    destruct Hget as (row & tags' & _ & (_ & _ & Ho) & ->).
    simpl. apply (Ho derived Hf Ht).
Qed.

Lemma default_orientation_witness :
  let request :=
    {| q_tags := Some "cat"; q_exclude := None; q_orientation := None;
       q_format := None; h_user_agent := Some "Mozilla/5.0 (iPhone) Mobile";
       h_accept := None |} in
  q_orientation request ≠ Some "landscape" ∧
  q_orientation request ≠ Some "portrait" ∧
  ∀ row,
    row ∈ random_rows Scenario.cats_db (Some (random_filters Scenario.deps request)) ->
    row_orientation row = "portrait".
Proof.
  intros request.
  assert (Hl : q_orientation request ≠ Some "landscape") by discriminate.
  assert (Hp : q_orientation request ≠ Some "portrait") by discriminate.
  split; [exact Hl|]. split; [exact Hp|].
  exact (proj1 (proj2 (proj2 (proj2 (proj2
           (default_orientation Scenario.calm Scenario.deps Scenario.env request
              (Scenario.world Scenario.cats_db) Hl Hp)))))).
Defined.

End RandomSpec.

(** ** Tag deletion *)

Module DeleteTagSpec.
Import Types Runtime Spec Metadata Handlers RuntimeFacts.

(** *** Plans *)

Lemma performed_prefix (B : Bindings) (plan : list event) :
  ∀ L, ∃ rest, plan = fst (performed B L plan) ++ rest.
Proof.
  induction plan as [|e plan IH]; intros L; simpl.
  - exists []. reflexivity.
  - destruct (rejects B (L ++ [e])); simpl.
    + exists plan. reflexivity.
    + destruct (IH (L ++ [e])) as [rest Hrest].
      destruct (performed B (L ++ [e]) plan) as [ev rej]. simpl in *.
      exists rest. rewrite Hrest at 1. reflexivity.
Qed.

Lemma performed_complete (B : Bindings) (plan : list event) :
  ∀ L, snd (performed B L plan) = None ->
       fst (performed B L plan) = plan ∧
       ∀ pre e post, plan = pre ++ e :: post -> rejects B (L ++ pre ++ [e]) = None.
Proof.
  induction plan as [|e plan IH]; intros L; simpl.
  - intros _. split; [reflexivity|]. intros pre e post H. destruct pre; discriminate.
  - destruct (rejects B (L ++ [e])) eqn:Hrej; simpl; [discriminate|].
    specialize (IH (L ++ [e])).
    destruct (performed B (L ++ [e]) plan) as [ev rej]. simpl in *.
    intros Hnone. destruct (IH Hnone) as [-> Hall].
    split; [reflexivity|].
    intros pre e' post Heq. destruct pre as [|p pre]; simpl in Heq.
    + injection Heq as <- _. exact Hrej.
    + injection Heq as <- ->. specialize (Hall pre e' post eq_refl).
      rewrite <- app_assoc in Hall. exact Hall.
Qed.

(** A plan whose calls are all accepted is carried out to the end. *)
Lemma performed_accepted (B : Bindings) (plan : list event) :
  ∀ L,
    (∀ pre e post, plan = pre ++ e :: post -> rejects B (L ++ pre ++ [e]) = None) ->
    performed B L plan = (plan, None).
Proof.
  induction plan as [|e plan IH]; intros L Hall; simpl; [reflexivity|].
  pose proof (Hall [] e plan eq_refl) as Hfirst. cbn [app] in Hfirst.
  rewrite Hfirst.
  rewrite (IH (L ++ [e])); [reflexivity|].
  intros pre e' post Heq. rewrite <- app_assoc.
  apply (Hall (e :: pre) e' post). rewrite Heq. reflexivity.
Qed.

Lemma performed_rejected_last (B : Bindings) (plan : list event) :
  ∀ L pre e post message,
    fst (performed B L plan) = pre ++ e :: post ->
    rejects B (L ++ pre ++ [e]) = Some message ->
    post = [] ∧ snd (performed B L plan) = Some message.
Proof.
  induction plan as [|e0 plan IH]; intros L pre e post message; simpl.
  - intros H. destruct pre; discriminate.
  - destruct (rejects B (L ++ [e0])) eqn:Hrej; simpl.
    + intros Heq Hmsg. destruct pre as [|p pre]; simpl in Heq.
      * injection Heq as <- <-. simpl in Hmsg. split; [reflexivity|congruence].
      * injection Heq as _ Heq. destruct pre; discriminate.
    + specialize (IH (L ++ [e0])).
      destruct (performed B (L ++ [e0]) plan) as [ev rej]. simpl in *.
      intros Heq Hmsg. destruct pre as [|p pre]; simpl in Heq.
      * injection Heq as <- _. simpl in Hmsg. congruence.
      * injection Heq as <- ->. apply (IH pre e post message eq_refl).
        rewrite <- app_assoc. exact Hmsg.
Qed.

Lemma performed_app (B : Bindings) (p1 p2 : list event) :
  ∀ L, performed B L (p1 ++ p2) =
       match snd (performed B L p1) with
       | Some message => performed B L p1
       | None =>
           (p1 ++ fst (performed B (L ++ p1) p2), snd (performed B (L ++ p1) p2))
       end.
Proof.
  induction p1 as [|e p1 IH]; intros L; simpl.
  - rewrite app_nil_r. destruct (performed B L p2); reflexivity.
  - destruct (rejects B (L ++ [e])); simpl; [reflexivity|].
    rewrite IH.
    destruct (performed B (L ++ [e]) p1) as [ev [m|]]; simpl; [reflexivity|].
    rewrite <- app_assoc. reflexivity.
Qed.

(** *** Chunks *)

Lemma chunks_bounded {A} (size : nat) (xs : list A) :
  ∀ fuel, Forall (fun c => (length c <= size)%nat) (chunks fuel size xs).
Proof.
  intros fuel. revert xs. induction fuel as [|fuel IH]; intros xs; simpl.
  - constructor.
  - destruct xs as [|x xs]; [constructor|].
    constructor; [rewrite length_take; lia|apply IH].
Qed.

Lemma chunks_concat {A} (size : nat) :
  (0 < size)%nat ->
  ∀ fuel (xs : list A), (length xs <= fuel)%nat -> concat (chunks fuel size xs) = xs.
Proof.
  intros Hsize fuel. induction fuel as [|fuel IH]; intros xs Hlen; simpl.
  - destruct xs; [reflexivity|simpl in Hlen; lia].
  - destruct xs as [|x xs]; [reflexivity|].
    cbn [concat]. rewrite IH; [apply take_drop|].
    rewrite length_drop. simpl in *. lia.
Qed.

(** *** The handler carries out its plan *)

Section Handler.
Context (B : Bindings) (D : Deps.t).

Lemma d1_read_run {A} (stmt : Statement) (query : World -> A) (w : World) :
  d1_read B stmt query w =
  (with_log (log w ++ [D1 [stmt]]) w,
   match rejects B (log w ++ [D1 [stmt]]) with
   | Some message => Throw message
   | None => Ok (query (with_log (log w ++ [D1 [stmt]]) w))
   end).
Proof.
  unfold d1_read, call. cbn [log with_log].
  destruct (rejects B (log w ++ [D1 [stmt]])); reflexivity.
Qed.

Lemma d1_run_run {A} (stmt : Statement) (effect : DB -> DB * A) (w : World) :
  d1_run B stmt effect w =
  match rejects B (log w ++ [D1 [stmt]]) with
  | Some message => (with_log (log w ++ [D1 [stmt]]) w, Throw message)
  | None => (with_db (fst (effect (db w))) (with_log (log w ++ [D1 [stmt]]) w),
             Ok (snd (effect (db w))))
  end.
Proof.
  unfold d1_run, call. cbn [log with_log db].
  destruct (rejects B (log w ++ [D1 [stmt]])); [reflexivity|].
  destruct (effect (db w)); reflexivity.
Qed.

(** The loop of queue submissions from index [i] on carries out the plan
    of the chunks of the remaining entries. *)
Lemma send_loop_performed (name : string) (all : list ImagePathEntry) :
  ∀ fuel i w,
    ∃ q,
      for_loop fuel i (length all) 50
        (fun i _ => queue_send B (delete_job name (JS.slice i (i + 50) all))) tt w
      = (with_queue q
           (with_log
              (log w ++ fst (performed B (log w)
                               (map (fun c => Send (delete_job name c))
                                    (chunks fuel 50 (drop i all))))) w),
         match snd (performed B (log w)
                      (map (fun c => Send (delete_job name c))
                           (chunks fuel 50 (drop i all)))) with
         | None => Ok tt
         | Some message => Throw message
         end).
Proof.
  induction fuel as [|fuel IH]; intros i w.
  - simpl. exists (queue w). unfold ret. rewrite app_nil_r. destruct w; reflexivity.
  - cbn [for_loop chunks].
    destruct (i <? length all)%nat eqn:Hi.
    + apply Nat.ltb_lt in Hi.
      destruct (drop i all) as [|x rest] eqn:Hdrop.
      { apply (f_equal length) in Hdrop. rewrite length_drop in Hdrop.
        simpl in Hdrop. lia. }
      rewrite <- Hdrop.
      assert (Hslice : JS.slice i (i + 50) all = take 50 (drop i all)).
      { unfold JS.slice. f_equal. lia. }
      rewrite Hslice. rewrite drop_drop.
      cbn [map performed].
      unfold Runtime.bind, queue_send at 1. unfold call. cbn [log with_log].
      set (job := delete_job name (take 50 (drop i all))).
      destruct (rejects B (log w ++ [Send job])) as [m|] eqn:Hrej.
      * exists (queue w). cbn [fst snd]. destruct w; reflexivity.
      * cbn [queue with_queue with_log].
        set (w1 := with_queue _ _).
        destruct (IH (i + 50)%nat w1) as [q Hq]. rewrite Hq.
        exists q. unfold w1. cbn [log with_queue with_log].
        destruct (performed B ((log w ++ [Send job]))
                    (map (fun c => Send (delete_job name c))
                         (chunks fuel 50 (drop (i + 50) all)))) as [ev rej].
        cbn [fst snd]. rewrite <- app_assoc. reflexivity.
    + apply Nat.ltb_ge in Hi. rewrite drop_ge by exact Hi.
      simpl. exists (queue w). unfold ret. rewrite app_nil_r. destruct w; reflexivity.
Qed.

(** The run of [deleteTagHandler] is the plan carried out; success is
    reported exactly when no call of the plan was rejected. *)
Lemma deleteTagHandler_performed (param_name name : string) (w : World) :
  Deps.decodeURIComponent D param_name = Some name ->
  let entries := map job_entry (image_paths_by_tag (db w) name) in
  let outcome := performed B (log w) (delete_tag_plan name entries) in
  ∃ w',
    deleteTagHandler B D param_name w
    = (w', Ok match snd outcome with
              | None =>
                  successResponse
                    (DeleteTagPayload "标签及关联图片已删除"
                       (snd (delete_images (image_ids_tagged (db w) [name]) (db w))))
              | Some _ => errorResponse "删除标签失败" None
              end) ∧
    log w' = log w ++ fst outcome.
Proof.
  intros Hname entries outcome. subst outcome.
  unfold deleteTagHandler, catch. rewrite Hname. unfold lift.
  unfold Runtime.bind at 1. unfold ret at 1.
  unfold Runtime.bind at 1. unfold getImagePathsByTag. rewrite d1_read_run.
  unfold delete_tag_plan. cbn [app performed].
  destruct (rejects B (log w ++ [D1 [paths_by_tag_statement name]])) as [m|] eqn:H1.
  { eexists. split; [reflexivity|]. reflexivity. }
  cbn [db with_log]. fold entries.
  set (w1 := with_log (log w ++ [D1 [paths_by_tag_statement name]]) w).
  unfold Runtime.bind at 1. unfold deleteTagWithImages.
  unfold Runtime.bind at 1. rewrite d1_run_run. cbn [log with_log] in *.
  change (log w1) with (log w ++ [D1 [paths_by_tag_statement name]]).
  destruct (rejects B ((log w ++ [D1 [paths_by_tag_statement name]])
                       ++ [D1 [delete_images_by_tag_statement name]])) as [m|] eqn:H2.
  { eexists. split; [reflexivity|]. cbn [fst log with_log]. rewrite <- app_assoc. reflexivity. }
  set (w2 := with_db _ (with_log _ w1)).
  unfold Runtime.bind at 1. rewrite d1_run_run.
  change (log w2) with ((log w ++ [D1 [paths_by_tag_statement name]])
                        ++ [D1 [delete_images_by_tag_statement name]]).
  destruct (rejects B (((log w ++ [D1 [paths_by_tag_statement name]])
                        ++ [D1 [delete_images_by_tag_statement name]])
                       ++ [D1 [delete_tag_statement name]])) as [m|] eqn:H3.
  { eexists. split; [reflexivity|]. cbn [fst log with_log].
    rewrite <- !app_assoc. reflexivity. }
  set (w3 := with_db _ (with_log _ w2)).
  unfold ret at 1.
  unfold Runtime.bind at 1. unfold invalidateAfterTagChange. rewrite call_run.
  change (log w3) with (((log w ++ [D1 [paths_by_tag_statement name]])
                         ++ [D1 [delete_images_by_tag_statement name]])
                        ++ [D1 [delete_tag_statement name]]).
  destruct (rejects B ((((log w ++ [D1 [paths_by_tag_statement name]])
                         ++ [D1 [delete_images_by_tag_statement name]])
                        ++ [D1 [delete_tag_statement name]])
                       ++ [Invalidate "afterTagChange"])) as [m|] eqn:H4.
  { eexists. split; [reflexivity|]. cbn [fst log with_log].
    rewrite <- !app_assoc. reflexivity. }
  cbn [fst snd].
  set (w4 := with_log _ w3).
  set (L4 := (((log w ++ _) ++ _) ++ _) ++ _) in *.
  assert (Hloop : ∃ q,
    (if (0 <? length entries)%nat
     then for_loop (length entries) 0 (length entries) 50
            (fun i _ => queue_send B (delete_job name (JS.slice i (i + 50) entries))) tt
     else ret tt) w4
    = (with_queue q
         (with_log (L4 ++ fst (performed B L4
                                 (map (fun c => Send (delete_job name c))
                                      (chunks (length entries) 50 entries)))) w4),
       match snd (performed B L4
                    (map (fun c => Send (delete_job name c))
                         (chunks (length entries) 50 entries))) with
       | None => Ok tt
       | Some message => Throw message
       end)).
  { destruct (0 <? length entries)%nat eqn:Hlen.
    - destruct (send_loop_performed name entries (length entries) 0%nat w4) as [q Hq].
      exists q. rewrite Hq. reflexivity.
    - apply Nat.ltb_ge in Hlen. destruct entries; [|simpl in Hlen; lia].
      exists (queue w4). unfold ret. cbn [length chunks map performed fst snd].
      rewrite app_nil_r. change L4 with (log w4). rewrite world_eta. reflexivity. }
  destruct Hloop as [q Hloop].
  unfold Runtime.bind at 1. rewrite Hloop.
  destruct (performed B L4 _) as [ev [m|]]; cbn [fst snd].
  - eexists. split; [reflexivity|]. cbn [log with_queue with_log].
    unfold L4. rewrite <- !app_assoc. reflexivity.
  - eexists. split; [reflexivity|]. cbn [log with_queue with_log].
    unfold L4. rewrite <- !app_assoc. reflexivity.
Qed.

(** A rejected database call can only be followed by nothing, so no
    queue submission precedes or follows it. *)
Lemma no_send_before_d1 (name : string) (entries : list ImagePathEntry)
    (pre rest : list event) (stmts : list Statement) (job : DeleteJob) :
  delete_tag_plan name entries = pre ++ D1 stmts :: rest ->
  Send job ∉ pre ++ [D1 stmts].
Proof.
  unfold delete_tag_plan. intros Heq Hin.
  apply elem_of_app in Hin. destruct Hin as [Hin | Hin];
    [|apply list_elem_of_singleton in Hin; discriminate].
  destruct pre as [|a [|b [|c [|d pre]]]]; simpl in Heq.
  - inversion Hin.
  - injection Heq as <- _. apply list_elem_of_singleton in Hin. discriminate.
  - injection Heq as <- <- _.
    repeat (apply elem_of_cons in Hin; destruct Hin as [Hin | Hin]; [discriminate|]).
    inversion Hin.
  - injection Heq as <- <- <- _.
    repeat (apply elem_of_cons in Hin; destruct Hin as [Hin | Hin]; [discriminate|]).
    inversion Hin.
  - injection Heq as _ _ _ _ Heq.
    assert (Hd : D1 stmts ∈ map (fun c => Send (delete_job name c))
                              (chunks (length entries) 50 entries)).
    { rewrite Heq. apply elem_of_app. right. left. }
    apply list_elem_of_fmap in Hd. destruct Hd as (c' & Hc & _). discriminate.
Qed.

(** C2. A tag deletion carries out, in this order, the read of the
    affected paths, the metadata deletion (the images, then the tag), the
    cache invalidation and the queue submissions: the calls it makes are
    this plan carried out up to the first call that is rejected.  When no
    call is rejected the whole plan is carried out and success is reported
    with the count of the deletion; success is reported only then.  A
    rejected call is the last one and failure is reported; when it is a
    database call no job has been submitted.  Every queue job carries at
    most 50 entries and the jobs together carry all affected paths. *)
Theorem delete_tag_pipeline (param_name : string) (w : World) :
  match Deps.decodeURIComponent D param_name with
  | None =>
      deleteTagHandler B D param_name w = (w, Ok (errorResponse "删除标签失败" None))
  | Some name =>
      let entries := map job_entry (image_paths_by_tag (db w) name) in
      let plan := delete_tag_plan name entries in
      let run := deleteTagHandler B D param_name w in
      let ev := emitted w (fst run) in
      ev = fst (performed B (log w) plan) ∧
      (∃ rest, plan = ev ++ rest) ∧
      ((∀ pre e post, plan = pre ++ e :: post -> rejects B (log w ++ pre ++ [e]) = None) ->
       ev = plan ∧
       snd run
       = Ok (successResponse
               (DeleteTagPayload "标签及关联图片已删除"
                  (snd (delete_images (image_ids_tagged (db w) [name]) (db w)))))) ∧
      (∀ data, snd run = Ok (successResponse data) ->
         ev = plan ∧
         ∀ pre e post, ev = pre ++ e :: post -> rejects B (log w ++ pre ++ [e]) = None) ∧
      (∀ pre e post message,
         ev = pre ++ e :: post ->
         rejects B (log w ++ pre ++ [e]) = Some message ->
         post = [] ∧ snd run = Ok (errorResponse "删除标签失败" None)) ∧
      (∀ pre stmts post message,
         ev = pre ++ D1 stmts :: post ->
         rejects B (log w ++ pre ++ [D1 stmts]) = Some message ->
         snd run = Ok (errorResponse "删除标签失败" None) ∧ ∀ job, Send job ∉ ev) ∧
      (∀ job, Send job ∈ plan -> (length (imagePaths job) <= 50)%nat) ∧
      concat (chunks (length entries) 50 entries) = entries
  end.
Proof.
  destruct (Deps.decodeURIComponent D param_name) as [name|] eqn:Hname.
  2: { unfold deleteTagHandler, catch, Runtime.bind, lift. rewrite Hname. reflexivity. }
  intros entries plan run ev.
  destruct (deleteTagHandler_performed param_name name w Hname) as (w' & Hrun & Hlog).
  fold entries plan in Hrun, Hlog.
  assert (Hev : ev = fst (performed B (log w) plan)).
  { unfold ev, run, emitted. rewrite Hrun. cbn [fst]. rewrite Hlog.
    apply drop_app_length. }
  assert (Hres : snd run = Ok match snd (performed B (log w) plan) with
                              | None =>
                                  successResponse
                                    (DeleteTagPayload "标签及关联图片已删除"
                                       (snd (delete_images
                                               (image_ids_tagged (db w) [name]) (db w))))
                              | Some _ => errorResponse "删除标签失败" None
                              end).
  { unfold run. rewrite Hrun. reflexivity. }
  clearbody ev run. clear Hrun Hlog.
  split; [exact Hev|].
  split; [|split; [|split; [|split; [|split; [|split]]]]].
  - rewrite Hev. apply performed_prefix.
  - intros Hall. rewrite Hres, Hev.
    rewrite (performed_accepted B plan (log w) Hall). split; reflexivity.
  - intros data Hdata. rewrite Hres in Hdata.
    destruct (snd (performed B (log w) plan)) eqn:Hrej; [discriminate|].
    destruct (performed_complete B plan (log w) Hrej) as [Hfst Hall].
    rewrite Hev, Hfst. split; [reflexivity|exact Hall].
  - intros pre e post message Heq Hmsg. rewrite Hev in Heq.
    destruct (performed_rejected_last B plan (log w) pre e post message Heq Hmsg)
      as [-> Hrej].
    split; [reflexivity|]. rewrite Hres, Hrej. reflexivity.
  - intros pre stmts post message Heq Hmsg. rewrite Hev in Heq.
    destruct (performed_rejected_last B plan (log w) pre (D1 stmts) post message Heq Hmsg)
      as [-> Hrej].
    split; [rewrite Hres, Hrej; reflexivity|].
    intros job. rewrite Hev, Heq.
    destruct (performed_prefix B plan (log w)) as [rest Hrest].
    rewrite Heq, <- app_assoc in Hrest. simpl in Hrest.
    eapply no_send_before_d1. exact Hrest.
  - intros job Hin. unfold plan, delete_tag_plan in Hin.
    apply elem_of_app in Hin. destruct Hin as [Hin | Hin].
    + repeat (apply elem_of_cons in Hin; destruct Hin as [Hin | Hin]; [discriminate|]).
      inversion Hin.
    + apply list_elem_of_fmap in Hin. destruct Hin as (c & Hc & Hin).
      injection Hc as ->. cbn [imagePaths delete_job].
      pose proof (chunks_bounded 50 entries (length entries)) as Hb.
      rewrite Forall_forall in Hb. apply Hb. exact Hin.
  - apply chunks_concat; lia.
Qed.

End Handler.

Lemma delete_tag_pipeline_witness :
  let w := Scenario.world Scenario.cats_db in
  let done := deleteTagHandler Scenario.calm Scenario.deps "dog" w in
  let refused := deleteTagHandler Scenario.delete_refused Scenario.deps "cat" w in
  (emitted w (fst done)
   = [D1 [paths_by_tag_statement "dog"]; D1 [delete_images_by_tag_statement "dog"];
      D1 [delete_tag_statement "dog"]; Invalidate "afterTagChange";
      Send (delete_job "dog"
              (map job_entry (image_paths_by_tag Scenario.cats_db "dog")))] ∧
   snd done = Ok (successResponse (DeleteTagPayload "标签及关联图片已删除" 3))) ∧
  (emitted w (fst refused)
   = [D1 [paths_by_tag_statement "cat"]; D1 [delete_images_by_tag_statement "cat"]] ∧
   snd refused = Ok (errorResponse "删除标签失败" None) ∧
   ∀ job, Send job ∉ emitted w (fst refused)).
Proof.
  intros w done refused. split.
  - destruct (delete_tag_pipeline Scenario.calm Scenario.deps "dog" w)
      as (_ & _ & Hdone & _).
    destruct Hdone as [Hev Hres]; [intros; reflexivity|].
    split; [exact Hev|exact Hres].
  - split; [reflexivity|].
    destruct (delete_tag_pipeline Scenario.delete_refused Scenario.deps "cat" w)
      as (_ & _ & _ & _ & _ & Hfail & _).
    exact (Hfail [D1 [paths_by_tag_statement "cat"]]
                 [delete_images_by_tag_statement "cat"] []
                 "D1_ERROR: database is locked" eq_refl eq_refl).
Defined.

End DeleteTagSpec.

(** ** Upload *)

Module UploadSpec.
Import Types Runtime Spec Metadata Handlers RuntimeFacts.

Section Upload.
Context (B : Bindings) (D : Deps.t) (env : Env).

Lemma storage_upload_run (key : string) (body : JS.bytes) (contentType : string)
    (w : World) :
  storage_upload B key body contentType w =
  match rejects B (log w ++ [Put key body contentType]) with
  | Some message => (with_log (log w ++ [Put key body contentType]) w, Throw message)
  | None =>
      (with_bucket (<[key := (body, contentType)]> (bucket w))
         (with_log (log w ++ [Put key body contentType]) w), Ok tt)
  end.
Proof. unfold storage_upload. rewrite call_run. reflexivity. Qed.

(** [compress] touches nothing but the log. *)
Lemma compress_frame (input : JS.bytes) (format : string)
    (options : CompressionOptions) (w : World) :
  ∃ ev, fst (Compression.compress B input format options w) = with_log (log w ++ ev) w.
Proof.
  pose proof (RetryFacts.compress_run B input format options w) as Hrun.
  cbv zeta in Hrun.
  destruct (String.eqb format "gif" && Compression.isAnimatedGif input && _).
  - rewrite Hrun. exists []. rewrite app_nil_r. destruct w; reflexivity.
  - destruct (rejects B _).
    + rewrite Hrun. eexists. reflexivity.
    + destruct Hrun as (segw & sega & ow & oa & Hrun & _). rewrite Hrun.
      eexists. reflexivity.
Qed.

(** The object [upload_variants] stores for a variant: the derived bytes
    when compression kept the variant, the original bytes otherwise. *)
Lemma upload_variants_compressed (file : FormData.File) (imageInfo : ImageInfo)
    (paths : Paths) (contentType : string) (options : CompressionOptions)
    (w w' : World) (variantSizes : Z * Z) :
  info_format imageInfo ≠ "gif" -> IMAGES env = true ->
  upload_variants B env file imageInfo paths contentType options w
    = (w', Ok variantSizes) ->
  let arrayBuffer := FormData.file_bytes file in
  let w1 :=
    with_bucket (<[p_original paths := (arrayBuffer, contentType)]> (bucket w))
      (with_log (log w ++ [Put (p_original paths) arrayBuffer contentType]) w) in
  ∃ evc res,
    Compression.compress B arrayBuffer (info_format imageInfo) options w1
      = (with_log (log w1 ++ evc) w1, Ok res) ∧
    db w' = db w ∧
    log w' =
      log w ++ [Put (p_original paths) arrayBuffer contentType] ++ evc ++
      [match webp res with
       | Some v => Put (p_webp paths) (data v) "image/webp"
       | None => Put (p_webp paths) arrayBuffer contentType
       end;
       match avif res with
       | Some v => Put (p_avif paths) (data v) "image/avif"
       | None => Put (p_avif paths) arrayBuffer contentType
       end] ∧
    variantSizes =
      (match webp res with Some v => size v | None => FormData.file_size file end,
       match avif res with Some v => size v | None => FormData.file_size file end).
Proof.
  intros Hgif Himages Hrun arrayBuffer w1.
  unfold upload_variants in Hrun. fold arrayBuffer in Hrun.
  assert (Hg : String.eqb (info_format imageInfo) "gif" = false)
    by (apply String.eqb_neq; exact Hgif).
  rewrite Hg, Himages in Hrun. cbn [negb andb] in Hrun.
  unfold Runtime.bind at 1 in Hrun. rewrite storage_upload_run in Hrun.
  destruct (rejects B (log w ++ [Put (p_original paths) arrayBuffer contentType]));
    [discriminate|].
  fold w1 in Hrun. unfold Runtime.bind at 1 in Hrun.
  destruct (compress_frame arrayBuffer (info_format imageInfo) options w1) as [evc Hc].
  destruct (Compression.compress B arrayBuffer (info_format imageInfo) options w1)
    as [w2 [res|e]] eqn:Hcompress; [|discriminate].
  simpl in Hc. subst w2. exists evc, res. split; [reflexivity|].
  unfold Runtime.bind at 1 in Hrun.
  destruct (webp res) as [wv|], (avif res) as [av|];
    unfold Runtime.bind at 1 in Hrun; rewrite storage_upload_run in Hrun;
    (destruct (rejects B _); [cbn beta iota in Hrun; discriminate|]);
    unfold ret at 1 in Hrun; cbn beta iota in Hrun;
    unfold Runtime.bind at 1 in Hrun;
    unfold Runtime.bind at 1 in Hrun; rewrite storage_upload_run in Hrun;
    cbn [log with_log with_bucket] in Hrun;
    (destruct (rejects B _); [cbn beta iota in Hrun; discriminate|]);
    unfold ret in Hrun; cbn beta iota in Hrun; injection Hrun as <- <-;
    (split; [reflexivity|]); (split; [|reflexivity]);
    unfold w1; cbn [log with_log with_bucket]; rewrite <- !app_assoc; reflexivity.
Qed.

(** A successful [upload_variants] writes no metadata, and for every
    format but GIF it stores an object under the WebP key and one under
    the AVIF key. *)
Lemma upload_variants_ok (file : FormData.File) (imageInfo : ImageInfo)
    (paths : Paths) (contentType : string) (options : CompressionOptions)
    (w w' : World) (variantSizes : Z * Z) :
  upload_variants B env file imageInfo paths contentType options w
    = (w', Ok variantSizes) ->
  db w' = db w ∧
  ∃ ev, log w' = log w ++ ev ∧
    (info_format imageInfo ≠ "gif" ->
     ∃ body1 type1 body2 type2,
       Put (p_webp paths) body1 type1 ∈ ev ∧ Put (p_avif paths) body2 type2 ∈ ev).
Proof.
  intros Hrun.
  destruct (String.eqb (info_format imageInfo) "gif") eqn:Hg.
  - (* GIF: the original alone *)
    unfold upload_variants in Hrun. rewrite Hg in Hrun. cbn [negb andb] in Hrun.
    unfold Runtime.bind in Hrun. rewrite storage_upload_run in Hrun.
    destruct (rejects B _); [discriminate|].
    unfold ret in Hrun. injection Hrun as <- _.
    split; [reflexivity|]. eexists. split; [reflexivity|].
    intros Hne. apply String.eqb_eq in Hg. contradiction.
  - apply String.eqb_neq in Hg.
    destruct (IMAGES env) eqn:Himages.
    + destruct (upload_variants_compressed file imageInfo paths contentType options
                  w w' variantSizes Hg Himages Hrun)
        as (evc & res & _ & Hdb & Hlog & _).
      split; [exact Hdb|]. eexists. split; [exact Hlog|].
      intros _.
      destruct (webp res) as [wv|], (avif res) as [av|]; eexists _, _, _, _;
        (split; (apply elem_of_cons; right; apply elem_of_app; right);
         [left|right; left]).
    + unfold upload_variants in Hrun.
      apply String.eqb_neq in Hg. rewrite Hg, Himages in Hrun.
      cbn [negb andb] in Hrun.
      unfold Runtime.bind at 1 in Hrun. rewrite storage_upload_run in Hrun.
      destruct (rejects B _); [discriminate|]. cbn beta iota in Hrun.
      unfold Runtime.bind at 1 in Hrun. rewrite storage_upload_run in Hrun.
      cbn [log with_log with_bucket] in Hrun.
      destruct (rejects B _); [discriminate|]. cbn beta iota in Hrun.
      unfold Runtime.bind at 1 in Hrun. rewrite storage_upload_run in Hrun.
      cbn [log with_log with_bucket] in Hrun.
      destruct (rejects B _); [discriminate|]. cbn beta iota in Hrun.
      unfold ret in Hrun. injection Hrun as <- _.
      split; [reflexivity|].
      exists [Put (p_original paths) (FormData.file_bytes file) contentType;
              Put (p_webp paths) (FormData.file_bytes file) contentType;
              Put (p_avif paths) (FormData.file_bytes file) contentType].
      split; [cbn [log with_log with_bucket]; rewrite <- !app_assoc; reflexivity|].
      intros _. eexists _, _, _, _. split; [right; left|right; right; left].
Qed.

Lemma insert_or_ignore_tag_images (name : string) (d : DB) :
  t_images (insert_or_ignore_tag name d) = t_images d.
Proof. unfold insert_or_ignore_tag. destruct (decide _); reflexivity. Qed.

Lemma insert_associations_images (rows : list ImageTagRow) (d d' : DB) :
  insert_associations rows d = Some d' -> t_images d' = t_images d.
Proof.
  unfold insert_associations. destruct (decide _); [|discriminate].
  intros H. injection H as <-. reflexivity.
Qed.

(** The tag statements of [saveImage] leave table [images] alone. *)
Lemma tag_steps_images (image_id : string) (names : list string) :
  ∀ d d',
    run_batch
      (map snd
         (tag ← names;
          [({| sql := "INSERT OR IGNORE INTO tags (name) VALUES (?)";
               binds := [VText tag] |},
            fun d : DB => Some (insert_or_ignore_tag tag d));
           ({| sql := "INSERT INTO image_tags (image_id, tag_id) SELECT ?, id FROM tags WHERE name = ?";
               binds := [VText image_id; VText tag] |},
            fun d : DB => insert_associations (association_rows image_id tag d) d)]))
      d = Some d' ->
    t_images d' = t_images d.
Proof.
  induction names as [|tag names IH]; intros d d' H.
  - simpl in H. injection H as <-. reflexivity.
  - cbn [mbind list_bind app map snd run_batch] in H.
    destruct (insert_associations _ (insert_or_ignore_tag tag d)) as [d1|] eqn:Hassoc;
      [|discriminate].
    apply IH in H. rewrite H.
    apply insert_associations_images in Hassoc. rewrite Hassoc.
    apply insert_or_ignore_tag_images.
Qed.

(** A successful [saveImage] appends exactly the row of the metadata. *)
Lemma saveImage_ok (metadata : ImageMetadata) (w w' : World) :
  saveImage B metadata w = (w', Ok tt) ->
  t_images (db w') = t_images (db w) ++ [metadata_row metadata] ∧
  ∃ stmts, log w' = log w ++ [D1 stmts].
Proof.
  unfold saveImage, d1_batch. rewrite call_run.
  destruct (rejects B _); [discriminate|]. cbn [fst snd].
  destruct (run_batch _ _) as [d'|] eqn:Hbatch; [|discriminate].
  intros H. injection H as <-. cbn [db with_db log with_log].
  split; [|eexists; reflexivity].
  cbn [map snd run_batch] in Hbatch.
  unfold insert_image in Hbatch at 1.
  destruct (decide _); [discriminate|].
  apply tag_steps_images in Hbatch. rewrite Hbatch. reflexivity.
Qed.

(** The detached cache invalidation of an upload writes no metadata. *)
Lemma invalidation_frame (w : World) :
  db (fst (waitUntil (Runtime.bind (invalidateImagesList B)
                        (fun _ => invalidateTagsList B)) w)) = db w ∧
  ∃ ev, log (fst (waitUntil (Runtime.bind (invalidateImagesList B)
                               (fun _ => invalidateTagsList B)) w)) = log w ++ ev.
Proof.
  unfold waitUntil, Runtime.bind, invalidateImagesList, invalidateTagsList.
  rewrite call_run. cbn [fst snd].
  destruct (rejects B _).
  - split; [reflexivity|]. eexists. reflexivity.
  - rewrite call_run. cbn [fst snd log with_log].
    destruct (rejects B _); (split; [reflexivity|]);
      exists [Invalidate "imagesList"; Invalidate "tagsList"];
      cbn [log with_log]; rewrite <- app_assoc; reflexivity.
Qed.

(** C3, as the code has it. The record a successful upload saves holds
    the three keys [generatePaths] derives from id, orientation and
    format (an empty key stored as absent), whatever compression
    produced; and unless the format is GIF an object was stored under the
    WebP key and under the AVIF key, the derived variant or else a copy
    of the original. *)
Theorem upload_records_generated_paths (formData : FormData.t) (w w' : World)
    (data : payload) :
  uploadSingleHandler B D env formData w = (w', Ok (successResponse data)) ->
  ∃ file row,
    FormData.get "image" formData = Some (FormData.Blob file) ∧
    let imageInfo := decode B (FormData.file_bytes file) in
    let paths :=
      Deps.generatePaths D (Deps.generateImageId D)
        (info_orientation imageInfo) (info_format imageInfo) in
    t_images (db w') = t_images (db w) ++ [row] ∧
    row_id row = Deps.generateImageId D ∧
    path_original row = p_original paths ∧
    path_webp row = JS.or_absent (p_webp paths) ∧
    path_avif row = JS.or_absent (p_avif paths) ∧
    (info_format imageInfo ≠ "gif" ->
     ∃ body1 type1 body2 type2,
       Put (p_webp paths) body1 type1 ∈ emitted w w' ∧
       Put (p_avif paths) body2 type2 ∈ emitted w w').
Proof.
  unfold uploadSingleHandler, catch. intros Hrun.
  destruct (FormData.get "image" formData) as [[text|file]|] eqn:Hfile;
    [discriminate| |discriminate].
  unfold Runtime.bind at 1 in Hrun. unfold getImageInfo in Hrun.
  rewrite call_run in Hrun. cbn [fst snd] in Hrun.
  destruct (rejects B _); [discriminate|].
  set (imageInfo := decode B (FormData.file_bytes file)) in *.
  destruct (negb (Deps.isSupportedFormat D (info_format imageInfo))); [discriminate|].
  set (paths := Deps.generatePaths D (Deps.generateImageId D)
                  (info_orientation imageInfo) (info_format imageInfo)) in *.
  set (w1 := with_log (log w ++ [GetImageInfo (FormData.file_bytes file)]) w) in *.
  unfold Runtime.bind at 1 in Hrun.
  destruct (upload_variants B env file imageInfo paths _ _ w1)
    as [w2 [variantSizes|e]] eqn:Hup; [|discriminate].
  apply upload_variants_ok in Hup. destruct Hup as (Hdb2 & ev2 & Hlog2 & Hput).
  unfold Runtime.bind at 1 in Hrun.
  destruct (saveImage B _ w2) as [w3 [[]|e]] eqn:Hsave; [|discriminate].
  apply saveImage_ok in Hsave. destruct Hsave as (Himg & stmts & Hlog3).
  unfold Runtime.bind at 1 in Hrun.
  destruct (invalidation_frame w3) as (Hdb4 & ev4 & Hlog4).
  unfold waitUntil in Hrun, Hdb4, Hlog4. cbn [fst snd] in Hrun, Hdb4, Hlog4.
  set (w4 := fst (Runtime.bind (invalidateImagesList B)
                    (fun _ => invalidateTagsList B) w3)) in *.
  unfold ret in Hrun. injection Hrun as <- _.
  eexists file, _. split; [reflexivity|]. cbv zeta.
  rewrite Hdb4, Himg, Hdb2.
  split; [reflexivity|]. split; [reflexivity|]. split; [reflexivity|].
  split; [reflexivity|]. split; [reflexivity|].
  intros Hgif. destruct (Hput Hgif) as (b1 & t1 & b2 & t2 & H1 & H2).
  exists b1, t1, b2, t2.
  assert (Hem : emitted w w4
                = [GetImageInfo (FormData.file_bytes file)] ++ ev2 ++ [D1 stmts] ++ ev4).
  { unfold emitted. rewrite Hlog4, Hlog3, Hlog2. unfold w1. cbn [log with_log].
    rewrite <- !app_assoc. apply drop_app_length. }
  rewrite Hem.
  split; (apply elem_of_app; right; apply elem_of_app; left; assumption).
Qed.

(** C6. When the skip for animated GIFs does not apply and the
    dimensions are read, [compress] returns normally whatever the
    transforms did.  It requests the WebP transform when WebP generation
    is on and the AVIF transform when AVIF generation is on, each whatever
    became of the other, and its result holds the WebP variant exactly
    when a WebP transform was accepted and the AVIF variant exactly when
    an AVIF transform was accepted.  A successful upload of a compressed
    image stores, under each variant key, the derived bytes when the
    variant is present and the original bytes (with the original's
    content type and size) when it is omitted. *)
Theorem variants_independent :
  (∀ (input : JS.bytes) (format : string) (options : CompressionOptions) (w : World),
     let opts := spread Compression.DEFAULT_OPTIONS options in
     let width := info_width (decode B input) in
     let height := info_height (decode B input) in
     let target :=
       Compression.calculateDimensions width height
         (r_maxWidth opts) (r_maxHeight opts) in
     let avifTarget :=
       Compression.calculateDimensions width height
         (Z.min (r_maxWidth opts) 1600) (Z.min (r_maxHeight opts) 1600) in
     String.eqb format "gif" && Compression.isAnimatedGif input
       && r_preserveAnimation opts = false ->
     rejects B (log w ++ [GetImageDimensions input]) = None ->
     ∃ ev res,
       Compression.compress B input format options w
         = (with_log (log w ++ ev) w, Ok res) ∧
       (r_generateWebp opts = true ->
        Transform input "image/webp" (r_quality opts) (fst target) (snd target) ∈ ev) ∧
       (r_generateAvif opts = true ->
        Transform input "image/avif" (r_quality opts)
          (fst avifTarget) (snd avifTarget) ∈ ev) ∧
       (is_Some (webp res) <-> transform_succeeded B w ev "image/webp") ∧
       (is_Some (avif res) <-> transform_succeeded B w ev "image/avif")) ∧
  (∀ (file : FormData.File) (imageInfo : ImageInfo) (paths : Paths)
     (contentType : string) (options : CompressionOptions) (w w' : World)
     (variantSizes : Z * Z),
     info_format imageInfo ≠ "gif" -> IMAGES env = true ->
     upload_variants B env file imageInfo paths contentType options w
       = (w', Ok variantSizes) ->
     let arrayBuffer := FormData.file_bytes file in
     let w1 :=
       with_bucket (<[p_original paths := (arrayBuffer, contentType)]> (bucket w))
         (with_log (log w ++ [Put (p_original paths) arrayBuffer contentType]) w) in
     ∃ evc res,
       Compression.compress B arrayBuffer (info_format imageInfo) options w1
         = (with_log (log w1 ++ evc) w1, Ok res) ∧
       emitted w w' =
         [Put (p_original paths) arrayBuffer contentType] ++ evc ++
         [match webp res with
          | Some v => Put (p_webp paths) (data v) "image/webp"
          | None => Put (p_webp paths) arrayBuffer contentType
          end;
          match avif res with
          | Some v => Put (p_avif paths) (data v) "image/avif"
          | None => Put (p_avif paths) arrayBuffer contentType
          end] ∧
       variantSizes =
         (match webp res with Some v => size v | None => FormData.file_size file end,
          match avif res with Some v => size v | None => FormData.file_size file end)).
Proof.
  split.
  - intros input format options w opts width height target avifTarget Hskip Hdims.
    destruct (CompressionSpec.compress_variants B input format options w Hskip Hdims)
      as (ev & res & Hrun & _ & _ & Hw & Ha).
    destruct (CompressionSpec.compress_attempts B input format options w Hskip)
      as [_ Hattempts].
    destruct (Hattempts Hdims) as (_ & _ & _ & _ & Hwebp & Havif).
    rewrite Hrun in Hwebp, Havif. cbn [fst] in Hwebp, Havif.
    rewrite RetryFacts.emitted_with_log in Hwebp, Havif.
    exists ev, res. auto.
  - intros file imageInfo paths contentType options w w' variantSizes Hgif Himages Hrun
           arrayBuffer w1.
    destruct (upload_variants_compressed file imageInfo paths contentType options
                w w' variantSizes Hgif Himages Hrun)
      as (evc & res & Hc & _ & Hlog & Hsizes).
    exists evc, res. split; [exact Hc|]. split; [|exact Hsizes].
    unfold emitted. rewrite Hlog. apply drop_app_length.
Qed.

End Upload.

Lemma upload_records_generated_paths_witness :
  ∃ w' data row,
    uploadSingleHandler Scenario.always_timeout Scenario.deps Scenario.env
      Scenario.upload_form (Scenario.world Scenario.empty_db)
    = (w', Ok (successResponse data)) ∧
    t_images (db w') = [row] ∧
    path_original row = "original/portrait/img1.jpeg" ∧
    path_webp row = Some "portrait/webp/img1.webp" ∧
    path_avif row = Some "portrait/avif/img1.avif".
Proof.
  pose (r := uploadSingleHandler Scenario.always_timeout Scenario.deps Scenario.env
               Scenario.upload_form (Scenario.world Scenario.empty_db)).
  assert (Hdata : ∃ data, snd r = Ok (successResponse data))
    by (vm_compute; eexists; reflexivity).
  destruct Hdata as [data Hdata].
  assert (Hrun : r = (fst r, Ok (successResponse data)))
    by (rewrite <- Hdata; apply surjective_pairing).
  destruct (upload_records_generated_paths Scenario.always_timeout Scenario.deps
              Scenario.env Scenario.upload_form (Scenario.world Scenario.empty_db)
              (fst r) data Hrun)
    as (file & row & Hfile & Himg & _ & Ho & Hw & Ha & _).
  injection Hfile as <-.
  exists (fst r), data, row.
  split; [exact Hrun|]. split; [exact Himg|].
  split; [exact Ho|]. split; [exact Hw|exact Ha].
Defined.

Lemma variants_independent_witness :
  (∃ ev res,
     Compression.compress Scenario.webp_refused [x2c] "png" no_options
       (Scenario.world Scenario.empty_db)
     = (with_log ev (Scenario.world Scenario.empty_db), Ok res) ∧
     Transform [x2c] "image/webp" 90 2000 3000 ∈ ev ∧
     Transform [x2c] "image/avif" 90 1067 1600 ∈ ev ∧
     ¬ transform_succeeded Scenario.webp_refused (Scenario.world Scenario.empty_db)
         ev "image/webp" ∧
     webp res = None ∧ is_Some (avif res)) ∧
  (∃ w' variantSizes,
     upload_variants Scenario.webp_refused Scenario.env Scenario.jpeg_file
       (decode Scenario.webp_refused (FormData.file_bytes Scenario.jpeg_file))
       (Scenario.generatePaths "img1" "portrait" "jpeg") "image/jpeg" no_options
       (Scenario.world Scenario.empty_db)
     = (w', Ok variantSizes) ∧
     Put "portrait/webp/img1.webp" (FormData.file_bytes Scenario.jpeg_file) "image/jpeg"
       ∈ emitted (Scenario.world Scenario.empty_db) w' ∧
     Put "portrait/avif/img1.avif" [x52; x49] "image/avif"
       ∈ emitted (Scenario.world Scenario.empty_db) w' ∧
     variantSizes = (FormData.file_size Scenario.jpeg_file, 2)).
Proof.
  split.
  - destruct (proj1 (variants_independent Scenario.webp_refused Scenario.env)
                [x2c] "png" no_options (Scenario.world Scenario.empty_db)
                eq_refl eq_refl)
      as (ev & res & Hrun & Hwebp & Havif & Hw & Ha).
    exists ev, res. split; [exact Hrun|].
    split; [exact (Hwebp eq_refl)|]. split; [exact (Havif eq_refl)|].
    assert (Hno : ¬ transform_succeeded Scenario.webp_refused
                      (Scenario.world Scenario.empty_db) ev "image/webp").
    { intros (input & quality & tw & th & pre & post & _ & Hacc).
      cbn [rejects Scenario.webp_refused] in Hacc. unfold Scenario.last_event in Hacc.
      rewrite app_assoc, last_snoc in Hacc. discriminate. }
    split; [exact Hno|]. split.
    + destruct (webp res) as [v|] eqn:Hv; [|reflexivity].
      exfalso. apply Hno, Hw. eexists; reflexivity.
    + apply Ha. vm_compute in Hrun. injection Hrun as <- _.
      exists [x2c], 90, 1067, 1600, [GetImageDimensions [x2c];
                                     Transform [x2c] "image/webp" 90 2000 3000], [].
      split; reflexivity.
  - pose (r := upload_variants Scenario.webp_refused Scenario.env Scenario.jpeg_file
                 (decode Scenario.webp_refused (FormData.file_bytes Scenario.jpeg_file))
                 (Scenario.generatePaths "img1" "portrait" "jpeg") "image/jpeg"
                 no_options (Scenario.world Scenario.empty_db)).
    assert (Hsizes : ∃ variantSizes, snd r = Ok variantSizes)
      by (vm_compute; eexists; reflexivity).
    destruct Hsizes as [variantSizes Hsizes].
    assert (Hrun : r = (fst r, Ok variantSizes))
      by (rewrite <- Hsizes; apply surjective_pairing).
    assert (Hgif : info_format (decode Scenario.webp_refused
                                  (FormData.file_bytes Scenario.jpeg_file)) ≠ "gif")
      by discriminate.
    destruct (proj2 (variants_independent Scenario.webp_refused Scenario.env)
                Scenario.jpeg_file _ _ _ _ _ _ _ Hgif eq_refl Hrun)
      as (evc & res & Hc & Hlog & Hs).
    vm_compute in Hc. injection Hc as <- <-.
    exists (fst r), variantSizes.
    split; [exact Hrun|]. rewrite Hlog, Hs.
    split; [|split; [|reflexivity]].
    + apply list_elem_of_lookup_2 with 4%nat. reflexivity.
    + apply list_elem_of_lookup_2 with 5%nat. reflexivity.
Defined.

(** C3 as stated fails: with the WebP transform refused, the upload
    succeeds and its record holds a WebP path although no WebP transform
    was accepted. *)
Lemma webp_path_recorded_without_variant :
  ¬ (∀ (B : Bindings) (D : Deps.t) (env : Env) (formData : FormData.t)
       (w w' : World) (data : payload) (row : ImageRow),
       uploadSingleHandler B D env formData w = (w', Ok (successResponse data)) ->
       row ∈ t_images (db w') -> row ∉ t_images (db w) ->
       JS.truthy_opt (path_webp row) = true ->
       transform_succeeded B w (emitted w w') "image/webp").
Proof.
  intros H.
  pose (r := uploadSingleHandler Scenario.webp_refused Scenario.deps Scenario.env
               Scenario.upload_form (Scenario.world Scenario.empty_db)).
  assert (Hdata : ∃ data, snd r = Ok (successResponse data))
    by (vm_compute; eexists; reflexivity).
  destruct Hdata as [data Hdata].
  assert (Hrow : ∃ row, t_images (db (fst r)) = [row] ∧
                        path_webp row = Some "portrait/webp/img1.webp")
    by (vm_compute; eexists; split; reflexivity).
  destruct Hrow as (row & Hrows & Hpath).
  destruct (H Scenario.webp_refused Scenario.deps Scenario.env Scenario.upload_form
              (Scenario.world Scenario.empty_db) (fst r) data row)
    as (input & quality & tw & th & pre & post & _ & Hacc).
  - rewrite <- Hdata. apply surjective_pairing.
  - rewrite Hrows. apply list_elem_of_singleton. reflexivity.
  - apply not_elem_of_nil.
  - rewrite Hpath. reflexivity.
  - cbn [rejects Scenario.webp_refused] in Hacc. unfold Scenario.last_event in Hacc.
    rewrite app_assoc, last_snoc in Hacc. discriminate.
Qed.

End UploadSpec.

(** ** Compression: what a run costs and when it fails *)

Module CompressionProps.
Import Types Runtime Spec Compression RetryFacts.

(** X1. [withRetry] adds nothing to a first attempt that settles the
    matter: when [fn] succeeds, or fails with a message that is not
    transient (or a single attempt is granted), the outcome and the
    effects of [withRetry] are those of one call of [fn]. *)
Theorem withRetry_conclusive_first_attempt {T} (label : string) (fn : M T)
    (attempts : option nat) (baseDelayMs : option Z) (w : World) :
  attempts ≠ Some 0%nat ->
  (∀ message, snd (fn w) = Throw message ->
     isRetryableTransformError message = false ∨ attempts = Some 1%nat) ->
  withRetry label fn attempts baseDelayMs w = fn w.
Proof.
  intros Hpos Hfinal. unfold withRetry.
  destruct (default 3%nat attempts) as [|n] eqn:Hn.
  { destruct attempts as [[|k]|]; simpl in Hn; try discriminate. congruence. }
  cbn [withRetry_loop]. unfold catch.
  destruct (fn w) as [w' [a|message]] eqn:Hfn; [reflexivity|].
  destruct (Hfinal message) as [Hperm|Hone]; [reflexivity| |].
  - rewrite Hperm. rewrite orb_true_r. reflexivity.
  - rewrite Hone in Hn. injection Hn as <-. reflexivity.
Qed.

Lemma withRetry_conclusive_first_attempt_witness :
  ∃ w' message,
    withRetry "WebP compression"
      (compressToFormat Scenario.webp_refused [x2c] "image/webp" 90 (Number.Int 2000, Number.Int 3000))
      (Some 2%nat) None (Scenario.world Scenario.empty_db)
    = (w', Throw message) ∧
    log w' = [Transform [x2c] "image/webp" 90 2000 3000] ∧
    message = "Invalid image data".
Proof.
  eexists _, _. split.
  - rewrite (withRetry_conclusive_first_attempt "WebP compression"
               (compressToFormat Scenario.webp_refused [x2c] "image/webp" 90 (Number.Int 2000, Number.Int 3000))
               (Some 2%nat) None (Scenario.world Scenario.empty_db)).
    + reflexivity.
    + discriminate.
    + intros message Hm. left. vm_compute in Hm. injection Hm as <-. reflexivity.
  - split; reflexivity.
Defined.

(** The delays [withRetry] can still sleep from attempt [attempt] on,
    [remaining] attempts being left. *)
Lemma total_sleep_app (l1 l2 : list event) :
  total_sleep (l1 ++ l2) = total_sleep l1 + total_sleep l2.
Proof.
  induction l1 as [|e l1 IH]; [reflexivity|].
  destruct e; cbn [app total_sleep]; rewrite IH; lia.
Qed.

Section Budget.
Context (B : Bindings) (input : JS.bytes) (format : string) (q : Z) (dims : Number.integral * Number.integral).
Context (attempts : nat) (base : Z).

Lemma backoff_nonneg (attempt : nat) : 0 <= base -> 0 <= backoff base attempt.
Proof.
  intros Hbase. unfold backoff. apply Z.mul_nonneg_nonneg; [exact Hbase|].
  destruct (Z.of_nat attempt - 1) as [|p|p] eqn:He; [lia| |].
  - apply Z.pow_nonneg. lia.
  - rewrite Z.pow_neg_r; lia.
Qed.

Lemma sleep_budget_nonneg (remaining : nat) :
  ∀ attempt, 0 <= base -> 0 <= sleep_budget base attempt remaining.
Proof.
  induction remaining as [|remaining IH]; intros attempt Hbase; [reflexivity|].
  destruct remaining as [|remaining]; [reflexivity|].
  change (sleep_budget base attempt (S (S remaining)))
    with (backoff base attempt + sleep_budget base (S attempt) (S remaining)).
  pose proof (backoff_nonneg attempt Hbase). pose proof (IH (S attempt) Hbase). lia.
Qed.

Lemma withRetry_loop_sleep (remaining : nat) :
  ∀ (attempt : nat) (lastError : option string) (w : World),
    0 <= base -> (attempt + remaining = S attempts)%nat ->
    ∃ seg res,
      withRetry_loop remaining attempt attempts base lastError
        (compressToFormat B input format q dims) w
        = (with_log (log w ++ seg) w, res) ∧
      0 <= total_sleep seg <= sleep_budget base attempt remaining.
Proof.
  induction remaining as [|remaining IH]; intros attempt lastError w Hbase Hsum.
  - exists [], (Throw (default "undefined" lastError)).
    split; [simpl; unfold throw; rewrite app_nil_r; destruct w; reflexivity|].
    simpl. lia.
  - rewrite withRetry_loop_unfold.
    set (T := Transform input format q (fst dims) (snd dims)).
    destruct (rejects B (log w ++ [T])) as [message|].
    2: { eexists [T], _. split; [reflexivity|].
         pose proof (sleep_budget_nonneg (S remaining) attempt Hbase).
         change (total_sleep [T]) with 0. lia. }
    destruct ((attempts <=? attempt)%nat || negb (isRetryableTransformError message))
      eqn:Hstop.
    { eexists [T], _. split; [reflexivity|].
      pose proof (sleep_budget_nonneg (S remaining) attempt Hbase).
      change (total_sleep [T]) with 0. lia. }
    apply orb_false_iff in Hstop. destruct Hstop as [Hlt _].
    apply Nat.leb_gt in Hlt.
    destruct remaining as [|remaining]; [lia|].
    destruct (IH (S attempt) (Some message)
                (with_log (log w ++ [T; Sleep (backoff base attempt)]) w) Hbase ltac:(lia))
      as (seg & res & Hrun & Hlo & Hhi).
    exists ([T; Sleep (backoff base attempt)] ++ seg), res.
    split.
    + rewrite Hrun. cbn [log with_log]. rewrite <- app_assoc. reflexivity.
    + pose proof (backoff_nonneg attempt Hbase).
      change (total_sleep ([T; Sleep (backoff base attempt)] ++ seg))
        with (backoff base attempt + total_sleep seg).
      change (sleep_budget base attempt (S (S remaining)))
        with (backoff base attempt + sleep_budget base (S attempt) (S remaining)).
      lia.
Qed.

Lemma or_null_withRetry_sleep (label : string) (baseDelayMs : option Z) (w : World) :
  0 <= base -> base = default 120 baseDelayMs ->
  ∃ seg o,
    or_null (withRetry label (compressToFormat B input format q dims)
               (Some attempts) baseDelayMs) w
      = (with_log (log w ++ seg) w, Ok o) ∧
    0 <= total_sleep seg <= sleep_budget base 1 attempts.
Proof.
  intros Hbase Hdefault. unfold or_null, withRetry, catch, bind, ret. simpl.
  rewrite <- Hdefault.
  destruct (withRetry_loop_sleep attempts 1 None w Hbase eq_refl)
    as (seg & res & Hrun & Hsleep).
  rewrite Hrun.
  destruct res as [x|message]; eexists seg, _; (split; [reflexivity|exact Hsleep]).
Qed.

End Budget.

(** X2. Whatever the transform service answers, one run of [compress]
    sleeps at most 480 ms in all: 120 ms between the two WebP attempts,
    120 ms and 240 ms between the three AVIF attempts. *)
Theorem compress_sleep_budget (B : Bindings) (input : JS.bytes) (format : string)
    (options : CompressionOptions) (w : World) :
  0 <= total_sleep (emitted w (fst (compress B input format options w))) <= 480.
Proof.
  assert (Hrun : ∃ ev, fst (compress B input format options w) = with_log (log w ++ ev) w
                       ∧ 0 <= total_sleep ev <= 480).
  2: { destruct Hrun as (ev & -> & Hsleep). rewrite emitted_with_log. exact Hsleep. }
  unfold compress.
  set (opts := spread DEFAULT_OPTIONS options).
  destruct (String.eqb format "gif" && isAnimatedGif input && r_preserveAnimation opts).
  { exists []. unfold ret. cbn [fst]. rewrite app_nil_r.
    split; [destruct w; reflexivity|]. change (total_sleep []) with 0. lia. }
  set (G := GetImageDimensions input).
  unfold bind at 1. rewrite getImageDimensions_run. fold G.
  destruct (rejects B (log w ++ [G])) as [message|].
  { exists [G]. split; [reflexivity|]. change (total_sleep [G]) with 0. lia. }
  cbn [fst snd].
  set (target := calculateDimensions _ _ (r_maxWidth opts) (r_maxHeight opts)).
  set (avifTarget := calculateDimensions _ _ (Z.min _ _) (Z.min _ _)).
  set (w1 := with_log (log w ++ [G]) w).
  assert (Hw : ∃ segw ow,
    (if r_generateWebp opts
     then or_null (withRetry "WebP compression"
                     (compressToFormat B input "image/webp" (r_quality opts) target)
                     (Some 2%nat) None)
     else ret None) w1 = (with_log (log w1 ++ segw) w1, Ok ow) ∧
    0 <= total_sleep segw <= 120).
  { destruct (r_generateWebp opts).
    - destruct (or_null_withRetry_sleep B input "image/webp" (r_quality opts) target 2 120
                  "WebP compression" None w1) as (seg & o & Hrun & Hsleep);
        [lia|reflexivity|].
      exists seg, o. split; [exact Hrun|]. exact Hsleep.
    - exists [], None. unfold ret. rewrite app_nil_r.
      split; [destruct w1; reflexivity|change (total_sleep []) with 0; lia]. }
  destruct Hw as (segw & ow & Hrunw & Hsleepw).
  unfold bind at 1. rewrite Hrunw.
  set (w2 := with_log (log w1 ++ segw) w1).
  assert (Ha : ∃ sega oa,
    (if r_generateAvif opts
     then or_null (withRetry "AVIF compression"
                     (compressToFormat B input "image/avif" (r_quality opts) avifTarget)
                     (Some 3%nat) None)
     else ret None) w2 = (with_log (log w2 ++ sega) w2, Ok oa) ∧
    0 <= total_sleep sega <= 360).
  { destruct (r_generateAvif opts).
    - destruct (or_null_withRetry_sleep B input "image/avif" (r_quality opts) avifTarget 3 120
                  "AVIF compression" None w2) as (seg & o & Hrun & Hsleep);
        [lia|reflexivity|].
      exists seg, o. split; [exact Hrun|]. exact Hsleep.
    - exists [], None. unfold ret. rewrite app_nil_r.
      split; [destruct w2; reflexivity|change (total_sleep []) with 0; lia]. }
  destruct Ha as (sega & oa & Hruna & Hsleepa).
  unfold bind. rewrite Hruna. unfold ret. cbn [fst].
  exists ([G] ++ segw ++ sega). split.
  - unfold w2, w1. cbn [log with_log]. rewrite <- !app_assoc. reflexivity.
  - rewrite !total_sleep_app. change (total_sleep [G]) with 0. lia.
Qed.

(** X3. [compress] rejects in one case only: the animated-GIF skip
    does not apply and the read of the dimensions is rejected, whose
    message it passes on.  A transform that fails never makes it reject;
    and it writes nothing: database, bucket and queue are as before. *)
Theorem compress_rejects_only_on_dimensions (B : Bindings) (input : JS.bytes)
    (format : string) (options : CompressionOptions) (w : World) :
  let run := compress B input format options w in
  let skipped :=
    String.eqb format "gif" && isAnimatedGif input
    && r_preserveAnimation (spread DEFAULT_OPTIONS options) in
  (∀ message,
     snd run = Throw message <->
     skipped = false ∧ rejects B (log w ++ [GetImageDimensions input]) = Some message) ∧
  db (fst run) = db w ∧ bucket (fst run) = bucket w ∧ queue (fst run) = queue w.
Proof.
  intros run skipped. subst run.
  pose proof (compress_run B input format options w) as Hrun. cbv zeta in Hrun.
  fold skipped in Hrun.
  destruct skipped.
  - rewrite Hrun. cbn [fst snd]. split; [|auto].
    intros message. split; [discriminate|]. intros [Hs _]. discriminate.
  - destruct (rejects B (log w ++ [GetImageDimensions input])) as [m|].
    + rewrite Hrun. cbn [fst snd]. split; [|auto].
      intros message. split.
      * intros Heq. injection Heq as ->. auto.
      * intros [_ Heq]. injection Heq as ->. reflexivity.
    + destruct Hrun as (segw & sega & ow & oa & Hrun & _). rewrite Hrun.
      cbn [fst snd]. split; [|auto].
      intros message. split; [discriminate|]. intros [_ Hs]. discriminate.
Qed.

End CompressionProps.

(** ** Decimal text and [parseInt] *)

Module JSFacts.

Lemma digit_cases (k : Z) :
  0 <= k < 10 ->
  k = 0 ∨ k = 1 ∨ k = 2 ∨ k = 3 ∨ k = 4 ∨ k = 5 ∨ k = 6 ∨ k = 7 ∨ k = 8 ∨ k = 9.
Proof. lia. Qed.

Lemma digit_of_digit (k : Z) :
  0 <= k < 10 -> JS.digit_of (ascii_of_nat (48 + Z.to_nat k)) = Some k.
Proof.
  intros Hk. destruct (digit_cases k Hk) as [->|[->|[->|[->|[->|[->|[->|[->|[->| ->]]]]]]]]];
    reflexivity.
Qed.

Lemma digits_of_S (fuel : nat) (n : Z) (acc : string) :
  JS.digits_of (S fuel) n acc =
  if n <? 10 then String (ascii_of_nat (48 + Z.to_nat (n mod 10))) acc
  else JS.digits_of fuel (n / 10) (String (ascii_of_nat (48 + Z.to_nat (n mod 10))) acc).
Proof. reflexivity. Qed.

Lemma parse_digits_digits_of (fuel : nat) :
  ∀ (n : Z) (acc : string) (a : option Z),
    0 <= n < 10 ^ Z.of_nat (S fuel) -> default 0 a = 0 ->
    JS.parse_digits (JS.digits_of (S fuel) n acc) a = JS.parse_digits acc (Some n).
Proof.
  induction fuel as [|fuel IH]; intros n acc a Hn Ha.
  - change (10 ^ Z.of_nat 1) with 10 in Hn.
    rewrite digits_of_S. replace (n <? 10) with true by (symmetry; apply Z.ltb_lt; lia).
    cbn [JS.parse_digits]. rewrite Z.mod_small by lia.
    rewrite digit_of_digit by lia. rewrite Ha. first [reflexivity | f_equal; f_equal; lia].
  - rewrite digits_of_S. destruct (n <? 10) eqn:Hlt.
    + apply Z.ltb_lt in Hlt. cbn [JS.parse_digits]. rewrite Z.mod_small by lia.
      rewrite digit_of_digit by lia. rewrite Ha. first [reflexivity | f_equal; f_equal; lia].
    + apply Z.ltb_ge in Hlt.
      rewrite IH; [|split|exact Ha].
      * cbn [JS.parse_digits].
        rewrite digit_of_digit by (apply Z.mod_pos_bound; lia).
        cbn [default]. unfold id. rewrite <- (Z.div_mod n 10) by lia. reflexivity.
      * apply Z.div_pos; lia.
      * apply Z.div_lt_upper_bound; [lia|].
        replace (Z.of_nat (S (S fuel))) with (Z.succ (Z.of_nat (S fuel))) in Hn by lia.
        rewrite Z.pow_succ_r in Hn by lia. lia.
Qed.

Lemma digits_of_head (fuel : nat) :
  ∀ (n : Z) (acc : string),
    0 <= n ->
    ∃ k rest, 0 <= k < 10 ∧
      JS.digits_of (S fuel) n acc = String (ascii_of_nat (48 + Z.to_nat k)) rest.
Proof.
  induction fuel as [|fuel IH]; intros n acc Hn.
  - rewrite digits_of_S. exists (n mod 10).
    destruct (n <? 10); eexists; (split; [apply Z.mod_pos_bound; lia|reflexivity]).
  - rewrite digits_of_S. destruct (n <? 10).
    + exists (n mod 10). eexists. split; [apply Z.mod_pos_bound; lia|reflexivity].
    + apply (IH (n / 10)). apply Z.div_pos; lia.
Qed.

Lemma enough_digits (n : Z) :
  0 <= n -> n < 10 ^ Z.of_nat (S (Z.to_nat (Z.log2 n))).
Proof.
  intros Hn. pose proof (Z.log2_nonneg n) as Hlog.
  replace (Z.of_nat (S (Z.to_nat (Z.log2 n)))) with (Z.succ (Z.log2 n)) by lia.
  destruct (decide (n = 0)) as [->|Hpos].
  - reflexivity.
  - pose proof (Z.log2_spec n ltac:(lia)) as [_ Hhi].
    eapply Z.lt_le_trans; [exact Hhi|].
    apply Z.pow_le_mono_l. lia.
Qed.

Lemma parse_digits_decimal (n : Z) :
  0 <= n ->
  JS.parse_digits (JS.digits_of (S (Z.to_nat (Z.log2 n))) n "") None = Some n.
Proof.
  intros Hn. rewrite parse_digits_digits_of; [reflexivity| |reflexivity].
  split; [exact Hn|apply enough_digits; exact Hn].
Qed.

Lemma read_integer_minus (s : string) :
  JS.read_integer ("-" +:+ s) = Z.opp <$> JS.parse_digits s None.
Proof. reflexivity. Qed.

(** The decimal rendering of an integer is read back as that integer. *)
Lemma read_integer_Z_to_string (n : Z) : JS.read_integer (JS.Z_to_string n) = Some n.
Proof.
  unfold JS.Z_to_string. destruct (n <? 0) eqn:Hneg.
  - apply Z.ltb_lt in Hneg. rewrite read_integer_minus.
    rewrite parse_digits_decimal by lia. cbn. f_equal. lia.
  - apply Z.ltb_ge in Hneg.
    pose proof (parse_digits_decimal n Hneg) as Hparse.
    destruct (digits_of_head (Z.to_nat (Z.log2 n)) n "" Hneg) as (k & rest & Hk & Heq).
    rewrite Heq in *. unfold JS.read_integer.
    destruct (digit_cases k Hk) as [->|[->|[->|[->|[->|[->|[->|[->|[->| ->]]]]]]]]];
      exact Hparse.
Qed.

(** Binary64 holds every integer up to [2^53] exactly. *)
Lemma of_integer_exact (n : Z) : - 2 ^ 53 <= n <= 2 ^ 53 -> Number.of_integer n = n.
Proof.
  intros Hn.
  destruct (decide (Z.abs n = 2 ^ 53)) as [Htop | Hbelow].
  - assert (Hcases : n = 2 ^ 53 ∨ n = - 2 ^ 53) by lia.
    destruct Hcases as [-> | ->]; vm_compute; reflexivity.
  - unfold Number.of_integer.
    assert (Hlog : Z.log2 (Z.abs n) <= 52).
    { destruct (decide (Z.abs n = 0)) as [-> | Hpos]; [vm_compute; discriminate|].
      assert (Hlt : Z.log2 (Z.abs n) < 53) by (apply Z.log2_lt_pow2; lia). lia. }
    replace (Z.max 0 (Z.log2 (Z.abs n) - 52)) with 0 by lia.
    change (2 ^ 0) with 1. rewrite Z.div_1_r, Z.mod_1_r.
    change (2 * 0 <? 1) with true. cbn iota. rewrite Z.mul_1_r.
    destruct n; reflexivity.
Qed.

(** [parseInt] reads the decimal rendering of an integer back as its
    binary64 value. *)
Lemma parseInt_Z_to_string (n : Z) :
  JS.parseInt (JS.Z_to_string n) = Some (Number.of_integer n).
Proof. unfold JS.parseInt. rewrite read_integer_Z_to_string. reflexivity. Qed.

Lemma Z_to_string_truthy (n : Z) : JS.truthy (JS.Z_to_string n) = true.
Proof.
  unfold JS.Z_to_string. destruct (n <? 0) eqn:Hneg; [reflexivity|].
  apply Z.ltb_ge in Hneg.
  destruct (digits_of_head (Z.to_nat (Z.log2 n)) n "" Hneg) as (k & rest & _ & ->).
  reflexivity.
Qed.

End JSFacts.

(** ** The options of an upload form *)

Module FormProps.
Import Types Spec CompressionForm.

Lemma parseNumber_reads (formData : FormData.t) (field : string) (fallback : Z) :
  reads_number formData field fallback
    (parseNumber (FormData.get_text field formData) fallback).
Proof.
  split.
  - intros [-> | ->]; reflexivity.
  - intros n Hn ->. unfold parseNumber.
    rewrite JSFacts.Z_to_string_truthy, JSFacts.parseInt_Z_to_string.
    apply JSFacts.of_integer_exact, Hn.
Qed.

Lemma differs_from_false_off (formData : FormData.t) (field : string) :
  differs_from_false (FormData.get_text field formData) = false <->
  FormData.get field formData = Some (FormData.Text "false").
Proof.
  unfold differs_from_false, FormData.get_text.
  rewrite negb_false_iff, bool_decide_eq_true.
  destruct (FormData.get field formData) as [[s|f]|]; split; intros H;
    try discriminate; congruence.
Qed.

(** X4. The numeric options [compress] receives from an upload form:
    each of [quality], [maxWidth] and [maxHeight] is the default (90,
    3840, 3840) when its field is absent or empty, and is the integer
    itself when the field holds the decimal rendering of an integer of
    absolute value at most [2^53], the integers binary64 holds exactly;
    within these no range is enforced. *)
Theorem form_numbers (formData : FormData.t) :
  let opts := spread Compression.DEFAULT_OPTIONS (parseCompressionOptions formData) in
  reads_number formData "quality" 90 (r_quality opts) ∧
  reads_number formData "maxWidth" 3840 (r_maxWidth opts) ∧
  reads_number formData "maxHeight" 3840 (r_maxHeight opts).
Proof.
  intros opts. subst opts. unfold spread, parseCompressionOptions.
  cbn [quality maxWidth maxHeight r_quality r_maxWidth r_maxHeight default].
  split; [|split]; apply parseNumber_reads.
Qed.

(** X5. The three switches [compress] receives from an upload form:
    [preserveAnimation], [generateWebp] and [generateAvif] are off
    exactly when their field is the text [false]; an absent field, a
    file, [0], [False] or any other text leaves the switch on. *)
Theorem form_switches (formData : FormData.t) :
  let opts := spread Compression.DEFAULT_OPTIONS (parseCompressionOptions formData) in
  switched_off_by_false formData "preserveAnimation" (r_preserveAnimation opts) ∧
  switched_off_by_false formData "generateWebp" (r_generateWebp opts) ∧
  switched_off_by_false formData "generateAvif" (r_generateAvif opts).
Proof.
  intros opts. subst opts. unfold spread, parseCompressionOptions, switched_off_by_false.
  cbn [preserveAnimation generateWebp generateAvif
       r_preserveAnimation r_generateWebp r_generateAvif default].
  split; [apply differs_from_false_off|].
  split.
  - destruct (FormData.get "generateWebp" formData) eqn:Hget.
    + rewrite <- Hget. apply differs_from_false_off.
    + split; discriminate.
  - destruct (FormData.get "generateAvif" formData) eqn:Hget.
    + rewrite <- Hget. apply differs_from_false_off.
    + split; discriminate.
Qed.

End FormProps.

(** ** URLs: normalisation, stored variants, transform URLs *)

Module UrlProps.
Import Types Spec ImageTransform.

Lemma substring_whole (s : string) : String.substring 0 (String.length s) s = s.
Proof. induction s as [|c s IH]; [reflexivity|]. simpl. rewrite IH. reflexivity. Qed.

Lemma length_append (a b : string) :
  String.length (a +:+ b) = (String.length a + String.length b)%nat.
Proof. induction a as [|c a IH]; [reflexivity|]. simpl. rewrite IH. reflexivity. Qed.

Lemma substring_last (a : string) (c : ascii) :
  String.substring (String.length a) 1 (a +:+ String c "") = String c "".
Proof. induction a as [|x a IH]; [reflexivity|]. simpl. exact IH. Qed.

Lemma endsWith_slash_appended (baseUrl : string) :
  JS.endsWith "/" (baseUrl +:+ "/") = true.
Proof.
  unfold JS.endsWith. rewrite length_append. cbn [String.length].
  replace (String.length baseUrl + 1 - 1)%nat with (String.length baseUrl) by lia.
  rewrite substring_last.
  replace (1 <=? String.length baseUrl + 1)%nat with true
    by (symmetry; apply Nat.leb_le; lia).
  reflexivity.
Qed.

Lemma startsWith_slash_prepended (key : string) :
  JS.startsWith "/" ("/" +:+ key) = true.
Proof.
  unfold JS.startsWith. change ("/" +:+ key) with (String "/" key).
  cbn [String.prefix].
  destruct (ascii_dec "/" "/") as [_|Hne]; [destruct key; reflexivity|congruence].
Qed.

Lemma slice_slash_prepended (key : string) :
  String.substring 1 (String.length ("/" +:+ key) - 1) ("/" +:+ key) = key.
Proof.
  change ("/" +:+ key) with (String "/" key).
  cbn [String.length].
  replace (S (String.length key) - 1)%nat with (String.length key) by lia.
  cbn [String.substring]. apply substring_whole.
Qed.

Section WithDeps.
Context (D : Deps.t).

(** X6. [buildPublicUrl] joins base and key with exactly one slash:
    a base written with or without its trailing slash, and a key written
    with or without one leading slash, resolve to the same URL. *)
Theorem buildPublicUrl_slashes (baseUrl key : string) :
  JS.endsWith "/" baseUrl = false -> JS.startsWith "/" key = false ->
  buildPublicUrl D (baseUrl +:+ "/") key = buildPublicUrl D baseUrl key ∧
  buildPublicUrl D baseUrl ("/" +:+ key) = buildPublicUrl D baseUrl key ∧
  buildPublicUrl D (baseUrl +:+ "/") ("/" +:+ key) = buildPublicUrl D baseUrl key.
Proof.
  intros Hbase Hkey. unfold buildPublicUrl.
  rewrite endsWith_slash_appended, Hbase, Hkey.
  rewrite startsWith_slash_prepended, slice_slash_prepended. auto.
Qed.

(** What a successful [buildImageUrls] on an image that is not a GIF
    went through. *)
Lemma buildImageUrls_steps (baseUrl : string) (image : ImageMetadata)
    (options : option CompressionOptions) (preferStoredVariants : option bool)
    (urls : Urls) :
  buildImageUrls D baseUrl image options preferStoredVariants = Some urls ->
  let formatLower := JS.toLowerCase (format image) in
  let opts := spread ImageTransform.DEFAULT_OPTIONS (default no_options options) in
  let prefer := default true preferStoredVariants in
  let quality := clampInt (toPositiveInt (r_quality opts) 90) 1 100 in
  let maxWidth := toPositiveInt (r_maxWidth opts) 0 in
  let maxHeight := toPositiveInt (r_maxHeight opts) 0 in
  formatLower ≠ "gif" ->
  ∃ webpStored avifStored,
    buildPublicUrl D baseUrl (p_original (paths image)) = Some (u_original urls) ∧
    (if stored_variant prefer (p_webp (paths image)) (p_original (paths image))
          formatLower "webp"
     then buildPublicUrl D baseUrl (p_webp (paths image)) else Some "") = Some webpStored ∧
    (if stored_variant prefer (p_avif (paths image)) (p_original (paths image))
          formatLower "avif"
     then buildPublicUrl D baseUrl (p_avif (paths image)) else Some "") = Some avifStored ∧
    variantUrl D "webp" (r_generateWebp opts) webpStored (u_original urls) formatLower
      (transform_fallback formatLower) ((0 <? maxWidth) && (0 <? maxHeight)) image
      quality maxWidth maxHeight = Some (u_webp urls) ∧
    variantUrl D "avif" (r_generateAvif opts) avifStored (u_original urls) formatLower
      (transform_fallback formatLower) ((0 <? maxWidth) && (0 <? maxHeight)) image
      quality maxWidth maxHeight = Some (u_avif urls).
Proof.
  intros Hbuild formatLower opts prefer quality maxWidth maxHeight Hngif.
  unfold buildImageUrls in Hbuild. fold formatLower opts prefer in Hbuild.
  destruct (buildPublicUrl D baseUrl (p_original (paths image))) as [originalUrl|] eqn:Horig;
    [|discriminate].
  cbn [mbind option_bind] in Hbuild.
  destruct (String.eqb formatLower "gif") eqn:Hg.
  { apply String.eqb_eq in Hg. contradiction. }
  unfold stored_variant.
  set (webpStoredCond := prefer && JS.truthy (p_webp (paths image)) && _) in *.
  set (avifStoredCond := prefer && JS.truthy (p_avif (paths image)) && _) in *.
  destruct (if webpStoredCond then buildPublicUrl D baseUrl (p_webp (paths image))
            else Some "") as [webpStored|] eqn:Hws; [|discriminate].
  cbn [mbind option_bind] in Hbuild.
  destruct (if avifStoredCond then buildPublicUrl D baseUrl (p_avif (paths image))
            else Some "") as [avifStored|] eqn:Has; [|discriminate].
  cbn [mbind option_bind] in Hbuild.
  destruct (variantUrl D "webp" _ _ _ _ _ _ _ _ _ _) as [webpUrl|] eqn:Hwu; [|discriminate].
  cbn [mbind option_bind] in Hbuild.
  destruct (variantUrl D "avif" _ _ _ _ _ _ _ _ _ _) as [avifUrl|] eqn:Hau; [|discriminate].
  cbn [mbind option_bind] in Hbuild. injection Hbuild as <-. cbn [u_original u_webp u_avif].
  exists webpStored, avifStored. auto.
Qed.

(** X7. A stored variant is served as stored: for an image that is
    not a GIF, when generation of a format is on and the image's stored
    path for it is usable (set, stored variants preferred, and not the
    original's own path on an image of another format), the resolved URL
    of the format is the public URL of that stored path; and the
    resolved original is always the public URL of the original path. *)
Theorem stored_variant_served (baseUrl : string) (image : ImageMetadata)
    (options : option CompressionOptions) (preferStoredVariants : option bool)
    (urls : Urls) :
  buildImageUrls D baseUrl image options preferStoredVariants = Some urls ->
  let formatLower := JS.toLowerCase (format image) in
  let opts := spread ImageTransform.DEFAULT_OPTIONS (default no_options options) in
  let prefer := default true preferStoredVariants in
  formatLower ≠ "gif" ->
  buildPublicUrl D baseUrl (p_original (paths image)) = Some (u_original urls) ∧
  (r_generateWebp opts = true ->
   stored_variant prefer (p_webp (paths image)) (p_original (paths image))
     formatLower "webp" = true ->
   buildPublicUrl D baseUrl (p_webp (paths image)) = Some (u_webp urls)) ∧
  (r_generateAvif opts = true ->
   stored_variant prefer (p_avif (paths image)) (p_original (paths image))
     formatLower "avif" = true ->
   buildPublicUrl D baseUrl (p_avif (paths image)) = Some (u_avif urls)).
Proof.
  intros Hbuild formatLower opts prefer Hngif.
  destruct (buildImageUrls_steps _ _ _ _ _ Hbuild Hngif)
    as (webpStored & avifStored & Horig & Hws & Has & Hwu & Hau).
  fold formatLower opts prefer in Hws, Has, Hwu, Hau.
  split; [exact Horig|]. split; intros Hgen Hstored.
  - rewrite Hstored in Hws. rewrite Hws. f_equal.
    pose proof (UrlSpec.buildPublicUrl_truthy _ _ _ _ Hws) as Ht.
    unfold variantUrl in Hwu. rewrite Hgen, Ht in Hwu. cbn in Hwu. congruence.
  - rewrite Hstored in Has. rewrite Has. f_equal.
    pose proof (UrlSpec.buildPublicUrl_truthy _ _ _ _ Has) as Ht.
    unfold variantUrl in Hau. rewrite Hgen, Ht in Hau. cbn in Hau. congruence.
Qed.








End WithDeps.

Lemma buildPublicUrl_slashes_witness :
  buildPublicUrl Scenario.deps "https://cdn.example/" "/original/a.jpeg"
  = Some "https://cdn.example/original/a.jpeg" ∧
  buildPublicUrl Scenario.deps "https://cdn.example" "original/a.jpeg"
  = Some "https://cdn.example/original/a.jpeg".
Proof.
  destruct (buildPublicUrl_slashes Scenario.deps "https://cdn.example" "original/a.jpeg"
              eq_refl eq_refl) as (_ & _ & Hboth).
  split; [exact (eq_trans Hboth eq_refl)|reflexivity].
Defined.

Lemma stored_variant_served_witness :
  let image :=
    Metadata.rowToMetadata
      (Scenario.image_row "a" "landscape" "jpeg" (Some "landscape/webp/a.webp") None) [] in
  let urls :=
    {| u_original := "https://cdn.example/original/landscape/a.jpeg";
       u_webp := "https://cdn.example/landscape/webp/a.webp";
       u_avif := "https://cdn.example/cdn-cgi/image/format=avif,quality=90/original/landscape/a.jpeg" |} in
  buildImageUrls Scenario.deps "https://cdn.example" image None None = Some urls ∧
  buildPublicUrl Scenario.deps "https://cdn.example" (p_webp (paths image))
  = Some (u_webp urls).
Proof.
  intros image urls. split; [reflexivity|].
  assert (Hngif : JS.toLowerCase (format image) ≠ "gif") by discriminate.
  exact (proj1 (proj2 (stored_variant_served Scenario.deps "https://cdn.example" image
                         None None urls eq_refl Hngif)) eq_refl eq_refl).
Defined.


End UrlProps.

(** ** The metadata store: reads *)

Module StoreReads.
Import Types Runtime Spec Metadata MetadataQueries RuntimeFacts MetadataFacts.

Lemma bind_filter_map {X Y Z} (P : Y -> Prop) `{∀ y, Decision (P y)} (g : Y -> Z)
    (f : X -> list Y) (l : list X) :
  map g (filter P (l ≫= f)) = l ≫= (fun x => map g (filter P (f x))).
Proof.
  induction l as [|x l IH]; [reflexivity|].
  rewrite !bind_cons, filter_app, map_app, IH. reflexivity.
Qed.

Lemma bind_const_nil {X Y} (l : list X) : l ≫= (fun _ => @nil Y) = [].
Proof. induction l as [|x l IH]; [reflexivity|]. rewrite bind_cons, IH. reflexivity. Qed.

Lemma bind_map {X Y Z} (g : Y -> Z) (f : X -> list Y) (l : list X) :
  map g (l ≫= f) = l ≫= (fun x => map g (f x)).
Proof.
  induction l as [|x l IH]; [reflexivity|].
  rewrite !bind_cons, map_app, IH. reflexivity.
Qed.

(** The rows one chunk query yields for an image: its tags when the
    image is in the chunk, none otherwise. *)
Lemma tags_of_images_for (d : DB) (chunk : list string) (k : string) :
  map snd (filter (fun r => fst r = k) (tags_of_images d chunk))
  = if decide (k ∈ chunk) then tags_for d k else [].
Proof.
  unfold tags_for, tags_of_images.
  rewrite bind_filter_map.
  destruct (decide (k ∈ chunk)) as [Hin|Hout].
  - rewrite bind_map. apply list_bind_ext; [|reflexivity]. intros it.
    rewrite bind_filter_map, bind_map. apply list_bind_ext; [|reflexivity]. intros t.
    destruct (decide (it_image_id it = k)) as [Heq|Hne].
    + rewrite Heq. rewrite (decide_True (P := k ∈ chunk)) by exact Hin.
      rewrite (decide_True (P := k ∈ [k])) by (apply list_elem_of_singleton; reflexivity).
      rewrite filter_cons_True by reflexivity. reflexivity.
    + rewrite (decide_False (P := it_image_id it ∈ [k]))
        by (intros Hx; apply list_elem_of_singleton in Hx; contradiction).
      destruct (decide (it_image_id it ∈ chunk)); [|reflexivity].
      rewrite filter_cons_False by (exact Hne). reflexivity.
  - transitivity (t_image_tags d ≫= (fun _ => @nil string)); [|apply bind_const_nil].
    apply list_bind_ext; [|reflexivity]. intros it.
    rewrite bind_filter_map.
    transitivity (filter (fun t => it_tag_id it = tag_id t) (t_tags d)
                    ≫= (fun _ => @nil string)); [|apply bind_const_nil].
    apply list_bind_ext; [|reflexivity]. intros t.
    destruct (decide (it_image_id it ∈ chunk)) as [Hc|]; [|reflexivity].
    rewrite filter_cons_False; [reflexivity|].
    cbn [fst]. intros Heq. apply Hout. rewrite <- Heq. exact Hc.
Qed.

Lemma push_tag_lookup (tagMap : gmap string (list string)) (r : string * string)
    (k : string) :
  default [] (push_tag tagMap r !! k)
  = default [] (tagMap !! k) ++ (if decide (fst r = k) then [snd r] else []).
Proof.
  unfold push_tag. destruct (decide (fst r = k)) as [<-|Hne].
  - rewrite lookup_insert_eq. reflexivity.
  - rewrite lookup_insert_ne by exact Hne. rewrite app_nil_r. reflexivity.
Qed.

Lemma foldl_push_tag_lookup (rs : list (string * string)) :
  ∀ (tagMap : gmap string (list string)) (k : string),
    default [] (foldl push_tag tagMap rs !! k)
    = default [] (tagMap !! k) ++ map snd (filter (fun r => fst r = k) rs).
Proof.
  induction rs as [|r rs IH]; intros tagMap k.
  - simpl. rewrite app_nil_r. reflexivity.
  - cbn [foldl]. rewrite IH, push_tag_lookup, filter_cons.
    destruct (decide (fst r = k)); rewrite <- app_assoc; reflexivity.
Qed.

Section Reads.
Context (B : Bindings).

(** The tag map after the chunks before index [i] holds, for every
    image taken so far, its tags. *)
Lemma enrich_loop (ids : list string) (d : DB) :
  NoDup ids ->
  ∀ (fuel i : nat) (tagMap : gmap string (list string)) (w : World),
    db w = d -> (length ids <= i + fuel)%nat ->
    (∀ k, default [] (tagMap !! k)
          = if decide (k ∈ take i ids) then tags_for d k else []) ->
    ∃ ev res,
      for_loop fuel i (length ids) 90
        (fun i tagMap =>
           tagsResult <-
             d1_read B (enrich_statement (JS.slice i (i + 90) ids))
                     (fun w => tags_of_images (db w) (JS.slice i (i + 90) ids)) ;;
           ret (foldl push_tag tagMap tagsResult))
        tagMap w
      = (with_log (log w ++ ev) w, res) ∧
      match res with
      | Ok tagMap' =>
          ∀ k, default [] (tagMap' !! k) = if decide (k ∈ ids) then tags_for d k else []
      | Throw message => rejects B (log w ++ ev) = Some message
      end.
Proof.
  intros Hnodup. induction fuel as [|fuel IH]; intros i tagMap w Hdb Hfuel Hinv.
  - exists [], (Ok tagMap). cbn [for_loop]. unfold ret.
    rewrite app_nil_r. split; [destruct w; reflexivity|].
    intros k. rewrite Hinv. rewrite take_ge by lia. reflexivity.
  - cbn [for_loop].
    destruct (i <? length ids)%nat eqn:Hi.
    2: { apply Nat.ltb_ge in Hi. exists [], (Ok tagMap). unfold ret.
         rewrite app_nil_r. split; [destruct w; reflexivity|].
         intros k. rewrite Hinv. rewrite take_ge by lia. reflexivity. }
    set (chunk := JS.slice i (i + 90) ids).
    unfold bind at 1. unfold bind at 1.
    rewrite DeleteTagSpec.d1_read_run.
    set (e := D1 [enrich_statement chunk]).
    destruct (rejects B (log w ++ [e])) as [message|] eqn:Hrej.
    { exists [e], (Throw message). split; [reflexivity|exact Hrej]. }
    unfold ret at 1. cbn [db with_log]. rewrite Hdb.
    set (w1 := with_log (log w ++ [e]) w).
    set (tagMap1 := foldl push_tag tagMap (tags_of_images d chunk)).
    destruct (IH (i + 90)%nat tagMap1 w1) as (ev & res & Hrun & Hres).
    + exact Hdb.
    + lia.
    + intros k. unfold tagMap1. rewrite foldl_push_tag_lookup, tags_of_images_for, Hinv.
      assert (Hchunk : chunk = take 90 (drop i ids)).
      { unfold chunk, JS.slice. f_equal. lia. }
      rewrite <- take_take_drop, <- Hchunk.
      assert (Hnd : NoDup (take i ids ++ chunk)).
      { rewrite Hchunk, take_take_drop.
        rewrite <- (take_drop (i + 90) ids) in Hnodup.
        apply NoDup_app in Hnodup. tauto. }
      apply NoDup_app in Hnd. destruct Hnd as (_ & Hdisj & _).
      destruct (decide (k ∈ take i ids)) as [Hin|Hout].
      * rewrite (decide_False (P := k ∈ chunk)) by (apply Hdisj; exact Hin).
        rewrite app_nil_r. rewrite decide_True by (apply elem_of_app; left; exact Hin).
        reflexivity.
      * destruct (decide (k ∈ chunk)) as [Hc|Hnc].
        -- rewrite decide_True by (apply elem_of_app; right; exact Hc). reflexivity.
        -- rewrite decide_False; [reflexivity|].
           intros Happ. apply elem_of_app in Happ. tauto.
    + exists ([e] ++ ev), res. split.
      * rewrite Hrun. unfold w1. cbn [log with_log]. rewrite <- app_assoc. reflexivity.
      * destruct res as [tagMap'|message]; [exact Hres|].
        unfold w1 in Hres. cbn [log with_log] in Hres. rewrite <- app_assoc in Hres.
        exact Hres.
Qed.

(** The run of [enrichWithTags] on rows with distinct ids. *)
Lemma enrichWithTags_run (rows : list ImageRow) (w : World) :
  NoDup (map row_id rows) ->
  ∃ ev res,
    enrichWithTags B rows w = (with_log (log w ++ ev) w, res) ∧
    match res with
    | Ok metadata =>
        metadata
        = map (fun row => rowToMetadata row (tags_for (db w) (row_id row))) rows
    | Throw message => rejects B (log w ++ ev) = Some message
    end.
Proof.
  intros Hnodup. unfold enrichWithTags.
  destruct (length rows =? 0)%nat eqn:Hlen.
  { apply Nat.eqb_eq in Hlen. destruct rows; [|discriminate].
    exists [], (Ok []). unfold ret. rewrite app_nil_r.
    split; [destruct w; reflexivity|reflexivity]. }
  destruct (enrich_loop (map row_id rows) (db w) Hnodup (length (map row_id rows)) 0
              ∅ w eq_refl ltac:(lia)) as (ev & res & Hrun & Hres).
  { intros k. rewrite lookup_empty. cbn [default take].
    rewrite decide_False by (apply not_elem_of_nil). reflexivity. }
  unfold bind at 1. rewrite Hrun.
  destruct res as [tagMap|message].
  - unfold ret. eexists ev, _. split; [reflexivity|].
    apply map_ext_in. intros row Hrow. f_equal.
    rewrite Hres. apply decide_True. apply list_elem_of_In in Hrow.
    change (map row_id rows) with (row_id <$> rows). apply list_elem_of_fmap.
    exists row. split; [reflexivity|exact Hrow].
  - eexists ev, _. split; [reflexivity|exact Hres].
Qed.

(** X9. [enrichWithTags] gives every row its tags: for rows with
    distinct ids it returns, in the order of the rows, each row's
    metadata with the names of the tags associated with it, however the
    ids are split into chunks.  The names come in the order the database
    returns them, which the query does not fix: they are the image's tags
    up to permutation.  It only reads, and it rejects only when one of
    its reads is rejected. *)
Theorem enrichWithTags_tags (rows : list ImageRow) (w : World) :
  NoDup (map row_id rows) ->
  ∃ ev res,
    enrichWithTags B rows w = (with_log (log w ++ ev) w, res) ∧
    match res with
    | Ok metadata =>
        Forall2 (fun row m =>
                   ∃ names, names ≡ₚ tags_for (db w) (row_id row) ∧
                            m = rowToMetadata row names)
                rows metadata
    | Throw message => rejects B (log w ++ ev) = Some message
    end.
Proof.
  intros Hnodup.
  destruct (enrichWithTags_run rows w Hnodup) as (ev & res & Hrun & Hres).
  exists ev, res. split; [exact Hrun|].
  destruct res as [metadata|message]; [|exact Hres].
  subst metadata. change (map ?f ?l) with (f <$> l). apply Forall2_fmap_r.
  apply Forall_Forall2_diag, Forall_forall. intros row _.
  eexists. split; reflexivity.
Qed.

End Reads.

Lemma enrichWithTags_tags_witness :
  ∃ w' metadata,
    enrichWithTags Scenario.calm (t_images Scenario.cats_db)
      (Scenario.world Scenario.cats_db)
    = (w', Ok metadata) ∧
    map id metadata = ["a"; "b"; "c"] ∧
    Forall2 (fun row m =>
               ∃ names, names ≡ₚ tags_for Scenario.cats_db (row_id row) ∧
                        m = rowToMetadata row names)
            (t_images Scenario.cats_db) metadata ∧
    tags_for Scenario.cats_db "a" ≡ₚ ["dog"; "cat"].
Proof.
  assert (Hnodup : NoDup (map row_id (t_images Scenario.cats_db))).
  { refine (bool_decide_unpack _ _). vm_compute. exact I. }
  destruct (enrichWithTags_tags Scenario.calm (t_images Scenario.cats_db)
              (Scenario.world Scenario.cats_db) Hnodup) as (ev & res & Hrun & Hres).
  assert (Hok : ∃ metadata,
             snd (enrichWithTags Scenario.calm (t_images Scenario.cats_db)
                    (Scenario.world Scenario.cats_db)) = Ok metadata ∧
             map id metadata = ["a"; "b"; "c"])
    by (vm_compute; eexists; split; reflexivity).
  destruct Hok as (metadata & Hok & Hids).
  rewrite Hrun in Hok. cbn [snd] in Hok. subst res.
  eexists. exists metadata. split; [exact Hrun|]. split; [exact Hids|].
  split; [exact Hres|]. change (["cat"; "dog"] ≡ₚ ["dog"; "cat"]). apply perm_swap.
Defined.

End StoreReads.

(** ** The metadata store: deletions and tags *)

Module StoreWrites.
Import Types Runtime Spec Metadata MetadataQueries RuntimeFacts MetadataFacts.

Lemma filter_length_split {X} (P : X -> Prop) `{∀ x, Decision (P x)} (l : list X) :
  length l = (length (filter (fun x => ¬ P x) l) + length (filter P l))%nat.
Proof.
  induction l as [|x l IH]; [reflexivity|].
  rewrite !filter_cons. destruct (decide (P x)) as [Hp|Hn].
  - rewrite decide_False by tauto. simpl. lia.
  - rewrite decide_True by exact Hn. simpl. lia.
Qed.

Lemma filter_nonempty {X} (P : X -> Prop) `{∀ x, Decision (P x)} (l : list X) :
  (0 < length (filter P l))%nat <-> ∃ x, x ∈ l ∧ P x.
Proof.
  split.
  - destruct (filter P l) as [|x rest] eqn:Hf; [simpl; lia|]. intros _.
    assert (Hx : x ∈ filter P l) by (rewrite Hf; left).
    apply list_elem_of_filter in Hx. exists x. tauto.
  - intros (x & Hx & Hp).
    assert (Hin : x ∈ filter P l) by (apply list_elem_of_filter; auto).
    destruct (filter P l); [inversion Hin|simpl; lia].
Qed.

Lemma filter_in_nil {X Y} `{EqDecision Y} (f : X -> Y) (l : list X) :
  filter (fun x => f x ∈ @nil Y) l = [].
Proof.
  induction l as [|x l IH]; [reflexivity|].
  rewrite filter_cons, decide_False by apply not_elem_of_nil. exact IH.
Qed.

(** What is left of the tags after the images [ids] are deleted. *)
Lemma tagged_delete_images (ids : list string) (d : DB) (image_id name : string) :
  tagged (fst (delete_images ids d)) image_id name <->
  tagged d image_id name ∧ image_id ∉ ids.
Proof.
  unfold delete_images, tagged. cbn [fst t_image_tags t_tags]. split.
  - intros (it & t & Hit & Ht & Hid & Htid & Hname).
    apply list_elem_of_filter in Hit. destruct Hit as [Hkeep Hit].
    split; [exists it, t; auto|]. rewrite <- Hid. exact Hkeep.
  - intros [(it & t & Hit & Ht & Hid & Htid & Hname) Hout].
    exists it, t. split; [|auto].
    apply list_elem_of_filter. split; [rewrite Hid; exact Hout|exact Hit].
Qed.

(** What is left of the tags after the tag [name] is deleted. *)
Lemma tagged_delete_tag (name : string) (d : DB) (image_id other : string) :
  tagged (delete_tag name d) image_id other ->
  tagged d image_id other ∧ other ≠ name.
Proof.
  unfold delete_tag, tagged. cbn [t_image_tags t_tags].
  intros (it & t & Hit & Ht & Hid & Htid & Hname).
  apply list_elem_of_filter in Hit. destruct Hit as [_ Hit].
  apply list_elem_of_filter in Ht. destruct Ht as [Hne Ht].
  split; [exists it, t; auto|]. rewrite <- Hname. exact Hne.
Qed.

Lemma tagged_delete_tag_kept (name : string) (d : DB) (image_id other : string) :
  tagged d image_id other -> ¬ tagged d image_id name -> other ≠ name ->
  tagged (delete_tag name d) image_id other.
Proof.
  unfold delete_tag. intros (it & t & Hit & Ht & Hid & Htid & Hname) Hnot Hne.
  exists it, t. cbn [t_image_tags t_tags]. split; [|split; [|auto]].
  - apply list_elem_of_filter. split; [|exact Hit].
    intros Hgone. change (map tag_id ?l) with (tag_id <$> l) in Hgone.
    apply list_elem_of_fmap in Hgone. destruct Hgone as (t' & Hid' & Ht').
    apply list_elem_of_filter in Ht'. destruct Ht' as [Hname' Ht'].
    apply Hnot. exists it, t'. split; [exact Hit|]. split; [exact Ht'|].
    split; [exact Hid|]. split; [exact Hid'|exact Hname'].
  - apply list_elem_of_filter. split; [rewrite Hname; exact Hne|exact Ht].
Qed.

Lemma delete_tag_name_gone (name : string) (d : DB) :
  name ∉ map tag_name (t_tags (delete_tag name d)).
Proof.
  unfold delete_tag. cbn [t_tags]. intros Hin.
  change (map tag_name ?l) with (tag_name <$> l) in Hin.
  apply list_elem_of_fmap in Hin. destruct Hin as (t & Hname & Ht).
  apply list_elem_of_filter in Ht. destruct Ht as [Hne _]. congruence.
Qed.

Lemma tagged_rename (oldName newName : string) (d d' : DB) :
  rename_tag oldName newName d = Some d' ->
  t_images d' = t_images d ∧ t_image_tags d' = t_image_tags d ∧
  (∀ image_id name,
     tagged d' image_id name <->
     ∃ before, tagged d image_id before ∧
               name = if decide (before = oldName) then newName else before).
Proof.
  unfold rename_tag. destruct (decide _); [discriminate|].
  intros Heq. injection Heq as <-. cbn [t_images t_image_tags].
  split; [reflexivity|]. split; [reflexivity|].
  intros image_id name. unfold tagged. cbn [t_image_tags t_tags]. split.
  - intros (it & t' & Hit & Ht' & Hid & Htid & Hname).
    change (map ?f ?l) with (f <$> l) in Ht'.
    apply list_elem_of_fmap in Ht'. destruct Ht' as (t & Heq & Ht).
    exists (tag_name t). split.
    + exists it, t. split; [exact Hit|]. split; [exact Ht|]. split; [exact Hid|].
      split; [|reflexivity]. rewrite Htid, Heq. destruct (decide _); reflexivity.
    + rewrite <- Hname, Heq. destruct (decide _); reflexivity.
  - intros (before & (it & t & Hit & Ht & Hid & Htid & Hname) & ->).
    exists it.
    exists (if decide (tag_name t = oldName)
            then {| tag_id := tag_id t; tag_name := newName |} else t).
    split; [exact Hit|]. split; [|split; [exact Hid|split]].
    + change (map ?f ?l) with (f <$> l). apply list_elem_of_fmap.
      exists t. split; [reflexivity|exact Ht].
    + rewrite Htid. destruct (decide _); reflexivity.
    + rewrite <- Hname. destruct (decide (tag_name t = oldName)); reflexivity.
Qed.

Section Writes.
Context (B : Bindings).

(** X10. [deleteImage] answers whether the image existed, removes it
    and its tag associations, and touches nothing else: every other
    image keeps its row and its tags, the tags table and the stored
    objects are as before. *)
Theorem deleteImage_removes (image_id : string) (w : World) :
  rejects B (log w ++ [D1 [delete_image_statement image_id]]) = None ->
  ∃ w',
    deleteImage B image_id w
    = (w', Ok (bool_decide (image_id ∈ map row_id (t_images (db w))))) ∧
    (∀ i, i ∈ t_images (db w') <-> i ∈ t_images (db w) ∧ row_id i ≠ image_id) ∧
    (∀ other name,
       tagged (db w') other name <-> tagged (db w) other name ∧ other ≠ image_id) ∧
    t_tags (db w') = t_tags (db w) ∧ bucket w' = bucket w ∧ queue w' = queue w.
Proof.
  intros Hrej. unfold deleteImage, bind.
  rewrite DeleteTagSpec.d1_run_run, Hrej. unfold ret.
  eexists. split; [f_equal; f_equal|split; [|split; [|auto]]].
  - cbn [snd delete_images].
    set (deleted := filter (fun i => row_id i ∈ [image_id]) (t_images (db w))).
    destruct (bool_decide (image_id ∈ map row_id (t_images (db w)))) eqn:Hin.
    + apply bool_decide_eq_true in Hin. apply Nat.ltb_lt.
      assert (Hpos : (0 < length deleted)%nat); [|lia].
      apply filter_nonempty.
      change (map row_id ?l) with (row_id <$> l) in Hin.
      apply list_elem_of_fmap in Hin. destruct Hin as (i & Hid & Hi).
      exists i. split; [exact Hi|]. rewrite <- Hid. left.
    + apply bool_decide_eq_false in Hin.
      assert (Hnone : deleted = []).
      { destruct deleted as [|i rest] eqn:Hf; [reflexivity|]. exfalso. apply Hin.
        assert (Hi : i ∈ deleted) by (rewrite Hf; left).
        apply list_elem_of_filter in Hi. destruct Hi as [Hid Hi].
        apply list_elem_of_singleton in Hid. rewrite <- Hid.
        change (map row_id ?l) with (row_id <$> l). apply list_elem_of_fmap. eauto. }
      rewrite Hnone. cbn [map length]. rewrite filter_in_nil. reflexivity.
  - intros i. cbn [db with_db with_log fst delete_images t_images].
    rewrite list_elem_of_filter, list_elem_of_singleton. tauto.
  - intros other name. cbn [db with_db with_log].
    rewrite tagged_delete_images, list_elem_of_singleton. tauto.
Qed.

(** X11. [createTag] is idempotent: afterwards the tag exists; when
    it existed already the database is unchanged, so that creating a tag
    twice is creating it once; and no image, association or other tag is
    touched. *)
Theorem createTag_idempotent (name : string) (w : World) :
  rejects B (log w ++ [D1 [create_tag_statement name]]) = None ->
  ∃ w',
    createTag B name w = (w', Ok tt) ∧
    name ∈ map tag_name (t_tags (db w')) ∧
    (name ∈ map tag_name (t_tags (db w)) -> db w' = db w) ∧
    (∀ w'', createTag B name w' = (w'', Ok tt) -> db w'' = db w') ∧
    (∃ new, t_tags (db w') = t_tags (db w) ++ new) ∧
    t_images (db w') = t_images (db w) ∧ t_image_tags (db w') = t_image_tags (db w).
Proof.
  intros Hrej. unfold createTag. rewrite DeleteTagSpec.d1_run_run, Hrej. clear Hrej.
  eexists. split; [reflexivity|]. cbn [db with_db with_log fst].
  assert (Hin : name ∈ map tag_name (t_tags (insert_or_ignore_tag name (db w)))).
  { unfold insert_or_ignore_tag. destruct (decide _) as [Hold|Hnew]; [exact Hold|].
    cbn [t_tags]. rewrite map_app. apply elem_of_app. right. left. }
  split; [exact Hin|]. split; [|split; [|split; [|split]]].
  - intros Hold. unfold insert_or_ignore_tag. rewrite decide_True by exact Hold.
    reflexivity.
  - intros w''. rewrite DeleteTagSpec.d1_run_run.
    destruct (rejects B _); [discriminate|]. intros Heq. injection Heq as <-.
    cbn [db with_db with_log fst].
    unfold insert_or_ignore_tag at 1. rewrite decide_True by exact Hin. reflexivity.
  - unfold insert_or_ignore_tag. destruct (decide _).
    + exists []. rewrite app_nil_r. reflexivity.
    + eexists. reflexivity.
  - unfold insert_or_ignore_tag. destruct (decide _); reflexivity.
  - unfold insert_or_ignore_tag. destruct (decide _); reflexivity.
Qed.

(** X12. [deleteTagWithImages] deletes exactly the images carrying
    the tag, and the tag: an image remains if and only if it did not
    carry the tag, and then it keeps all its tags; the tag's name is
    gone; the number returned is the database's count of the rows the
    deletion of the images changed, which is the image rows deleted
    together with the association rows of these images that the cascade
    deleted; the stored objects and the queue are not touched. *)
Theorem deleteTagWithImages_removes (name : string) (w w' : World) (n : nat) :
  deleteTagWithImages B name w = (w', Ok n) ->
  (∀ i, i ∈ t_images (db w') <->
        i ∈ t_images (db w) ∧ ¬ tagged (db w) (row_id i) name) ∧
  (∀ image_id other,
     tagged (db w') image_id other <->
     tagged (db w) image_id other ∧ ¬ tagged (db w) image_id name) ∧
  (name ∉ map tag_name (t_tags (db w'))) ∧
  (∃ deleted,
     (∀ i, i ∈ deleted <-> i ∈ t_images (db w) ∧ tagged (db w) (row_id i) name) ∧
     length (t_images (db w)) = (length (t_images (db w')) + length deleted)%nat ∧
     n = (length deleted
          + length (filter (fun it => it_image_id it ∈ map row_id deleted)
                           (t_image_tags (db w))))%nat) ∧
  bucket w' = bucket w ∧ queue w' = queue w.
Proof.
  unfold deleteTagWithImages, bind. rewrite DeleteTagSpec.d1_run_run.
  destruct (rejects B _); [discriminate|].
  rewrite DeleteTagSpec.d1_run_run.
  destruct (rejects B _); [discriminate|].
  unfold ret. intros Heq. injection Heq as <- <-.
  cbn [db with_db with_log fst snd bucket queue].
  set (ids := image_ids_tagged (db w) [name]).
  assert (Hids : ∀ image_id, image_id ∈ ids <-> tagged (db w) image_id name).
  { intros image_id. unfold ids. rewrite elem_of_image_ids_tagged. split.
    - intros (x & Hx & Ht). apply list_elem_of_singleton in Hx. subst x. exact Ht.
    - intros Ht. exists name. split; [left|exact Ht]. }
  split; [|split; [|split; [|split; [|auto]]]].
  - intros i. unfold delete_tag, delete_images. cbn [fst t_images].
    rewrite list_elem_of_filter, Hids. tauto.
  - intros image_id other. split.
    + intros Ht. apply tagged_delete_tag in Ht. destruct Ht as [Ht Hne].
      apply tagged_delete_images in Ht. destruct Ht as [Ht Hout].
      split; [exact Ht|]. rewrite <- Hids. exact Hout.
    + intros [Ht Hnot].
      assert (Hkept : tagged (fst (delete_images ids (db w))) image_id other).
      { apply tagged_delete_images. split; [exact Ht|]. rewrite Hids. exact Hnot. }
      apply tagged_delete_tag_kept; [exact Hkept| |].
      * intros Hn. apply tagged_delete_images in Hn. tauto.
      * intros ->. tauto.
  - apply delete_tag_name_gone.
  - exists (filter (fun i => row_id i ∈ ids) (t_images (db w))).
    split; [|split].
    + intros i. rewrite list_elem_of_filter, Hids. tauto.
    + unfold delete_tag, delete_images. cbn [fst snd t_images].
      apply (filter_length_split (fun i => row_id i ∈ ids)).
    + reflexivity.
Qed.

(** X13. [MetadataService.deleteTag] deletes the tag and its
    associations and no image: the images table is as before, the name
    is gone, no image carries it any more, the other tags of an image
    that did not also carry it are kept, and the number returned is the
    number of associations the tag had. *)
Theorem deleteTag_keeps_images (name : string) (w w' : World) (n : nat) :
  deleteTag B name w = (w', Ok n) ->
  t_images (db w') = t_images (db w) ∧
  n = count_by_tag (db w) name ∧
  (name ∉ map tag_name (t_tags (db w'))) ∧
  (∀ image_id other, tagged (db w') image_id other ->
                     tagged (db w) image_id other ∧ other ≠ name) ∧
  (∀ image_id other, tagged (db w) image_id other -> other ≠ name ->
                     ¬ tagged (db w) image_id name -> tagged (db w') image_id other) ∧
  bucket w' = bucket w.
Proof.
  unfold deleteTag, bind. rewrite DeleteTagSpec.d1_read_run.
  destruct (rejects B _); [discriminate|].
  rewrite DeleteTagSpec.d1_run_run.
  destruct (rejects B _); [discriminate|].
  unfold ret. intros Heq. injection Heq as <- <-.
  cbn [db with_db with_log fst snd bucket].
  split; [reflexivity|]. split; [reflexivity|].
  split; [apply delete_tag_name_gone|]. split; [|split; [|reflexivity]].
  - intros image_id other. apply tagged_delete_tag.
  - intros image_id other Ht Hne Hnot. apply tagged_delete_tag_kept; assumption.
Qed.

(** X14. [renameTag] moves the associations of a tag to its new name:
    after a successful renaming to a different name, an image carries the
    new name exactly when it carried the old or the new one before, no
    image carries the old name, every other tag is as before, images and
    associations are untouched, and the number returned is the number of
    associations the old name had.  Renaming onto the name of another
    existing tag is refused and changes nothing. *)
Theorem renameTag_moves (oldName newName : string) (w : World) :
  oldName ≠ newName ->
  (∀ w' n, renameTag B oldName newName w = (w', Ok n) ->
     n = count_by_tag (db w) oldName ∧
     t_images (db w') = t_images (db w) ∧
     t_image_tags (db w') = t_image_tags (db w) ∧
     (∀ image_id, tagged (db w') image_id newName <->
                  tagged (db w) image_id oldName ∨ tagged (db w) image_id newName) ∧
     (∀ image_id, ¬ tagged (db w') image_id oldName) ∧
     (∀ image_id other, other ≠ oldName -> other ≠ newName ->
        (tagged (db w') image_id other <-> tagged (db w) image_id other))) ∧
  (oldName ∈ map tag_name (t_tags (db w)) ->
   newName ∈ map tag_name (t_tags (db w)) ->
   ∃ message, snd (renameTag B oldName newName w) = Throw message ∧
              db (fst (renameTag B oldName newName w)) = db w).
Proof.
  intros Hne. split.
  - intros w' n. unfold renameTag, Runtime.bind. rewrite DeleteTagSpec.d1_read_run.
    destruct (rejects B _); [discriminate|].
    unfold d1_run_checked. rewrite call_run.
    destruct (rejects B _); [discriminate|]. cbn [fst snd db with_log].
    destruct (rename_tag oldName newName (db w)) as [d'|] eqn:Hren; [|discriminate].
    unfold ret. intros Heq. injection Heq as <- <-. cbn [db with_db with_log].
    destruct (tagged_rename _ _ _ _ Hren) as (Himg & Hits & Htag).
    split; [reflexivity|]. split; [exact Himg|]. split; [exact Hits|].
    split; [|split].
    + intros image_id. rewrite Htag. split.
      * intros (before & Hb & Heq). destruct (decide (before = oldName)) as [->|Hother].
        -- left. exact Hb.
        -- right. rewrite Heq. exact Hb.
      * intros [Hb|Hb].
        -- exists oldName. split; [exact Hb|]. rewrite decide_True by reflexivity.
           reflexivity.
        -- exists newName. split; [exact Hb|]. rewrite decide_False by congruence.
           reflexivity.
    + intros image_id Ht. apply Htag in Ht. destruct Ht as (before & _ & Heq).
      destruct (decide (before = oldName)); congruence.
    + intros image_id other Ho Hn. rewrite Htag. split.
      * intros (before & Hb & Heq). destruct (decide (before = oldName)); congruence.
      * intros Hb. exists other. split; [exact Hb|]. rewrite decide_False by exact Ho.
        reflexivity.
  - intros Hold Hnew. unfold renameTag, Runtime.bind. rewrite DeleteTagSpec.d1_read_run.
    destruct (rejects B _); [eexists; split; reflexivity|].
    unfold d1_run_checked. rewrite call_run.
    destruct (rejects B _); [eexists; split; reflexivity|]. cbn [fst snd db with_log].
    unfold rename_tag. rewrite decide_True by auto.
    eexists; split; reflexivity.
Qed.

End Writes.

Lemma deleteImage_removes_witness :
  ∃ w',
    deleteImage Scenario.calm "a" (Scenario.world Scenario.cats_db) = (w', Ok true) ∧
    map row_id (t_images (db w')) = ["b"; "c"] ∧
    t_image_tags (db w') = [{| it_image_id := "b"; it_tag_id := 1 |};
                            {| it_image_id := "c"; it_tag_id := 1 |}].
Proof.
  destruct (deleteImage_removes Scenario.calm "a" (Scenario.world Scenario.cats_db)
              eq_refl) as (w' & Hrun & _).
  exists w'. split; [exact Hrun|].
  vm_compute in Hrun. injection Hrun as <-. split; reflexivity.
Defined.

Lemma createTag_idempotent_witness :
  ∃ w',
    createTag Scenario.calm "cat" (Scenario.world Scenario.cats_db) = (w', Ok tt) ∧
    db w' = Scenario.cats_db.
Proof.
  destruct (createTag_idempotent Scenario.calm "cat" (Scenario.world Scenario.cats_db)
              eq_refl) as (w' & Hrun & _ & Hsame & _).
  exists w'. split; [exact Hrun|]. apply Hsame.
  left.
Defined.

Lemma deleteTagWithImages_removes_witness :
  ∃ w' deleted,
    deleteTagWithImages Scenario.calm "dog" (Scenario.world Scenario.cats_db)
    = (w', Ok 3%nat) ∧
    map row_id (t_images (db w')) = ["b"; "c"] ∧
    (∀ i, i ∈ deleted <->
          i ∈ t_images Scenario.cats_db ∧ tagged Scenario.cats_db (row_id i) "dog") ∧
    (length (t_images Scenario.cats_db)
     = length (t_images (db w')) + length deleted)%nat ∧
    (3 = length deleted
         + length (filter (fun it => it_image_id it ∈ map row_id deleted)
                          (t_image_tags Scenario.cats_db)))%nat.
Proof.
  pose (r := deleteTagWithImages Scenario.calm "dog" (Scenario.world Scenario.cats_db)).
  assert (Hrun : r = (fst r, Ok 3%nat)) by (vm_compute; reflexivity).
  destruct (deleteTagWithImages_removes Scenario.calm "dog"
              (Scenario.world Scenario.cats_db) (fst r) 3%nat Hrun)
    as (_ & _ & _ & (deleted & Hdeleted & Himages & Hcount) & _).
  exists (fst r), deleted.
  split; [exact Hrun|]. split; [vm_compute; reflexivity|].
  split; [exact Hdeleted|]. split; [exact Himages|exact Hcount].
Defined.

Lemma deleteTag_keeps_images_witness :
  ∃ w',
    deleteTag Scenario.calm "dog" (Scenario.world Scenario.cats_db) = (w', Ok 1%nat) ∧
    t_images (db w') = t_images Scenario.cats_db.
Proof.
  eexists. split; [reflexivity|].
  exact (proj1 (deleteTag_keeps_images Scenario.calm "dog"
                  (Scenario.world Scenario.cats_db) _ 1%nat eq_refl)).
Defined.

Lemma renameTag_moves_witness :
  (∃ w', renameTag Scenario.calm "dog" "puppy" (Scenario.world Scenario.cats_db)
         = (w', Ok 1%nat) ∧
         (tagged (db w') "a" "puppy" <->
          tagged Scenario.cats_db "a" "dog" ∨ tagged Scenario.cats_db "a" "puppy")) ∧
  (∃ message, snd (renameTag Scenario.calm "dog" "cat" (Scenario.world Scenario.cats_db))
              = Throw message).
Proof.
  split.
  - eexists. split; [reflexivity|].
    assert (Hne : "dog" ≠ "puppy") by discriminate.
    exact (proj1 (proj2 (proj2 (proj2
             (proj1 (renameTag_moves Scenario.calm "dog" "puppy"
                       (Scenario.world Scenario.cats_db) Hne) _ 1%nat eq_refl)))) "a").
  - assert (Hne : "dog" ≠ "cat") by discriminate.
    destruct (proj2 (renameTag_moves Scenario.calm "dog" "cat"
                       (Scenario.world Scenario.cats_db) Hne)) as (message & Hm & _).
    + right. left.
    + left.
    + exists message. exact Hm.
Defined.

End StoreWrites.

(** ** What a computation leaves untouched *)

Module FrameFacts.
Import Types Runtime Spec RuntimeFacts.

Lemma only_logs_ret {A} (a : A) : only_logs (ret a).
Proof. intros w. exists []. rewrite app_nil_r. destruct w; reflexivity. Qed.

Lemma only_logs_throw {A} (message : string) : only_logs (@throw A message).
Proof. intros w. exists []. rewrite app_nil_r. destruct w; reflexivity. Qed.

Lemma only_logs_bind {A C} (m : M A) (k : A -> M C) :
  only_logs m -> (∀ a, only_logs (k a)) -> only_logs (bind m k).
Proof.
  intros Hm Hk w. unfold bind. destruct (Hm w) as (ev1 & H1).
  destruct (m w) as [w1 [a|e]]; cbn [fst] in H1; subst w1.
  - destruct (Hk a (with_log (log w ++ ev1) w)) as (ev2 & H2).
    exists (ev1 ++ ev2). rewrite H2. cbn [log with_log]. rewrite app_assoc. reflexivity.
  - exists ev1. reflexivity.
Qed.

Lemma only_logs_catch {A} (m : M A) (h : string -> M A) :
  only_logs m -> (∀ e, only_logs (h e)) -> only_logs (catch m h).
Proof.
  intros Hm Hh w. unfold catch. destruct (Hm w) as (ev1 & H1).
  destruct (m w) as [w1 [a|e]]; cbn [fst] in H1; subst w1.
  - exists ev1. reflexivity.
  - destruct (Hh e (with_log (log w ++ ev1) w)) as (ev2 & H2).
    exists (ev1 ++ ev2). rewrite H2. cbn [log with_log]. rewrite app_assoc. reflexivity.
Qed.

Lemma only_logs_call {A} (B : Bindings) (e : event) (a : World -> A) :
  only_logs (call B e (fun w => (w, a w))).
Proof.
  intros w. rewrite call_run. exists [e]. destruct (rejects B _); reflexivity.
Qed.

Lemma only_logs_for_loop {S} (body : nat -> S -> M S) (stop step : nat) :
  (∀ i s, only_logs (body i s)) ->
  ∀ fuel i s, only_logs (for_loop fuel i stop step body s).
Proof.
  intros Hbody. induction fuel as [|fuel IH]; intros i s; cbn [for_loop].
  - apply only_logs_ret.
  - destruct (i <? stop)%nat; [|apply only_logs_ret].
    apply only_logs_bind; [apply Hbody|]. intros s'. apply IH.
Qed.

Lemma only_logs_keeps {A} (m : M A) : only_logs m -> keeps_metadata m.
Proof. intros Hm w. destruct (Hm w) as (ev & ->). split; reflexivity. Qed.

Lemma keeps_ret {A} (a : A) : keeps_metadata (ret a).
Proof. intros w. split; reflexivity. Qed.

Lemma keeps_bind {A C} (m : M A) (k : A -> M C) :
  keeps_metadata m -> (∀ a, keeps_metadata (k a)) -> keeps_metadata (bind m k).
Proof.
  intros Hm Hk w. unfold bind. destruct (Hm w) as [Hd Hq].
  destruct (m w) as [w1 [a|e]]; cbn [fst] in *.
  - destruct (Hk a w1) as [Hd' Hq']. split; congruence.
  - auto.
Qed.

Lemma keeps_call {A} (B : Bindings) (e : event) (effect : World -> World * A) :
  (∀ w, db (fst (effect w)) = db w ∧ queue (fst (effect w)) = queue w) ->
  keeps_metadata (call B e effect).
Proof.
  intros Heff w. rewrite call_run. destruct (rejects B _); [split; reflexivity|].
  cbn [fst]. destruct (Heff (with_log (log w ++ [e]) w)) as [Hd Hq]. auto.
Qed.

Lemma only_logs_d1_read {A} (B : Bindings) (stmt : Statement) (query : World -> A) :
  only_logs (Metadata.d1_read B stmt query).
Proof. apply only_logs_call. Qed.

Lemma only_logs_enrichWithTags (B : Bindings) (rows : list ImageRow) :
  only_logs (Metadata.enrichWithTags B rows).
Proof.
  unfold Metadata.enrichWithTags. destruct (length rows =? 0)%nat; [apply only_logs_ret|].
  apply only_logs_bind; [|intros; apply only_logs_ret].
  apply only_logs_for_loop. intros i s.
  apply only_logs_bind; [apply only_logs_d1_read|intros; apply only_logs_ret].
Qed.

Lemma only_logs_getRandomImage (B : Bindings)
    (filters : option Metadata.RandomFilters) :
  only_logs (Metadata.getRandomImage B filters).
Proof.
  unfold Metadata.getRandomImage.
  apply only_logs_bind; [apply only_logs_d1_read|].
  intros [row|]; [|apply only_logs_ret].
  apply only_logs_bind; [apply only_logs_enrichWithTags|intros; apply only_logs_ret].
Qed.

Lemma only_logs_compress (B : Bindings) (input : JS.bytes) (format : string)
    (options : CompressionOptions) :
  only_logs (Compression.compress B input format options).
Proof. intros w. apply UploadSpec.compress_frame. Qed.

End FrameFacts.

(** ** The random-image handler: what it answers *)

Module RandomProps.
Import Types Runtime Spec Metadata Handlers RuntimeFacts FrameFacts.

Section Random.
Context (B : Bindings) (D : Deps.t) (env : Env).

Lemma only_logs_randomHandler (request : RandomRequest) :
  only_logs (randomHandler B D env request).
Proof.
  unfold randomHandler. apply only_logs_catch; [|intros; apply only_logs_ret].
  apply only_logs_bind; [apply only_logs_getRandomImage|].
  intros [image|]; [|apply only_logs_ret].
  apply only_logs_bind.
  - unfold lift. destruct (ImageTransform.buildImageUrls _ _ _ _ _);
      [apply only_logs_ret|apply only_logs_throw].
  - intros urls. destruct (negb _); apply only_logs_ret.
Qed.

(** X15. [randomHandler] always answers and never writes: whatever
    the database and the URL parser do, it returns a response (it never
    rejects), which is a 302 redirect to a location that is not empty,
    one of the two 404 answers, or the error [Failed to get random image]
    that the handler raises without naming a status; the database, the
    bucket and the queue are as before. *)
Theorem randomHandler_answers (request : RandomRequest) (w : World) :
  ∃ ev response,
    randomHandler B D env request w = (with_log (log w ++ ev) w, Ok response) ∧
    ((∃ location, response = redirect 302 location ∧ location ≠ "") ∨
     response = errorResponse "No images found matching criteria" (Some 404) ∨
     response = errorResponse "Image file not found" (Some 404) ∨
     response = errorResponse "Failed to get random image" None).
Proof.
  destruct (only_logs_randomHandler request w) as (ev & Hfst).
  exists ev.
  destruct (randomHandler B D env request w) as [w' res] eqn:Hrun.
  cbn [fst] in Hfst. subst w'.
  unfold randomHandler, catch in Hrun.
  destruct (bind _ _ w) as [w1 [response|e]] eqn:Hbody.
  2: { unfold ret in Hrun. injection Hrun as _ <-. eexists. split; [reflexivity|].
       right. right. right. reflexivity. }
  injection Hrun as _ <-. exists response. split; [reflexivity|].
  unfold bind at 1 in Hbody.
  destruct (getRandomImage B _ w) as [w2 [[image|]|e]]; [| |discriminate].
  2: { unfold ret in Hbody. injection Hbody as _ <-. right. left. reflexivity. }
  unfold bind in Hbody. unfold lift in Hbody.
  destruct (ImageTransform.buildImageUrls _ _ _ _ _) as [urls|];
    [|discriminate].
  unfold ret in Hbody. cbn beta iota in Hbody.
  destruct (JS.truthy (random_targetUrl D request image urls)) eqn:Ht;
    cbn [negb] in Hbody; injection Hbody as _ <-.
  - left. eexists. split; [reflexivity|]. apply UrlSpec.truthy_not_empty. exact Ht.
  - right. right. left. reflexivity.
Qed.

End Random.

End RandomProps.

(** ** The upload handler: refusals, failures, and uploads without
       compression *)

Module UploadProps.
Import Types Runtime Spec Metadata Handlers RuntimeFacts FrameFacts.

Section Upload.
Context (B : Bindings) (D : Deps.t) (env : Env).

Lemma keeps_storage_upload (key : string) (body : JS.bytes) (contentType : string) :
  keeps_metadata (storage_upload B key body contentType).
Proof. apply keeps_call. intros w. split; reflexivity. Qed.

Lemma keeps_upload_variants (file : FormData.File) (imageInfo : ImageInfo)
    (paths : Paths) (contentType : string) (options : CompressionOptions) :
  keeps_metadata (upload_variants B env file imageInfo paths contentType options).
Proof.
  unfold upload_variants.
  destruct (negb (String.eqb (info_format imageInfo) "gif")), (IMAGES env);
    cbn [andb].
  - apply keeps_bind; [apply keeps_storage_upload|]. intros _.
    apply keeps_bind; [apply only_logs_keeps, only_logs_compress|]. intros res.
    apply keeps_bind.
    { destruct (webp res); (apply keeps_bind; [apply keeps_storage_upload|]);
        intros _; apply keeps_ret. }
    intros webpSize. apply keeps_bind; [|intros; apply keeps_ret].
    destruct (avif res); (apply keeps_bind; [apply keeps_storage_upload|]);
      intros _; apply keeps_ret.
  - repeat (apply keeps_bind; [apply keeps_storage_upload|]; intros _).
    apply keeps_ret.
  - apply keeps_bind; [apply keeps_storage_upload|]. intros _. apply keeps_ret.
  - apply keeps_bind; [apply keeps_storage_upload|]. intros _. apply keeps_ret.
Qed.

(** A batch is all or nothing. *)
Lemma d1_batch_outcome (batch : list (Statement * (DB -> option DB))) (w w' : World)
    (res : result unit) :
  d1_batch B batch w = (w', res) ->
  log w' = log w ++ [D1 (map fst batch)] ∧ queue w' = queue w ∧ bucket w' = bucket w ∧
  match res with
  | Ok _ => run_batch (map snd batch) (db w) = Some (db w')
  | Throw _ => db w' = db w
  end.
Proof.
  unfold d1_batch. rewrite call_run.
  destruct (rejects B _).
  - intros Heq. injection Heq as <- <-. auto.
  - cbn [fst snd db with_log]. destruct (run_batch _ _) as [d'|] eqn:Hbatch;
      intros Heq; injection Heq as <- <-; auto.
Qed.

(** The detached invalidation after an upload: cache calls only. *)
Lemma invalidation_calls (w : World) :
  ∃ tail,
    fst (waitUntil (Runtime.bind (invalidateImagesList B)
                      (fun _ => invalidateTagsList B)) w)
    = with_log (log w ++ tail) w ∧
    Forall (fun e => ∃ helper, e = Invalidate helper) tail.
Proof.
  unfold waitUntil, Runtime.bind, invalidateImagesList, invalidateTagsList.
  rewrite call_run. cbn [fst snd].
  destruct (rejects B _).
  - exists [Invalidate "imagesList"]. split; [reflexivity|].
    repeat constructor. eexists; reflexivity.
  - rewrite call_run. cbn [fst snd log with_log].
    exists [Invalidate "imagesList"; Invalidate "tagsList"].
    split; [destruct (rejects B _); cbn [fst]; rewrite <- app_assoc; reflexivity|].
    repeat constructor; eexists; reflexivity.
Qed.

(** X16. [uploadSingleHandler] always answers, and an upload it
    reports as failed leaves no record: the handler never rejects and
    never redirects; when its answer is an error, the message is
    [No file provided], [Unsupported format: ...] or [Upload failed], and
    the database and the queue are as before the request. *)
Theorem upload_failure_leaves_no_record (formData : FormData.t) (w : World) :
  ∃ w' response,
    uploadSingleHandler B D env formData w = (w', Ok response) ∧
    (∀ status location, response ≠ redirect status location) ∧
    (∀ message status, response = errorResponse message status ->
       db w' = db w ∧ queue w' = queue w ∧
       (message = "No file provided" ∨ message = "Upload failed" ∨
        ∃ format, message = "Unsupported format: " +:+ format)).
Proof.
  unfold uploadSingleHandler, catch.
  destruct (FormData.get "image" formData) as [[text|file]|].
  1, 3: (eexists _, _; split; [reflexivity|]; split; [discriminate|];
         intros message status Heq; injection Heq as <- _; auto).
  unfold Runtime.bind at 1. unfold getImageInfo. rewrite call_run. cbn [fst snd].
  destruct (rejects B _).
  { eexists _, _. split; [reflexivity|]. split; [discriminate|].
    intros message status Heq. injection Heq as <- _. auto. }
  set (imageInfo := decode B (FormData.file_bytes file)).
  destruct (negb (Deps.isSupportedFormat D (info_format imageInfo))).
  { eexists _, _. split; [reflexivity|]. split; [discriminate|].
    intros message status Heq. injection Heq as <- _.
    split; [reflexivity|]. split; [reflexivity|]. right. right. eexists. reflexivity. }
  set (paths := Deps.generatePaths D _ _ _).
  set (w1 := with_log _ w).
  unfold Runtime.bind at 1.
  destruct (keeps_upload_variants file imageInfo paths
              (Deps.getContentType D (info_format imageInfo))
              (CompressionForm.parseCompressionOptions formData) w1) as [Hdb2 Hq2].
  destruct (upload_variants B env file imageInfo paths _ _ w1) as [w2 [variantSizes|e]].
  2: { eexists _, _. split; [reflexivity|]. split; [discriminate|].
       intros message status Heq. injection Heq as <- _. cbn [fst] in Hdb2, Hq2. auto. }
  cbn [fst] in Hdb2, Hq2.
  unfold Runtime.bind at 1. unfold saveImage.
  destruct (d1_batch B _ w2) as [w3 [[]|e]] eqn:Hsave.
  2: { apply d1_batch_outcome in Hsave. destruct Hsave as (_ & Hq3 & _ & Hdb3).
       eexists _, _. split; [reflexivity|]. split; [discriminate|].
       intros message status Heq. injection Heq as <- _.
       split; [rewrite Hdb3, Hdb2; reflexivity|].
       split; [rewrite Hq3, Hq2; reflexivity|]. auto. }
  unfold Runtime.bind at 1. unfold waitUntil at 1. unfold ret.
  eexists _, _. split; [reflexivity|]. split; discriminate.
Qed.

(** X17. An upload is refused before anything is stored: without a
    file under [image] (no field, or a text field) the handler answers
    [No file provided] without making any call; with a file whose decoded
    format is not supported it answers [Unsupported format], having only
    asked for the image's information.  Bucket, database and queue are
    untouched in both cases. *)
Theorem upload_refused_before_storing (formData : FormData.t) (w : World) :
  ((∀ file, FormData.get "image" formData ≠ Some (FormData.Blob file)) ->
   uploadSingleHandler B D env formData w
   = (w, Ok (errorResponse "No file provided" None))) ∧
  (∀ file,
     FormData.get "image" formData = Some (FormData.Blob file) ->
     rejects B (log w ++ [GetImageInfo (FormData.file_bytes file)]) = None ->
     Deps.isSupportedFormat D (info_format (decode B (FormData.file_bytes file)))
       = false ->
     uploadSingleHandler B D env formData w
     = (with_log (log w ++ [GetImageInfo (FormData.file_bytes file)]) w,
        Ok (errorResponse
              ("Unsupported format: "
               +:+ info_format (decode B (FormData.file_bytes file))) None))).
Proof.
  split.
  - intros Hnone. unfold uploadSingleHandler, catch.
    destruct (FormData.get "image" formData) as [[text|file]|]; [reflexivity| |reflexivity].
    exfalso. exact (Hnone file eq_refl).
  - intros file Hfile Hrej Hformat. unfold uploadSingleHandler, catch. rewrite Hfile.
    unfold Runtime.bind at 1. unfold getImageInfo. rewrite call_run, Hrej.
    cbn [fst snd]. rewrite Hformat. reflexivity.
Qed.

(** What a successful upload went through. *)
Lemma upload_success_steps (formData : FormData.t) (w w' : World) (data : payload) :
  uploadSingleHandler B D env formData w = (w', Ok (successResponse data)) ->
  ∃ file variantSizes w2 stmts tail,
    FormData.get "image" formData = Some (FormData.Blob file) ∧
    let imageInfo := decode B (FormData.file_bytes file) in
    let paths :=
      Deps.generatePaths D (Deps.generateImageId D)
        (info_orientation imageInfo) (info_format imageInfo) in
    let w1 := with_log (log w ++ [GetImageInfo (FormData.file_bytes file)]) w in
    upload_variants B env file imageInfo paths
      (Deps.getContentType D (info_format imageInfo))
      (CompressionForm.parseCompressionOptions formData) w1 = (w2, Ok variantSizes) ∧
    log w' = log w2 ++ [D1 stmts] ++ tail ∧
    Forall (fun e => ∃ helper, e = Invalidate helper) tail ∧
    bucket w' = bucket w2 ∧
    ∃ result,
      data = UploadPayload result ∧
      ur_sizes result = {| s_original := FormData.file_size file;
                           s_webp := fst variantSizes; s_avif := snd variantSizes |} ∧
      ImageTransform.u_webp (ur_urls result)
      = (if String.eqb (info_format imageInfo) "gif" then ""
         else R2_PUBLIC_URL env +:+ "/" +:+ p_webp paths) ∧
      ImageTransform.u_avif (ur_urls result)
      = (if String.eqb (info_format imageInfo) "gif" then ""
         else R2_PUBLIC_URL env +:+ "/" +:+ p_avif paths).
Proof.
  unfold uploadSingleHandler, catch. intros Hrun.
  destruct (FormData.get "image" formData) as [[text|file]|] eqn:Hfile;
    [discriminate| |discriminate].
  unfold Runtime.bind at 1 in Hrun. unfold getImageInfo in Hrun.
  rewrite call_run in Hrun. cbn [fst snd] in Hrun.
  destruct (rejects B _); [discriminate|].
  set (imageInfo := decode B (FormData.file_bytes file)) in *.
  destruct (negb (Deps.isSupportedFormat D (info_format imageInfo))); [discriminate|].
  set (paths := Deps.generatePaths D (Deps.generateImageId D)
                  (info_orientation imageInfo) (info_format imageInfo)) in *.
  set (w1 := with_log (log w ++ [GetImageInfo (FormData.file_bytes file)]) w) in *.
  unfold Runtime.bind at 1 in Hrun.
  destruct (upload_variants B env file imageInfo paths _ _ w1)
    as [w2 [variantSizes|e]] eqn:Hup; [|discriminate].
  unfold Runtime.bind at 1 in Hrun. unfold saveImage in Hrun.
  destruct (d1_batch B _ w2) as [w3 [[]|e]] eqn:Hsave; [|discriminate].
  apply d1_batch_outcome in Hsave. destruct Hsave as (Hlog3 & _ & Hb3 & _).
  unfold Runtime.bind at 1 in Hrun.
  destruct (invalidation_calls w3) as (tail & Hinv & Htail).
  unfold waitUntil in Hrun, Hinv. cbn [fst snd] in Hrun, Hinv.
  rewrite Hinv in Hrun. unfold ret in Hrun. injection Hrun as <- <-.
  exists file, variantSizes, w2. eexists _, tail.
  split; [reflexivity|]. cbv zeta. split; [exact Hup|].
  split; [cbn [log with_log]; rewrite Hlog3, <- app_assoc; reflexivity|].
  split; [exact Htail|]. split; [exact Hb3|].
  eexists. split; [reflexivity|]. cbn [ur_sizes ur_urls sizes].
  split; [reflexivity|]. split; reflexivity.
Qed.

(** X18. A GIF is stored as it is: a successful upload of a GIF makes
    no call to the transform service and stores exactly one object, the
    original bytes under the original key; the answer gives empty WebP
    and AVIF URLs and sizes of zero for both variants. *)
Theorem gif_upload_stores_original_only (formData : FormData.t) (w w' : World)
    (data : payload) :
  uploadSingleHandler B D env formData w = (w', Ok (successResponse data)) ->
  ∃ file stmts tail result,
    FormData.get "image" formData = Some (FormData.Blob file) ∧
    let imageInfo := decode B (FormData.file_bytes file) in
    let paths :=
      Deps.generatePaths D (Deps.generateImageId D)
        (info_orientation imageInfo) (info_format imageInfo) in
    (info_format imageInfo = "gif" ->
     emitted w w'
     = [GetImageInfo (FormData.file_bytes file);
        Put (p_original paths) (FormData.file_bytes file)
          (Deps.getContentType D (info_format imageInfo));
        D1 stmts] ++ tail ∧
     Forall (fun e => ∃ helper, e = Invalidate helper) tail ∧
     no_transform (emitted w w') ∧
     bucket w'
     = <[p_original paths :=
           (FormData.file_bytes file, Deps.getContentType D (info_format imageInfo))]>
         (bucket w) ∧
     data = UploadPayload result ∧
     ImageTransform.u_webp (ur_urls result) = "" ∧
     ImageTransform.u_avif (ur_urls result) = "" ∧
     s_webp (ur_sizes result) = 0 ∧ s_avif (ur_sizes result) = 0).
Proof.
  intros Hrun.
  destruct (upload_success_steps formData w w' data Hrun)
    as (file & variantSizes & w2 & stmts & tail & Hfile & Hup & Hlog & Htail & Hb
        & result & Hdata & Hsizes & Hwebp & Havif).
  cbv zeta in Hup, Hwebp, Havif.
  exists file, stmts, tail, result. split; [exact Hfile|]. cbv zeta. intros Hgif.
  unfold upload_variants in Hup. rewrite Hgif in Hup, Hwebp, Havif |- *.
  cbn [String.eqb Ascii.eqb Bool.eqb negb andb] in Hup, Hwebp, Havif.
  unfold Runtime.bind in Hup. rewrite UploadSpec.storage_upload_run in Hup.
  cbn [log with_log] in Hup.
  destruct (rejects B _); [discriminate|].
  unfold ret in Hup. injection Hup as <- <-.
  cbn [log with_log with_bucket bucket] in Hlog, Hb.
  assert (Hev : emitted w w'
                = [GetImageInfo (FormData.file_bytes file);
                   Put (p_original
                          (Deps.generatePaths D (Deps.generateImageId D)
                             (info_orientation (decode B (FormData.file_bytes file)))
                             "gif"))
                     (FormData.file_bytes file) (Deps.getContentType D "gif");
                   D1 stmts] ++ tail).
  { unfold emitted. rewrite Hlog. rewrite <- !app_assoc. apply drop_app_length. }
  split; [exact Hev|]. split; [exact Htail|]. split.
  { rewrite Hev. intros input format quality tw th Hin.
    apply elem_of_app in Hin. destruct Hin as [Hin|Hin].
    - repeat (apply elem_of_cons in Hin; destruct Hin as [Hin|Hin]; [discriminate|]).
      inversion Hin.
    - rewrite Forall_forall in Htail. destruct (Htail _ Hin) as [helper Hh].
      discriminate. }
  split; [exact Hb|]. split; [exact Hdata|].
  split; [exact Hwebp|]. split; [exact Havif|].
  rewrite Hsizes. split; reflexivity.
Qed.

(** X19. Without the [IMAGES] binding nothing is compressed: a
    successful upload of an image that is not a GIF makes no call to the
    transform service and stores the original bytes three times, under
    the original, the WebP and the AVIF key, with the original's content
    type; both variant sizes in the answer are the file's size. *)
Theorem upload_without_images_binding (formData : FormData.t) (w w' : World)
    (data : payload) :
  IMAGES env = false ->
  uploadSingleHandler B D env formData w = (w', Ok (successResponse data)) ->
  ∃ file stmts tail result,
    FormData.get "image" formData = Some (FormData.Blob file) ∧
    let imageInfo := decode B (FormData.file_bytes file) in
    let paths :=
      Deps.generatePaths D (Deps.generateImageId D)
        (info_orientation imageInfo) (info_format imageInfo) in
    let contentType := Deps.getContentType D (info_format imageInfo) in
    (info_format imageInfo ≠ "gif" ->
     emitted w w'
     = [GetImageInfo (FormData.file_bytes file);
        Put (p_original paths) (FormData.file_bytes file) contentType;
        Put (p_webp paths) (FormData.file_bytes file) contentType;
        Put (p_avif paths) (FormData.file_bytes file) contentType;
        D1 stmts] ++ tail ∧
     Forall (fun e => ∃ helper, e = Invalidate helper) tail ∧
     no_transform (emitted w w') ∧
     data = UploadPayload result ∧
     s_webp (ur_sizes result) = FormData.file_size file ∧
     s_avif (ur_sizes result) = FormData.file_size file).
Proof.
  intros Himages Hrun.
  destruct (upload_success_steps formData w w' data Hrun)
    as (file & variantSizes & w2 & stmts & tail & Hfile & Hup & Hlog & Htail & Hb
        & result & Hdata & Hsizes & _).
  cbv zeta in Hup.
  exists file, stmts, tail, result. split; [exact Hfile|]. cbv zeta. intros Hgif.
  unfold upload_variants in Hup. apply String.eqb_neq in Hgif.
  rewrite Hgif, Himages in Hup. cbn [negb andb] in Hup.
  unfold Runtime.bind at 1 in Hup. rewrite UploadSpec.storage_upload_run in Hup.
  destruct (rejects B _); [discriminate|]. cbn beta iota in Hup.
  unfold Runtime.bind at 1 in Hup. rewrite UploadSpec.storage_upload_run in Hup.
  cbn [log with_log with_bucket] in Hup.
  destruct (rejects B _); [discriminate|]. cbn beta iota in Hup.
  unfold Runtime.bind at 1 in Hup. rewrite UploadSpec.storage_upload_run in Hup.
  cbn [log with_log with_bucket] in Hup.
  destruct (rejects B _); [discriminate|]. cbn beta iota in Hup.
  unfold ret in Hup. injection Hup as <- <-.
  cbn [log with_log with_bucket] in Hlog.
  match goal with
  | |- emitted w w' = ?l ∧ _ => assert (Hev : emitted w w' = l)
  end.
  { unfold emitted. rewrite Hlog. rewrite <- !app_assoc. apply drop_app_length. }
  split; [exact Hev|]. split; [exact Htail|]. split.
  { rewrite Hev. intros input format quality tw th Hin.
    apply elem_of_app in Hin. destruct Hin as [Hin|Hin].
    - repeat (apply elem_of_cons in Hin; destruct Hin as [Hin|Hin]; [discriminate|]).
      inversion Hin.
    - rewrite Forall_forall in Htail. destruct (Htail _ Hin) as [helper Hh].
      discriminate. }
  split; [exact Hdata|]. rewrite Hsizes. split; reflexivity.
Qed.

End Upload.

Lemma upload_refused_before_storing_witness :
  uploadSingleHandler Scenario.calm Scenario.deps Scenario.env
    [("tags", FormData.Text "cat")] (Scenario.world Scenario.empty_db)
  = (Scenario.world Scenario.empty_db, Ok (errorResponse "No file provided" None)) ∧
  uploadSingleHandler (Scenario.decoding "bmp") Scenario.deps Scenario.env
    Scenario.upload_form (Scenario.world Scenario.empty_db)
  = (with_log [GetImageInfo (FormData.file_bytes Scenario.jpeg_file)]
       (Scenario.world Scenario.empty_db),
     Ok (errorResponse "Unsupported format: bmp" None)).
Proof.
  split.
  - apply (proj1 (upload_refused_before_storing Scenario.calm Scenario.deps Scenario.env
                    [("tags", FormData.Text "cat")] (Scenario.world Scenario.empty_db))).
    intros file. discriminate.
  - exact (proj2 (upload_refused_before_storing (Scenario.decoding "bmp") Scenario.deps
                    Scenario.env Scenario.upload_form (Scenario.world Scenario.empty_db))
             Scenario.jpeg_file eq_refl eq_refl eq_refl).
Defined.

Lemma gif_upload_stores_original_only_witness :
  ∃ w' data,
    uploadSingleHandler (Scenario.decoding "gif") Scenario.deps Scenario.env
      Scenario.upload_form (Scenario.world Scenario.empty_db)
    = (w', Ok (successResponse data)) ∧
    no_transform (emitted (Scenario.world Scenario.empty_db) w') ∧
    bucket w'
    = <["original/portrait/img1.gif" :=
          (FormData.file_bytes Scenario.jpeg_file, "image/gif")]> ∅.
Proof.
  pose (r := uploadSingleHandler (Scenario.decoding "gif") Scenario.deps Scenario.env
               Scenario.upload_form (Scenario.world Scenario.empty_db)).
  assert (Hdata : ∃ data, snd r = Ok (successResponse data))
    by (vm_compute; eexists; reflexivity).
  destruct Hdata as [data Hdata].
  assert (Hrun : r = (fst r, Ok (successResponse data)))
    by (rewrite <- Hdata; apply surjective_pairing).
  destruct (gif_upload_stores_original_only (Scenario.decoding "gif") Scenario.deps
              Scenario.env Scenario.upload_form (Scenario.world Scenario.empty_db)
              (fst r) data Hrun)
    as (file & stmts & tail & result & Hfile & Hgif).
  injection Hfile as <-.
  destruct (Hgif eq_refl) as (_ & _ & Hno & Hbucket & _).
  exists (fst r), data. split; [exact Hrun|]. split; [exact Hno|exact Hbucket].
Defined.

Lemma upload_without_images_binding_witness :
  ∃ w' data,
    uploadSingleHandler Scenario.calm Scenario.deps Scenario.env_without_images
      Scenario.upload_form (Scenario.world Scenario.empty_db)
    = (w', Ok (successResponse data)) ∧
    no_transform (emitted (Scenario.world Scenario.empty_db) w').
Proof.
  pose (r := uploadSingleHandler Scenario.calm Scenario.deps Scenario.env_without_images
               Scenario.upload_form (Scenario.world Scenario.empty_db)).
  assert (Hdata : ∃ data, snd r = Ok (successResponse data))
    by (vm_compute; eexists; reflexivity).
  destruct Hdata as [data Hdata].
  assert (Hrun : r = (fst r, Ok (successResponse data)))
    by (rewrite <- Hdata; apply surjective_pairing).
  destruct (upload_without_images_binding Scenario.calm Scenario.deps
              Scenario.env_without_images Scenario.upload_form
              (Scenario.world Scenario.empty_db) (fst r) data eq_refl Hrun)
    as (file & stmts & tail & result & Hfile & Hplain).
  injection Hfile as <-.
  assert (Hne : info_format (decode Scenario.calm (FormData.file_bytes Scenario.jpeg_file))
                ≠ "gif") by discriminate.
  destruct (Hplain Hne) as (_ & _ & Hno & _).
  exists (fst r), data. split; [exact Hrun|exact Hno].
Defined.

End UploadProps.

(** ** Tag deletion: the jobs and the rows *)

Module DeleteTagProps.
Import Types Runtime Spec Metadata Handlers RuntimeFacts MetadataFacts.

Section Handler.
Context (B : Bindings) (D : Deps.t).

(** The jobs a completed submission loop has queued. *)
Lemma send_loop_queue (name : string) (all : list ImagePathEntry) :
  ∀ fuel i w w',
    for_loop fuel i (length all) 50
      (fun i _ => queue_send B (delete_job name (JS.slice i (i + 50) all))) tt w
    = (w', Ok tt) ->
    queue w' = queue w ++ map (delete_job name) (chunks fuel 50 (drop i all)) ∧
    db w' = db w ∧ bucket w' = bucket w.
Proof.
  induction fuel as [|fuel IH]; intros i w w'.
  - cbn [for_loop chunks map]. unfold ret. intros Heq. injection Heq as <-.
    rewrite app_nil_r. auto.
  - cbn [for_loop chunks].
    destruct (i <? length all)%nat eqn:Hi.
    + apply Nat.ltb_lt in Hi.
      destruct (drop i all) as [|x rest] eqn:Hdrop.
      { apply (f_equal length) in Hdrop. rewrite length_drop in Hdrop.
        simpl in Hdrop. lia. }
      rewrite <- Hdrop.
      assert (Hslice : JS.slice i (i + 50) all = take 50 (drop i all)).
      { unfold JS.slice. f_equal. lia. }
      rewrite Hslice, drop_drop. cbn [map].
      unfold Runtime.bind, queue_send at 1. rewrite call_run.
      destruct (rejects B _); [discriminate|]. cbn [fst snd].
      intros Hrun. apply IH in Hrun. destruct Hrun as (Hq & Hd & Hb).
      cbn [queue db bucket with_queue with_log] in Hq, Hd, Hb.
      rewrite Hq, <- app_assoc. auto.
    + apply Nat.ltb_ge in Hi. rewrite drop_ge by exact Hi.
      unfold ret. intros Heq. injection Heq as <-. cbn [map]. rewrite app_nil_r. auto.
Qed.

(** What a successful tag deletion went through. *)
Lemma deleteTagHandler_success (param_name : string) (w w' : World) (data : payload) :
  deleteTagHandler B D param_name w = (w', Ok (successResponse data)) ->
  ∃ name,
    Deps.decodeURIComponent D param_name = Some name ∧
    let entries := map job_entry (image_paths_by_tag (db w) name) in
    let deleted := delete_images (image_ids_tagged (db w) [name]) (db w) in
    db w' = delete_tag name (fst deleted) ∧
    queue w' = queue w ++ map (delete_job name) (chunks (length entries) 50 entries) ∧
    bucket w' = bucket w ∧
    data = DeleteTagPayload "标签及关联图片已删除" (snd deleted).
Proof.
  unfold deleteTagHandler, catch. intros Hrun.
  destruct (Deps.decodeURIComponent D param_name) as [name|]; [|discriminate].
  exists name. split; [reflexivity|]. cbv zeta.
  unfold lift in Hrun. unfold Runtime.bind at 1 in Hrun. unfold ret at 1 in Hrun.
  unfold Runtime.bind at 1 in Hrun. unfold getImagePathsByTag in Hrun.
  rewrite DeleteTagSpec.d1_read_run in Hrun.
  destruct (rejects B _); [discriminate|]. cbn [db with_log] in Hrun.
  set (entries := map job_entry (image_paths_by_tag (db w) name)) in *.
  unfold Runtime.bind at 1 in Hrun. unfold deleteTagWithImages in Hrun.
  unfold Runtime.bind at 1 in Hrun. rewrite DeleteTagSpec.d1_run_run in Hrun.
  destruct (rejects B _); [discriminate|].
  unfold Runtime.bind at 1 in Hrun. rewrite DeleteTagSpec.d1_run_run in Hrun.
  destruct (rejects B _); [discriminate|].
  unfold ret at 1 in Hrun.
  unfold Runtime.bind at 1 in Hrun. unfold invalidateAfterTagChange in Hrun.
  rewrite call_run in Hrun.
  destruct (rejects B _); [discriminate|]. cbn [fst snd] in Hrun.
  unfold Runtime.bind at 1 in Hrun.
  match type of Hrun with
  | context [(if (0 <? length entries)%nat then ?loop else ret tt) ?w0] =>
      set (w4 := w0) in *;
      destruct ((if (0 <? length entries)%nat then loop else ret tt) w4)
        as [w5 [[]|e]] eqn:Hloop; [|discriminate]
  end.
  unfold ret in Hrun. injection Hrun as <- <-.
  assert (Hq : queue w5 = queue w4
                          ++ map (delete_job name) (chunks (length entries) 50 entries)
               ∧ db w5 = db w4 ∧ bucket w5 = bucket w4).
  { destruct (0 <? length entries)%nat eqn:Hlen.
    - apply send_loop_queue in Hloop. exact Hloop.
    - apply Nat.ltb_ge in Hlen. destruct entries; [|simpl in Hlen; lia].
      unfold ret in Hloop. injection Hloop as <-. cbn [length chunks map].
      rewrite app_nil_r. auto. }
  destruct Hq as (Hq & Hd & Hb). rewrite Hq, Hd, Hb. unfold w4.
  cbn [db queue bucket with_db with_log fst snd]. auto.
Qed.

Lemma elem_of_image_paths_by_tag (d : DB) (name : string)
    (p : string * (string * option string * option string)) :
  p ∈ image_paths_by_tag d name <->
  ∃ i, i ∈ t_images d ∧ tagged d (row_id i) name ∧
       p = (row_id i, (path_original i, path_webp i, path_avif i)).
Proof.
  unfold image_paths_by_tag. rewrite elem_of_remove_dups.
  change (map ?f ?l) with (f <$> l). rewrite list_elem_of_fmap. split.
  - intros ([i t] & -> & Hr). apply list_elem_of_filter in Hr.
    destruct Hr as [Hname Hr]. cbn [fst snd] in *.
    pose proof (joined_row_tagged d (i, t) Hr) as [Hi Ht]. cbn [fst snd] in Hi, Ht.
    exists i. split; [exact Hi|]. split; [rewrite <- Hname; exact Ht|reflexivity].
  - intros (i & Hi & (it & t & Hit & Ht & Hid & Htid & Hname) & ->).
    exists (i, t). split; [reflexivity|].
    apply list_elem_of_filter. split; [exact Hname|].
    apply elem_of_images_join_tags. split; [exact Hi|]. split; [exact Ht|].
    exists it. auto.
Qed.

(** X20. The queued deletion jobs of a successful tag deletion name
    exactly the images whose rows were deleted: every entry of a job is
    the id and the three stored paths of an image that carried the tag;
    an image of the database stays if and only if no job entry carries
    its id; the jobs are appended to the queue, bear the tag's name, and
    the handler itself deletes no stored object. *)
Theorem delete_tag_jobs_cover (param_name : string) (w w' : World) (data : payload) :
  deleteTagHandler B D param_name w = (w', Ok (successResponse data)) ->
  ∃ name jobs,
    Deps.decodeURIComponent D param_name = Some name ∧
    queue w' = queue w ++ jobs ∧
    Forall (fun job => tagName job = name ∧ job_type job = "delete_tag_images") jobs ∧
    (∀ job entry, job ∈ jobs -> entry ∈ imagePaths job ->
       ∃ i, i ∈ t_images (db w) ∧ tagged (db w) (row_id i) name ∧
            entry = job_entry (row_id i, (path_original i, path_webp i, path_avif i))) ∧
    (∀ i, i ∈ t_images (db w) ->
       (i ∈ t_images (db w') <->
        ¬ ∃ job entry, job ∈ jobs ∧ entry ∈ imagePaths job ∧ e_id entry = row_id i)) ∧
    bucket w' = bucket w.
Proof.
  intros Hrun.
  destruct (deleteTagHandler_success param_name w w' data Hrun)
    as (name & Hname & Hdb & Hqueue & Hbucket & _).
  cbv zeta in Hdb, Hqueue.
  set (entries := map job_entry (image_paths_by_tag (db w) name)) in *.
  set (jobs := map (delete_job name) (chunks (length entries) 50 entries)) in *.
  exists name, jobs. split; [exact Hname|]. split; [exact Hqueue|].
  assert (Hentries : ∀ entry,
            (∃ job, job ∈ jobs ∧ entry ∈ imagePaths job) <-> entry ∈ entries).
  { intros entry.
    rewrite <- (DeleteTagSpec.chunks_concat 50 ltac:(lia) (length entries) entries
                  ltac:(lia)).
    rewrite (list_elem_of_In (concat _) entry), in_concat. unfold jobs.
    change (map ?f ?l) with (f <$> l). split.
    - intros (job & Hjob & Hin). apply list_elem_of_fmap in Hjob.
      destruct Hjob as (c & -> & Hc). exists c.
      split; apply list_elem_of_In; [exact Hc|exact Hin].
    - intros (c & Hc & Hin). apply list_elem_of_In in Hc, Hin.
      exists (delete_job name c).
      split; [apply list_elem_of_fmap; exists c; auto|exact Hin]. }
  assert (Hentry : ∀ entry, entry ∈ entries <->
            ∃ i, i ∈ t_images (db w) ∧ tagged (db w) (row_id i) name ∧
                 entry = job_entry
                           (row_id i, (path_original i, path_webp i, path_avif i))).
  { intros entry. unfold entries. change (map ?f ?l) with (f <$> l).
    rewrite list_elem_of_fmap. split.
    - intros (p & -> & Hp). apply elem_of_image_paths_by_tag in Hp.
      destruct Hp as (i & Hi & Ht & ->). exists i. auto.
    - intros (i & Hi & Ht & ->). eexists. split; [reflexivity|].
      apply elem_of_image_paths_by_tag. exists i. auto. }
  split; [|split; [|split; [|exact Hbucket]]].
  - unfold jobs. change (map ?f ?l) with (f <$> l). apply Forall_fmap.
    apply Forall_forall. intros c _. split; reflexivity.
  - intros job entry Hjob Hin. apply Hentry, Hentries. exists job. auto.
  - intros i Hi. rewrite Hdb. unfold delete_tag, delete_images. cbn [fst t_images].
    rewrite list_elem_of_filter. split.
    + intros [Hout _] (job & entry & Hjob & Hin & Hid).
      apply Hout. apply elem_of_image_ids_tagged. exists name. split; [left|].
      assert (He : entry ∈ entries) by (apply Hentries; exists job; auto).
      apply Hentry in He. destruct He as (i0 & _ & Ht & ->).
      cbn [job_entry e_id] in Hid. rewrite <- Hid. exact Ht.
    + intros Hnone. split; [|exact Hi].
      intros Hin. apply elem_of_image_ids_tagged in Hin.
      destruct Hin as (x & Hx & Ht). apply list_elem_of_singleton in Hx. subst x.
      apply Hnone.
      assert (He : job_entry (row_id i, (path_original i, path_webp i, path_avif i))
                   ∈ entries) by (apply Hentry; exists i; auto).
      apply Hentries in He. destruct He as (job & Hjob & Hin).
      exists job. eexists. split; [exact Hjob|]. split; [exact Hin|reflexivity].
Qed.

End Handler.

Lemma delete_tag_jobs_cover_witness :
  ∃ w' data,
    deleteTagHandler Scenario.calm Scenario.deps "dog" (Scenario.world Scenario.cats_db)
    = (w', Ok (successResponse data)) ∧
    map row_id (t_images (db w')) = ["b"; "c"] ∧
    map (fun job => map e_id (imagePaths job)) (queue w') = [["a"]] ∧
    bucket w' = ∅.
Proof.
  pose (r := deleteTagHandler Scenario.calm Scenario.deps "dog"
               (Scenario.world Scenario.cats_db)).
  assert (Hdata : ∃ data, snd r = Ok (successResponse data))
    by (vm_compute; eexists; reflexivity).
  destruct Hdata as [data Hdata].
  assert (Hrun : r = (fst r, Ok (successResponse data)))
    by (rewrite <- Hdata; apply surjective_pairing).
  destruct (delete_tag_jobs_cover Scenario.calm Scenario.deps "dog"
              (Scenario.world Scenario.cats_db) (fst r) data Hrun)
    as (name & jobs & _ & _ & _ & _ & _ & Hbucket).
  exists (fst r), data. split; [exact Hrun|].
  split; [reflexivity|]. split; [reflexivity|exact Hbucket].
Defined.

End DeleteTagProps.

(** ** Tags and associations under the keys of the schema *)

Module TagFacts.
Import Types Runtime Spec Metadata MetadataQueries RuntimeFacts MetadataFacts.

Lemma elem_of_map {X Y} (f : X -> Y) (l : list X) (y : Y) :
  y ∈ map f l <-> ∃ x, y = f x ∧ x ∈ l.
Proof. change (map f l) with (f <$> l). apply list_elem_of_fmap. Qed.

Lemma NoDup_map_inj {X Y} (f : X -> Y) (l : list X) (x y : X) :
  NoDup (map f l) -> x ∈ l -> y ∈ l -> f x = f y -> x = y.
Proof.
  induction l as [|a l IH]; intros Hnd Hx Hy Heq; [inversion Hx|].
  cbn [map] in Hnd. apply NoDup_cons in Hnd. destruct Hnd as [Hnotin Hnd].
  apply elem_of_cons in Hx, Hy.
  destruct Hx as [->|Hx], Hy as [->|Hy]; [reflexivity| | |auto].
  - exfalso. apply Hnotin. rewrite Heq. apply elem_of_map. eauto.
  - exfalso. apply Hnotin. rewrite <- Heq. apply elem_of_map. eauto.
Qed.

Lemma tag_id_below_next (d : DB) (t : TagRow) :
  t ∈ t_tags d -> tag_id t < next_tag_id d.
Proof.
  unfold next_tag_id. induction (t_tags d) as [|x l IH]; intros H; [inversion H|].
  cbn [map foldr]. apply elem_of_cons in H. destruct H as [->|H]; [lia|].
  specialize (IH H). lia.
Qed.

Lemma insert_or_ignore_tag_tables (name : string) (d : DB) :
  t_images (insert_or_ignore_tag name d) = t_images d ∧
  t_image_tags (insert_or_ignore_tag name d) = t_image_tags d ∧
  (∀ t, t ∈ t_tags d -> t ∈ t_tags (insert_or_ignore_tag name d)) ∧
  (∀ t, t ∈ t_tags (insert_or_ignore_tag name d) ->
        t ∈ t_tags d ∨ tag_id t = next_tag_id d) ∧
  name ∈ map tag_name (t_tags (insert_or_ignore_tag name d)).
Proof.
  unfold insert_or_ignore_tag. destruct (decide _) as [Hin|Hout].
  - repeat split; auto.
  - cbn [t_images t_tags t_image_tags]. repeat split.
    + intros t Ht. apply elem_of_app. left. exact Ht.
    + intros t Ht. apply elem_of_app in Ht. destruct Ht as [Ht|Ht]; [left; exact Ht|].
      apply list_elem_of_singleton in Ht. subst t. right. reflexivity.
    + rewrite map_app. apply elem_of_app. right. left.
Qed.

Lemma insert_or_ignore_tag_keys (name : string) (d : DB) :
  keys_hold d -> keys_hold (insert_or_ignore_tag name d).
Proof.
  intros (Hi & Hid & Hn & Hit). unfold insert_or_ignore_tag.
  destruct (decide _) as [Hin|Hout]; [repeat split; assumption|].
  unfold keys_hold. cbn [t_images t_tags t_image_tags]. rewrite !map_app.
  cbn [map tag_id tag_name].
  split; [exact Hi|]. split; [|split; [|exact Hit]].
  - apply NoDup_app. split; [exact Hid|]. split; [|apply NoDup_singleton].
    intros x Hx Hx'. apply list_elem_of_singleton in Hx'. subst x.
    apply elem_of_map in Hx. destruct Hx as (t & Heq & Ht).
    apply tag_id_below_next in Ht. lia.
  - apply NoDup_app. split; [exact Hn|]. split; [|apply NoDup_singleton].
    intros x Hx Hx'. apply list_elem_of_singleton in Hx'. subst x. exact (Hout Hx).
Qed.

Lemma insert_or_ignore_tag_references (name : string) (d : DB) :
  references_hold d -> references_hold (insert_or_ignore_tag name d).
Proof.
  intros Href it Hit.
  destruct (insert_or_ignore_tag_tables name d) as (Himg & Hits & Hsub & _).
  rewrite Hits in Hit. rewrite Himg. destruct (Href it Hit) as [H1 H2].
  split; [exact H1|]. apply elem_of_map in H2. destruct H2 as (t & Heq & Ht).
  apply elem_of_map. exists t. split; [exact Heq|apply Hsub, Ht].
Qed.

(** A new tag belongs to no image. *)
Lemma tagged_insert_or_ignore_tag (name : string) (d : DB) (i n : string) :
  references_hold d ->
  (tagged (insert_or_ignore_tag name d) i n <-> tagged d i n).
Proof.
  intros Href.
  destruct (insert_or_ignore_tag_tables name d) as (_ & Hits & Hsub & Hnew & _).
  unfold tagged. rewrite Hits. split.
  - intros (it & t & Hit & Ht & Hid & Htid & Hname).
    exists it, t. split; [exact Hit|]. split; [|auto].
    destruct (Hnew t Ht) as [Hold|Hfresh]; [exact Hold|].
    exfalso. destruct (Href it Hit) as [_ H2]. apply elem_of_map in H2.
    destruct H2 as (t0 & Heq & Ht0). apply tag_id_below_next in Ht0. lia.
  - intros (it & t & Hit & Ht & Hid & Htid & Hname). exists it, t. auto.
Qed.

Lemma elem_of_association_rows (image_id name : string) (d : DB) (row : ImageTagRow) :
  row ∈ association_rows image_id name d <->
  ∃ t, t ∈ t_tags d ∧ tag_name t = name ∧
       row = {| it_image_id := image_id; it_tag_id := tag_id t |}.
Proof.
  unfold association_rows. rewrite elem_of_map. split.
  - intros (t & -> & Ht). apply list_elem_of_filter in Ht. exists t. tauto.
  - intros (t & Ht & Hname & ->). exists t. split; [reflexivity|].
    apply list_elem_of_filter. auto.
Qed.

(** The association statement of [saveImage] for one tag. *)
Lemma insert_associations_step (image_id name : string) (d d' : DB) :
  keys_hold d -> references_hold d -> image_id ∈ map row_id (t_images d) ->
  name ∈ map tag_name (t_tags d) ->
  insert_associations (association_rows image_id name d) d = Some d' ->
  keys_hold d' ∧ references_hold d' ∧ t_images d' = t_images d ∧
  ¬ tagged d image_id name ∧
  ∀ i n, tagged d' i n <-> tagged d i n ∨ (i = image_id ∧ n = name).
Proof.
  intros (Hi & Hid & Hn & Hit) Href Himg Hname. unfold insert_associations.
  destruct (decide _) as [Hnd|]; [|discriminate]. intros Heq. injection Heq as <-.
  pose proof Hnd as Hnd'. apply NoDup_app in Hnd'. destruct Hnd' as (_ & Hdisj & _).
  split; [|split; [|split; [reflexivity|split]]].
  - unfold keys_hold. cbn [t_images t_tags t_image_tags]. auto.
  - intros it Hin. cbn [t_image_tags t_images t_tags] in *.
    apply elem_of_app in Hin. destruct Hin as [Hin|Hin]; [exact (Href it Hin)|].
    apply elem_of_association_rows in Hin. destruct Hin as (t & Ht & _ & ->).
    cbn [it_image_id it_tag_id]. split; [exact Himg|].
    apply elem_of_map. exists t. auto.
  - intros (it & t & Hin & Ht & Hiid & Htid & Htn).
    apply (Hdisj it Hin). apply elem_of_association_rows.
    exists t. split; [exact Ht|]. split; [exact Htn|].
    destruct it as [a b]. cbn [it_image_id it_tag_id] in *. congruence.
  - intros i n. unfold tagged at 1. cbn [t_image_tags t_tags]. split.
    + intros (it & t & Hin & Ht & Hiid & Htid & Htn).
      apply elem_of_app in Hin. destruct Hin as [Hin|Hin].
      * left. exists it, t. auto.
      * right. apply elem_of_association_rows in Hin.
        destruct Hin as (t0 & Ht0 & Hn0 & ->).
        cbn [it_image_id it_tag_id] in *. split; [symmetry; exact Hiid|].
        assert (Hsame : t0 = t)
          by (apply (NoDup_map_inj tag_id (t_tags d)); assumption).
        subst t0. congruence.
    + intros [(it & t & Hin & Ht & Hrest)|[-> ->]].
      * exists it, t. split; [apply elem_of_app; left; exact Hin|]. auto.
      * apply elem_of_map in Hname. destruct Hname as (t & Heq & Ht).
        exists {| it_image_id := image_id; it_tag_id := tag_id t |}, t.
        split; [|cbn [it_image_id it_tag_id]; auto].
        apply elem_of_app. right. apply elem_of_association_rows. exists t. auto.
Qed.

(** The tag statements of [saveImage]: they succeed only on distinct
    tags the image does not have yet, and then add exactly these. *)
Lemma tag_steps_effect (image_id : string) (names : list string) :
  ∀ d d',
    run_batch
      (map snd
         (tag ← names;
          [({| sql := "INSERT OR IGNORE INTO tags (name) VALUES (?)";
               binds := [VText tag] |},
            fun d : DB => Some (insert_or_ignore_tag tag d));
           ({| sql := "INSERT INTO image_tags (image_id, tag_id) SELECT ?, id FROM tags WHERE name = ?";
               binds := [VText image_id; VText tag] |},
            fun d : DB => insert_associations (association_rows image_id tag d) d)]))
      d = Some d' ->
    keys_hold d -> references_hold d -> image_id ∈ map row_id (t_images d) ->
    keys_hold d' ∧ references_hold d' ∧ t_images d' = t_images d ∧
    NoDup names ∧ (∀ n, n ∈ names -> ¬ tagged d image_id n) ∧
    ∀ i n, tagged d' i n <-> tagged d i n ∨ (i = image_id ∧ n ∈ names).
Proof.
  induction names as [|tag names IH]; intros d d' H Hk Hr Himg.
  - simpl in H. injection H as <-.
    split; [exact Hk|]. split; [exact Hr|]. split; [reflexivity|].
    split; [constructor|]. split; [intros n Hn; inversion Hn|].
    intros i n. split; [auto|]. intros [Ht|[_ Hn]]; [exact Ht|inversion Hn].
  - cbn [mbind list_bind app map snd run_batch] in H.
    destruct (insert_associations _ (insert_or_ignore_tag tag d)) as [d1|] eqn:Hassoc;
      [|discriminate].
    destruct (insert_or_ignore_tag_tables tag d) as (Himg0 & _ & _ & _ & Hnamed).
    destruct (insert_associations_step image_id tag (insert_or_ignore_tag tag d) d1)
      as (Hk1 & Hr1 & Himg1 & Hnot & Htag1);
      [apply insert_or_ignore_tag_keys, Hk
      |apply insert_or_ignore_tag_references, Hr
      |rewrite Himg0; exact Himg
      |exact Hnamed
      |exact Hassoc|].
    destruct (IH d1 d' H Hk1 Hr1) as (Hk' & Hr' & Himg' & Hnd & Hfresh & Htag');
      [rewrite Himg1, Himg0; exact Himg|].
    assert (H0 : ∀ i n, tagged (insert_or_ignore_tag tag d) i n <-> tagged d i n)
      by (intros; apply tagged_insert_or_ignore_tag, Hr).
    split; [exact Hk'|]. split; [exact Hr'|]. split; [congruence|].
    split; [|split].
    + constructor; [|exact Hnd]. intros Hin. apply (Hfresh tag Hin).
      apply Htag1. right. auto.
    + intros n Hn Ht. apply elem_of_cons in Hn. destruct Hn as [->|Hn].
      * apply Hnot. apply H0. exact Ht.
      * apply (Hfresh n Hn). apply Htag1. left. apply H0. exact Ht.
    + intros i n. rewrite Htag', Htag1, H0, elem_of_cons. tauto.
Qed.

(** The tag names [getImage] reads are the tags of the image, each once. *)
Lemma elem_of_tag_names_of_image (d : DB) (i n : string) :
  n ∈ tag_names_of_image d i <-> tagged d i n.
Proof.
  unfold tag_names_of_image, tagged. rewrite list_elem_of_bind. split.
  - intros (t & Hin & Ht). apply list_elem_of_bind in Hin.
    destruct Hin as (it & Hin & Hit). apply list_elem_of_filter in Hit.
    destruct Hit as [Htid Hit].
    destruct (decide (it_image_id it = i)) as [Hid|]; [|inversion Hin].
    apply list_elem_of_singleton in Hin. exists it, t. auto.
  - intros (it & t & Hit & Ht & Hid & Htid & Hname).
    exists t. split; [|exact Ht]. apply list_elem_of_bind.
    exists it. split; [|apply list_elem_of_filter; auto].
    rewrite decide_True by exact Hid. apply list_elem_of_singleton. auto.
Qed.

Lemma tag_names_of_image_NoDup (d : DB) (i : string) :
  keys_hold d -> NoDup (tag_names_of_image d i).
Proof.
  intros (_ & _ & Hn & Hit). unfold tag_names_of_image.
  assert (Hname : ∀ t (y : string),
            y ∈ (filter (fun it => tag_id t = it_tag_id it) (t_image_tags d)
                   ≫= (fun it => if decide (it_image_id it = i)
                                  then [tag_name t] else [])) ->
            y = tag_name t).
  { intros t y Hy. apply list_elem_of_bind in Hy. destruct Hy as (it & Hy & _).
    destruct (decide _); [|inversion Hy]. apply list_elem_of_singleton in Hy. exact Hy. }
  apply NoDup_bind; [| |].
  - intros t1 t2 y Ht1 Ht2 Hy1 Hy2. apply Hname in Hy1, Hy2.
    apply (NoDup_map_inj tag_name (t_tags d)); [exact Hn|exact Ht1|exact Ht2|congruence].
  - intros t Ht. apply NoDup_bind.
    + intros it1 it2 y Hit1 Hit2 Hy1 Hy2.
      apply list_elem_of_filter in Hit1, Hit2.
      destruct Hit1 as [Htid1 _], Hit2 as [Htid2 _].
      destruct (decide (it_image_id it1 = i)) as [Hid1|]; [|inversion Hy1].
      destruct (decide (it_image_id it2 = i)) as [Hid2|]; [|inversion Hy2].
      destruct it1, it2. cbn [it_image_id it_tag_id] in *. congruence.
    + intros it _. destruct (decide _); [apply NoDup_singleton|constructor].
    + apply NoDup_filter. exact Hit.
  - apply (NoDup_fmap_1 tag_name). exact Hn.
Qed.

Lemma filter_none {X} (P : X -> Prop) `{∀ x, Decision (P x)} (l : list X) :
  (∀ x, x ∈ l -> ¬ P x) -> filter P l = [].
Proof.
  induction l as [|a l IH]; intros Hall; [reflexivity|].
  rewrite filter_cons_False by (apply Hall; left).
  apply IH. intros x Hx. apply Hall. right. exact Hx.
Qed.

Lemma or_empty_or_absent (s : string) : JS.or_empty (JS.or_absent s) = s.
Proof. destruct s; reflexivity. Qed.

Lemma or_absent_twice (o : option string) :
  (o ≫= JS.or_absent) ≫= JS.or_absent = o ≫= JS.or_absent.
Proof. destruct o as [[|c s]|]; reflexivity. Qed.

(** Insertion of the rows that are not there yet. *)
Lemma elem_of_insert_or_ignore {X} `{EqDecision X} (rows : list X) :
  ∀ acc x,
    x ∈ foldl (fun acc r => if decide (r ∈ acc) then acc else (acc ++ [r])%list) acc rows
    <-> x ∈ acc ∨ x ∈ rows.
Proof.
  induction rows as [|r rows IH]; intros acc x; cbn [foldl].
  - split; [auto|]. intros [H|H]; [exact H|inversion H].
  - rewrite IH, elem_of_cons. destruct (decide (r ∈ acc)) as [Hin|Hout].
    + split; [tauto|]. intros [H|[->|H]]; auto.
    + rewrite elem_of_app, list_elem_of_singleton. tauto.
Qed.

Lemma NoDup_insert_or_ignore {X} `{EqDecision X} (rows : list X) :
  ∀ acc,
    NoDup acc ->
    NoDup (foldl (fun acc r => if decide (r ∈ acc) then acc else (acc ++ [r])%list)
                 acc rows).
Proof.
  induction rows as [|r rows IH]; intros acc Hnd; cbn [foldl]; [exact Hnd|].
  apply IH. destruct (decide (r ∈ acc)) as [Hin|Hout]; [exact Hnd|].
  apply NoDup_app. split; [exact Hnd|]. split; [|apply NoDup_singleton].
  intros x Hx Hx'. apply list_elem_of_singleton in Hx'. subst x. exact (Hout Hx).
Qed.

(** The keys and references of the schema hold in the example database. *)
Lemma keys_hold_cats : keys_hold Scenario.cats_db.
Proof.
  unfold keys_hold.
  repeat split; refine (bool_decide_unpack _ _); vm_compute; exact I.
Qed.

Lemma references_hold_cats : references_hold Scenario.cats_db.
Proof.
  unfold references_hold. apply Forall_forall.
  refine (bool_decide_unpack _ _). vm_compute. exact I.
Qed.

End TagFacts.

(** ** [saveImage] and [getImage] *)

Module SaveProps.
Import Types Runtime Spec Metadata MetadataQueries RuntimeFacts MetadataFacts TagFacts.

Section Save.
Context (B : Bindings).

(** What a successful [saveImage] did to the database. *)
Lemma saveImage_effect (metadata : ImageMetadata) (w w' : World) :
  keys_hold (db w) -> references_hold (db w) ->
  saveImage B metadata w = (w', Ok tt) ->
  (id metadata ∉ map row_id (t_images (db w))) ∧
  keys_hold (db w') ∧ references_hold (db w') ∧
  t_images (db w') = t_images (db w) ++ [metadata_row metadata] ∧
  NoDup (tags metadata) ∧
  (∀ i n, tagged (db w') i n <->
          tagged (db w) i n ∨ (i = id metadata ∧ n ∈ tags metadata)) ∧
  bucket w' = bucket w ∧ queue w' = queue w.
Proof.
  intros Hk Hr. unfold saveImage, d1_batch. rewrite call_run.
  destruct (rejects B _); [discriminate|]. cbn [fst snd].
  destruct (run_batch _ _) as [d'|] eqn:Hbatch; [|discriminate].
  intros H. injection H as <-. cbn [db with_db log with_log bucket queue].
  cbn [map snd run_batch] in Hbatch.
  unfold insert_image in Hbatch at 1.
  destruct (decide _) as [|Hnew]; [discriminate|].
  change (row_id (metadata_row metadata)) with (id metadata) in Hnew.
  split; [exact Hnew|].
  destruct Hk as (Hi & Hid & Hn & Hit).
  apply tag_steps_effect in Hbatch.
  - destruct Hbatch as (Hk' & Hr' & Himg' & Hnd & _ & Htag).
    split; [exact Hk'|]. split; [exact Hr'|]. split; [exact Himg'|].
    split; [exact Hnd|]. split; [exact Htag|]. split; reflexivity.
  - unfold keys_hold. cbn [t_images t_tags t_image_tags].
    split; [|auto]. rewrite map_app. apply NoDup_app.
    split; [exact Hi|]. split; [|apply NoDup_singleton].
    intros x Hx Hx'. apply list_elem_of_singleton in Hx'. subst x. exact (Hnew Hx).
  - intros it Hit'. cbn [t_images t_tags t_image_tags] in *.
    destruct (Hr it Hit') as [H1 H2]. split; [|exact H2].
    rewrite map_app. apply elem_of_app. left. exact H1.
  - cbn [t_images]. rewrite map_app. apply elem_of_app. right. left.
Qed.

(** X21. A successful [saveImage] adds one image with exactly the tags
    given: the id was not in use, the tags given are distinct, the row
    of the metadata is appended to the images, the new image has exactly
    the given tags, and every other image has the tags it had.  The keys
    and the references of the schema hold afterwards. *)
Theorem saveImage_adds_image (metadata : ImageMetadata) (w w' : World) :
  keys_hold (db w) -> references_hold (db w) ->
  saveImage B metadata w = (w', Ok tt) ->
  (id metadata ∉ map row_id (t_images (db w))) ∧ NoDup (tags metadata) ∧
  t_images (db w') = t_images (db w) ++ [metadata_row metadata] ∧
  (∀ n, tagged (db w') (id metadata) n <-> n ∈ tags metadata) ∧
  (∀ i n, i ≠ id metadata -> (tagged (db w') i n <-> tagged (db w) i n)) ∧
  keys_hold (db w') ∧ references_hold (db w').
Proof.
  intros Hk Hr Hrun.
  destruct (saveImage_effect metadata w w' Hk Hr Hrun)
    as (Hnew & Hk' & Hr' & Himg & Hnd & Htag & _).
  split; [exact Hnew|]. split; [exact Hnd|]. split; [exact Himg|].
  split; [|split; [|auto]].
  - intros n. rewrite Htag. split; [|auto].
    intros [(it & t & Hit & _ & Hid & _)|[_ Hn]]; [|exact Hn].
    exfalso. apply Hnew. rewrite <- Hid. apply (Hr it Hit).
  - intros i n Hne. rewrite Htag. tauto.
Qed.

(** X22. [saveImage] is all or nothing, and refuses an id in use and
    a repeated tag: when it rejects, the database, the bucket and the
    queue are as before; and it rejects whenever the id is already the
    id of a stored image or the tag list names a tag twice. *)
Theorem saveImage_all_or_nothing (metadata : ImageMetadata) (w : World) :
  keys_hold (db w) -> references_hold (db w) ->
  (∀ w' message,
     saveImage B metadata w = (w', Throw message) ->
     db w' = db w ∧ bucket w' = bucket w ∧ queue w' = queue w) ∧
  (id metadata ∈ map row_id (t_images (db w)) ∨ ¬ NoDup (tags metadata) ->
   ∃ message, snd (saveImage B metadata w) = Throw message).
Proof.
  intros Hk Hr. split.
  - intros w' message. unfold saveImage, d1_batch. rewrite call_run.
    destruct (rejects B _).
    + cbn [fst snd]. intros H. injection H as <- _. auto.
    + cbn [fst snd]. destruct (run_batch _ _); [discriminate|].
      intros H. injection H as <- _. auto.
  - intros Hbad.
    destruct (saveImage B metadata w) as [w' [[]|message]] eqn:Hrun;
      [|exists message; reflexivity].
    destruct (saveImage_effect metadata w w' Hk Hr Hrun) as (Hnew & _ & _ & _ & Hnd & _).
    destruct Hbad as [Hused|Hdup]; [destruct (Hnew Hused)|destruct (Hdup Hnd)].
Qed.

(** X23. What [saveImage] stored, [getImage] returns: while the
    database is as [saveImage] left it, [getImage] of the saved id
    finds the image with the same fields, the same paths and sizes and
    the same tags (in some order); an empty expiry time reads back as
    none.  It rejects only when its read is rejected. *)
Theorem saveImage_getImage (metadata : ImageMetadata) (w w1 w2 : World) :
  keys_hold (db w) -> references_hold (db w) ->
  saveImage B metadata w = (w1, Ok tt) ->
  db w2 = db w1 ->
  ∃ ev res,
    getImage B (id metadata) w2 = (with_log (log w2 ++ ev) w2, res) ∧
    match res with
    | Ok found =>
        ∃ stored_tags,
          stored_tags ≡ₚ tags metadata ∧
          found = Some {| id := id metadata;
                          originalName := originalName metadata;
                          uploadTime := uploadTime metadata;
                          expiryTime := expiryTime metadata ≫= JS.or_absent;
                          orientation := orientation metadata;
                          tags := stored_tags;
                          format := format metadata;
                          width := width metadata;
                          height := height metadata;
                          paths := paths metadata;
                          sizes := sizes metadata |}
    | Throw message => rejects B (log w2 ++ ev) = Some message
    end.
Proof.
  intros Hk Hr Hrun Hdb.
  destruct (saveImage_effect metadata w w1 Hk Hr Hrun)
    as (Hnew & Hk' & Hr' & Himg & Hnd & Htag & _).
  unfold getImage, bind. rewrite call_run.
  set (e := D1 [select_image_statement (id metadata);
                select_tag_names_statement (id metadata)]).
  exists [e].
  destruct (rejects B (log w2 ++ [e])) as [message|] eqn:Hrej.
  { exists (Throw message). split; reflexivity. }
  cbn [fst snd db with_log]. rewrite Hdb.
  assert (Hrows : images_by_id (db w1) (id metadata) = [metadata_row metadata]).
  { unfold images_by_id. rewrite Himg, filter_app.
    rewrite filter_cons_True by reflexivity. rewrite filter_nil.
    rewrite filter_none; [reflexivity|].
    intros x Hx Hid. apply Hnew. rewrite <- Hid. apply elem_of_map. eauto. }
  rewrite Hrows. cbn [head]. unfold ret.
  eexists. split; [reflexivity|].
  exists (tag_names_of_image (db w1) (id metadata)). split.
  - apply NoDup_Permutation; [apply tag_names_of_image_NoDup, Hk'|exact Hnd|].
    intros n. rewrite elem_of_tag_names_of_image, Htag. split; [|auto].
    intros [(it & t & Hit & _ & Hid & _)|[_ Hn]]; [|exact Hn].
    exfalso. apply Hnew. rewrite <- Hid. apply (Hr it Hit).
  - unfold rowToMetadata, metadata_row.
    cbn [row_id original_name upload_time expiry_time row_orientation row_format
         row_width row_height path_original path_webp path_avif size_original
         size_webp size_avif].
    rewrite or_absent_twice, !or_empty_or_absent.
    destruct (paths metadata), (sizes metadata). reflexivity.
Qed.

End Save.

Lemma saveImage_adds_image_witness :
  ∃ w',
    saveImage Scenario.calm Scenario.new_image (Scenario.world Scenario.cats_db)
    = (w', Ok tt) ∧
    map row_id (t_images (db w')) = ["a"; "b"; "c"; "d"] ∧
    (tagged (db w') "d" "bird" <-> "bird" ∈ ["cat"; "bird"]).
Proof.
  eexists. split; [reflexivity|]. split; [reflexivity|].
  exact (proj1 (proj2 (proj2 (proj2
           (saveImage_adds_image Scenario.calm Scenario.new_image
              (Scenario.world Scenario.cats_db) _
              keys_hold_cats references_hold_cats eq_refl)))) "bird").
Defined.

Lemma saveImage_all_or_nothing_witness :
  ∃ message,
    snd (saveImage Scenario.calm Scenario.taken_image (Scenario.world Scenario.cats_db))
    = Throw message.
Proof.
  apply (proj2 (saveImage_all_or_nothing Scenario.calm Scenario.taken_image
                  (Scenario.world Scenario.cats_db)
                  keys_hold_cats references_hold_cats)).
  left. refine (bool_decide_unpack _ _). vm_compute. exact I.
Defined.

Lemma saveImage_getImage_witness :
  ∃ w1 w2 stored,
    saveImage Scenario.calm Scenario.new_image (Scenario.world Scenario.cats_db)
    = (w1, Ok tt) ∧
    getImage Scenario.calm "d" w1 = (w2, Ok (Some stored)) ∧
    tags stored ≡ₚ ["cat"; "bird"] ∧ paths stored = paths Scenario.new_image.
Proof.
  pose (w1 := fst (saveImage Scenario.calm Scenario.new_image
                     (Scenario.world Scenario.cats_db))).
  destruct (saveImage_getImage Scenario.calm Scenario.new_image
              (Scenario.world Scenario.cats_db) w1 w1
              keys_hold_cats references_hold_cats eq_refl eq_refl)
    as (ev & [found|message] & Hrun & Hres).
  - destruct Hres as (stored_tags & Hperm & ->).
    exists w1. eexists. eexists. split; [reflexivity|]. split; [exact Hrun|].
    split; [exact Hperm|reflexivity].
  - discriminate Hres.
Defined.

End SaveProps.

(** ** [batchUpdateTags]: the tags it leaves *)

Module BatchTagProps.
Import Types Runtime Spec Metadata MetadataQueries RuntimeFacts MetadataFacts TagFacts.

Lemma run_batch_total {X} (stmt : X -> Statement) (f : X -> DB -> DB) (l : list X) :
  ∀ d,
    run_batch (map snd (map (fun x => (stmt x, fun d => Some (f x d))) l)) d
    = Some (foldl (fun d x => f x d) d l).
Proof.
  induction l as [|x l IH]; intros d; [reflexivity|].
  cbn [map snd run_batch foldl]. apply IH.
Qed.

(** The tags [INSERT OR IGNORE INTO tags] creates belong to no image. *)
Lemma ensure_tags_effect (names : list string) :
  ∀ d,
    keys_hold d -> references_hold d ->
    let d' := foldl (fun d tag => insert_or_ignore_tag tag d) d names in
    keys_hold d' ∧ references_hold d' ∧ t_images d' = t_images d ∧
    (∀ n, n ∈ names ∨ n ∈ map tag_name (t_tags d) -> n ∈ map tag_name (t_tags d')) ∧
    ∀ i n, tagged d' i n <-> tagged d i n.
Proof.
  induction names as [|tag names IH]; intros d Hk Hr; cbn [foldl].
  - split; [exact Hk|]. split; [exact Hr|]. split; [reflexivity|].
    split; [|tauto]. intros n [Hn|Hn]; [inversion Hn|exact Hn].
  - destruct (insert_or_ignore_tag_tables tag d) as (Himg & _ & Hsub & _ & Hnamed).
    destruct (IH (insert_or_ignore_tag tag d)
                (insert_or_ignore_tag_keys tag d Hk)
                (insert_or_ignore_tag_references tag d Hr))
      as (Hk' & Hr' & Himg' & Hnames & Htag).
    split; [exact Hk'|]. split; [exact Hr'|]. split; [congruence|]. split.
    + intros n [Hn|Hn].
      * apply elem_of_cons in Hn. destruct Hn as [->|Hn]; apply Hnames; auto.
      * apply Hnames. right. apply elem_of_map in Hn. destruct Hn as (t & Heq & Ht).
        apply elem_of_map. exists t. auto.
    + intros i n. rewrite Htag. apply tagged_insert_or_ignore_tag, Hr.
Qed.

(** The [DELETE] of [batchUpdateTags] removes the named tags from the
    given images, and nothing else. *)
Lemma remove_effect (imageIds removeTags : list string) (d : DB) :
  keys_hold d -> references_hold d ->
  let gone := map tag_id (filter (fun t => tag_name t ∈ removeTags) (t_tags d)) in
  let d' := {| t_images := t_images d; t_tags := t_tags d;
               t_image_tags :=
                 filter (fun it => ¬ (it_image_id it ∈ imageIds ∧ it_tag_id it ∈ gone))
                        (t_image_tags d) |} in
  keys_hold d' ∧ references_hold d' ∧
  ∀ i n, tagged d' i n <-> tagged d i n ∧ ¬ (i ∈ imageIds ∧ n ∈ removeTags).
Proof.
  intros (Hi & Hid & Hn & Hit) Hr gone d'. split; [|split].
  - unfold keys_hold, d'. cbn [t_images t_tags t_image_tags].
    split; [exact Hi|]. split; [exact Hid|]. split; [exact Hn|].
    apply NoDup_filter, Hit.
  - intros it Hin. unfold d' in Hin. cbn [t_image_tags] in Hin.
    apply list_elem_of_filter in Hin. destruct Hin as [_ Hin]. exact (Hr it Hin).
  - intros i n. unfold tagged, d'. cbn [t_image_tags t_tags]. split.
    + intros (it & t & Hin & Ht & Hiid & Htid & Htn).
      apply list_elem_of_filter in Hin. destruct Hin as [Hkeep Hin].
      split; [exists it, t; auto|]. intros [Hi' Hn']. apply Hkeep.
      split; [rewrite Hiid; exact Hi'|].
      unfold gone. apply elem_of_map. exists t. split; [exact Htid|].
      apply list_elem_of_filter. split; [rewrite Htn; exact Hn'|exact Ht].
    + intros [(it & t & Hin & Ht & Hiid & Htid & Htn) Hnot].
      exists it, t. split; [|auto].
      apply list_elem_of_filter. split; [|exact Hin]. intros [Hi' Hg]. apply Hnot.
      split; [rewrite <- Hiid; exact Hi'|].
      unfold gone in Hg. apply elem_of_map in Hg. destruct Hg as (t' & Heq & Ht').
      apply list_elem_of_filter in Ht'. destruct Ht' as [Hname' Ht'].
      assert (Hsame : t' = t)
        by (apply (NoDup_map_inj tag_id (t_tags d));
            [exact Hid|exact Ht'|exact Ht|congruence]).
      subst t'. rewrite <- Htn. exact Hname'.
Qed.

(** The [INSERT] of [batchUpdateTags] for one tag. *)
Lemma add_tag_effect (imageIds : list string) (tag : string) (d : DB) :
  keys_hold d -> references_hold d ->
  (∀ i, i ∈ imageIds -> i ∈ map row_id (t_images d)) ->
  tag ∈ map tag_name (t_tags d) ->
  let d' := insert_or_ignore_associations
              (image_id ← imageIds; association_rows image_id tag d) d in
  keys_hold d' ∧ references_hold d' ∧ t_images d' = t_images d ∧
  t_tags d' = t_tags d ∧
  ∀ i n, tagged d' i n <-> tagged d i n ∨ (i ∈ imageIds ∧ n = tag).
Proof.
  intros (Hi & Hid & Hn & Hit) Hr Hids Htag d'.
  assert (Hrows : ∀ row,
            row ∈ (image_id ← imageIds; association_rows image_id tag d) <->
            ∃ i t, i ∈ imageIds ∧ t ∈ t_tags d ∧ tag_name t = tag ∧
                   row = {| it_image_id := i; it_tag_id := tag_id t |}).
  { intros row. rewrite list_elem_of_bind. split.
    - intros (i & Hrow & Hi'). apply elem_of_association_rows in Hrow.
      destruct Hrow as (t & Ht & Hname & Heq). exists i, t. auto.
    - intros (i & t & Hi' & Ht & Hname & Heq). exists i.
      split; [apply elem_of_association_rows; exists t; auto|exact Hi']. }
  split; [|split; [|split; [reflexivity|split; [reflexivity|]]]].
  - unfold keys_hold, d', insert_or_ignore_associations.
    cbn [t_images t_tags t_image_tags].
    split; [exact Hi|]. split; [exact Hid|]. split; [exact Hn|].
    apply NoDup_insert_or_ignore, Hit.
  - intros it Hin. unfold d', insert_or_ignore_associations in Hin |- *.
    cbn [t_images t_tags t_image_tags] in Hin |- *.
    apply elem_of_insert_or_ignore in Hin. destruct Hin as [Hin|Hin]; [exact (Hr it Hin)|].
    apply Hrows in Hin. destruct Hin as (i & t & Hi' & Ht & _ & ->).
    cbn [it_image_id it_tag_id]. split; [apply Hids, Hi'|].
    apply elem_of_map. exists t. auto.
  - intros i n. unfold tagged at 1. unfold d', insert_or_ignore_associations.
    cbn [t_image_tags t_tags]. split.
    + intros (it & t & Hin & Ht & Hiid & Htid & Htn).
      apply elem_of_insert_or_ignore in Hin. destruct Hin as [Hin|Hin].
      * left. exists it, t. auto.
      * right. apply Hrows in Hin. destruct Hin as (i0 & t0 & Hi0 & Ht0 & Hn0 & ->).
        cbn [it_image_id it_tag_id] in *.
        assert (Hsame : t0 = t)
          by (apply (NoDup_map_inj tag_id (t_tags d)); assumption).
        subst t0. rewrite <- Hiid. split; [exact Hi0|congruence].
    + intros [(it & t & Hin & Ht & Hrest)|[Hi' ->]].
      * exists it, t. split; [apply elem_of_insert_or_ignore; left; exact Hin|auto].
      * apply elem_of_map in Htag. destruct Htag as (t & Heq & Ht).
        exists {| it_image_id := i; it_tag_id := tag_id t |}, t.
        split; [|cbn [it_image_id it_tag_id]; auto].
        apply elem_of_insert_or_ignore. right. apply Hrows. exists i, t. auto.
Qed.

Lemma add_tags_effect (imageIds names : list string) :
  ∀ d,
    keys_hold d -> references_hold d ->
    (∀ i, i ∈ imageIds -> i ∈ map row_id (t_images d)) ->
    (∀ n, n ∈ names -> n ∈ map tag_name (t_tags d)) ->
    let d' := foldl (fun d tag =>
                       insert_or_ignore_associations
                         (image_id ← imageIds; association_rows image_id tag d) d)
                    d names in
    keys_hold d' ∧ references_hold d' ∧ t_images d' = t_images d ∧
    t_tags d' = t_tags d ∧
    ∀ i n, tagged d' i n <-> tagged d i n ∨ (i ∈ imageIds ∧ n ∈ names).
Proof.
  induction names as [|tag names IH]; intros d Hk Hr Hids Hnames; cbn [foldl].
  - split; [exact Hk|]. split; [exact Hr|]. split; [reflexivity|].
    split; [reflexivity|]. intros i n. split; [auto|].
    intros [Ht|[_ Hn]]; [exact Ht|inversion Hn].
  - destruct (add_tag_effect imageIds tag d Hk Hr Hids (Hnames tag ltac:(left)))
      as (Hk1 & Hr1 & Himg1 & Htags1 & Htag1).
    cbv zeta in Hk1, Hr1, Himg1, Htags1, Htag1.
    set (d1 := insert_or_ignore_associations _ d) in *.
    destruct (IH d1 Hk1 Hr1) as (Hk' & Hr' & Himg' & Htags' & Htag').
    + rewrite Himg1. exact Hids.
    + intros n Hn. rewrite Htags1. apply Hnames. right. exact Hn.
    + split; [exact Hk'|]. split; [exact Hr'|]. split; [congruence|].
      split; [congruence|]. intros i n. rewrite Htag', Htag1, elem_of_cons. tauto.
Qed.

Section Batch.
Context (B : Bindings).

Lemma d1_batch_total_run {X} (stmt : X -> Statement) (f : X -> DB -> DB) (l : list X)
    (w w' : World) :
  d1_batch B (map (fun x => (stmt x, fun d => Some (f x d))) l) w = (w', Ok tt) ->
  db w' = foldl (fun d x => f x d) (db w) l ∧
  bucket w' = bucket w ∧ queue w' = queue w.
Proof.
  unfold d1_batch. rewrite call_run. destruct (rejects B _); [discriminate|].
  cbn [fst snd]. rewrite run_batch_total. intros H. injection H as <-.
  cbn [db with_db with_log bucket queue]. auto.
Qed.

(** X24. The tags [batchUpdateTags] leaves: after a successful call
    on ids of stored images, each of these images has every tag of
    [addTags]; it has lost the tags of [removeTags] that are not added
    again; every other tag of these images and all tags of the other
    images are as before.  The images themselves are untouched, the
    number of ids is returned, and the keys and references of the
    schema still hold. *)
Theorem batchUpdateTags_effect (imageIds addTags removeTags : list string)
    (w w' : World) (n : nat) :
  keys_hold (db w) -> references_hold (db w) ->
  (∀ i, i ∈ imageIds -> i ∈ map row_id (t_images (db w))) ->
  batchUpdateTags B imageIds addTags removeTags w = (w', Ok n) ->
  n = length imageIds ∧
  t_images (db w') = t_images (db w) ∧
  (∀ i name,
     tagged (db w') i name <->
     (i ∈ imageIds ∧ name ∈ addTags) ∨
     (tagged (db w) i name ∧ ¬ (i ∈ imageIds ∧ name ∈ removeTags))) ∧
  keys_hold (db w') ∧ references_hold (db w') ∧
  bucket w' = bucket w ∧ queue w' = queue w.
Proof.
  intros Hk Hr Hids. unfold batchUpdateTags.
  destruct (length imageIds =? 0)%nat eqn:Hlen.
  { apply Nat.eqb_eq in Hlen. destruct imageIds; [|discriminate].
    unfold ret. intros H. injection H as <- <-.
    split; [reflexivity|]. split; [reflexivity|]. split; [|auto].
    intros i name. split.
    - intros Ht. right. split; [exact Ht|]. intros [Hin _]. inversion Hin.
    - intros [[Hin _]|[Ht _]]; [inversion Hin|exact Ht]. }
  (* the tags are created *)
  unfold bind at 1.
  match goal with
  | |- context [(if ?c then ?a else ?b) w] =>
      destruct ((if c then a else b) w) as [w1 [[]|e1]] eqn:H1; [|discriminate]
  end.
  assert (Hs1 : db w1 = foldl (fun d tag => insert_or_ignore_tag tag d) (db w) addTags ∧
                bucket w1 = bucket w ∧ queue w1 = queue w).
  { rewrite length_map in H1. destruct addTags as [|a l].
    - cbn in H1. unfold ret in H1. injection H1 as <-. auto.
    - cbn [length Nat.ltb Nat.leb] in H1. apply d1_batch_total_run in H1. exact H1. }
  destruct Hs1 as (Hdb1 & Hb1 & Hq1).
  destruct (ensure_tags_effect addTags (db w) Hk Hr)
    as (Hk1 & Hr1 & Himg1 & Hnames1 & Htag1).
  cbv zeta in Hk1, Hr1, Himg1, Hnames1, Htag1.
  rewrite <- Hdb1 in Hk1, Hr1, Himg1, Hnames1, Htag1.
  (* the associations with the tags to remove are deleted *)
  unfold bind at 1.
  match goal with
  | |- context [(if ?c then ?a else ?b) w1] =>
      destruct ((if c then a else b) w1) as [w2 [[]|e2]] eqn:H2; [|discriminate]
  end.
  assert (Hs2 : keys_hold (db w2) ∧ references_hold (db w2) ∧
                t_images (db w2) = t_images (db w1) ∧ t_tags (db w2) = t_tags (db w1) ∧
                (∀ i name, tagged (db w2) i name <->
                           tagged (db w1) i name ∧ ¬ (i ∈ imageIds ∧ name ∈ removeTags)) ∧
                bucket w2 = bucket w1 ∧ queue w2 = queue w1).
  { destruct removeTags as [|r l] eqn:Hrem.
    - cbn in H2. unfold ret in H2. injection H2 as <-.
      split; [exact Hk1|]. split; [exact Hr1|]. split; [reflexivity|].
      split; [reflexivity|]. split; [|auto].
      intros i name. split; [|tauto]. intros Ht. split; [exact Ht|].
      intros [_ Hin]. inversion Hin.
    - rewrite <- Hrem in *. assert (Hpos : (0 <? length removeTags)%nat = true)
        by (rewrite Hrem; reflexivity).
      rewrite Hpos in H2. rewrite DeleteTagSpec.d1_run_run in H2.
      destruct (rejects B _); [discriminate|]. injection H2 as <-.
      cbn [fst db with_db with_log bucket queue].
      destruct (remove_effect imageIds removeTags (db w1) Hk1 Hr1) as (Hk2 & Hr2 & Htag2).
      cbv zeta in Hk2, Hr2, Htag2.
      split; [exact Hk2|]. split; [exact Hr2|]. split; [reflexivity|].
      split; [reflexivity|]. split; [exact Htag2|auto]. }
  destruct Hs2 as (Hk2 & Hr2 & Himg2 & Htags2 & Htag2 & Hb2 & Hq2).
  (* the associations with the tags to add are inserted *)
  unfold bind at 1.
  match goal with
  | |- context [(if ?c then ?a else ?b) w2] =>
      destruct ((if c then a else b) w2) as [w3 [[]|e3]] eqn:H3; [|discriminate]
  end.
  assert (Hs3 : db w3 = foldl (fun d tag =>
                                 insert_or_ignore_associations
                                   (image_id ← imageIds; association_rows image_id tag d)
                                   d)
                              (db w2) addTags ∧
                bucket w3 = bucket w2 ∧ queue w3 = queue w2).
  { destruct addTags as [|a l] eqn:Hadd.
    - cbn in H3. unfold ret in H3. injection H3 as <-. auto.
    - rewrite <- Hadd in *. assert (Hpos : (0 <? length addTags)%nat = true)
        by (rewrite Hadd; reflexivity).
      rewrite Hpos in H3.
      apply (d1_batch_total_run (batch_add_statement imageIds)
               (fun tag d => insert_or_ignore_associations
                               (image_id ← imageIds; association_rows image_id tag d) d))
        in H3.
      exact H3. }
  destruct Hs3 as (Hdb3 & Hb3 & Hq3).
  destruct (add_tags_effect imageIds addTags (db w2) Hk2 Hr2)
    as (Hk3 & Hr3 & Himg3 & _ & Htag3).
  { intros i Hi. rewrite Himg2, Himg1. apply Hids, Hi. }
  { intros name Hname. rewrite Htags2. apply Hnames1. left. exact Hname. }
  cbv zeta in Hk3, Hr3, Himg3, Htag3.
  rewrite <- Hdb3 in Hk3, Hr3, Himg3, Htag3.
  unfold ret. intros H. injection H as <- <-.
  split; [reflexivity|]. split; [congruence|].
  split; [|split; [exact Hk3|split; [exact Hr3|split; congruence]]].
  intros i name. rewrite Htag3, Htag2, Htag1. tauto.
Qed.

End Batch.

Lemma batchUpdateTags_effect_witness :
  ∃ w',
    batchUpdateTags Scenario.calm ["a"; "b"] ["bird"] ["cat"; "bird"]
      (Scenario.world Scenario.cats_db)
    = (w', Ok 2%nat) ∧
    (tagged (db w') "a" "bird" <->
     ("a" ∈ ["a"; "b"] ∧ "bird" ∈ ["bird"]) ∨
     (tagged Scenario.cats_db "a" "bird" ∧
      ¬ ("a" ∈ ["a"; "b"] ∧ "bird" ∈ ["cat"; "bird"]))).
Proof.
  pose (r := batchUpdateTags Scenario.calm ["a"; "b"] ["bird"] ["cat"; "bird"]
               (Scenario.world Scenario.cats_db)).
  assert (Hrun : r = (fst r, Ok 2%nat)) by (vm_compute; reflexivity).
  exists (fst r). split; [exact Hrun|].
  refine (proj1 (proj2 (proj2
            (batchUpdateTags_effect Scenario.calm ["a"; "b"] ["bird"] ["cat"; "bird"]
               (Scenario.world Scenario.cats_db) (fst r) 2%nat
               keys_hold_cats references_hold_cats _ Hrun)))
            "a" "bird").
  intros i Hi. refine (bool_decide_unpack _ _).
  apply elem_of_cons in Hi. destruct Hi as [->|Hi]; [vm_compute; exact I|].
  apply list_elem_of_singleton in Hi. subst i. vm_compute. exact I.
Defined.

End BatchTagProps.

(** ** Looking images up *)

Module LookupProps.
Import Types Runtime Spec Metadata MetadataQueries RuntimeFacts MetadataFacts TagFacts.

Lemma elem_of_tags_for (d : DB) (i n : string) :
  n ∈ tags_for d i <-> tagged d i n.
Proof.
  unfold tags_for, tags_of_images, tagged. rewrite elem_of_map. split.
  - intros ([i' n'] & Heq & Hin). cbn [snd] in Heq. subst n'.
    apply list_elem_of_bind in Hin. destruct Hin as (it & Hin & Hit).
    apply list_elem_of_bind in Hin. destruct Hin as (t & Hin & Ht).
    apply list_elem_of_filter in Ht. destruct Ht as [Htid Ht].
    destruct (decide (it_image_id it ∈ [i])) as [Hid|]; [|inversion Hin].
    apply list_elem_of_singleton in Hid, Hin. injection Hin as _ ->.
    exists it, t. auto.
  - intros (it & t & Hit & Ht & Hid & Htid & Hname).
    exists (i, n). split; [reflexivity|]. apply list_elem_of_bind.
    exists it. split; [|exact Hit]. apply list_elem_of_bind.
    exists t. split; [|apply list_elem_of_filter; auto].
    rewrite decide_True by (apply list_elem_of_singleton; exact Hid).
    apply list_elem_of_singleton. congruence.
Qed.

Lemma elem_of_images_by_tag (d : DB) (name : string) (row : ImageRow) :
  row ∈ images_by_tag d name <-> row ∈ t_images d ∧ tagged d (row_id row) name.
Proof.
  unfold images_by_tag. rewrite elem_of_map. split.
  - intros ([i t] & -> & Hr). apply list_elem_of_filter in Hr.
    destruct Hr as [Hname Hr]. cbn [fst snd] in *.
    pose proof (joined_row_tagged d (i, t) Hr) as [Hi Ht]. cbn [fst snd] in Hi, Ht.
    split; [exact Hi|]. rewrite <- Hname. exact Ht.
  - intros (Hi & it & t & Hit & Ht & Hid & Htid & Hname).
    exists (row, t). split; [reflexivity|].
    apply list_elem_of_filter. split; [exact Hname|].
    apply elem_of_images_join_tags. split; [exact Hi|]. split; [exact Ht|].
    exists it. auto.
Qed.

(** Under the keys of the schema the join lists an image once per tag. *)
Lemma images_by_tag_NoDup (d : DB) (name : string) :
  keys_hold d -> NoDup (map row_id (images_by_tag d name)).
Proof.
  intros (Hi & Hid & Hn & Hit). unfold images_by_tag, images_join_tags.
  rewrite map_map. rewrite StoreReads.bind_filter_map.
  apply NoDup_bind.
  - intros i1 i2 y Hi1 Hi2 Hy1 Hy2.
    apply elem_of_map in Hy1, Hy2.
    destruct Hy1 as ([a1 t1] & -> & H1). destruct Hy2 as ([a2 t2] & Heq & H2).
    apply list_elem_of_filter in H1, H2. destruct H1 as [_ H1], H2 as [_ H2].
    apply list_elem_of_bind in H1, H2.
    destruct H1 as (it1 & H1 & _), H2 as (it2 & H2 & _).
    apply list_elem_of_bind in H1, H2.
    destruct H1 as (u1 & H1 & _), H2 as (u2 & H2 & _).
    apply list_elem_of_singleton in H1, H2. injection H1 as -> _. injection H2 as -> _.
    cbn [fst] in Heq.
    apply (NoDup_map_inj row_id (t_images d)); [exact Hi|exact Hi1|exact Hi2|exact Heq].
  - intros i _.
    change (map (fun x => row_id (fst x)) ?l) with ((fun x => row_id (fst x)) <$> l).
    apply NoDup_fmap_2_strong.
    + intros [a1 t1] [a2 t2] H1 H2 _.
      apply list_elem_of_filter in H1, H2.
      destruct H1 as [Hn1 H1], H2 as [Hn2 H2]. cbn [snd] in Hn1, Hn2.
      apply list_elem_of_bind in H1, H2.
      destruct H1 as (it1 & H1 & _), H2 as (it2 & H2 & _).
      apply list_elem_of_bind in H1, H2.
      destruct H1 as (u1 & H1 & Hu1), H2 as (u2 & H2 & Hu2).
      apply list_elem_of_singleton in H1, H2.
      injection H1 as -> ->. injection H2 as -> ->.
      apply list_elem_of_filter in Hu1, Hu2. destruct Hu1 as [_ Hu1], Hu2 as [_ Hu2].
      f_equal.
      apply (NoDup_map_inj tag_name (t_tags d)); [exact Hn|exact Hu1|exact Hu2|congruence].
    + apply NoDup_filter. apply NoDup_bind.
      * intros it1 it2 [a t] Hit1 Hit2 H1 H2.
        apply list_elem_of_filter in Hit1, Hit2.
        destruct Hit1 as [Hid1 _], Hit2 as [Hid2 _].
        apply list_elem_of_bind in H1, H2.
        destruct H1 as (u1 & H1 & Hu1), H2 as (u2 & H2 & Hu2).
        apply list_elem_of_singleton in H1, H2.
        injection H1 as _ ->. injection H2 as _ ->.
        apply list_elem_of_filter in Hu1, Hu2. destruct Hu1 as [Ht1 _], Hu2 as [Ht2 _].
        destruct it1, it2. cbn [it_image_id it_tag_id] in *. congruence.
      * intros it _. apply NoDup_bind.
        -- intros u1 u2 [a t] _ _ H1 H2.
           apply list_elem_of_singleton in H1, H2. congruence.
        -- intros u _. apply NoDup_singleton.
        -- apply NoDup_filter. apply (NoDup_fmap_1 tag_id). exact Hid.
      * apply NoDup_filter. exact Hit.
  - apply (NoDup_fmap_1 row_id). exact Hi.
Qed.

Section Lookup.
Context (B : Bindings).

(** X25. [getImage] by id: it answers [null] exactly for an id that
    is not stored; for a stored id it returns the metadata of a row
    with that id, with the tags of the image, each once.  It only
    reads, and rejects only when its read is rejected. *)
Theorem getImage_lookup (image_id : string) (w : World) :
  keys_hold (db w) ->
  ∃ ev res,
    getImage B image_id w = (with_log (log w ++ ev) w, res) ∧
    match res with
    | Ok None => image_id ∉ map row_id (t_images (db w))
    | Ok (Some found) =>
        ∃ row, row ∈ t_images (db w) ∧ row_id row = image_id ∧
               found = rowToMetadata row (tags found) ∧
               NoDup (tags found) ∧
               ∀ n, n ∈ tags found <-> tagged (db w) image_id n
    | Throw message => rejects B (log w ++ ev) = Some message
    end.
Proof.
  intros Hk. unfold getImage, bind. rewrite call_run.
  set (e := D1 [select_image_statement image_id; select_tag_names_statement image_id]).
  exists [e].
  destruct (rejects B (log w ++ [e])) as [message|] eqn:Hrej.
  { exists (Throw message). split; reflexivity. }
  cbn [fst snd db with_log].
  destruct (images_by_id (db w) image_id) as [|row rest] eqn:Hrows; cbn [head]; unfold ret.
  - exists (Ok None). split; [reflexivity|].
    intros Hin. apply elem_of_map in Hin. destruct Hin as (row & Hid & Hrow).
    assert (Hin : row ∈ images_by_id (db w) image_id)
      by (apply list_elem_of_filter; auto).
    rewrite Hrows in Hin. inversion Hin.
  - eexists (Ok (Some _)). split; [reflexivity|].
    assert (Hin : row ∈ images_by_id (db w) image_id) by (rewrite Hrows; left).
    apply list_elem_of_filter in Hin. destruct Hin as [Hid Hrow].
    exists row. split; [exact Hrow|]. split; [exact Hid|]. split; [reflexivity|].
    cbn [tags rowToMetadata].
    split; [apply tag_names_of_image_NoDup, Hk|].
    intros n. apply elem_of_tag_names_of_image.
Qed.

(** X26. A deleted image is gone for [getImage]: after [deleteImage]
    of an id, and while the database is as it left it, [getImage] of
    that id answers [null] (or rejects because its read is rejected). *)
Theorem deleteImage_then_getImage (image_id : string) (w w1 w2 : World) (existed : bool) :
  deleteImage B image_id w = (w1, Ok existed) ->
  db w2 = db w1 ->
  ∃ ev res,
    getImage B image_id w2 = (with_log (log w2 ++ ev) w2, res) ∧
    match res with
    | Ok found => found = None
    | Throw message => rejects B (log w2 ++ ev) = Some message
    end.
Proof.
  unfold deleteImage. unfold bind at 1. rewrite DeleteTagSpec.d1_run_run.
  destruct (rejects B _); [discriminate|]. unfold ret. intros Hrun Hdb.
  injection Hrun as <- _. cbn [db with_db with_log] in Hdb.
  unfold getImage, bind. rewrite call_run.
  set (e := D1 [select_image_statement image_id; select_tag_names_statement image_id]).
  exists [e].
  destruct (rejects B (log w2 ++ [e])) as [message|] eqn:Hrej.
  { exists (Throw message). split; reflexivity. }
  cbn [fst snd db with_log]. rewrite Hdb.
  assert (Hnone : images_by_id (fst (delete_images [image_id] (db w))) image_id = []).
  { unfold images_by_id, delete_images. cbn [fst t_images].
    apply filter_none. intros x Hx Hid. apply list_elem_of_filter in Hx.
    destruct Hx as [Hout _]. apply Hout. rewrite Hid. left. }
  unfold delete_images in Hnone. cbn [fst] in Hnone. rewrite Hnone. cbn [head]. unfold ret. exists (Ok None). split; reflexivity.
Qed.

(** X27. [getImagesByTag] returns the stored images that carry the
    tag, each once and each with all its own tags: every image returned
    is a stored image carrying the tag, every stored image carrying the
    tag is returned, no id is returned twice, and the tags of an image
    returned are exactly the tags associated with it, in an order the
    query does not fix.  It only reads, and rejects only when one of its
    reads is rejected. *)
Theorem getImagesByTag_finds (tagName : string) (w : World) :
  keys_hold (db w) ->
  ∃ ev res,
    getImagesByTag B tagName w = (with_log (log w ++ ev) w, res) ∧
    match res with
    | Ok found =>
        NoDup (map id found) ∧
        (∀ m, m ∈ found ->
              ∃ row, row ∈ t_images (db w) ∧ tagged (db w) (row_id row) tagName ∧
                     m = rowToMetadata row (tags m)) ∧
        (∀ row, row ∈ t_images (db w) -> tagged (db w) (row_id row) tagName ->
                ∃ m, m ∈ found ∧ m = rowToMetadata row (tags m)) ∧
        (∀ m n, m ∈ found -> (n ∈ tags m <-> tagged (db w) (id m) n))
    | Throw message => rejects B (log w ++ ev) = Some message
    end.
Proof.
  intros Hk. unfold getImagesByTag, bind. rewrite DeleteTagSpec.d1_read_run.
  set (e := D1 [images_by_tag_statement tagName]).
  destruct (rejects B (log w ++ [e])) as [message|] eqn:Hrej.
  { exists [e], (Throw message). split; [reflexivity|exact Hrej]. }
  cbn [db with_log].
  destruct (StoreReads.enrichWithTags_run B (images_by_tag (db w) tagName)
              (with_log (log w ++ [e]) w) (images_by_tag_NoDup (db w) tagName Hk))
    as (ev & res & Hrun & Hres).
  cbn [log db with_log] in Hrun, Hres. rewrite <- app_assoc in Hrun, Hres.
  exists ([e] ++ ev), res. split; [exact Hrun|].
  destruct res as [found|message]; [|exact Hres].
  subst found. split; [|split; [|split]].
  - rewrite map_map. cbn [id rowToMetadata]. apply images_by_tag_NoDup, Hk.
  - intros m Hm. apply elem_of_map in Hm. destruct Hm as (row & -> & Hrow).
    apply elem_of_images_by_tag in Hrow. destruct Hrow as [Hrow Htag].
    exists row. split; [exact Hrow|]. split; [exact Htag|reflexivity].
  - intros row Hrow Htag. eexists. split.
    + apply elem_of_map. exists row.
      split; [reflexivity|apply elem_of_images_by_tag; auto].
    + reflexivity.
  - intros m n Hm. apply elem_of_map in Hm. destruct Hm as (row & -> & _).
    cbn [tags id rowToMetadata]. apply elem_of_tags_for.
Qed.

End Lookup.

Lemma getImage_lookup_witness :
  ("zz" ∉ map row_id (t_images Scenario.cats_db)) ∧
  ∃ w', getImage Scenario.calm "zz" (Scenario.world Scenario.cats_db) = (w', Ok None).
Proof.
  destruct (getImage_lookup Scenario.calm "zz" (Scenario.world Scenario.cats_db)
              keys_hold_cats) as (ev & res & Hrun & Hres).
  assert (Hnone : snd (getImage Scenario.calm "zz" (Scenario.world Scenario.cats_db))
                  = Ok None) by (vm_compute; reflexivity).
  rewrite Hrun in Hnone. cbn [snd] in Hnone. subst res.
  split; [exact Hres|]. eexists. exact Hrun.
Defined.

Lemma deleteImage_then_getImage_witness :
  ∃ w1 w2,
    deleteImage Scenario.calm "a" (Scenario.world Scenario.cats_db) = (w1, Ok true) ∧
    getImage Scenario.calm "a" w1 = (w2, Ok None).
Proof.
  pose (r := deleteImage Scenario.calm "a" (Scenario.world Scenario.cats_db)).
  assert (Hrun : r = (fst r, Ok true)) by (vm_compute; reflexivity).
  destruct (deleteImage_then_getImage Scenario.calm "a"
              (Scenario.world Scenario.cats_db) (fst r) (fst r) true Hrun eq_refl)
    as (ev & [found|message] & Hget & Hres).
  - subst found. exists (fst r). eexists. split; [exact Hrun|exact Hget].
  - discriminate Hres.
Defined.

Lemma getImagesByTag_finds_witness :
  ∃ w' found,
    getImagesByTag Scenario.calm "dog" (Scenario.world Scenario.cats_db)
    = (w', Ok found) ∧
    map id found = ["a"] ∧
    ∀ m n, m ∈ found -> (n ∈ tags m <-> tagged Scenario.cats_db (id m) n).
Proof.
  destruct (getImagesByTag_finds Scenario.calm "dog" (Scenario.world Scenario.cats_db)
              keys_hold_cats) as (ev & [found|message] & Hrun & Hres);
    [|discriminate Hres].
  destruct Hres as (_ & _ & _ & Htags).
  eexists. exists found. split; [exact Hrun|].
  assert (Hfound : ∃ found',
             snd (getImagesByTag Scenario.calm "dog" (Scenario.world Scenario.cats_db))
             = Ok found' ∧ map id found' = ["a"])
    by (vm_compute; eexists; split; reflexivity).
  destruct Hfound as (found' & Hfound & Hids).
  rewrite Hrun in Hfound. cbn [snd] in Hfound. injection Hfound as <-.
  split; [exact Hids|exact Htags].
Defined.

End LookupProps.

(** ** [updateImage]: what it returns is what it stored *)

Module UpdateProps.
Import Types Runtime Spec Metadata MetadataQueries RuntimeFacts MetadataFacts TagFacts.

Lemma elem_of_set_values (xs : list string) (x : string) :
  x ∈ set_values xs <-> x ∈ xs.
Proof.
  unfold set_values. rewrite elem_of_insert_or_ignore.
  split; [intros [H|H]; [inversion H|exact H]|auto].
Qed.

Lemma run_batch_app (steps more : list (DB -> option DB)) :
  ∀ d, run_batch (steps ++ more) d = run_batch steps d ≫= run_batch more.
Proof.
  induction steps as [|step steps IH]; intros d; [reflexivity|].
  cbn [app run_batch]. destruct (step d); [apply IH|reflexivity].
Qed.

Lemma head_elem {X} (l : list X) (x : X) : head l = Some x -> x ∈ l.
Proof. destruct l; [discriminate|]. intros H. injection H as ->. left. Qed.

(** The scalar subquery finds the id of the tag of that name. *)
Lemma wanted_tag (d : DB) (name : string) (t : TagRow) :
  keys_hold d -> t ∈ t_tags d ->
  (head (map tag_id (filter (fun t => tag_name t = name) (t_tags d))) = Some (tag_id t)
   <-> tag_name t = name).
Proof.
  intros (_ & Hid & Hn & _) Ht. split.
  - intros Hhead. apply head_elem in Hhead. apply elem_of_map in Hhead.
    destruct Hhead as (t' & Heq & Ht'). apply list_elem_of_filter in Ht'.
    destruct Ht' as [Hname Ht'].
    assert (Hsame : t' = t)
      by (apply (NoDup_map_inj tag_id (t_tags d)); [exact Hid|exact Ht'|exact Ht|congruence]).
    subst t'. exact Hname.
  - intros Hname.
    assert (Hin : t ∈ filter (fun t => tag_name t = name) (t_tags d))
      by (apply list_elem_of_filter; auto).
    destruct (filter (fun t => tag_name t = name) (t_tags d)) as [|t0 rest] eqn:Hf;
      [inversion Hin|].
    assert (Hin0 : t0 ∈ filter (fun t => tag_name t = name) (t_tags d))
      by (rewrite Hf; left).
    apply list_elem_of_filter in Hin0. destruct Hin0 as [Hname0 Ht0].
    assert (Hsame : t0 = t)
      by (apply (NoDup_map_inj tag_name (t_tags d)); [exact Hn|exact Ht0|exact Ht|congruence]).
    subst t0. reflexivity.
Qed.

Lemma delete_association_effect (image_id name : string) (d : DB) :
  keys_hold d -> references_hold d ->
  keys_hold (delete_association image_id name d) ∧
  references_hold (delete_association image_id name d) ∧
  t_images (delete_association image_id name d) = t_images d ∧
  t_tags (delete_association image_id name d) = t_tags d ∧
  ∀ i n, tagged (delete_association image_id name d) i n <->
         tagged d i n ∧ ¬ (i = image_id ∧ n = name).
Proof.
  intros Hk Hr. pose proof Hk as (Hi & Hid & Hn & Hit).
  split; [|split; [|split; [reflexivity|split; [reflexivity|]]]].
  - unfold keys_hold, delete_association. cbn [t_images t_tags t_image_tags].
    split; [exact Hi|]. split; [exact Hid|]. split; [exact Hn|].
    apply NoDup_filter, Hit.
  - intros it Hin. unfold delete_association in Hin |- *.
    cbn [t_images t_tags t_image_tags] in Hin |- *.
    apply list_elem_of_filter in Hin. destruct Hin as [_ Hin]. exact (Hr it Hin).
  - intros i n. unfold tagged, delete_association. cbn [t_image_tags t_tags]. split.
    + intros (it & t & Hin & Ht & Hiid & Htid & Htn).
      apply list_elem_of_filter in Hin. destruct Hin as [Hkeep Hin].
      split; [exists it, t; auto|]. intros [Hi' Hn']. apply Hkeep.
      split; [congruence|]. rewrite Htid. symmetry.
      apply (wanted_tag d name t Hk Ht). congruence.
    + intros [(it & t & Hin & Ht & Hiid & Htid & Htn) Hnot].
      exists it, t. split; [|auto].
      apply list_elem_of_filter. split; [|exact Hin]. intros [Hi' Hw]. apply Hnot.
      split; [congruence|]. rewrite <- Htn. apply (wanted_tag d name t Hk Ht).
      rewrite <- Htid. symmetry. exact Hw.
Qed.

Lemma remove_steps_effect (image_id : string) (names : list string) :
  ∀ d,
    keys_hold d -> references_hold d ->
    ∃ d',
      run_batch
        (map snd
           (map (fun tag =>
                   (remove_association_statement image_id tag,
                    fun d => Some (delete_association image_id tag d)))
                names)) d = Some d' ∧
      keys_hold d' ∧ references_hold d' ∧ t_images d' = t_images d ∧
      ∀ i n, tagged d' i n <-> tagged d i n ∧ ¬ (i = image_id ∧ n ∈ names).
Proof.
  induction names as [|name names IH]; intros d Hk Hr.
  - exists d. split; [reflexivity|]. split; [exact Hk|]. split; [exact Hr|].
    split; [reflexivity|]. intros i n. split; [|tauto].
    intros Ht. split; [exact Ht|]. intros [_ Hin]. inversion Hin.
  - cbn [map snd run_batch].
    destruct (delete_association_effect image_id name d Hk Hr)
      as (Hk1 & Hr1 & Himg1 & _ & Htag1).
    destruct (IH _ Hk1 Hr1) as (d' & Hrun & Hk' & Hr' & Himg' & Htag').
    exists d'. split; [exact Hrun|]. split; [exact Hk'|]. split; [exact Hr'|].
    split; [congruence|]. intros i n. rewrite Htag', Htag1, elem_of_cons. tauto.
Qed.

Lemma add_steps_effect (image_id : string) (names : list string) :
  ∀ d,
    keys_hold d -> references_hold d -> image_id ∈ map row_id (t_images d) ->
    ∃ d',
      run_batch
        (map snd
           (tag ← names;
            [(create_tag_statement tag,
              fun d : DB => Some (insert_or_ignore_tag tag d));
             (add_association_statement image_id tag,
              fun d : DB => Some (insert_or_ignore_associations
                                    (association_rows image_id tag d) d))])) d
      = Some d' ∧
      keys_hold d' ∧ references_hold d' ∧ t_images d' = t_images d ∧
      ∀ i n, tagged d' i n <-> tagged d i n ∨ (i = image_id ∧ n ∈ names).
Proof.
  induction names as [|name names IH]; intros d Hk Hr Himg.
  - exists d. split; [reflexivity|]. split; [exact Hk|]. split; [exact Hr|].
    split; [reflexivity|]. intros i n. split; [auto|].
    intros [Ht|[_ Hin]]; [exact Ht|inversion Hin].
  - cbn [mbind list_bind app map snd run_batch].
    destruct (insert_or_ignore_tag_tables name d) as (Himg0 & _ & _ & _ & Hnamed).
    set (d0 := insert_or_ignore_tag name d) in *.
    assert (Heq : association_rows image_id name d0
                  = ([image_id] ≫= fun i => association_rows i name d0))
      by (cbn; rewrite app_nil_r; reflexivity).
    rewrite Heq.
    destruct (BatchTagProps.add_tag_effect [image_id] name d0)
      as (Hk1 & Hr1 & Himg1 & _ & Htag1).
    { apply insert_or_ignore_tag_keys, Hk. }
    { apply insert_or_ignore_tag_references, Hr. }
    { intros i Hi. apply list_elem_of_singleton in Hi. subst i.
      rewrite Himg0. exact Himg. }
    { exact Hnamed. }
    cbv zeta in Hk1, Hr1, Himg1, Htag1.
    destruct (IH _ Hk1 Hr1) as (d' & Hrun & Hk' & Hr' & Himg' & Htag').
    { rewrite Himg1, Himg0. exact Himg. }
    exists d'. split; [exact Hrun|]. split; [exact Hk'|]. split; [exact Hr'|].
    split; [congruence|]. intros i n.
    rewrite Htag', Htag1, list_elem_of_singleton, elem_of_cons.
    unfold d0. rewrite (tagged_insert_or_ignore_tag name d i n Hr). tauto.
Qed.

(** The tag statements of [updateImage] leave the image with the new
    tags. *)
Lemma tag_statements_effect (image_id : string) (currentTags : list string)
    (new : option (list string)) (d : DB) :
  keys_hold d -> references_hold d -> image_id ∈ map row_id (t_images d) ->
  (∀ n, n ∈ currentTags <-> tagged d image_id n) ->
  ∃ d',
    run_batch
      (map snd
         match new with
         | Some tags =>
             map (fun tag =>
                    (remove_association_statement image_id tag,
                     fun d => Some (delete_association image_id tag d)))
                 (filter (fun tag => tag ∉ set_values tags) (set_values currentTags))
             ++ (tag ← filter (fun tag => tag ∉ set_values currentTags) (set_values tags);
                 [(create_tag_statement tag,
                   fun d : DB => Some (insert_or_ignore_tag tag d));
                  (add_association_statement image_id tag,
                   fun d : DB => Some (insert_or_ignore_associations
                                         (association_rows image_id tag d) d))])
         | None => []
         end) d = Some d' ∧
    keys_hold d' ∧ references_hold d' ∧ t_images d' = t_images d ∧
    (∀ n, tagged d' image_id n <-> n ∈ default currentTags new) ∧
    (∀ i n, i ≠ image_id -> (tagged d' i n <-> tagged d i n)).
Proof.
  intros Hk Hr Himg Hcur. destruct new as [tags|].
  2: { exists d. split; [reflexivity|]. split; [exact Hk|]. split; [exact Hr|].
       split; [reflexivity|]. split; [|tauto]. intros n. symmetry. apply Hcur. }
  rewrite map_app, run_batch_app.
  destruct (remove_steps_effect image_id
              (filter (fun tag => tag ∉ set_values tags) (set_values currentTags))
              d Hk Hr) as (d1 & Hrun1 & Hk1 & Hr1 & Himg1 & Htag1).
  rewrite Hrun1. cbn [mbind option_bind].
  destruct (add_steps_effect image_id
              (filter (fun tag => tag ∉ set_values currentTags) (set_values tags))
              d1 Hk1 Hr1) as (d2 & Hrun2 & Hk2 & Hr2 & Himg2 & Htag2).
  { rewrite Himg1. exact Himg. }
  exists d2. split; [exact Hrun2|]. split; [exact Hk2|]. split; [exact Hr2|].
  split; [congruence|]. split.
  - intros n. cbn [default]. rewrite Htag2, Htag1, <- Hcur.
    rewrite !list_elem_of_filter, !elem_of_set_values.
    destruct (decide (n ∈ currentTags)); destruct (decide (n ∈ tags)); tauto.
  - intros i n Hne. rewrite Htag2, Htag1. tauto.
Qed.

Lemma with_expiry_same (image : ImageRow) :
  with_expiry image (expiry_time image) = image.
Proof. destruct image. reflexivity. Qed.

Lemma expiry_statements_effect (image_id : string) (image : ImageRow)
    (expiry : option string) (d : DB) :
  keys_hold d -> references_hold d -> image ∈ t_images d -> row_id image = image_id ->
  ∃ d',
    run_batch
      (map snd
         match expiry with
         | Some _ =>
             [(update_expiry_statement image_id
                 match expiry with
                 | Some e => JS.or_absent e
                 | None => expiry_time image
                 end,
               fun d : DB =>
                 Some (set_expiry image_id
                         match expiry with
                         | Some e => JS.or_absent e
                         | None => expiry_time image
                         end d))]
         | None => []
         end) d = Some d' ∧
    keys_hold d' ∧ references_hold d' ∧
    (∀ i n, tagged d' i n <-> tagged d i n) ∧
    with_expiry image match expiry with
                      | Some e => JS.or_absent e
                      | None => expiry_time image
                      end ∈ t_images d' ∧
    (∀ row, row_id row ≠ image_id -> (row ∈ t_images d' <-> row ∈ t_images d)).
Proof.
  intros Hk Hr Himage Hid. destruct expiry as [e|].
  2: { exists d. split; [reflexivity|]. split; [exact Hk|]. split; [exact Hr|].
       split; [tauto|]. split; [rewrite with_expiry_same; exact Himage|tauto]. }
  cbn [map snd run_batch]. eexists. split; [reflexivity|].
  assert (Hids : map row_id (t_images (set_expiry image_id (JS.or_absent e) d))
                 = map row_id (t_images d)).
  { unfold set_expiry. cbn [t_images]. rewrite map_map. apply map_ext.
    intros i. destruct (decide _); reflexivity. }
  destruct Hk as (Hi & Hidk & Hn & Hit).
  split; [|split; [|split; [|split]]].
  - unfold keys_hold. rewrite Hids. unfold set_expiry. cbn [t_tags t_image_tags]. auto.
  - intros it Hin. rewrite Hids. exact (Hr it Hin).
  - intros i n. unfold tagged, set_expiry. cbn [t_tags t_image_tags]. tauto.
  - unfold set_expiry. cbn [t_images]. apply elem_of_map. exists image.
    split; [rewrite decide_True by exact Hid; reflexivity|exact Himage].
  - intros row Hne. unfold set_expiry. cbn [t_images]. rewrite elem_of_map. split.
    + intros (i & Heq & Hin). destruct (decide (row_id i = image_id)) as [Hi'|Hi'].
      * subst row. destruct (Hne Hi').
      * subst row. exact Hin.
    + intros Hin. exists row. split; [rewrite decide_False by exact Hne; reflexivity|exact Hin].
Qed.

Section Update.
Context (B : Bindings).

(** X28. The metadata [updateImage] returns, built without reading
    the database again, is what the database then holds: for an id that
    is not stored it answers [null] and writes nothing; otherwise the
    returned tags are the tags given (or those read when none are
    given), the image has afterwards exactly these tags, the returned
    record is the metadata of the stored row, an expiry time given is
    the one kept (an empty one is none), and the rows and tags of all
    other images are as before. *)
Theorem updateImage_effect (image_id : string) (updates : ImageUpdates)
    (w w' : World) (res : option ImageMetadata) :
  keys_hold (db w) -> references_hold (db w) ->
  updateImage B image_id updates w = (w', Ok res) ->
  match res with
  | None => (image_id ∉ map row_id (t_images (db w))) ∧ db w' = db w
  | Some m =>
      (∀ given, u_tags updates = Some given -> tags m = given) ∧
      (u_tags updates = None -> ∀ n, n ∈ tags m <-> tagged (db w) image_id n) ∧
      (∀ n, tagged (db w') image_id n <-> n ∈ tags m) ∧
      (∃ row, row ∈ t_images (db w') ∧ row_id row = image_id ∧
              m = rowToMetadata row (tags m)) ∧
      (∀ expiry, u_expiryTime updates = Some expiry ->
                 expiryTime m = JS.or_absent expiry) ∧
      (∀ i n, i ≠ image_id -> (tagged (db w') i n <-> tagged (db w) i n)) ∧
      (∀ row, row_id row ≠ image_id ->
              (row ∈ t_images (db w') <-> row ∈ t_images (db w))) ∧
      keys_hold (db w') ∧ references_hold (db w')
  end ∧
  bucket w' = bucket w ∧ queue w' = queue w.
Proof.
  intros Hk Hr. unfold updateImage. unfold bind at 1. rewrite call_run.
  destruct (rejects B _); [discriminate|]. cbn [fst snd db with_log].
  destruct (images_by_id (db w) image_id) as [|image rest] eqn:Hrows; cbn [head].
  - unfold ret. intros H. injection H as <- <-. split; [|auto].
    split; [|reflexivity].
    intros Hin. apply elem_of_map in Hin. destruct Hin as (row & Hid & Hrow).
    assert (Hin : row ∈ images_by_id (db w) image_id)
      by (apply list_elem_of_filter; auto).
    rewrite Hrows in Hin. inversion Hin.
  - assert (Hin : image ∈ images_by_id (db w) image_id) by (rewrite Hrows; left).
    apply list_elem_of_filter in Hin. destruct Hin as [Hid Himage].
    assert (Hstored : image_id ∈ map row_id (t_images (db w)))
      by (apply elem_of_map; exists image; auto).
    cbv zeta.
    destruct (tag_statements_effect image_id (tag_names_of_image (db w) image_id)
                (u_tags updates) (db w) Hk Hr Hstored
                (fun n => elem_of_tag_names_of_image (db w) image_id n))
      as (d1 & Hrun1 & Hk1 & Hr1 & Himg1 & Htag1 & Hother1).
    destruct (expiry_statements_effect image_id image (u_expiryTime updates) d1 Hk1 Hr1)
      as (d2 & Hrun2 & Hk2 & Hr2 & Htag2 & Hrow2 & Hrows2);
      [rewrite Himg1; exact Himage|exact Hid|].
    match goal with
    | |- context [d1_batch B ?s] => set (statements := s) in *
    end.
    assert (Hbatch : run_batch (map snd statements) (db w) = Some d2).
    { unfold statements. rewrite map_app, run_batch_app, Hrun1. exact Hrun2. }
    unfold bind at 1.
    assert (Hstep : ∀ w1 r,
              (if (0 <? length statements)%nat then d1_batch B statements else ret tt)
                (with_log (log w ++ [D1 [select_image_statement image_id;
                                         select_tag_names_statement image_id]]) w)
              = (w1, Ok r) ->
              db w1 = d2 ∧ bucket w1 = bucket w ∧ queue w1 = queue w).
    { intros w1 r. destruct (0 <? length statements)%nat eqn:Hlen.
      - unfold d1_batch. rewrite call_run. destruct (rejects B _); [discriminate|].
        cbn [fst snd db with_log]. rewrite Hbatch. intros H. injection H as <- _.
        cbn [db with_db with_log bucket queue]. auto.
      - apply Nat.ltb_ge in Hlen. destruct statements; [|simpl in Hlen; lia].
        cbn in Hbatch. injection Hbatch as <-. unfold ret. intros H.
        injection H as <- _. cbn [db with_log bucket queue]. auto. }
    destruct ((if (0 <? length statements)%nat then d1_batch B statements else ret tt) _)
      as [w1 [r|e]] eqn:Hrun; [|discriminate].
    destruct (Hstep w1 r eq_refl) as (Hdb & Hb & Hq).
    unfold ret. intros H. injection H as <- <-. rewrite Hdb.
    split; [|auto].
    cbn [tags expiryTime rowToMetadata].
    split; [intros given Hgiven; rewrite Hgiven; reflexivity|].
    split; [intros Hnone n; rewrite Hnone; apply elem_of_tag_names_of_image|].
    split; [intros n; rewrite Htag2; apply Htag1|].
    split.
    { eexists. split; [exact Hrow2|]. split; [exact Hid|reflexivity]. }
    split.
    { intros expiry Hexpiry. rewrite Hexpiry. cbn [with_expiry expiry_time].
      destruct expiry; reflexivity. }
    split; [intros i n Hne; rewrite Htag2; apply Hother1, Hne|].
    split; [intros row Hne; rewrite Hrows2 by exact Hne; rewrite Himg1; tauto|].
    split; [exact Hk2|exact Hr2].
Qed.

End Update.

Lemma updateImage_effect_witness :
  ∃ w' m,
    updateImage Scenario.calm "a" Scenario.retag (Scenario.world Scenario.cats_db)
    = (w', Ok (Some m)) ∧
    tags m = ["dog"; "bird"; "dog"] ∧
    (tagged (db w') "a" "bird" <-> "bird" ∈ tags m) ∧
    expiryTime m = None.
Proof.
  pose (r := updateImage Scenario.calm "a" Scenario.retag
               (Scenario.world Scenario.cats_db)).
  assert (Hm : ∃ m, snd r = Ok (Some m)) by (vm_compute; eexists; reflexivity).
  destruct Hm as [m Hm].
  assert (Hrun : r = (fst r, Ok (Some m)))
    by (rewrite <- Hm; apply surjective_pairing).
  destruct (updateImage_effect Scenario.calm "a" Scenario.retag
              (Scenario.world Scenario.cats_db) (fst r) (Some m)
              keys_hold_cats references_hold_cats Hrun)
    as ((Hgiven & _ & Htag & _ & Hexpiry & _) & _).
  exists (fst r), m. split; [exact Hrun|].
  split; [exact (Hgiven _ eq_refl)|]. split; [exact (Htag "bird")|].
  exact (Hexpiry "" eq_refl).
Defined.

End UpdateProps.
